(** * TDataFrame: booking, the event loop and the cutflow report

    A shallow embedding of [TDataFrame.cxx] (namespaces [ROOT::Internal] and
    [ROOT::Detail]).  Objects held through [std::shared_ptr] live in stores and
    are named by their index, so that the two filter lists of the data frame
    and the readiness flags shared with the result proxies alias the way the
    C++ objects do. *)

From Stdlib Require Import ZArith QArith_base Lia.
From stdpp Require Import base option list strings gmap sorting.

Close Scope Q_scope.
Local Open Scope Z_scope.

(** ** Machine integers *)

(** [ULong64_t] and [unsigned int] arithmetic wraps around. *)
Definition u64 (x : Z) : Z := x mod 2 ^ 64.
Definition u32 (x : Z) : Z := x mod 2 ^ 32.

(** [std::accumulate(v.begin(), v.end(), 0ULL)]: a left fold in [unsigned long long]. *)
Definition accumulate_ull (v : list Z) : Z :=
  fold_left (fun acc x => u64 (acc + x)) v 0.

(** [std::vector::resize(n)] and [resize(n, d)]: the first [n] elements are
    kept, the new ones are copies of [d]. *)
Definition resize {A} (n : nat) (d : A) (v : list A) : list A :=
  take n v ++ replicate (n - length v) d.

(** [std::fill(v.begin(), v.end(), d)] *)
Definition fill {A} (d : A) (v : list A) : list A := replicate (length v) d.

(** ** Exceptions *)

Inductive Exn :=
| BranchAlreadyPresent (branchName : string)
  (** [std::runtime_error]: branch "name" already present in TTree *)
| ArgsMismatch (nArgs nBranches : nat)
  (** [std::runtime_error]: mismatch between number of filter arguments (n)
      and number of branches (m) *)
| OutOfRange (** [std::out_of_range] thrown by [std::map::at] *)
| UserCallableFailure (** whatever a user callable throws *)
| UnknownColumn (name : string) (** a reader bound to no branch of the tree *)
| Undefined (** undefined behaviour: an index past the end of a vector *)
| Diverges. (** an unbounded recursion between temporary branches *)

#[global] Instance Exn_eq_dec : EqDecision Exn.
Proof. solve_decision. Defined.

(** ** The tree *)

Definition BranchNames := list string.

(** The columnar reader is external; a tree is its branch directory and its
    entries, each entry giving one value per branch. *)
Record TTree := {
  tBranchList : BranchNames;
  tEntries : list (list Z)
}.

(** [TTree::GetBranch]: the position of the branch, [None] for [nullptr]. *)
Fixpoint GetBranch_in (names : BranchNames) (branchName : string) : option nat :=
  match names with
  | [] => None
  | b :: rest => if decide (b = branchName) then Some 0%nat
                 else S <$> GetBranch_in rest branchName
  end.

Definition GetBranch (treePtr : TTree) (branchName : string) : option nat :=
  GetBranch_in (tBranchList treePtr) branchName.

Module Internal.

(** [GetNSlots]: [use_imt] is the build flag [R__USE_IMT], [imt_enabled] and
    [pool_size] are what [ROOT::IsImplicitMTEnabled()] and
    [ROOT::GetImplicitMTPoolSize()] return. *)
Definition GetNSlots (use_imt imt_enabled : bool) (pool_size : Z) : Z :=
  let nSlots := 1 in
  if use_imt && imt_enabled then u32 pool_size else nSlots.

Definition CheckTmpBranch (branchName : string) (treePtr : TTree) : Exn + unit :=
  match GetBranch treePtr branchName with
  | Some _ => inl (BranchAlreadyPresent branchName)
  | None => inr tt
  end.

(** Returns local BranchNames or default BranchNames according to which one
    should be used. *)
Definition PickBranchNames (nArgs : nat) (bl defBl : BranchNames) : Exn + BranchNames :=
  if decide (nArgs ≠ length bl) then
    if decide (length bl = 0%nat ∧ nArgs = length defBl) then inr defBl
    else inl (ArgsMismatch nArgs (if decide (length bl ≠ 0%nat) then length bl else length defBl))
  else inr bl.

End Internal.

(** ** Nodes of the functional graph *)

(** The chain of [fPrevData] references from a node up to the data frame:
    filters are named by their index in the store of filter objects,
    temporary branches by their name. *)
Inductive Node :=
| Root
| FilterN (id : nat) (prev : Node)
| BranchN (name : string) (prev : Node).

(** The per-slot vectors of a filter, sized by [CreateSlots]. *)
Record FilterSlots := {
  fReaderValues : list BranchNames;
  fLastCheckedEntry : list Z;
  fLastResult : list bool;
  fAccepted : list Z;
  fRejected : list Z
}.

Record TDataFrameFilterBase := {
  fName : string;
  fTmpBranches : BranchNames;
  fPrevData : Node;
  fBranches : BranchNames;
  fFilter : list Z -> option bool; (** the user callable; [None] when it throws *)
  fSlots : FilterSlots
}.

Record BranchSlots := {
  bReaderValues : list BranchNames;
  bLastCheckedEntry : list Z;
  bLastResult : list Z
}.

(** Fields of [TDataFrameBranchBase] carry the prefix [b]. *)
Record TDataFrameBranchBase := {
  bName : string;
  bTmpBranches : BranchNames;
  bPrevData : Node;
  bBranches : BranchNames;
  bExpression : list Z -> option Z;
  bSlots : BranchSlots
}.

(** The two action helpers the scenarios use, with their per-slot partial
    results; [resultId] names the result object shared with the proxies. *)
Inductive Helper :=
| CountHelper (fCounts : list Z)
| TakeHelper (fColls : list (list Z)).

Record TDataFrameActionBase := {
  aPrevData : Node;
  aTmpBranches : BranchNames;
  aBranches : BranchNames;
  aHelper : Helper;
  aResult : nat;
  aReaderValues : list BranchNames
}.

(** Ghost record of the evaluations of user callables during event loops. *)
Inductive Event :=
| EvFilter (id : nat) (slot : nat) (entry : Z)
| EvBranch (name : string) (slot : nat) (entry : Z).

#[global] Instance Event_eq_dec : EqDecision Event.
Proof. solve_decision. Defined.

(** The objects the event loop works on. *)
Record Objects := {
  filterObjs : list TDataFrameFilterBase;
  fBookedBranches : gmap string TDataFrameBranchBase;
  actionObjs : list TDataFrameActionBase;
  evLog : list Event
}.

Definition setFilterObjs (o : Objects) (fs : list TDataFrameFilterBase) : Objects :=
  {| filterObjs := fs; fBookedBranches := fBookedBranches o;
     actionObjs := actionObjs o; evLog := evLog o |}.
Definition setBookedBranches (o : Objects) (bs : gmap string TDataFrameBranchBase) : Objects :=
  {| filterObjs := filterObjs o; fBookedBranches := bs;
     actionObjs := actionObjs o; evLog := evLog o |}.
Definition setActionObjs (o : Objects) (acts : list TDataFrameActionBase) : Objects :=
  {| filterObjs := filterObjs o; fBookedBranches := fBookedBranches o;
     actionObjs := acts; evLog := evLog o |}.
Definition setEvLog (o : Objects) (l : list Event) : Objects :=
  {| filterObjs := filterObjs o; fBookedBranches := fBookedBranches o;
     actionObjs := actionObjs o; evLog := l |}.

Definition setFSlots (f : TDataFrameFilterBase) (s : FilterSlots) : TDataFrameFilterBase :=
  {| fName := fName f; fTmpBranches := fTmpBranches f; fPrevData := fPrevData f;
     fBranches := fBranches f; fFilter := fFilter f; fSlots := s |}.
Definition setBSlots (b : TDataFrameBranchBase) (s : BranchSlots) : TDataFrameBranchBase :=
  {| bName := bName b; bTmpBranches := bTmpBranches b; bPrevData := bPrevData b;
     bBranches := bBranches b; bExpression := bExpression b; bSlots := s |}.
Definition setAHelper (a : TDataFrameActionBase) (h : Helper) : TDataFrameActionBase :=
  {| aPrevData := aPrevData a; aTmpBranches := aTmpBranches a; aBranches := aBranches a;
     aHelper := h; aResult := aResult a; aReaderValues := aReaderValues a |}.
Definition setAReaderValues (a : TDataFrameActionBase) (r : list BranchNames) : TDataFrameActionBase :=
  {| aPrevData := aPrevData a; aTmpBranches := aTmpBranches a; aBranches := aBranches a;
     aHelper := aHelper a; aResult := aResult a; aReaderValues := r |}.

(** ** Computations that mutate the objects and may throw *)

Definition M (A : Type) : Type := Objects -> Objects * (Exn + A).

Definition ret {A} (x : A) : M A := fun o => (o, inr x).
Definition throw {A} (e : Exn) : M A := fun o => (o, inl e).
Definition bind {A B} (c : M A) (k : A -> M B) : M B :=
  fun o => match c o with
           | (o', inr x) => k x o'
           | (o', inl e) => (o', inl e)
           end.
Definition lift {A} (r : Exn + A) : M A := fun o => (o, r).

Notation "x <- c ;; k" := (bind c (fun x => k))
  (at level 100, c at next level, right associativity).
Notation "c ;;; k" := (bind c (fun _ => k))
  (at level 100, right associativity).

(** [for (auto &x : xs) body(x);] *)
Fixpoint forEach {A} (body : A -> M unit) (xs : list A) : M unit :=
  match xs with
  | [] => ret tt
  | x :: rest => body x ;;; forEach body rest
  end.

(** Evaluation of the arguments of a call, left to right. *)
Fixpoint mapM_ {A B} (f : A -> M B) (xs : list A) : M (list B) :=
  match xs with
  | [] => ret []
  | x :: rest => y <- f x ;; ys <- mapM_ f rest ;; ret (y :: ys)
  end.

(** [v[i]] for reading, undefined past the end. *)
Definition vat {A} (v : list A) (i : nat) : Exn + A :=
  match v !! i with Some x => inr x | None => inl Undefined end.

(** [v[i] = x], undefined past the end. *)
Definition vset {A} (v : list A) (i : nat) (x : A) : Exn + list A :=
  if decide (i < length v)%nat then inr (<[i := x]> v) else inl Undefined.

Definition err_bind {A B} (r : Exn + A) (k : A -> Exn + B) : Exn + B :=
  match r with inl e => inl e | inr x => k x end.

Definition call {A} (r : option A) : M A :=
  lift (match r with Some x => inr x | None => inl UserCallableFailure end).

Definition getFilter (id : nat) : M TDataFrameFilterBase :=
  fun o => (o, vat (filterObjs o) id).
Definition putFilterSlots (id : nat) (s : FilterSlots) : M unit :=
  fun o => (setFilterObjs o (alter (fun f => setFSlots f s) id (filterObjs o)), inr tt).
Definition getAction (id : nat) : M TDataFrameActionBase :=
  fun o => (o, vat (actionObjs o) id).
Definition putAction (id : nat) (a : TDataFrameActionBase) : M unit :=
  fun o => (setActionObjs o (<[id := a]> (actionObjs o)), inr tt).
Definition putBranchSlots (name : string) (s : BranchSlots) : M unit :=
  fun o => (setBookedBranches o (alter (fun b => setBSlots b s) name (fBookedBranches o)), inr tt).
Definition logEv (e : Event) : M unit :=
  fun o => (setEvLog o (evLog o ++ [e]), inr tt).

(** A line of the cutflow report: the arguments [PrintReport] hands to
    [Printf] for the format ["%-10s: pass=%-10lld all=%-10lld -- %8.3f %%"].
    The percentage is kept as an exact fraction; rounding to [double] and to
    three decimals is the printer's. *)
Record ReportLine := {
  lName : string;
  lPass : Z;
  lAll : Z;
  lPerc : Q
}.

(** The published value of an action. *)
Inductive Result :=
| RCount (n : Z)
| RTake (values : list Z).

Module Detail.

(** *** TDataFrameFilterBase *)

Definition HasName (f : TDataFrameFilterBase) : bool :=
  negb (bool_decide (fName f = ""%string)).

Definition Filter_CreateSlots (nSlots : nat) (s : FilterSlots) : FilterSlots :=
  let readerValues := resize nSlots [] (fReaderValues s) in
  let lastCheckedEntry := resize nSlots (-1) (fLastCheckedEntry s) in
  let lastResult := resize nSlots false (fLastResult s) in
  let accepted := resize nSlots 0 (fAccepted s) in
  let rejected := resize nSlots 0 (fRejected s) in
  (* fAccepted and fRejected could be different than 0 if this is not the
     first event-loop run using this filter *)
  {| fReaderValues := readerValues;
     fLastCheckedEntry := lastCheckedEntry;
     fLastResult := lastResult;
     fAccepted := fill 0 accepted;
     fRejected := fill 0 rejected |}.

Definition PrintReport (f : TDataFrameFilterBase) : ReportLine :=
  let accepted := accumulate_ull (fAccepted (fSlots f)) in
  let all := u64 (accepted + accumulate_ull (fRejected (fSlots f))) in
  let perc := inject_Z accepted in
  let perc := if decide (all > 0) then Qdiv perc (inject_Z all) else perc in
  let perc := Qmult perc (inject_Z 100) in
  {| lName := fName f; lPass := accepted; lAll := all; lPerc := perc |}.

(** *** Reading columns *)

(** The value a [TTreeReaderValue] bound to [name] yields at [entry]. *)
Definition ReadTree (tree : TTree) (name : string) (entry : Z) : Exn + Z :=
  match GetBranch tree name with
  | None => inl (UnknownColumn name)
  | Some i =>
      if decide (entry < 0) then inl Undefined
      else err_bind (vat (tEntries tree) (Z.to_nat entry)) (fun row => vat row i)
  end.

(** An input column is served by a temporary branch when its name is among
    the temporary branches the node knows, by the tree otherwise. *)
Definition ReadValue (tmpValue : string -> M Z) (tree : TTree)
    (tmpBranches : BranchNames) (entry : Z) (name : string) : M Z :=
  if bool_decide (name ∈ tmpBranches) then tmpValue name
  else lift (ReadTree tree name entry).

Definition cacheValue (slot : nat) (entry v : Z) (s : BranchSlots) : Exn + BranchSlots :=
  err_bind (vset (bLastResult s) slot v) (fun lastResult =>
  err_bind (vset (bLastCheckedEntry s) slot entry) (fun lastCheckedEntry =>
  inr {| bReaderValues := bReaderValues s;
         bLastCheckedEntry := lastCheckedEntry;
         bLastResult := lastResult |})).

Definition updateBranch (name : string) (slot : nat) (entry v : Z) : M unit :=
  fun o =>
    match fBookedBranches o !! name with
    | None => (o, inl Undefined)
    | Some b => (s <- lift (cacheValue slot entry v (bSlots b)) ;; putBranchSlots name s) o
    end.

(** Modelled from the spec: [GetValue] of the temporary-branch node, which
    the header defines.  Section 4.2: if the slot cache records the row the
    cached value is returned; otherwise the callable is evaluated on the
    node's inputs, value and row are stored in the cache, and the value is
    returned.  The node is the object [fBookedBranches] holds under [name],
    the name [Book] stores it under. *)
Definition GetValue (tmpValue : string -> M Z) (tree : TTree) (name : string)
    (b : TDataFrameBranchBase) (slot : nat) (entry : Z) : M Z :=
  last <- lift (vat (bLastCheckedEntry (bSlots b)) slot) ;;
  if decide (last = entry) then lift (vat (bLastResult (bSlots b)) slot)
  else
    args <- mapM_ (ReadValue tmpValue tree (bTmpBranches b) entry) (bBranches b) ;;
    logEv (EvBranch name slot entry) ;;;
    v <- call (bExpression b args) ;;
    updateBranch name slot entry v ;;;
    ret v.

(** [TDataFrameImpl::GetTmpBranchValue]:
    [fBookedBranches.at(branch)->GetValue(slot, entry)].  The recursion
    through the inputs of temporary branches is cut after [fuel] nested
    calls. *)
Fixpoint GetTmpBranchValue (fuel : nat) (tree : TTree) (slot : nat) (entry : Z)
    (branch : string) : M Z :=
  match fuel with
  | O => throw Diverges
  | S fuel' =>
      fun o =>
        match fBookedBranches o !! branch with
        | None => (o, inl OutOfRange)
        | Some b =>
            GetValue (GetTmpBranchValue fuel' tree slot entry) tree branch b slot entry o
        end
  end.

Definition ReadValues (fuel : nat) (tree : TTree) (tmpBranches branches : BranchNames)
    (slot : nat) (entry : Z) : M (list Z) :=
  mapM_ (ReadValue (GetTmpBranchValue fuel tree slot entry) tree tmpBranches entry) branches.

(** *** Filters *)

Definition cacheResult (slot : nat) (entry : Z) (passed count : bool) (s : FilterSlots)
    : Exn + FilterSlots :=
  err_bind (if count then
              if passed then
                err_bind (vat (fAccepted s) slot) (fun n =>
                err_bind (vset (fAccepted s) slot (u64 (n + 1))) (fun accepted =>
                inr (accepted, fRejected s)))
              else
                err_bind (vat (fRejected s) slot) (fun n =>
                err_bind (vset (fRejected s) slot (u64 (n + 1))) (fun rejected =>
                inr (fAccepted s, rejected)))
            else inr (fAccepted s, fRejected s)) (fun counters =>
  err_bind (vset (fLastResult s) slot passed) (fun lastResult =>
  err_bind (vset (fLastCheckedEntry s) slot entry) (fun lastCheckedEntry =>
  inr {| fReaderValues := fReaderValues s;
         fLastCheckedEntry := lastCheckedEntry;
         fLastResult := lastResult;
         fAccepted := counters.1;
         fRejected := counters.2 |}))).

Definition updateFilter (id slot : nat) (entry : Z) (passed count : bool) : M unit :=
  f <- getFilter id ;;
  s <- lift (cacheResult slot entry passed count (fSlots f)) ;;
  putFilterSlots id s.

(** Modelled from the spec: [CheckFilters] of the filter node, which the
    header defines; the case of the data frame itself is
    [TDataFrameImpl::CheckFilters], the end of the recursive chain of calls.
    Section 4.3: (1) if the slot cache records the row, the cached result is
    returned; (2) else the parent chain is evaluated and, when an ancestor
    rejects, false is recorded without evaluating the callable; (3) else the
    callable is evaluated, its result recorded and, if the filter is named,
    accept or reject is incremented.  A temporary-branch node passes the
    question on to its parent. *)
Fixpoint CheckFilters (fuel : nat) (tree : TTree) (slot : nat) (entry : Z) (p : Node) : M bool :=
  match p with
  | Root => ret true
  | BranchN _ prev => CheckFilters fuel tree slot entry prev
  | FilterN id prev =>
      f <- getFilter id ;;
      last <- lift (vat (fLastCheckedEntry (fSlots f)) slot) ;;
      if decide (last = entry) then lift (vat (fLastResult (fSlots f)) slot)
      else
        up <- CheckFilters fuel tree slot entry prev ;;
        if up then
          args <- ReadValues fuel tree (fTmpBranches f) (fBranches f) slot entry ;;
          logEv (EvFilter id slot entry) ;;;
          passed <- call (fFilter f args) ;;
          updateFilter id slot entry passed (HasName f) ;;;
          ret passed
        else
          updateFilter id slot entry false false ;;;
          ret false
  end.

Definition Filter_CheckFilters (fuel : nat) (tree : TTree) (slot : nat) (entry : Z)
    (id : nat) : M bool :=
  f <- getFilter id ;;
  CheckFilters fuel tree slot entry (FilterN id (fPrevData f)).

(** *** Actions *)

(** Modelled from the spec: the helpers of the count and take actions
    (section 4.4): count keeps a non-negative integer per slot, take an
    append-only buffer per slot. *)
Definition Exec (slot : nat) (args : list Z) (h : Helper) : Exn + Helper :=
  match h with
  | CountHelper counts =>
      err_bind (vat counts slot) (fun n =>
      err_bind (vset counts slot (n + 1)) (fun counts' => inr (CountHelper counts')))
  | TakeHelper colls =>
      err_bind (vat colls slot) (fun buf =>
      err_bind (vset colls slot (buf ++ args)) (fun colls' => inr (TakeHelper colls')))
  end.

Definition updateAction (id slot : nat) (args : list Z) : M unit :=
  a <- getAction id ;;
  h <- lift (Exec slot args (aHelper a)) ;;
  putAction id (setAHelper a h).

(** Modelled from the spec: [Run] of an action node (section 4.4): the
    ancestor chain is evaluated and, if it accepts, the slot accumulator is
    updated using the current input values. *)
Definition Action_Run (fuel : nat) (tree : TTree) (slot : nat) (entry : Z) (id : nat) : M unit :=
  a <- getAction id ;;
  ok <- CheckFilters fuel tree slot entry (aPrevData a) ;;
  if ok then
    args <- ReadValues fuel tree (aTmpBranches a) (aBranches a) slot entry ;;
    updateAction id slot args
  else ret tt.

(** Modelled from the spec: the merge of the slot accumulators (section 4.4):
    the counts are summed, the buffers concatenated in slot-index order. *)
Definition Finalize (h : Helper) : Result :=
  match h with
  | CountHelper counts => RCount (foldr Z.add 0 counts)
  | TakeHelper colls => RTake (concat colls)
  end.

Definition Action_CreateSlots (nSlots : nat) (a : TDataFrameActionBase) : TDataFrameActionBase :=
  setAReaderValues a (resize nSlots [] (aReaderValues a)).

(** Modelled from the spec: [CreateSlots] of the temporary-branch node, which
    the header defines: the per-slot cache of section 3, last-evaluated row
    with the sentinel for never, sized like the cache of the filter. *)
Definition Branch_CreateSlots (nSlots : nat) (s : BranchSlots) : BranchSlots :=
  {| bReaderValues := resize nSlots [] (bReaderValues s);
     bLastCheckedEntry := resize nSlots (-1) (bLastCheckedEntry s);
     bLastResult := resize nSlots 0 (bLastResult s) |}.

(** Modelled from the spec: [BuildReaderValues] of the three kinds of node
    (section 4.4, build-readers): the readers of the slot are bound to the
    node's input columns; the slot must exist. *)
Definition bindReaders (slot : nat) (branches : BranchNames) (readers : list BranchNames)
    : Exn + list BranchNames :=
  vset readers slot branches.

End Detail.

(** ** The data frame *)

(** What the process and the thread pool decide: the build flag, the
    implicit-multithreading switch, the pool size, and the tasks
    [TTreeProcessorMT::Process] hands out, each with the worker thread that
    takes it and the entries of its range, in the order in which the workers
    enter the critical section. *)
Record Env := {
  R__USE_IMT : bool;
  IsImplicitMTEnabled : bool;
  GetImplicitMTPoolSize : Z;
  tasks : list (nat * list Z)
}.

Record TDataFrameImpl := {
  fTree : TTree;
  fDefaultBranches : BranchNames;
  fNSlots : Z;
  fHasRunAtLeastOnce : bool;
  fBookedActions : list nat;
  fBookedFilters : list nat;
  fBookedNamedFilters : list nat;
  fResProxyReadiness : list nat;
  objs : Objects;
  readiness : list bool; (** the flags shared with the result proxies *)
  results : list Result; (** the result objects shared with the proxies *)
  nRuns : nat (** ghost: the number of event loops started *)
}.

Definition setObjs (df : TDataFrameImpl) (o : Objects) : TDataFrameImpl :=
  {| fTree := fTree df; fDefaultBranches := fDefaultBranches df; fNSlots := fNSlots df;
     fHasRunAtLeastOnce := fHasRunAtLeastOnce df; fBookedActions := fBookedActions df;
     fBookedFilters := fBookedFilters df; fBookedNamedFilters := fBookedNamedFilters df;
     fResProxyReadiness := fResProxyReadiness df; objs := o;
     readiness := readiness df; results := results df; nRuns := nRuns df |}.

Module Impl.
Import Detail.

Definition TDataFrameImpl_new (env : Env) (tree : TTree) (defaultBranches : BranchNames)
    : TDataFrameImpl :=
  {| fTree := tree; fDefaultBranches := defaultBranches;
     fNSlots := Internal.GetNSlots (R__USE_IMT env) (IsImplicitMTEnabled env)
                                   (GetImplicitMTPoolSize env);
     fHasRunAtLeastOnce := false; fBookedActions := []; fBookedFilters := [];
     fBookedNamedFilters := []; fResProxyReadiness := [];
     objs := {| filterObjs := []; fBookedBranches := ∅; actionObjs := []; evLog := [] |};
     readiness := []; results := []; nRuns := 0 |}.

(** [Book(ActionBasePtr_t)]: the action object joins the store and its
    pointer the list of booked actions. *)
Definition Book_action (a : TDataFrameActionBase) (df : TDataFrameImpl) : TDataFrameImpl :=
  let id := length (actionObjs (objs df)) in
  {| fTree := fTree df; fDefaultBranches := fDefaultBranches df; fNSlots := fNSlots df;
     fHasRunAtLeastOnce := fHasRunAtLeastOnce df;
     fBookedActions := fBookedActions df ++ [id];
     fBookedFilters := fBookedFilters df; fBookedNamedFilters := fBookedNamedFilters df;
     fResProxyReadiness := fResProxyReadiness df;
     objs := setActionObjs (objs df) (actionObjs (objs df) ++ [a]);
     readiness := readiness df; results := results df; nRuns := nRuns df |}.

(** [Book(FilterBasePtr_t)] *)
Definition Book_filter (f : TDataFrameFilterBase) (df : TDataFrameImpl) : TDataFrameImpl :=
  let id := length (filterObjs (objs df)) in
  {| fTree := fTree df; fDefaultBranches := fDefaultBranches df; fNSlots := fNSlots df;
     fHasRunAtLeastOnce := fHasRunAtLeastOnce df;
     fBookedActions := fBookedActions df;
     fBookedFilters := fBookedFilters df ++ [id];
     fBookedNamedFilters :=
       if HasName f then fBookedNamedFilters df ++ [id] else fBookedNamedFilters df;
     fResProxyReadiness := fResProxyReadiness df;
     objs := setFilterObjs (objs df) (filterObjs (objs df) ++ [f]);
     readiness := readiness df; results := results df; nRuns := nRuns df |}.

(** [Book(TmpBranchBasePtr_t)]: [fBookedBranches[branchPtr->GetName()] = branchPtr] *)
Definition Book_branch (b : TDataFrameBranchBase) (df : TDataFrameImpl) : TDataFrameImpl :=
  setObjs df (setBookedBranches (objs df) (<[bName b := b]> (fBookedBranches (objs df)))).

(** inform all actions filters and branches of the required number of slots *)
Definition CreateSlots (actions filters : list nat) (nSlots : nat) : M unit :=
  fun o =>
    let acts := foldl (fun objs id => alter (Action_CreateSlots nSlots) id objs)
                      (actionObjs o) actions in
    let fs := foldl (fun objs id =>
                       alter (fun f => setFSlots f (Filter_CreateSlots nSlots (fSlots f))) id objs)
                    (filterObjs o) filters in
    let bs := (fun b => setBSlots b (Branch_CreateSlots nSlots (bSlots b)))
                <$> fBookedBranches o in
    ({| filterObjs := fs; fBookedBranches := bs; actionObjs := acts; evLog := evLog o |}, inr tt).

Definition Action_BuildReaderValues (slot id : nat) : M unit :=
  a <- getAction id ;;
  r <- lift (bindReaders slot (aBranches a) (aReaderValues a)) ;;
  putAction id (setAReaderValues a r).

Definition Filter_BuildReaderValues (slot id : nat) : M unit :=
  f <- getFilter id ;;
  r <- lift (bindReaders slot (fBranches f) (fReaderValues (fSlots f))) ;;
  putFilterSlots id {| fReaderValues := r;
                       fLastCheckedEntry := fLastCheckedEntry (fSlots f);
                       fLastResult := fLastResult (fSlots f);
                       fAccepted := fAccepted (fSlots f);
                       fRejected := fRejected (fSlots f) |}.

Definition Branch_BuildReaderValues (slot : nat) (b : TDataFrameBranchBase)
    : TDataFrameBranchBase :=
  setBSlots b {| bReaderValues := <[slot := bBranches b]> (bReaderValues (bSlots b));
                 bLastCheckedEntry := bLastCheckedEntry (bSlots b);
                 bLastResult := bLastResult (bSlots b) |}.

(** build reader values for all actions, filters and branches *)
Definition BuildAllReaderValues (actions filters : list nat) (slot : nat) : M unit :=
  forEach (Action_BuildReaderValues slot) actions ;;;
  forEach (Filter_BuildReaderValues slot) filters ;;;
  fun o =>
    if bool_decide (map_Forall (fun _ b => (slot < length (bReaderValues (bSlots b)))%nat)
                               (fBookedBranches o))
    then (setBookedBranches o (Branch_BuildReaderValues slot <$> fBookedBranches o), inr tt)
    else (o, inl Undefined).

(** The body of the loop over the entries: every booked action runs, then
    every named filter is checked. *)
Definition ProcessEntry (fuel : nat) (tree : TTree) (actions named : list nat)
    (slot : nat) (currEntry : Z) : M unit :=
  forEach (Action_Run fuel tree slot currEntry) actions ;;;
  forEach (fun id => _ <- Filter_CheckFilters fuel tree slot currEntry id ;; ret tt) named.

(** [while (r.Next()) { ... }] over the entries the reader yields. *)
Definition EventLoop (fuel : nat) (tree : TTree) (actions named : list nat)
    (slot : nat) (entries : list Z) : M unit :=
  forEach (ProcessEntry fuel tree actions named slot) entries.

(** The critical section of the parallel loop: the slot of a thread is
    looked up in [slotMap]; a thread seen for the first time takes
    [globalSlotIndex], which is then incremented. *)
Definition acquireSlot (thisThreadID : nat) (slotMap : gmap nat Z) (globalSlotIndex : Z)
    : Z * gmap nat Z * Z :=
  match slotMap !! thisThreadID with
  | Some slot => (slot, slotMap, globalSlotIndex)
  | None => (globalSlotIndex, <[thisThreadID := globalSlotIndex]> slotMap,
             u32 (globalSlotIndex + 1))
  end.

(** The callable handed to [tp.Process], run once per task. *)
Fixpoint Process (fuel : nat) (tree : TTree) (actions filters named : list nat)
    (slotMap : gmap nat Z) (globalSlotIndex : Z) (ts : list (nat * list Z)) : M unit :=
  match ts with
  | [] => ret tt
  | (thisThreadID, entries) :: rest =>
      let '(slot, slotMap', globalSlotIndex') :=
        acquireSlot thisThreadID slotMap globalSlotIndex in
      BuildAllReaderValues actions filters (Z.to_nat slot) ;;;
      EventLoop fuel tree actions named (Z.to_nat slot) entries ;;;
      Process fuel tree actions filters named slotMap' globalSlotIndex' rest
  end.

(** The slots in which the tasks of a parallel loop run, task by task. *)
Fixpoint taskSlots (slotMap : gmap nat Z) (globalSlotIndex : Z) (threads : list nat)
    : list Z :=
  match threads with
  | [] => []
  | thisThreadID :: rest =>
      let '(slot, slotMap', globalSlotIndex') :=
        acquireSlot thisThreadID slotMap globalSlotIndex in
      slot :: taskSlots slotMap' globalSlotIndex' rest
  end.

(** What a task does once it has its slot. *)
Definition runTask (fuel : nat) (tree : TTree) (actions filters named : list nat)
    (task : Z * list Z) : M unit :=
  BuildAllReaderValues actions filters (Z.to_nat task.1) ;;;
  EventLoop fuel tree actions named (Z.to_nat task.1) task.2.

(** The entries a reader over the whole tree yields. *)
Definition allEntries (tree : TTree) : list Z :=
  seqZ 0 (Z.of_nat (length (tEntries tree))).

(** The event loop proper of [Run], up to the line that sets
    [fHasRunAtLeastOnce]. *)
Definition RunLoops (env : Env) (df : TDataFrameImpl) : M unit :=
  fun o =>
    let fuel := S (size (fBookedBranches o)) in
    (if R__USE_IMT env && IsImplicitMTEnabled env then
       CreateSlots (fBookedActions df) (fBookedFilters df) (Z.to_nat (fNSlots df)) ;;;
       Process fuel (fTree df) (fBookedActions df) (fBookedFilters df)
               (fBookedNamedFilters df) ∅ 0 (tasks env)
     else
       CreateSlots (fBookedActions df) (fBookedFilters df) 1 ;;;
       BuildAllReaderValues (fBookedActions df) (fBookedFilters df) 0 ;;;
       EventLoop fuel (fTree df) (fBookedActions df) (fBookedNamedFilters df) 0
                 (allEntries (fTree df))) o.

(** Modelled from the spec: what releasing the booked actions does to the
    result objects (section 4.1, run: every action is finalised before
    readiness is published): each action merges its slots into the result
    object it shares with its proxies. *)
Definition finalizeActions (acts : list TDataFrameActionBase) (actions : list nat)
    (res : list Result) : list Result :=
  foldl (fun res id =>
           match acts !! id with
           | Some a => <[aResult a := Finalize (aHelper a)]> res
           | None => res
           end) res actions.

Definition markReady (flags : list bool) (registered : list nat) : list bool :=
  foldl (fun flags i => <[i := true]> flags) flags registered.

Definition Run (env : Env) (df : TDataFrameImpl) : TDataFrameImpl * (Exn + unit) :=
  match RunLoops env df (objs df) with
  | (o, inl e) =>
      ({| fTree := fTree df; fDefaultBranches := fDefaultBranches df; fNSlots := fNSlots df;
          fHasRunAtLeastOnce := fHasRunAtLeastOnce df; fBookedActions := fBookedActions df;
          fBookedFilters := fBookedFilters df; fBookedNamedFilters := fBookedNamedFilters df;
          fResProxyReadiness := fResProxyReadiness df; objs := o;
          readiness := readiness df; results := results df; nRuns := S (nRuns df) |},
       inl e)
  | (o, inr _) =>
      ({| fTree := fTree df; fDefaultBranches := fDefaultBranches df; fNSlots := fNSlots df;
          fHasRunAtLeastOnce := true;
          (* forget actions and "detach" the action result pointers marking
             them ready and forget them too *)
          fBookedActions := [];
          fBookedFilters := fBookedFilters df; fBookedNamedFilters := fBookedNamedFilters df;
          fResProxyReadiness := [];
          objs := o;
          readiness := markReady (readiness df) (fResProxyReadiness df);
          results := finalizeActions (actionObjs o) (fBookedActions df) (results df);
          nRuns := S (nRuns df) |},
       inr tt)
  end.

(** Call [PrintReport] on all booked filters *)
Definition Report (df : TDataFrameImpl) : list ReportLine :=
  omap (fun id => PrintReport <$> filterObjs (objs df) !! id) (fBookedNamedFilters df).

(** [std::make_shared] of a filter or an action: the object joins its store
    and the index it gets is the pointer to it. *)
Definition make_filter (f : TDataFrameFilterBase) (df : TDataFrameImpl)
    : nat * TDataFrameImpl :=
  (length (filterObjs (objs df)),
   setObjs df (setFilterObjs (objs df) (filterObjs (objs df) ++ [f]))).

Definition make_action (a : TDataFrameActionBase) (df : TDataFrameImpl)
    : nat * TDataFrameImpl :=
  (length (actionObjs (objs df)),
   setObjs df (setActionObjs (objs df) (actionObjs (objs df) ++ [a]))).

(** [Book(ActionBasePtr_t)] by itself: the pointer it is given is appended,
    whether or not it was booked before. *)
Definition Book_actionPtr (actionPtr : nat) (df : TDataFrameImpl) : TDataFrameImpl :=
  {| fTree := fTree df; fDefaultBranches := fDefaultBranches df; fNSlots := fNSlots df;
     fHasRunAtLeastOnce := fHasRunAtLeastOnce df;
     fBookedActions := fBookedActions df ++ [actionPtr];
     fBookedFilters := fBookedFilters df; fBookedNamedFilters := fBookedNamedFilters df;
     fResProxyReadiness := fResProxyReadiness df; objs := objs df;
     readiness := readiness df; results := results df; nRuns := nRuns df |}.

(** [Book(FilterBasePtr_t)] by itself: the pointer is appended to the booked
    filters and, when [filterPtr->HasName()], to the named ones; the call of
    [HasName] through a pointer that holds no object is undefined. *)
Definition Book_filterPtr (filterPtr : nat) (df : TDataFrameImpl) : Exn + TDataFrameImpl :=
  match filterObjs (objs df) !! filterPtr with
  | None => inl Undefined
  | Some f =>
      inr {| fTree := fTree df; fDefaultBranches := fDefaultBranches df;
             fNSlots := fNSlots df; fHasRunAtLeastOnce := fHasRunAtLeastOnce df;
             fBookedActions := fBookedActions df;
             fBookedFilters := fBookedFilters df ++ [filterPtr];
             fBookedNamedFilters :=
               if HasName f then fBookedNamedFilters df ++ [filterPtr]
               else fBookedNamedFilters df;
             fResProxyReadiness := fResProxyReadiness df; objs := objs df;
             readiness := readiness df; results := results df; nRuns := nRuns df |}
  end.

(** [GetBookedBranch]: [*fBookedBranches.find(name)->second.get()]; for a
    name that was never booked [find] returns [end()], whose dereference is
    undefined. *)
Definition GetBookedBranch (df : TDataFrameImpl) (name : string)
    : Exn + TDataFrameBranchBase :=
  match fBookedBranches (objs df) !! name with
  | Some b => inr b
  | None => inl Undefined
  end.

End Impl.

(** ** The booking surface and the result proxies *)

Module Experimental.
Import Detail Impl.

(** A node of the chain as the user holds it: the proxied node and the
    temporary branches defined up to it. *)
Record TDataFrameInterface := {
  fProxiedPtr : Node;
  iTmpBranches : BranchNames
}.

Definition TDataFrame : TDataFrameInterface :=
  {| fProxiedPtr := Root; iTmpBranches := [] |}.

(** A result proxy: its readiness flag and its result object, both shared
    with the data frame. *)
Record TActionResultProxy := {
  fReadiness : nat;
  fObjPtr : nat
}.

(** Modelled from the spec: the issue of a result handle (sections 3 and
    4.1, book-action): a fresh readiness flag, false, shared between the
    handle and the root, and the result object the action will publish to. *)
Definition MakeActionResultProxy (r : Result) (df : TDataFrameImpl)
    : TActionResultProxy * TDataFrameImpl :=
  ({| fReadiness := length (readiness df); fObjPtr := length (results df) |},
   {| fTree := fTree df; fDefaultBranches := fDefaultBranches df; fNSlots := fNSlots df;
      fHasRunAtLeastOnce := fHasRunAtLeastOnce df; fBookedActions := fBookedActions df;
      fBookedFilters := fBookedFilters df; fBookedNamedFilters := fBookedNamedFilters df;
      fResProxyReadiness := fResProxyReadiness df ++ [length (readiness df)];
      objs := objs df;
      readiness := readiness df ++ [false];
      results := results df ++ [r];
      nRuns := nRuns df |}).

(** Modelled from the spec: book-filter (section 4.1): the input columns are
    picked with [PickBranchNames], the filter node is created below the
    current node and booked. *)
Definition Filter (self : TDataFrameInterface) (nArgs : nat) (f : list Z -> option bool)
    (bl : BranchNames) (name : string) (df : TDataFrameImpl)
    : Exn + (TDataFrameInterface * TDataFrameImpl) :=
  err_bind (Internal.PickBranchNames nArgs bl (fDefaultBranches df)) (fun actualBl =>
  let id := length (filterObjs (objs df)) in
  inr ({| fProxiedPtr := FilterN id (fProxiedPtr self); iTmpBranches := iTmpBranches self |},
       Book_filter {| fName := name; fTmpBranches := iTmpBranches self;
                      fPrevData := fProxiedPtr self; fBranches := actualBl; fFilter := f;
                      fSlots := {| fReaderValues := []; fLastCheckedEntry := [];
                                   fLastResult := []; fAccepted := []; fRejected := [] |} |}
                   df)).

(** Modelled from the spec: book-derived (section 4.1), with the check of
    the name that the source provides, [CheckTmpBranch] on the tree, before
    the node is created and booked under its name. *)
Definition AddCol (self : TDataFrameInterface) (name : string) (nArgs : nat)
    (expression : list Z -> option Z) (bl : BranchNames) (df : TDataFrameImpl)
    : Exn + (TDataFrameInterface * TDataFrameImpl) :=
  err_bind (Internal.CheckTmpBranch name (fTree df)) (fun _ =>
  err_bind (Internal.PickBranchNames nArgs bl (fDefaultBranches df)) (fun actualBl =>
  inr ({| fProxiedPtr := BranchN name (fProxiedPtr self);
          iTmpBranches := iTmpBranches self ++ [name] |},
       Book_branch {| bName := name; bTmpBranches := iTmpBranches self;
                      bPrevData := fProxiedPtr self; bBranches := actualBl;
                      bExpression := expression;
                      bSlots := {| bReaderValues := []; bLastCheckedEntry := [];
                                   bLastResult := [] |} |}
                   df))).

(** Modelled from the spec: book-action (section 4.1) for the count action:
    the action is stored with one accumulator per slot and a handle is
    issued. *)
Definition Count (self : TDataFrameInterface) (df : TDataFrameImpl)
    : TActionResultProxy * TDataFrameImpl :=
  let '(h, df1) := MakeActionResultProxy (RCount 0) df in
  (h, Book_action {| aPrevData := fProxiedPtr self; aTmpBranches := iTmpBranches self;
                     aBranches := [];
                     aHelper := CountHelper (replicate (Z.to_nat (fNSlots df)) 0);
                     aResult := fObjPtr h; aReaderValues := [] |} df1).

(** Modelled from the spec: book-action for the take action on one column. *)
Definition Take (self : TDataFrameInterface) (bl : BranchNames) (df : TDataFrameImpl)
    : Exn + (TActionResultProxy * TDataFrameImpl) :=
  err_bind (Internal.PickBranchNames 1 bl (fDefaultBranches df)) (fun actualBl =>
  let '(h, df1) := MakeActionResultProxy (RTake []) df in
  inr (h, Book_action {| aPrevData := fProxiedPtr self; aTmpBranches := iTmpBranches self;
                         aBranches := actualBl;
                         aHelper := TakeHelper (replicate (Z.to_nat (fNSlots df)) []);
                         aResult := fObjPtr h; aReaderValues := [] |} df1)).

(** Modelled from the spec: observe (section 4.6): if the handle is not
    ready the root's run is triggered; then the finalised value is
    returned. *)
Definition Get (env : Env) (h : TActionResultProxy) (df : TDataFrameImpl)
    : TDataFrameImpl * (Exn + Result) :=
  match vat (readiness df) (fReadiness h) with
  | inl e => (df, inl e)
  | inr true => (df, vat (results df) (fObjPtr h))
  | inr false =>
      match Run env df with
      | (df', inl e) => (df', inl e)
      | (df', inr _) => (df', vat (results df') (fObjPtr h))
      end
  end.

(** Modelled from the spec: report (section 4.1): if no pass has yet run,
    one is triggered; then the lines of [TDataFrameImpl::Report] are
    printed. *)
Definition Report (env : Env) (df : TDataFrameImpl)
    : TDataFrameImpl * (Exn + list ReportLine) :=
  if fHasRunAtLeastOnce df then (df, inr (Impl.Report df))
  else
    match Run env df with
    | (df', inl e) => (df', inl e)
    | (df', inr _) => (df', inr (Impl.Report df'))
    end.

End Experimental.

(** ** Scenarios *)

Module Scenarios.
Import Detail Impl Experimental.

Definition sequential : Env :=
  {| R__USE_IMT := true; IsImplicitMTEnabled := false; GetImplicitMTPoolSize := 0;
     tasks := [] |}.

Definition column (name : string) (values : list Z) : TTree :=
  {| tBranchList := [name]; tEntries := (fun v => [v]) <$> values |}.

Definition unary (p : Z -> bool) (args : list Z) : option bool :=
  match args with [x] => Some (p x) | _ => None end.

(** S3: A = [1,2,3], named filters gt1 and lt3, a count below both. *)
Definition s3_booked : Exn + (TActionResultProxy * TDataFrameImpl) :=
  let df := TDataFrameImpl_new sequential (column "A" [1; 2; 3]) [] in
  err_bind (Filter TDataFrame 1 (unary (fun a => bool_decide (a > 1))) ["A"%string] "gt1" df)
    (fun '(n1, df1) =>
  err_bind (Filter n1 1 (unary (fun a => bool_decide (a < 3))) ["A"%string] "lt3" df1)
    (fun '(n2, df2) =>
  inr (Count n2 df2))).

(** A temporary branch booked twice under one name. *)
Definition plus (n : Z) (args : list Z) : option Z :=
  match args with [x] => Some (x + n) | _ => None end.

Definition dup_frame : TDataFrameImpl :=
  TDataFrameImpl_new sequential (column "A" [1; 2; 3]) [].

Definition dup_once : Exn + (TDataFrameInterface * TDataFrameImpl) :=
  AddCol TDataFrame "z" 1 (plus 1) ["A"%string] dup_frame.


(** S5: a temporary branch D whose callable throws on the row where A is 3,
    observed through a take of D. *)
Definition throwsOn (n : Z) (args : list Z) : option Z :=
  match args with [x] => if decide (x = n) then None else Some x | _ => None end.

Definition s5_booked : Exn + (TActionResultProxy * TDataFrameImpl) :=
  let df := TDataFrameImpl_new sequential (column "A" [0; 1; 2; 3; 4]) [] in
  err_bind (AddCol TDataFrame "D" 1 (throwsOn 3) ["A"%string] df) (fun '(n1, df1) =>
  Take n1 ["D"%string] df1).

Definition s5_handle : TActionResultProxy := {| fReadiness := 0; fObjPtr := 0 |}.

Definition s5_frame : TDataFrameImpl :=
  match s5_booked with
  | inr (_, df) => df
  | inl _ => TDataFrameImpl_new sequential (column "A" []) []
  end.

Definition s3_handle : TActionResultProxy := {| fReadiness := 0; fObjPtr := 0 |}.

Definition s3_frame : TDataFrameImpl :=
  match s3_booked with
  | inr (_, df) => df
  | inl _ => TDataFrameImpl_new sequential (column "A" []) []
  end.

(** S2: A = [1..5], B = [5..1], the temporary branch C = A + B, the filter
    C == 6 and a take of C: the branch C has two consumers. *)
Definition two_columns : TTree :=
  {| tBranchList := ["A"; "B"]%string;
     tEntries := [[1; 5]; [2; 4]; [3; 3]; [4; 2]; [5; 1]] |}.

Definition sum2 (args : list Z) : option Z :=
  match args with [x; y] => Some (x + y) | _ => None end.

Definition s2_booked : Exn + (TActionResultProxy * TDataFrameImpl) :=
  let df := TDataFrameImpl_new sequential two_columns [] in
  err_bind (AddCol TDataFrame "C" 2 sum2 ["A"; "B"]%string df) (fun '(n1, df1) =>
  err_bind (Filter n1 1 (unary (fun c => bool_decide (c = 6))) ["C"%string] "" df1)
    (fun '(n2, df2) =>
  Take n2 ["C"%string] df2)).

Definition s2_frame : TDataFrameImpl :=
  match s2_booked with
  | inr (_, df) => df
  | inl _ => TDataFrameImpl_new sequential (column "A" []) []
  end.

(** Filters booked one after the other. *)
Definition bookFilters (fs : list TDataFrameFilterBase) (df : TDataFrameImpl)
    : TDataFrameImpl :=
  foldl (fun df f => Book_filter f df) df fs.

Definition sumZ (v : list Z) : Z := foldr Z.add 0 v.

(** The booked named filters point into the store of filter objects. *)
Definition namedBooked (df : TDataFrameImpl) : Prop :=
  Forall (fun id => (id < length (filterObjs (objs df)))%nat) (fBookedNamedFilters df).

Definition bareFilter (name : string) (prev : Node) (bl : BranchNames)
    (f : list Z -> option bool) : TDataFrameFilterBase :=
  {| fName := name; fTmpBranches := []; fPrevData := prev; fBranches := bl; fFilter := f;
     fSlots := {| fReaderValues := []; fLastCheckedEntry := []; fLastResult := [];
                  fAccepted := []; fRejected := [] |} |}.

End Scenarios.


(** ** What the nodes compute, without the caches *)

Module Semantics.

Definition noFilterSlots : FilterSlots :=
  {| fReaderValues := []; fLastCheckedEntry := []; fLastResult := [];
     fAccepted := []; fRejected := [] |}.
Definition noBranchSlots : BranchSlots :=
  {| bReaderValues := []; bLastCheckedEntry := []; bLastResult := [] |}.

(** The part of the objects that booking fixes: names, parents, input
    columns and callables. *)
Definition eraseF (f : TDataFrameFilterBase) : TDataFrameFilterBase :=
  setFSlots f noFilterSlots.
Definition eraseB (b : TDataFrameBranchBase) : TDataFrameBranchBase :=
  setBSlots b noBranchSlots.
Definition eraseA (a : TDataFrameActionBase) : TDataFrameActionBase :=
  setAReaderValues (setAHelper a (CountHelper [])) [].

Record Shape := {
  sFilters : list TDataFrameFilterBase;
  sBranches : gmap string TDataFrameBranchBase;
  sActions : list TDataFrameActionBase
}.

Definition shape (o : Objects) : Shape :=
  {| sFilters := eraseF <$> filterObjs o;
     sBranches := eraseB <$> fBookedBranches o;
     sActions := eraseA <$> actionObjs o |}.

(** [BranchVal sb tree entry name v]: the temporary branch [name] has the
    value [v] at the entry, its expression applied to the values of its
    input columns; [InputsVal sb tree entry tmp xs vs]: the input columns
    [xs] of a node that knows the temporary branches [tmp] have the values
    [vs], each served by a temporary branch or by the tree. *)
Inductive BranchVal (sb : gmap string TDataFrameBranchBase) (tree : TTree) (entry : Z)
    : string -> Z -> Prop :=
| BranchVal_eval name b args v :
    sb !! name = Some b ->
    InputsVal sb tree entry (bTmpBranches b) (bBranches b) args ->
    bExpression b args = Some v ->
    BranchVal sb tree entry name v
with InputsVal (sb : gmap string TDataFrameBranchBase) (tree : TTree) (entry : Z)
    : BranchNames -> list string -> list Z -> Prop :=
| InputsVal_nil tmp : InputsVal sb tree entry tmp [] []
| InputsVal_tmp tmp x a xs vs :
    x ∈ tmp -> BranchVal sb tree entry x a -> InputsVal sb tree entry tmp xs vs ->
    InputsVal sb tree entry tmp (x :: xs) (a :: vs)
| InputsVal_tree tmp x a xs vs :
    x ∉ tmp -> Detail.ReadTree tree x entry = inr a ->
    InputsVal sb tree entry tmp xs vs ->
    InputsVal sb tree entry tmp (x :: xs) (a :: vs).

(** The value of one input column as a node that knows the temporary
    branches [tmp] sees it. *)
Definition ColVal (sb : gmap string TDataFrameBranchBase) (tree : TTree) (entry : Z)
    (tmp : BranchNames) (x : string) (a : Z) : Prop :=
  ((x ∈ tmp) /\ BranchVal sb tree entry x a) \/
  ((x ∉ tmp) /\ Detail.ReadTree tree x entry = inr a).

(** [ChainVal s tree entry p b]: the chain of filters from the data frame
    down to the node [p] accepts the entry ([b] true: every filter of the
    chain returns true) or rejects it ([b] false: some filter returns false
    while the filters above it return true). *)
Inductive ChainVal (s : Shape) (tree : TTree) (entry : Z) : Node -> bool -> Prop :=
| ChainVal_root : ChainVal s tree entry Root true
| ChainVal_branch name prev b :
    ChainVal s tree entry prev b -> ChainVal s tree entry (BranchN name prev) b
| ChainVal_reject id prev :
    ChainVal s tree entry prev false -> ChainVal s tree entry (FilterN id prev) false
| ChainVal_eval id prev f args b :
    ChainVal s tree entry prev true ->
    sFilters s !! id = Some f ->
    InputsVal (sBranches s) tree entry (fTmpBranches f) (fBranches f) args ->
    fFilter f args = Some b ->
    ChainVal s tree entry (FilterN id prev) b.

(** The filters of a chain were booked before the nodes below them. *)
Fixpoint pathBelow (n : nat) (p : Node) : bool :=
  match p with
  | Root => true
  | BranchN _ prev => pathBelow n prev
  | FilterN id prev => bool_decide (id < n)%nat && pathBelow n prev
  end.

Fixpoint pathOrdered (p : Node) : bool :=
  match p with
  | Root => true
  | BranchN _ prev => pathOrdered prev
  | FilterN id prev => pathBelow id prev && pathOrdered prev
  end.

(** A chain passes through the filter objects by their own parents. *)
Fixpoint coherent (sf : list TDataFrameFilterBase) (p : Node) : Prop :=
  match p with
  | Root => True
  | BranchN _ prev => coherent sf prev
  | FilterN id prev =>
      (exists f, sf !! id = Some f /\ fPrevData f = prev) /\ coherent sf prev
  end.

(** No temporary branch is, through its inputs, an input of itself. *)
Definition acyclic (sb : gmap string TDataFrameBranchBase) : Prop :=
  exists rank : string -> nat,
    forall name b x,
      sb !! name = Some b -> x ∈ bBranches b -> x ∈ bTmpBranches b ->
      (rank x < rank name)%nat.

(** A pipeline as booking builds it. *)
Record validPipeline (s : Shape) (actions : list nat) : Prop := {
  filters_ordered : forall id f, sFilters s !! id = Some f ->
    pathBelow id (fPrevData f) = true /\ pathOrdered (fPrevData f) = true /\
    coherent (sFilters s) (fPrevData f);
  actions_ordered : forall id, id ∈ actions ->
    exists a, sActions s !! id = Some a /\ pathOrdered (aPrevData a) = true /\
              coherent (sFilters s) (aPrevData a);
  branches_acyclic : acyclic (sBranches s)
}.

(** A check of [validPipeline] that computes. *)
#[global] Instance Node_eq_dec : EqDecision Node.
Proof. solve_decision. Defined.

Fixpoint coherentb (sf : list TDataFrameFilterBase) (p : Node) : bool :=
  match p with
  | Root => true
  | BranchN _ prev => coherentb sf prev
  | FilterN id prev =>
      match sf !! id with
      | Some f => bool_decide (fPrevData f = prev) && coherentb sf prev
      | None => false
      end
  end.

Definition checkPipeline (rank : string -> nat) (s : Shape) (actions : list nat) : bool :=
  forallb (fun id => match sFilters s !! id with
                     | Some f => pathBelow id (fPrevData f) && pathOrdered (fPrevData f)
                                 && coherentb (sFilters s) (fPrevData f)
                     | None => true
                     end) (seq 0 (length (sFilters s)))
  && forallb (fun id => match sActions s !! id with
                        | Some a => pathOrdered (aPrevData a)
                                    && coherentb (sFilters s) (aPrevData a)
                        | None => false
                        end) actions
  && bool_decide (map_Forall (fun name b =>
                    Forall (fun x => x ∈ bTmpBranches b -> (rank x < rank name)%nat)
                           (bBranches b)) (sBranches s)).

(** The number of accepted entries among the verdicts of a chain. *)
Definition countAccepted (verdicts : list bool) : Z :=
  Z.of_nat (length (filter (fun b => b = true) verdicts)).

(** No cache holds an entry: the last checked entries, where there are
    any, are the sentinel or another negative number. *)
Definition freshStart (o : Objects) : Prop :=
  (forall id f, filterObjs o !! id = Some f ->
                Forall (fun x => x < 0) (fLastCheckedEntry (fSlots f))) /\
  (forall name b, fBookedBranches o !! name = Some b ->
                  Forall (fun x => x < 0) (bLastCheckedEntry (bSlots b))).

(** The slot and entry of every step of the tasks of a parallel loop. *)
Definition taskSteps (ts : list (Z * list Z)) : list (nat * Z) :=
  concat ((fun t : Z * list Z => (fun r : Z => (Z.to_nat t.1, r)) <$> t.2) <$> ts).

(** The entries an event loop processes, in the order of processing: those
    of the tasks when the loop is parallel, all of them in order otherwise. *)
Definition processedEntries (env : Env) (df : TDataFrameImpl) : list Z :=
  if R__USE_IMT env && IsImplicitMTEnabled env then concat (tasks env).*2
  else Impl.allEntries (fTree df).

Definition evSlot (e : Event) : nat :=
  match e with EvFilter _ slot _ => slot | EvBranch _ slot _ => slot end.
Definition evEntry (e : Event) : Z :=
  match e with EvFilter _ _ entry => entry | EvBranch _ _ entry => entry end.

End Semantics.

(** * Properties *)

Import Detail Impl Experimental Scenarios.

(** ** Booking checks *)

Section PickBranchNames.
Import Internal.

Lemma PickBranchNames_same (nArgs : nat) (bl defBl : BranchNames) :
  nArgs = length bl -> PickBranchNames nArgs bl defBl = inr bl.
Proof.
  intros ->. unfold PickBranchNames. case_decide; [congruence | reflexivity].
Qed.

Lemma PickBranchNames_default (nArgs : nat) (defBl : BranchNames) :
  nArgs = length defBl -> PickBranchNames nArgs [] defBl = inr defBl.
Proof.
  intros ->. unfold PickBranchNames.
  destruct defBl as [|d defBl]; repeat case_decide; simpl in *;
    try reflexivity; try congruence; tauto.
Qed.

Lemma PickBranchNames_default_mismatch (nArgs : nat) (defBl : BranchNames) :
  nArgs ≠ 0%nat -> nArgs ≠ length defBl ->
  PickBranchNames nArgs [] defBl = inl (ArgsMismatch nArgs (length defBl)).
Proof.
  intros H0 Hd. unfold PickBranchNames.
  repeat case_decide; simpl in *; try reflexivity; try congruence; tauto.
Qed.

Lemma PickBranchNames_explicit_mismatch (nArgs : nat) (bl defBl : BranchNames) :
  bl ≠ [] -> nArgs ≠ length bl ->
  PickBranchNames nArgs bl defBl = inl (ArgsMismatch nArgs (length bl)).
Proof.
  intros Hbl Hn. unfold PickBranchNames.
  assert (length bl ≠ 0%nat) by (destruct bl; simpl; [congruence | lia]).
  repeat case_decide; simpl in *; try reflexivity; try congruence; tauto.
Qed.

(** C6, the claim as stated fails: a callable of one input booked without
    an input list on a data frame whose default list has two entries is
    refused, although the default list has a first entry to offer. *)
Lemma C6_default_longer_is_refused :
  (1 <= length ["a"; "b"]%string)%nat /\
  PickBranchNames 1 [] ["a"; "b"]%string = inl (ArgsMismatch 1 2) /\
  PickBranchNames 1 [] ["a"; "b"]%string <> inr (take 1 ["a"; "b"]%string).
Proof. repeat split; [simpl; lia | discriminate]. Qed.

(** C6, amended: without an explicit input list the default list is used
    when it has exactly as many entries as the callable has inputs, and it
    then is its own first k entries; booking fails with the mismatch error
    when the default list has fewer or more than k entries (k > 0), or when
    an explicit non-empty list has a size other than the arity; a list of
    the right size is used as given. *)
Theorem C6_PickBranchNames_exact_arity (k : nat) (bl defBl : BranchNames) :
  (bl = [] -> length defBl = k ->
     PickBranchNames k bl defBl = inr defBl /\ defBl = take k defBl) /\
  (bl = [] -> k ≠ 0%nat -> length defBl ≠ k ->
     PickBranchNames k bl defBl = inl (ArgsMismatch k (length defBl))) /\
  (bl ≠ [] -> length bl ≠ k ->
     PickBranchNames k bl defBl = inl (ArgsMismatch k (length bl))) /\
  (length bl = k -> PickBranchNames k bl defBl = inr bl).
Proof.
  split; [| split; [| split]].
  - intros -> <-. split; [by apply PickBranchNames_default | by rewrite firstn_all].
  - intros -> Hk Hd. apply PickBranchNames_default_mismatch; congruence.
  - intros Hbl Hk. apply PickBranchNames_explicit_mismatch; congruence.
  - intros <-. by apply PickBranchNames_same.
Qed.

Lemma C6_PickBranchNames_exact_arity_witness :
  PickBranchNames 2 [] ["b1"; "b2"]%string = inr ["b1"; "b2"]%string /\
  PickBranchNames 2 [] ["b1"]%string = inl (ArgsMismatch 2 1) /\
  PickBranchNames 2 [] ["b1"; "b2"; "b3"]%string = inl (ArgsMismatch 2 3) /\
  PickBranchNames 1 ["x"; "y"]%string ["b1"]%string = inl (ArgsMismatch 1 2) /\
  PickBranchNames 1 ["x"]%string ["b1"; "b2"]%string = inr ["x"]%string.
Proof.
  split; [| split; [| split; [| split]]].
  - apply (C6_PickBranchNames_exact_arity 2 [] ["b1"; "b2"]%string); reflexivity.
  - apply (C6_PickBranchNames_exact_arity 2 [] ["b1"]%string);
      [reflexivity | lia | simpl; lia].
  - apply (C6_PickBranchNames_exact_arity 2 [] ["b1"; "b2"; "b3"]%string);
      [reflexivity | lia | simpl; lia].
  - apply (C6_PickBranchNames_exact_arity 1 ["x"; "y"]%string ["b1"]%string);
      [discriminate | simpl; lia].
  - apply (C6_PickBranchNames_exact_arity 1 ["x"]%string ["b1"; "b2"]%string); reflexivity.
Defined.

End PickBranchNames.

Section CheckTmpBranch.
Import Internal.








End CheckTmpBranch.

(** ** Slot assignment *)

Section Slots.
Import Internal.

Lemma bind_assoc {A B C} (c : M A) (k : A -> M B) (k' : B -> M C) (o : Objects) :
  bind (bind c k) k' o = bind c (fun x => bind (k x) k') o.
Proof.
  unfold bind. destruct (c o) as [o1 [e | x]]; [reflexivity |].
  destruct (k x o1) as [o2 [e | y]]; reflexivity.
Qed.

Lemma bind_ext {A B} (c : M A) (k k' : A -> M B) (o : Objects) :
  (forall x o', k x o' = k' x o') -> bind c k o = bind c k' o.
Proof.
  intros Hk. unfold bind. destruct (c o) as [o1 [e | x]]; [reflexivity | apply Hk].
Qed.

(** The parallel loop runs each task in the slot [taskSlots] gives it. *)
Lemma Process_taskSlots fuel tree actions filters named (ts : list (nat * list Z)) :
  forall slotMap g o,
    Process fuel tree actions filters named slotMap g ts o =
    forEach (runTask fuel tree actions filters named)
            (zip (taskSlots slotMap g ts.*1) ts.*2) o.
Proof.
  induction ts as [|[tid entries] rest IH]; intros slotMap g o; [reflexivity |].
  simpl. destruct (acquireSlot tid slotMap g) as [[slot slotMap'] g'] eqn:Hacq.
  simpl. unfold runTask at 1. rewrite bind_assoc.
  apply bind_ext. intros _ o1.
  apply bind_ext. intros _ o2. apply IH.
Qed.

(** The slot map is a bijection between the threads seen so far and the
    slots below [globalSlotIndex]. *)
Definition slotInv (slotMap : gmap nat Z) (g : Z) : Prop :=
  g = Z.of_nat (size slotMap) /\
  (forall t s, slotMap !! t = Some s -> 0 <= s < g) /\
  (forall t1 t2 s, slotMap !! t1 = Some s -> slotMap !! t2 = Some s -> t1 = t2).

Lemma slotInv_empty : slotInv ∅ 0.
Proof.
  split; [by rewrite map_size_empty |].
  split; intros *; rewrite lookup_empty; discriminate.
Qed.

Lemma slotInv_insert slotMap g t :
  slotInv slotMap g -> slotMap !! t = None -> slotInv (<[t := g]> slotMap) (g + 1).
Proof.
  intros (Hg & Hran & Hinj) Hnone. split; [| split].
  - rewrite map_size_insert_None by done. lia.
  - intros t' s. rewrite lookup_insert. case_decide.
    + intros [= <-]. lia.
    + intros Hs. apply Hran in Hs. lia.
  - intros t1 t2 s. rewrite !lookup_insert.
    repeat case_decide; subst; try done.
    + intros [= <-] Hs. apply Hran in Hs. lia.
    + intros Hs [= <-]. apply Hran in Hs. lia.
    + apply Hinj.
Qed.

Lemma taskSlots_follow_map (N : Z) (threads : list nat) :
  N < 2 ^ 32 ->
  forall slotMap g,
    slotInv slotMap g ->
    Z.of_nat (size (dom slotMap ∪ list_to_set threads : gset nat)) <= N ->
    exists final,
      slotMap ⊆ final /\ slotInv final (Z.of_nat (size final)) /\
      dom final = dom slotMap ∪ list_to_set threads /\
      Forall2 (fun t s => final !! t = Some s) threads (taskSlots slotMap g threads).
Proof.
  intros HN. induction threads as [|t rest IH]; intros slotMap g Hinv Hsize.
  - exists slotMap. split; [done |]. split; [| split; [set_solver | constructor]].
    destruct Hinv as (-> & ?). by split.
  - simpl. unfold acquireSlot. destruct (slotMap !! t) as [s |] eqn:Ht.
    + destruct (IH slotMap g Hinv) as (final & Hsub & Hfin & Hdom & Hall).
      { etrans; [| exact Hsize]. apply inj_le, subseteq_size. set_solver. }
      exists final. split; [done |]. split; [done |]. split.
      * rewrite Hdom. apply elem_of_dom_2 in Ht. set_solver.
      * constructor; [| done]. by eapply lookup_weaken.
    + assert (Hlt : g + 1 <= N).
      { destruct Hinv as (-> & _). etrans; [| exact Hsize].
        rewrite <- (size_dom (D := gset nat)).
        apply not_elem_of_dom in Ht.
        assert (size (dom slotMap ∪ {[t]} : gset nat) = S (size (dom slotMap))) as Hs.
        { rewrite size_union by set_solver. rewrite size_singleton. lia. }
        assert (size (dom slotMap ∪ {[t]} : gset nat)
                <= size (dom slotMap ∪ list_to_set (t :: rest) : gset nat))%nat.
        { apply subseteq_size. set_solver. }
        lia. }
      assert (Hg0 : 0 <= g) by (destruct Hinv as (-> & _); lia).
      assert (Hu : u32 (g + 1) = g + 1) by (unfold u32; apply Z.mod_small; lia).
      rewrite Hu.
      destruct (IH (<[t := g]> slotMap) (g + 1)) as (final & Hsub & Hfin & Hdom & Hall).
      { by apply slotInv_insert. }
      { etrans; [| exact Hsize]. apply inj_le, subseteq_size.
        rewrite dom_insert_L. set_solver. }
      exists final. split; [| split; [done | split]].
      * etrans; [| exact Hsub]. by apply insert_subseteq.
      * rewrite Hdom, dom_insert_L. set_solver.
      * constructor; [| done]. eapply lookup_weaken; [| exact Hsub].
        apply lookup_insert_eq.
Qed.

Lemma GetNSlots_lt (use_imt imt : bool) (pool : Z) :
  0 <= GetNSlots use_imt imt pool < 2 ^ 32.
Proof.
  unfold GetNSlots, u32. destruct (use_imt && imt); [| lia].
  apply Z.mod_pos_bound. lia.
Qed.

(** C9: the worker count is the pool size when implicit multithreading is
    on and 1 otherwise; when the pool runs the tasks on at most that many
    threads, the slot a task gets in the critical section lies in [0, N),
    two tasks get the same slot exactly when they run on the same thread
    (so a thread keeps the slot of its first entry and no two threads share
    one), and these are the slots the parallel loop runs the tasks in. *)
Theorem C9_slots_distinct_and_stable (use_imt imt : bool) (pool : Z)
    (threads : list nat) :
  let N := GetNSlots use_imt imt pool in
  N = (if use_imt && imt then u32 pool else 1) /\
  (Z.of_nat (size (list_to_set threads : gset nat)) <= N ->
   forall i j ti tj si sj,
     threads !! i = Some ti -> threads !! j = Some tj ->
     taskSlots ∅ 0 threads !! i = Some si -> taskSlots ∅ 0 threads !! j = Some sj ->
     0 <= si < N /\ (ti = tj <-> si = sj)) /\
  (forall fuel tree actions filters named (ts : list (nat * list Z)) o,
     ts.*1 = threads ->
     Process fuel tree actions filters named ∅ 0 ts o =
     forEach (runTask fuel tree actions filters named)
             (zip (taskSlots ∅ 0 threads) ts.*2) o).
Proof.
  intros N. split; [reflexivity |]. split.
  - intros Hsize i j ti tj si sj Hti Htj Hsi Hsj.
    destruct (taskSlots_follow_map N threads (proj2 (GetNSlots_lt _ _ _)) ∅ 0 slotInv_empty)
      as (final & _ & (_ & Hran & Hinj) & Hdom & Hall).
    { by rewrite dom_empty_L, (left_id_L ∅ (∪)). }
    assert (Hfi : final !! ti = Some si).
    { eapply Forall2_lookup_lr in Hall; eauto. }
    assert (Hfj : final !! tj = Some sj).
    { eapply Forall2_lookup_lr in Hall; eauto. }
    assert (Hbound : Z.of_nat (size final) <= N).
    { rewrite <- (size_dom (D := gset nat)), Hdom, dom_empty_L, (left_id_L ∅ (∪)). done. }
    split.
    + apply Hran in Hfi. lia.
    + split; [intros -> ; congruence | intros ->; by eapply Hinj].
  - intros fuel tree actions filters named ts o <-. apply Process_taskSlots.
Qed.

Lemma C9_slots_distinct_and_stable_witness :
  taskSlots ∅ 0 [7; 3; 7; 5; 3]%nat = [0; 1; 0; 2; 1] /\
  (0 <= 0 < GetNSlots true true 4 /\ (7%nat = 7%nat <-> 0 = 0)).
Proof.
  split; [reflexivity |].
  apply (proj1 (proj2 (C9_slots_distinct_and_stable true true 4 [7; 3; 7; 5; 3]%nat))
           ltac:(vm_compute; discriminate) 0%nat 2%nat 7%nat 7%nat 0 0);
    reflexivity.
Defined.

End Slots.

(** ** Named filters and the report *)

Section Report.

Lemma Report_Book_filter (f : TDataFrameFilterBase) (df : TDataFrameImpl) :
  namedBooked df ->
  Impl.Report (Book_filter f df) =
  Impl.Report df ++ (if HasName f then [PrintReport f] else []).
Proof.
  intros Hwf. unfold Impl.Report. simpl.
  assert (Hold : forall ids,
    Forall (fun id => (id < length (filterObjs (objs df)))%nat) ids ->
    omap (fun id => PrintReport <$> (filterObjs (objs df) ++ [f]) !! id) ids =
    omap (fun id => PrintReport <$> filterObjs (objs df) !! id) ids).
  { induction 1 as [|id ids Hid _ IH]; [reflexivity |].
    unfold omap in *. simpl. rewrite IH. by rewrite lookup_app_l. }
  destruct (HasName f).
  - rewrite omap_app, Hold by done. f_equal. simpl.
    by rewrite list_lookup_middle.
  - rewrite Hold by done. by rewrite app_nil_r.
Qed.

Lemma namedBooked_Book_filter (f : TDataFrameFilterBase) (df : TDataFrameImpl) :
  namedBooked df -> namedBooked (Book_filter f df).
Proof.
  unfold namedBooked. simpl. intros Hwf. rewrite length_app. simpl.
  assert (Forall (fun id => (id < length (filterObjs (objs df)) + 1)%nat)
                 (fBookedNamedFilters df)).
  { eapply Forall_impl; [exact Hwf |]. simpl. intros. lia. }
  destruct (HasName f); [| done].
  apply Forall_app. split; [done |]. constructor; [lia | constructor].
Qed.

Lemma namedBooked_new env tree defaultBranches :
  namedBooked (TDataFrameImpl_new env tree defaultBranches).
Proof. constructor. Qed.

Lemma namedBooked_bookFilters fs : forall df,
  namedBooked df -> namedBooked (bookFilters fs df).
Proof.
  induction fs as [|f fs IH]; intros df Hwf; [done |].
  simpl. apply IH. by apply namedBooked_Book_filter.
Qed.

Lemma Report_bookFilters fs : forall df,
  namedBooked df ->
  Impl.Report (bookFilters fs df) =
  Impl.Report df ++ (PrintReport <$> filter (fun f => HasName f = true) fs).
Proof.
  induction fs as [|f fs IH]; intros df Hwf.
  - simpl. by rewrite app_nil_r.
  - simpl. rewrite IH by by apply namedBooked_Book_filter.
    rewrite Report_Book_filter by done. rewrite <- app_assoc. f_equal.
    rewrite filter_cons. destruct (HasName f) eqn:Hn.
    + rewrite decide_True by done. reflexivity.
    + rewrite decide_False by done. reflexivity.
Qed.

Lemma HasName_spec (f : TDataFrameFilterBase) :
  HasName f = true <-> fName f <> ""%string.
Proof.
  unfold HasName. rewrite negb_true_iff, bool_decide_eq_false. reflexivity.
Qed.

Lemma accumulate_ull_from (v : list Z) : forall a,
  0 <= a -> Forall (fun x => 0 <= x) v -> a + sumZ v < 2 ^ 64 ->
  fold_left (fun acc x => u64 (acc + x)) v a = a + sumZ v.
Proof.
  induction v as [|x v IH]; intros a Ha Hv Hsum; simpl in *; [lia |].
  apply Forall_cons in Hv as [Hx Hv].
  assert (0 <= sumZ v).
  { clear -Hv. induction Hv; simpl; [lia |]. unfold sumZ in *. lia. }
  unfold sumZ in *.
  assert (Hu : u64 (a + x) = a + x) by (unfold u64; apply Z.mod_small; lia).
  rewrite Hu, IH by (try done; lia). lia.
Qed.

Lemma accumulate_ull_sum (v : list Z) :
  Forall (fun x => 0 <= x) v -> sumZ v < 2 ^ 64 -> accumulate_ull v = sumZ v.
Proof.
  intros Hv Hs. unfold accumulate_ull. rewrite accumulate_ull_from; [lia | lia | done | lia].
Qed.

Lemma sumZ_nonneg (v : list Z) : Forall (fun x => 0 <= x) v -> 0 <= sumZ v.
Proof. induction 1; unfold sumZ in *; simpl; lia. Qed.

Lemma PrintReport_totals (f : TDataFrameFilterBase) :
  let accepted := sumZ (fAccepted (fSlots f)) in
  let all := accepted + sumZ (fRejected (fSlots f)) in
  Forall (fun x => 0 <= x) (fAccepted (fSlots f)) ->
  Forall (fun x => 0 <= x) (fRejected (fSlots f)) ->
  all < 2 ^ 64 ->
  PrintReport f =
  {| lName := fName f; lPass := accepted; lAll := all;
     lPerc := if decide (all > 0)
              then Qmult (Qdiv (inject_Z accepted) (inject_Z all)) (inject_Z 100)
              else 0%Q |}.
Proof.
  intros accepted all Ha Hr Hall. subst accepted all.
  pose proof (sumZ_nonneg _ Ha). pose proof (sumZ_nonneg _ Hr).
  unfold PrintReport.
  rewrite !accumulate_ull_sum by (try done; lia).
  assert (Hu : u64 (sumZ (fAccepted (fSlots f)) + sumZ (fRejected (fSlots f)))
               = sumZ (fAccepted (fSlots f)) + sumZ (fRejected (fSlots f))).
  { unfold u64. apply Z.mod_small. lia. }
  rewrite Hu. f_equal. case_decide; [reflexivity |].
  assert (sumZ (fAccepted (fSlots f)) = 0) as -> by lia. reflexivity.
Qed.

(** C10: a filter booked with the empty name has no name for [HasName];
    booking it appends it to the list of booked filters and leaves the list
    of named filters and the lines of the report as they were; and after any
    sequence of bookings on a new data frame the report has one line per
    filter booked with a non-empty name, and no other. *)
Theorem C10_empty_name_is_unnamed :
  (forall f, fName f = ""%string -> HasName f = false) /\
  (forall f df, fName f = ""%string ->
     fBookedFilters (Book_filter f df)
       = fBookedFilters df ++ [length (filterObjs (objs df))] /\
     filterObjs (objs (Book_filter f df)) !! length (filterObjs (objs df)) = Some f /\
     fBookedNamedFilters (Book_filter f df) = fBookedNamedFilters df /\
     (namedBooked df -> Impl.Report (Book_filter f df) = Impl.Report df)) /\
  (forall env tree defaultBranches fs,
     lName <$> Impl.Report (bookFilters fs (TDataFrameImpl_new env tree defaultBranches))
     = filter (fun name => name <> ""%string) (fName <$> fs)).
Proof.
  split; [| split].
  - intros f Hf. unfold HasName. by rewrite Hf.
  - intros f df Hf.
    assert (Hn : HasName f = false) by (unfold HasName; by rewrite Hf).
    split; [reflexivity |]. split; [simpl; by rewrite list_lookup_middle |].
    split; [simpl; by rewrite Hn |].
    intros Hwf. rewrite Report_Book_filter, Hn by done. by rewrite app_nil_r.
  - intros env tree defaultBranches fs.
    rewrite Report_bookFilters by apply namedBooked_new.
    unfold Impl.Report at 1. simpl.
    induction fs as [|f fs IH]; [reflexivity |].
    rewrite fmap_cons, !filter_cons.
    destruct (decide (HasName f = true)) as [Hn | Hn].
    + rewrite decide_True by by apply HasName_spec.
      rewrite !fmap_cons. simpl. f_equal. exact IH.
    + rewrite decide_False; [done |]. intros Hne. by apply Hn, HasName_spec.
Qed.

Lemma C10_empty_name_is_unnamed_witness :
  HasName (bareFilter "" Root [] (fun _ => Some true)) = false /\
  fBookedNamedFilters (Book_filter (bareFilter "" Root [] (fun _ => Some true)) dup_frame) = [].
Proof.
  split.
  - apply (proj1 C10_empty_name_is_unnamed). reflexivity.
  - apply (proj1 (proj2 C10_empty_name_is_unnamed)
             (bareFilter "" Root [] (fun _ => Some true)) dup_frame).
    reflexivity.
Defined.

End Report.

(** ** The end of a run *)

Section RunEnd.

Lemma pair_eta_snd {A B} (p : A * B) (b : B) : p.2 = b -> p = (p.1, b).
Proof. destruct p. simpl. by intros ->. Qed.

Lemma markReady_cons (j : nat) (rest : list nat) (flags : list bool) :
  markReady flags (j :: rest) = markReady (<[j := true]> flags) rest.
Proof. reflexivity. Qed.

Lemma markReady_length (registered : list nat) : forall flags,
  length (markReady flags registered) = length flags.
Proof.
  induction registered as [|i rest IH]; intros flags; [reflexivity |].
  rewrite markReady_cons, IH. apply length_insert.
Qed.

Lemma markReady_other (registered : list nat) (i : nat) : forall flags,
  i ∉ registered -> markReady flags registered !! i = flags !! i.
Proof.
  induction registered as [|j rest IH]; intros flags Hi; [reflexivity |].
  apply not_elem_of_cons in Hi as [Hne Hi].
  rewrite markReady_cons, IH by done. by apply list_lookup_insert_ne.
Qed.

Lemma markReady_true (registered : list nat) (i : nat) : forall flags,
  i ∈ registered -> (i < length flags)%nat -> markReady flags registered !! i = Some true.
Proof.
  induction registered as [|j rest IH]; intros flags Hi Hlen.
  - by apply elem_of_nil in Hi.
  - rewrite markReady_cons.
    destruct (decide (i ∈ rest)) as [Hin | Hnin].
    + apply IH; [done |]. by rewrite length_insert.
    + apply elem_of_cons in Hi as [Heq | Hi]; [subst j | done].
      rewrite markReady_other by done. by apply list_lookup_insert_eq.
Qed.

Lemma Run_ok (env : Env) (df df' : TDataFrameImpl) :
  Run env df = (df', inr tt) ->
  exists o, RunLoops env df (objs df) = (o, inr tt) /\
    df' = {| fTree := fTree df; fDefaultBranches := fDefaultBranches df;
             fNSlots := fNSlots df; fHasRunAtLeastOnce := true; fBookedActions := [];
             fBookedFilters := fBookedFilters df;
             fBookedNamedFilters := fBookedNamedFilters df;
             fResProxyReadiness := []; objs := o;
             readiness := markReady (readiness df) (fResProxyReadiness df);
             results := finalizeActions (actionObjs o) (fBookedActions df) (results df);
             nRuns := S (nRuns df) |}.
Proof.
  unfold Run. destruct (RunLoops env df (objs df)) as [o [e | []]]; [discriminate |].
  intros [= <-]. by exists o.
Qed.

Lemma Run_throws (env : Env) (df df' : TDataFrameImpl) (e : Exn) :
  Run env df = (df', inl e) ->
  exists o, RunLoops env df (objs df) = (o, inl e) /\
    df' = {| fTree := fTree df; fDefaultBranches := fDefaultBranches df;
             fNSlots := fNSlots df; fHasRunAtLeastOnce := fHasRunAtLeastOnce df;
             fBookedActions := fBookedActions df;
             fBookedFilters := fBookedFilters df;
             fBookedNamedFilters := fBookedNamedFilters df;
             fResProxyReadiness := fResProxyReadiness df; objs := o;
             readiness := readiness df; results := results df;
             nRuns := S (nRuns df) |}.
Proof.
  unfold Run. destruct (RunLoops env df (objs df)) as [o [e' | []]]; [| discriminate].
  intros [= <- <-]. by exists o.
Qed.

Lemma Run_result (env : Env) (df : TDataFrameImpl) :
  (exists df', Run env df = (df', inr tt)) \/ (exists df' e, Run env df = (df', inl e)).
Proof.
  destruct (Run env df) as [df' [e | []]]; [right | left]; eauto.
Qed.

(** C8: after a run that completes, the list of booked actions is empty,
    every readiness flag registered with the data frame is true and the
    other flags are as before, the has-run flag is true, and the booked
    filters, the named filters and the objects of the filters and temporary
    branches, counters included, are those the event loop left: the end of
    the run touches none of them. *)
Theorem C8_run_end_state (env : Env) (df df' : TDataFrameImpl) :
  Run env df = (df', inr tt) ->
  fBookedActions df' = [] /\
  fResProxyReadiness df' = [] /\
  (forall i b, i ∈ fResProxyReadiness df -> readiness df' !! i = Some b -> b = true) /\
  (forall i, i ∈ fResProxyReadiness df -> (i < length (readiness df))%nat ->
             readiness df' !! i = Some true) /\
  (forall i, i ∉ fResProxyReadiness df -> readiness df' !! i = readiness df !! i) /\
  fHasRunAtLeastOnce df' = true /\
  fBookedFilters df' = fBookedFilters df /\
  fBookedNamedFilters df' = fBookedNamedFilters df /\
  objs df' = (RunLoops env df (objs df)).1 /\
  Impl.Report df' = Impl.Report (setObjs df (RunLoops env df (objs df)).1).
Proof.
  intros Hrun. apply Run_ok in Hrun as (o & Hloop & ->). simpl. rewrite Hloop. simpl.
  repeat split; try reflexivity.
  - intros i b Hi Hb.
    assert (i < length (readiness df))%nat as Hlen.
    { apply lookup_lt_Some in Hb. by rewrite markReady_length in Hb. }
    rewrite markReady_true in Hb by done. congruence.
  - intros i Hi Hlen. by apply markReady_true.
  - intros i Hi. by apply markReady_other.
Qed.

Lemma C8_run_end_state_witness :
  fBookedActions (Run sequential s3_frame).1 = [] /\
  fHasRunAtLeastOnce (Run sequential s3_frame).1 = true /\
  readiness (Run sequential s3_frame).1 = [true].
Proof.
  assert (Hok : (Run sequential s3_frame).2 = inr tt) by (vm_compute; reflexivity).
  pose proof (C8_run_end_state sequential s3_frame (Run sequential s3_frame).1
                (pair_eta_snd _ _ Hok))
    as (Hact & _ & _ & _ & _ & Hrun & _).
  split; [exact Hact |]. split; [exact Hrun |]. vm_compute. reflexivity.
Defined.

End RunEnd.

(** ** Observing results *)

Section Observe.

Lemma vat_Some {A} (v : list A) (i : nat) (x : A) : v !! i = Some x -> vat v i = inr x.
Proof. unfold vat. by intros ->. Qed.

Lemma vat_inr {A} (v : list A) (i : nat) (x : A) : vat v i = inr x -> v !! i = Some x.
Proof. unfold vat. destruct (v !! i); [by intros [= ->] | discriminate]. Qed.

Lemma Get_unready (env : Env) (h : TActionResultProxy) (df : TDataFrameImpl) :
  readiness df !! fReadiness h = Some false ->
  Get env h df =
  ((Run env df).1,
   match (Run env df).2 with
   | inl e => inl e
   | inr _ => vat (results (Run env df).1) (fObjPtr h)
   end).
Proof.
  intros Hr. unfold Get. rewrite (vat_Some _ _ _ Hr).
  by destruct (Run env df) as [df' [e | []]].
Qed.

Lemma Get_ready (env : Env) (h : TActionResultProxy) (df : TDataFrameImpl) :
  readiness df !! fReadiness h = Some true ->
  Get env h df = (df, vat (results df) (fObjPtr h)).
Proof. intros Hr. unfold Get. by rewrite (vat_Some _ _ _ Hr). Qed.

Lemma Report_idempotent (env : Env) (df df' : TDataFrameImpl) (lines : list ReportLine) :
  Experimental.Report env df = (df', inr lines) ->
  Experimental.Report env df' = (df', inr lines).
Proof.
  unfold Experimental.Report. destruct (fHasRunAtLeastOnce df) eqn:Hran.
  - intros [= <- <-]. by rewrite Hran.
  - destruct (Run env df) as [df1 [e | []]] eqn:Hrun; [discriminate |].
    intros [= <- <-]. apply Run_ok in Hrun as (o & _ & ->). reflexivity.
Qed.

(** C1: observing a handle that is not ready, issued by the data frame,
    starts one event loop when it returns a value; observing the handle
    again returns the same value and leaves the data frame, its count of
    event loops included, as it was; and a report that printed its lines
    prints the same lines when called again, without a further run. *)
Theorem C1_observe_runs_once (env : Env) (h : TActionResultProxy)
    (df df1 : TDataFrameImpl) (v : Result) :
  readiness df !! fReadiness h = Some false ->
  fReadiness h ∈ fResProxyReadiness df ->
  Get env h df = (df1, inr v) ->
  nRuns df1 = S (nRuns df) /\
  Get env h df1 = (df1, inr v) /\
  (forall dfa dfb lines,
     Experimental.Report env dfa = (dfb, inr lines) ->
     Experimental.Report env dfb = (dfb, inr lines)).
Proof.
  intros Hunready Hreg Hget. rewrite Get_unready in Hget by done.
  destruct (Run env df) as [df' [e | []]] eqn:Hrun; simpl in Hget; [discriminate |].
  injection Hget as <- Hv.
  pose proof Hrun as Hrun'. apply Run_ok in Hrun' as (o & _ & Hdf').
  split; [by rewrite Hdf' |]. split; [| apply Report_idempotent].
  rewrite Get_ready; [by rewrite Hv |].
  rewrite Hdf'. simpl. apply markReady_true; [done |].
  by apply lookup_lt_Some in Hunready.
Qed.

Lemma C1_observe_runs_once_witness :
  (Get sequential s3_handle s3_frame).2 = inr (RCount 1) /\
  nRuns (Get sequential s3_handle s3_frame).1 = 1%nat /\
  Get sequential s3_handle (Get sequential s3_handle s3_frame).1
    = ((Get sequential s3_handle s3_frame).1, inr (RCount 1)).
Proof.
  assert (Hv : (Get sequential s3_handle s3_frame).2 = inr (RCount 1))
    by (vm_compute; reflexivity).
  split; [exact Hv |].
  pose proof (C1_observe_runs_once sequential s3_handle s3_frame
                (Get sequential s3_handle s3_frame).1 (RCount 1)
                ltac:(vm_compute; reflexivity)
                ltac:(apply list_elem_of_In; vm_compute; auto)
                (pair_eta_snd _ _ Hv)) as (Hn & Hagain & _).
  split; [exact Hn | exact Hagain].
Defined.

(** When the event loop throws, the exception leaves [Run] and reaches
    the caller that observed the handle; no readiness flag changes, so every
    handle that was not ready stays so; the booked actions, the registered
    flags and the has-run flag are as before; and observing such a handle
    again starts a further event loop, whose exception, if it throws again,
    is raised again. *)
Lemma failed_run_leaves_unready (env : Env) (df df' : TDataFrameImpl) (e : Exn) :
  Run env df = (df', inl e) ->
  (RunLoops env df (objs df)).2 = inl e /\
  readiness df' = readiness df /\
  fResProxyReadiness df' = fResProxyReadiness df /\
  fBookedActions df' = fBookedActions df /\
  fHasRunAtLeastOnce df' = fHasRunAtLeastOnce df /\
  forall h, readiness df !! fReadiness h = Some false ->
    Get env h df = (df', inl e) /\
    readiness df' !! fReadiness h = Some false /\
    nRuns (Get env h df').1 = S (nRuns df') /\
    (forall df'' e', Run env df' = (df'', inl e') -> Get env h df' = (df'', inl e')).
Proof.
  intros Hrun. pose proof Hrun as Hrun'.
  apply Run_throws in Hrun' as (o & Hloop & Hdf').
  split; [by rewrite Hloop |].
  split; [by rewrite Hdf' |]. split; [by rewrite Hdf' |].
  split; [by rewrite Hdf' |]. split; [by rewrite Hdf' |].
  intros h Hunready.
  assert (Hstill : readiness df' !! fReadiness h = Some false) by by rewrite Hdf'.
  split; [by rewrite Get_unready, Hrun |]. split; [done |].
  rewrite Get_unready by done. simpl. split.
  - destruct (Run_result env df') as [[df2 H2] | (df2 & e2 & H2)]; rewrite H2; simpl.
    + apply Run_ok in H2 as (o2 & _ & ->). reflexivity.
    + apply Run_throws in H2 as (o2 & _ & ->). reflexivity.
  - intros df'' e' H2. by rewrite H2.
Qed.

End Observe.

(** ** The cutflow report *)

Section Cutflow.

Lemma Report_lines (df : TDataFrameImpl) :
  namedBooked df ->
  exists fs,
    Forall2 (fun id f => filterObjs (objs df) !! id = Some f) (fBookedNamedFilters df) fs /\
    Impl.Report df = PrintReport <$> fs.
Proof.
  unfold namedBooked, Impl.Report.
  induction 1 as [|id ids Hid _ (fs & Hfs & IH)].
  - exists []. split; [constructor | reflexivity].
  - destruct (lookup_lt_is_Some_2 _ _ Hid) as [f Hf].
    exists (f :: fs). split; [by constructor |].
    unfold omap in *. simpl. rewrite Hf. simpl. by rewrite IH.
Qed.

(** C3: the report runs the event loop first when none has run, and only
    then; it prints one line per booked named filter, in the order of the
    bookings (a newly booked named filter adds its line at the end); and a
    line carries the filter's name, the accepted counts summed over the
    slots, that sum plus the rejected counts summed over the slots, and the
    percentage accepted / all times 100 when all is positive, zero
    otherwise (the counters being non-negative with a total below 2^64). *)
Theorem C3_report_lines (env : Env) (df : TDataFrameImpl) :
  (fHasRunAtLeastOnce df = false ->
     nRuns (Experimental.Report env df).1 = S (nRuns df) /\
     forall df', Run env df = (df', inr tt) ->
                 Experimental.Report env df = (df', inr (Impl.Report df'))) /\
  (fHasRunAtLeastOnce df = true ->
     Experimental.Report env df = (df, inr (Impl.Report df))) /\
  (namedBooked df ->
     (exists fs,
        Forall2 (fun id f => filterObjs (objs df) !! id = Some f)
                (fBookedNamedFilters df) fs /\
        Impl.Report df = PrintReport <$> fs) /\
     forall f, Impl.Report (Book_filter f df)
               = Impl.Report df ++ (if HasName f then [PrintReport f] else [])) /\
  (forall f,
     let accepted := sumZ (fAccepted (fSlots f)) in
     let all := accepted + sumZ (fRejected (fSlots f)) in
     Forall (fun x => 0 <= x) (fAccepted (fSlots f)) ->
     Forall (fun x => 0 <= x) (fRejected (fSlots f)) ->
     all < 2 ^ 64 ->
     PrintReport f =
     {| lName := fName f; lPass := accepted; lAll := all;
        lPerc := if decide (all > 0)
                 then Qmult (Qdiv (inject_Z accepted) (inject_Z all)) (inject_Z 100)
                 else 0%Q |}).
Proof.
  split; [| split; [| split]].
  - intros Hran. unfold Experimental.Report. rewrite Hran. split.
    + destruct (Run_result env df) as [[df2 H2] | (df2 & e2 & H2)]; rewrite H2; simpl.
      * apply Run_ok in H2 as (o2 & _ & ->). reflexivity.
      * apply Run_throws in H2 as (o2 & _ & ->). reflexivity.
    + intros df' Hrun. by rewrite Hrun.
  - intros Hran. unfold Experimental.Report. by rewrite Hran.
  - intros Hwf. split; [by apply Report_lines |].
    intros f. by apply Report_Book_filter.
  - intros f. apply PrintReport_totals.
Qed.

Lemma C3_report_lines_witness :
  Experimental.Report sequential s3_frame
    = ((Run sequential s3_frame).1, inr (Impl.Report (Run sequential s3_frame).1)) /\
  Impl.Report (Run sequential s3_frame).1
    = [ {| lName := "gt1"; lPass := 2; lAll := 3; lPerc := Qmake 200 3 |};
        {| lName := "lt3"; lPass := 1; lAll := 2; lPerc := Qmake 100 2 |} ].
Proof.
  assert (Hok : (Run sequential s3_frame).2 = inr tt) by (vm_compute; reflexivity).
  split; [| vm_compute; reflexivity].
  apply (proj2 (proj1 (C3_report_lines sequential s3_frame) ltac:(vm_compute; reflexivity))
           (Run sequential s3_frame).1 (pair_eta_snd _ _ Hok)).
Defined.

End Cutflow.

(** ** Computations that stay within a relation on the objects *)

Section Respects.
Context (R : Objects -> Objects -> Prop) `{!Reflexive R} `{!Transitive R}.

Definition respects {A} (c : M A) : Prop := forall o, R o (c o).1.

Lemma respects_ret {A} (x : A) : respects (ret x).
Proof. intros o. simpl. reflexivity. Qed.

Lemma respects_lift {A} (r : Exn + A) : respects (lift r).
Proof. intros o. simpl. reflexivity. Qed.

Lemma respects_call {A} (r : option A) : respects (call r).
Proof. apply respects_lift. Qed.

Lemma respects_getFilter id : respects (getFilter id).
Proof. intros o. simpl. reflexivity. Qed.

Lemma respects_getAction id : respects (getAction id).
Proof. intros o. simpl. reflexivity. Qed.

Lemma respects_bind {A B} (c : M A) (k : A -> M B) :
  respects c -> (forall x, respects (k x)) -> respects (bind c k).
Proof.
  intros Hc Hk o. unfold bind. specialize (Hc o).
  destruct (c o) as [o1 [e | x]]; simpl in *; [done |].
  etrans; [exact Hc | apply Hk].
Qed.

Lemma respects_forEach {A} (body : A -> M unit) (xs : list A) :
  (forall x, respects (body x)) -> respects (forEach body xs).
Proof.
  intros Hbody. induction xs as [|x xs IH]; simpl.
  - apply respects_ret.
  - apply respects_bind; [apply Hbody | intros _; exact IH].
Qed.

Lemma respects_mapM {A B} (f : A -> M B) (xs : list A) :
  (forall x, respects (f x)) -> respects (mapM_ f xs).
Proof.
  intros Hf. induction xs as [|x xs IH]; simpl.
  - apply respects_ret.
  - apply respects_bind; [apply Hf |]. intros y.
    apply respects_bind; [exact IH |]. intros ys. apply respects_ret.
Qed.

(** The event loop at one slot and entry, given what its writes do. *)
Context (tree : TTree) (slot : nat) (entry : Z).
Hypothesis respects_updateFilter :
  forall id passed count, respects (updateFilter id slot entry passed count).
Hypothesis respects_updateBranch :
  forall name v, respects (updateBranch name slot entry v).
Hypothesis respects_updateAction :
  forall id args, respects (updateAction id slot args).
Hypothesis respects_logFilter : forall id, respects (logEv (EvFilter id slot entry)).
Hypothesis respects_logBranch : forall name, respects (logEv (EvBranch name slot entry)).

Lemma respects_ReadValue (tmpValue : string -> M Z) tmp x :
  (forall name, respects (tmpValue name)) ->
  respects (ReadValue tmpValue tree tmp entry x).
Proof.
  intros Htmp. unfold ReadValue. case_bool_decide; [apply Htmp | apply respects_lift].
Qed.

Lemma respects_GetTmpBranchValue (fuel : nat) : forall name,
  respects (GetTmpBranchValue fuel tree slot entry name).
Proof.
  induction fuel as [|fuel IH]; intros name o; simpl; [reflexivity |].
  destruct (fBookedBranches o !! name) as [b |]; simpl; [| reflexivity].
  revert o. change (respects (GetValue (GetTmpBranchValue fuel tree slot entry) tree name
                                       b slot entry)).
  unfold GetValue. apply respects_bind; [apply respects_lift |]. intros last.
  case_decide; [apply respects_lift |].
  apply respects_bind; [apply respects_mapM; intros x; by apply respects_ReadValue |].
  intros args. apply respects_bind; [apply respects_logBranch |]. intros _.
  apply respects_bind; [apply respects_call |]. intros v.
  apply respects_bind; [apply respects_updateBranch |]. intros _. apply respects_ret.
Qed.

Lemma respects_ReadValues (fuel : nat) tmp branches :
  respects (ReadValues fuel tree tmp branches slot entry).
Proof.
  unfold ReadValues. apply respects_mapM. intros x.
  apply respects_ReadValue. apply respects_GetTmpBranchValue.
Qed.

Lemma respects_CheckFilters (fuel : nat) (p : Node) :
  respects (CheckFilters fuel tree slot entry p).
Proof.
  induction p as [|id prev IH|name prev IH]; simpl; [apply respects_ret | | exact IH].
  apply respects_bind; [apply respects_getFilter |]. intros f.
  apply respects_bind; [apply respects_lift |]. intros last.
  case_decide; [apply respects_lift |].
  apply respects_bind; [exact IH |]. intros [|].
  - apply respects_bind; [apply respects_ReadValues |]. intros args.
    apply respects_bind; [apply respects_logFilter |]. intros _.
    apply respects_bind; [apply respects_call |]. intros passed.
    apply respects_bind; [apply respects_updateFilter |]. intros _. apply respects_ret.
  - apply respects_bind; [apply respects_updateFilter |]. intros _. apply respects_ret.
Qed.

Lemma respects_Action_Run (fuel : nat) (id : nat) :
  respects (Action_Run fuel tree slot entry id).
Proof.
  unfold Action_Run. apply respects_bind; [apply respects_getAction |]. intros a.
  apply respects_bind; [apply respects_CheckFilters |]. intros [|]; [| apply respects_ret].
  apply respects_bind; [apply respects_ReadValues |]. intros args.
  apply respects_updateAction.
Qed.

Lemma respects_ProcessEntry (fuel : nat) (actions named : list nat) :
  respects (ProcessEntry fuel tree actions named slot entry).
Proof.
  unfold ProcessEntry. apply respects_bind.
  - apply respects_forEach. intros id. apply respects_Action_Run.
  - intros _. apply respects_forEach. intros id.
    apply respects_bind; [| intros _; apply respects_ret].
    unfold Filter_CheckFilters. apply respects_bind; [apply respects_getFilter |].
    intros f. apply respects_CheckFilters.
Qed.

End Respects.

(** ** What the processing of one entry in one slot may change *)

Section Step.
Import Semantics.
Context (slot : nat) (entry : Z).

(** A cache of last checked entries moves, if at all, at [slot] and to
    [entry]. *)
Definition cacheStep (old new : list Z) : Prop :=
  forall i, new !! i = old !! i \/ (i = slot /\ new !! i = Some entry).

Definition nonneg (v : list Z) : Prop := Forall (fun x => 0 <= x) v.

Definition stepF (f f' : TDataFrameFilterBase) : Prop :=
  eraseF f' = eraseF f /\
  cacheStep (fLastCheckedEntry (fSlots f)) (fLastCheckedEntry (fSlots f')) /\
  (nonneg (fAccepted (fSlots f)) -> nonneg (fAccepted (fSlots f'))) /\
  (nonneg (fRejected (fSlots f)) -> nonneg (fRejected (fSlots f'))).

Definition stepB (b b' : TDataFrameBranchBase) : Prop :=
  eraseB b' = eraseB b /\
  cacheStep (bLastCheckedEntry (bSlots b)) (bLastCheckedEntry (bSlots b')).

Definition stepA (a a' : TDataFrameActionBase) : Prop := eraseA a' = eraseA a.

Record Step (o o' : Objects) : Prop := {
  step_filters : forall id, option_Forall2 stepF (filterObjs o !! id) (filterObjs o' !! id);
  step_branches : forall name,
    option_Forall2 stepB (fBookedBranches o !! name) (fBookedBranches o' !! name);
  step_actions : forall id, option_Forall2 stepA (actionObjs o !! id) (actionObjs o' !! id);
  step_log : exists added,
    evLog o' = evLog o ++ added /\
    Forall (fun e => evSlot e = slot /\ evEntry e = entry) added
}.

Lemma cacheStep_refl v : cacheStep v v.
Proof. intros i. by left. Qed.

Lemma cacheStep_trans u v w : cacheStep u v -> cacheStep v w -> cacheStep u w.
Proof.
  intros Huv Hvw i. destruct (Hvw i) as [Hw | Hw]; [| by right].
  rewrite Hw. apply Huv.
Qed.

#[global] Instance stepF_refl : Reflexive stepF.
Proof. intros f. repeat split; auto using cacheStep_refl. Qed.

#[global] Instance stepF_trans : Transitive stepF.
Proof.
  intros f g h (He1 & Hc1 & Ha1 & Hr1) (He2 & Hc2 & Ha2 & Hr2).
  repeat split; [congruence | by eapply cacheStep_trans | auto | auto].
Qed.

#[global] Instance stepB_refl : Reflexive stepB.
Proof. intros b. split; auto using cacheStep_refl. Qed.

#[global] Instance stepB_trans : Transitive stepB.
Proof.
  intros f g h (He1 & Hc1) (He2 & Hc2). split; [congruence | by eapply cacheStep_trans].
Qed.

#[global] Instance stepA_refl : Reflexive stepA.
Proof. by intros a. Qed.

#[global] Instance stepA_trans : Transitive stepA.
Proof. unfold stepA. intros a b c. congruence. Qed.

#[global] Instance Step_refl : Reflexive Step.
Proof.
  intros o. split; try (intros; reflexivity).
  exists []. by rewrite app_nil_r.
Qed.

#[global] Instance Step_trans : Transitive Step.
Proof.
  intros o1 o2 o3 [Hf1 Hb1 Ha1 (l1 & Hl1 & He1)] [Hf2 Hb2 Ha2 (l2 & Hl2 & He2)].
  split.
  - intros id. etrans; [apply Hf1 | apply Hf2].
  - intros name. etrans; [apply Hb1 | apply Hb2].
  - intros id. etrans; [apply Ha1 | apply Ha2].
  - exists (l1 ++ l2). split; [by rewrite Hl2, Hl1, app_assoc | by apply Forall_app].
Qed.

Lemma vset_inr {A} (v : list A) (i : nat) (x : A) (v' : list A) :
  vset v i x = inr v' -> (i < length v)%nat /\ v' = <[i := x]> v.
Proof. unfold vset. case_decide; [by intros [= <-] | discriminate]. Qed.

Lemma err_bind_inr {A B} (r : Exn + A) (k : A -> Exn + B) (y : B) :
  err_bind r k = inr y -> exists x, r = inr x /\ k x = inr y.
Proof. destruct r as [e | x]; simpl; [discriminate | eauto]. Qed.

Lemma cacheStep_insert (v : list Z) : cacheStep v (<[slot := entry]> v).
Proof.
  intros i. rewrite list_lookup_insert. case_decide as Hi; [| by left].
  destruct Hi as [<- _]. by right.
Qed.

Lemma nonneg_insert_u64 (v : list Z) (i : nat) (n : Z) :
  nonneg v -> nonneg (<[i := u64 n]> v).
Proof.
  intros Hv. apply Forall_insert; [done |].
  unfold u64. apply Z.mod_pos_bound. lia.
Qed.

Lemma cacheResult_inr passed count (s s' : FilterSlots) :
  cacheResult slot entry passed count s = inr s' ->
  fReaderValues s' = fReaderValues s /\
  fLastCheckedEntry s' = <[slot := entry]> (fLastCheckedEntry s) /\
  (slot < length (fLastCheckedEntry s))%nat /\
  fLastResult s' = <[slot := passed]> (fLastResult s) /\
  (slot < length (fLastResult s))%nat /\
  ((count = false /\ fAccepted s' = fAccepted s /\ fRejected s' = fRejected s) \/
   (count = true /\ passed = true /\ fRejected s' = fRejected s /\
    exists n, fAccepted s !! slot = Some n /\
              fAccepted s' = <[slot := u64 (n + 1)]> (fAccepted s)) \/
   (count = true /\ passed = false /\ fAccepted s' = fAccepted s /\
    exists n, fRejected s !! slot = Some n /\
              fRejected s' = <[slot := u64 (n + 1)]> (fRejected s))).
Proof.
  unfold cacheResult. intros H.
  apply err_bind_inr in H as ([acc rej] & Hcnt & H).
  apply err_bind_inr in H as (lr & Hlr & H).
  apply err_bind_inr in H as (lc & Hlc & H).
  injection H as <-. simpl.
  apply vset_inr in Hlr as [? ->]. apply vset_inr in Hlc as [? ->].
  repeat (split; [done |]).
  destruct count; [| injection Hcnt as <- <-; by left].
  right. destruct passed.
  - apply err_bind_inr in Hcnt as (n & Hn & Hcnt).
    apply err_bind_inr in Hcnt as (acc' & Hacc & Hcnt).
    injection Hcnt as <- <-. apply vset_inr in Hacc as [? ->].
    apply vat_inr in Hn. left. eauto 10.
  - apply err_bind_inr in Hcnt as (n & Hn & Hcnt).
    apply err_bind_inr in Hcnt as (rej' & Hrej & Hcnt).
    injection Hcnt as <- <-. apply vset_inr in Hrej as [? ->].
    apply vat_inr in Hn. right. eauto 10.
Qed.

Lemma cacheResult_stepF passed count (f : TDataFrameFilterBase) (s' : FilterSlots) :
  cacheResult slot entry passed count (fSlots f) = inr s' -> stepF f (setFSlots f s').
Proof.
  intros H. apply cacheResult_inr in H as (_ & Hlc & _ & _ & _ & Hcnt).
  split; [reflexivity |]. simpl. split; [rewrite Hlc; apply cacheStep_insert |].
  destruct Hcnt as [(_ & -> & ->) | [(_ & _ & -> & n & _ & ->) | (_ & _ & -> & n & _ & ->)]];
    split; auto using nonneg_insert_u64.
Qed.

Lemma Step_updateFilter id passed count :
  respects Step (updateFilter id slot entry passed count).
Proof.
  intros o. unfold updateFilter, bind, getFilter, lift, putFilterSlots.
  destruct (vat (filterObjs o) id) as [e | f] eqn:Hf; simpl; [reflexivity |].
  destruct (cacheResult slot entry passed count (fSlots f)) as [e | s'] eqn:Hc; simpl;
    [reflexivity |].
  apply vat_inr in Hf. split; simpl; try (intros; reflexivity).
  - intros id'. rewrite list_lookup_alter. case_decide; [subst id' | reflexivity].
    rewrite Hf. simpl. constructor. by eapply cacheResult_stepF.
  - exists []. by rewrite app_nil_r.
Qed.

Lemma cacheValue_inr v (s s' : BranchSlots) :
  cacheValue slot entry v s = inr s' ->
  bReaderValues s' = bReaderValues s /\
  bLastCheckedEntry s' = <[slot := entry]> (bLastCheckedEntry s) /\
  (slot < length (bLastCheckedEntry s))%nat /\
  bLastResult s' = <[slot := v]> (bLastResult s) /\
  (slot < length (bLastResult s))%nat.
Proof.
  unfold cacheValue. intros H.
  apply err_bind_inr in H as (lr & Hlr & H).
  apply err_bind_inr in H as (lc & Hlc & H).
  injection H as <-. simpl.
  apply vset_inr in Hlr as [? ->]. apply vset_inr in Hlc as [? ->]. done.
Qed.

Lemma Step_updateBranch name v : respects Step (updateBranch name slot entry v).
Proof.
  intros o. unfold updateBranch.
  destruct (fBookedBranches o !! name) as [b |] eqn:Hb; simpl; [| reflexivity].
  unfold bind, lift, putBranchSlots.
  destruct (cacheValue slot entry v (bSlots b)) as [e | s'] eqn:Hc; simpl; [reflexivity |].
  apply cacheValue_inr in Hc as (_ & Hlc & _).
  split; simpl; try (intros; reflexivity).
  - intros name'. rewrite lookup_alter. case_decide; [subst name' | reflexivity].
    rewrite Hb. simpl. constructor. split; [reflexivity |]. simpl.
    rewrite Hlc. apply cacheStep_insert.
  - exists []. by rewrite app_nil_r.
Qed.

Lemma Step_updateAction id args : respects Step (updateAction id slot args).
Proof.
  intros o. unfold updateAction, bind, getAction, lift, putAction.
  destruct (vat (actionObjs o) id) as [e | a] eqn:Ha; simpl; [reflexivity |].
  destruct (Exec slot args (aHelper a)) as [e | h]; simpl; [reflexivity |].
  apply vat_inr in Ha. split; simpl; try (intros; reflexivity).
  - intros id'. rewrite list_lookup_insert. case_decide as Hid; [| reflexivity].
    destruct Hid as [<- _]. rewrite Ha. by constructor.
  - exists []. by rewrite app_nil_r.
Qed.

Lemma Step_logEv (e : Event) :
  evSlot e = slot -> evEntry e = entry -> respects Step (logEv e).
Proof.
  intros Hs He o. split; simpl; try (intros; reflexivity).
  exists [e]. split; [done |]. by repeat constructor.
Qed.

Lemma Step_ProcessEntry tree fuel actions named :
  respects Step (ProcessEntry fuel tree actions named slot entry).
Proof.
  apply respects_ProcessEntry; try apply _;
    auto using Step_updateFilter, Step_updateBranch, Step_updateAction.
  - intros id. by apply Step_logEv.
  - intros name. by apply Step_logEv.
Qed.

Lemma Step_CheckFilters tree fuel p :
  respects Step (CheckFilters fuel tree slot entry p).
Proof.
  apply respects_CheckFilters; try apply _;
    auto using Step_updateFilter, Step_updateBranch.
  - intros id. by apply Step_logEv.
  - intros name. by apply Step_logEv.
Qed.

Lemma Step_GetTmpBranchValue tree fuel name :
  respects Step (GetTmpBranchValue fuel tree slot entry name).
Proof.
  apply respects_GetTmpBranchValue; try apply _; auto using Step_updateBranch.
  intros name'. by apply Step_logEv.
Qed.

Lemma Step_ReadValues tree fuel tmp branches :
  respects Step (ReadValues fuel tree tmp branches slot entry).
Proof.
  apply respects_ReadValues; try apply _; auto using Step_updateBranch.
  intros name'. by apply Step_logEv.
Qed.

Lemma Step_shape (o o' : Objects) : Step o o' -> shape o' = shape o.
Proof.
  intros [Hf Hb Ha _]. unfold shape. f_equal.
  - apply list_eq. intros i. rewrite !list_lookup_fmap.
    destruct (Hf i) as [f f' (He & _) |]; simpl; [by rewrite He | done].
  - apply map_eq. intros k. rewrite !lookup_fmap.
    destruct (Hb k) as [b b' (He & _) |]; simpl; [by rewrite He | done].
  - apply list_eq. intros i. rewrite !list_lookup_fmap.
    destruct (Ha i) as [a a' He |]; simpl; [by rewrite He | done].
Qed.

End Step.

(** ** Postconditions *)

Section Wp.

Definition wp {A} (c : M A) (o : Objects) (Q : Objects -> Exn + A -> Prop) : Prop :=
  Q (c o).1 (c o).2.

Lemma wp_elim {A} (c : M A) o o' r (Q : Objects -> Exn + A -> Prop) :
  wp c o Q -> c o = (o', r) -> Q o' r.
Proof. unfold wp. intros H Heq. by rewrite Heq in H. Qed.

Lemma wp_mono {A} (c : M A) o (Q Q' : Objects -> Exn + A -> Prop) :
  wp c o Q -> (forall o' r, Q o' r -> Q' o' r) -> wp c o Q'.
Proof. unfold wp. auto. Qed.

Lemma wp_ret {A} (x : A) o (Q : Objects -> Exn + A -> Prop) :
  Q o (inr x) -> wp (ret x) o Q.
Proof. done. Qed.

Lemma wp_lift {A} (r : Exn + A) o (Q : Objects -> Exn + A -> Prop) :
  Q o r -> wp (lift r) o Q.
Proof. done. Qed.

Lemma wp_bind {A B} (c : M A) (k : A -> M B) o (Q : Objects -> Exn + B -> Prop) :
  wp c o (fun o1 r => match r with
                      | inl e => Q o1 (inl e)
                      | inr x => wp (k x) o1 Q
                      end) ->
  wp (bind c k) o Q.
Proof.
  unfold wp, bind. destruct (c o) as [o1 [e | x]]; simpl; done.
Qed.

Lemma wp_respects {A} (R : Objects -> Objects -> Prop) (c : M A) o :
  respects R c -> wp c o (fun o' _ => R o o').
Proof. intros H. apply H. Qed.

Lemma wp_and {A} (c : M A) o (Q1 Q2 : Objects -> Exn + A -> Prop) :
  wp c o Q1 -> wp c o Q2 -> wp c o (fun o' r => Q1 o' r /\ Q2 o' r).
Proof. unfold wp. auto. Qed.

(** A loop keeps an invariant that each of its iterations keeps. *)
Lemma wp_forEach {A} (I : Objects -> Prop) (body : A -> M unit) (xs : list A) o :
  I o ->
  (forall x o1, x ∈ xs -> I o1 -> wp (body x) o1 (fun o2 _ => I o2)) ->
  wp (forEach body xs) o (fun o' _ => I o').
Proof.
  revert o. induction xs as [|x xs IH]; intros o HI Hbody; simpl; [done |].
  apply wp_bind. eapply wp_mono; [apply Hbody; [by left | done] |].
  intros o1 [e | []] HI1; [done |].
  apply IH; [done |]. intros y o2 Hy. apply Hbody. by right.
Qed.

Lemma wp_mapM {A B} (I : Objects -> Prop) (f : A -> M B) (xs : list A) o :
  I o ->
  (forall x o1, x ∈ xs -> I o1 -> wp (f x) o1 (fun o2 _ => I o2)) ->
  wp (mapM_ f xs) o (fun o' _ => I o').
Proof.
  revert o. induction xs as [|x xs IH]; intros o HI Hf; simpl; [done |].
  apply wp_bind. eapply wp_mono; [apply Hf; [by left | done] |].
  intros o1 [e | y] HI1; [done |].
  apply wp_bind. eapply wp_mono; [apply IH; [done |] |].
  - intros z o2 Hz. apply Hf. by right.
  - intros o2 [e | ys] HI2; done.
Qed.

(** A loop that succeeds keeps an invariant that its successful iterations
    keep. *)
Lemma wp_forEach_ok {A} (I : Objects -> Prop) (body : A -> M unit) (xs : list A) o :
  I o ->
  (forall x o1, x ∈ xs -> I o1 ->
     wp (body x) o1 (fun o2 r => match r with inr _ => I o2 | inl _ => True end)) ->
  wp (forEach body xs) o (fun o' r => match r with inr _ => I o' | inl _ => True end).
Proof.
  revert o. induction xs as [|x xs IH]; intros o HI Hbody; simpl; [done |].
  apply wp_bind. eapply wp_mono; [apply Hbody; [by left | done] |].
  intros o1 [e | []] HI1; [done |].
  apply IH; [done |]. intros y o2 Hy. apply Hbody. by right.
Qed.

End Wp.

(** ** What a check or a read leaves alone *)

Section Frames.
Import Semantics.
Context (tree : TTree) (slot : nat) (entry : Z).

(** Reading columns changes neither filters nor actions. *)
Definition sameFiltersActions (o o' : Objects) : Prop :=
  filterObjs o' = filterObjs o /\ actionObjs o' = actionObjs o.

#[local] Instance sameFiltersActions_refl : Reflexive sameFiltersActions.
Proof. by intros o. Qed.

#[local] Instance sameFiltersActions_trans : Transitive sameFiltersActions.
Proof. intros o1 o2 o3 [? ?] [? ?]. split; congruence. Qed.

Lemma ReadValues_sameFiltersActions fuel tmp branches :
  respects sameFiltersActions (ReadValues fuel tree tmp branches slot entry).
Proof.
  apply respects_ReadValues; try apply _.
  - intros name v o. unfold updateBranch.
    destruct (fBookedBranches o !! name) as [b |]; simpl; [| done].
    unfold bind, lift. destruct (cacheValue slot entry v (bSlots b)); done.
  - intros name o. done.
Qed.

(** Checking a chain changes no action. *)
Definition sameActions (o o' : Objects) : Prop := actionObjs o' = actionObjs o.

#[local] Instance sameActions_refl : Reflexive sameActions.
Proof. by intros o. Qed.

#[local] Instance sameActions_trans : Transitive sameActions.
Proof. unfold sameActions. intros o1 o2 o3. congruence. Qed.

Lemma updateFilter_sameActions id passed count :
  respects sameActions (updateFilter id slot entry passed count).
Proof.
  intros o. unfold updateFilter, bind, getFilter, lift.
  destruct (vat (filterObjs o) id) as [e | f]; simpl; [done |].
  destruct (cacheResult slot entry passed count (fSlots f)); done.
Qed.

Lemma updateBranch_sameActions name v :
  respects sameActions (updateBranch name slot entry v).
Proof.
  intros o. unfold updateBranch.
  destruct (fBookedBranches o !! name) as [b |]; simpl; [| done].
  unfold bind, lift. destruct (cacheValue slot entry v (bSlots b)); done.
Qed.

Lemma CheckFilters_sameActions fuel p :
  respects sameActions (CheckFilters fuel tree slot entry p).
Proof.
  apply respects_CheckFilters; try apply _;
    auto using updateFilter_sameActions, updateBranch_sameActions; by intros ? ?.
Qed.

(** Checking a chain changes no filter booked after the filters of the
    chain. *)
Definition keepsFilter (id : nat) (o o' : Objects) : Prop :=
  filterObjs o' !! id = filterObjs o !! id.

#[local] Instance keepsFilter_refl id : Reflexive (keepsFilter id).
Proof. by intros o. Qed.

#[local] Instance keepsFilter_trans id : Transitive (keepsFilter id).
Proof. unfold keepsFilter. intros o1 o2 o3. congruence. Qed.

Lemma updateFilter_keepsFilter id id' passed count :
  id' <> id -> respects (keepsFilter id) (updateFilter id' slot entry passed count).
Proof.
  intros Hne o. unfold updateFilter, bind, getFilter, lift, keepsFilter.
  destruct (vat (filterObjs o) id') as [e | f]; simpl; [done |].
  destruct (cacheResult slot entry passed count (fSlots f)); simpl; [done |].
  by apply list_lookup_alter_ne.
Qed.

Lemma ReadValues_keepsFilter id fuel tmp branches :
  respects (keepsFilter id) (ReadValues fuel tree tmp branches slot entry).
Proof.
  intros o. destruct (ReadValues_sameFiltersActions fuel tmp branches o) as [Hf _].
  unfold keepsFilter. by rewrite Hf.
Qed.

Lemma CheckFilters_keepsFilter fuel (id : nat) (p : Node) :
  pathBelow id p = true ->
  respects (keepsFilter id) (CheckFilters fuel tree slot entry p).
Proof.
  induction p as [|id' prev IH|name prev IH]; simpl; intros Hp;
    [apply respects_ret; apply _ | | by apply IH].
  apply andb_prop in Hp as [Hlt Hp]. apply bool_decide_eq_true in Hlt.
  assert (id' <> id) by lia.
  apply respects_bind; [apply _ | by intros ? | intros f].
  apply respects_bind; [apply _ | by intros ? | intros last].
  case_decide; [by intros ? |].
  apply respects_bind; [apply _ | by apply IH | intros [|]].
  - apply respects_bind; [apply _ | apply ReadValues_keepsFilter | intros args].
    apply respects_bind; [apply _ | by intros ? | intros _].
    apply respects_bind; [apply _ | by intros ? | intros passed].
    apply respects_bind; [apply _ | by apply updateFilter_keepsFilter | intros _].
    by intros ?.
  - apply respects_bind; [apply _ | by apply updateFilter_keepsFilter | intros _].
    by intros ?.
Qed.

(** With the temporary branches ranked above their inputs, the value of a
    branch is computed without a write to a branch of higher rank. *)
Definition rankedBy (rank : string -> nat) (sb : gmap string TDataFrameBranchBase) : Prop :=
  forall name b x,
    sb !! name = Some b -> x ∈ bBranches b -> x ∈ bTmpBranches b ->
    (rank x < rank name)%nat.

Definition keepsAbove (rank : string -> nat) (n : nat) (o o' : Objects) : Prop :=
  forall name, (n < rank name)%nat ->
               fBookedBranches o' !! name = fBookedBranches o !! name.

Lemma updateBranch_keeps name name' v (o : Objects) :
  name' <> name ->
  fBookedBranches (updateBranch name slot entry v o).1 !! name'
  = fBookedBranches o !! name'.
Proof.
  intros Hne. unfold updateBranch.
  destruct (fBookedBranches o !! name) as [b |]; simpl; [| done].
  unfold bind, lift. destruct (cacheValue slot entry v (bSlots b)); simpl; [done |].
  by apply lookup_alter_ne.
Qed.

Lemma GetTmpBranchValue_keepsAbove (rank : string -> nat) (fuel : nat) :
  forall name o,
    rankedBy rank (sBranches (shape o)) ->
    wp (GetTmpBranchValue fuel tree slot entry name) o
       (fun o' _ => keepsAbove rank (rank name) o o').
Proof.
  induction fuel as [|fuel IH]; intros name o Hrank; simpl; [by intros ? |].
  unfold wp. destruct (fBookedBranches o !! name) as [b |] eqn:Hb; simpl; [| by intros ?].
  change (wp (GetValue (GetTmpBranchValue fuel tree slot entry) tree name b slot entry) o
             (fun o' _ => keepsAbove rank (rank name) o o')).
  unfold GetValue. apply wp_bind, wp_lift. destruct (vat _ _) as [e | last]; [by intros ? |].
  case_decide; [apply wp_lift; by intros ? |].
  assert (Hin : forall x, x ∈ bBranches b -> x ∈ bTmpBranches b -> (rank x < rank name)%nat).
  { intros x Hx Ht. apply (Hrank name (eraseB b)); [| done | done].
    unfold shape. simpl. by rewrite lookup_fmap, Hb. }
  apply wp_bind.
  eapply wp_mono.
  { apply (wp_mapM (fun o1 => Step slot entry o o1 /\
                              forall z, (rank name <= rank z)%nat ->
                                        fBookedBranches o1 !! z = fBookedBranches o !! z)).
    - split; [reflexivity | done].
    - intros x o1 Hx [Hstep Hkeep]. unfold ReadValue. case_bool_decide as Ht.
      + eapply wp_mono.
        { apply wp_and; [apply (wp_respects (Step slot entry)),
                                Step_GetTmpBranchValue |].
          apply IH. rewrite (Step_shape _ _ _ _ Hstep). exact Hrank. }
        simpl. intros o2 _ [Hstep2 Hkeep2]. split; [by etrans |].
        intros z Hz. rewrite Hkeep2, Hkeep; [done | done |].
        specialize (Hin x Hx Ht). lia.
      + apply wp_lift. done. }
  simpl. intros o1 [e | args] [Hstep Hkeep]; [intros z Hz; apply Hkeep; lia |].
  apply wp_bind. unfold wp at 1. simpl.
  apply wp_bind, wp_lift.
  destruct (bExpression b args) as [v |]; simpl; [| intros z Hz; apply Hkeep; lia].
  apply wp_bind. unfold wp at 1.
  destruct (updateBranch name slot entry v _) as [o2 [e | []]] eqn:Hupd; simpl.
  - intros z Hz. replace o2 with (updateBranch name slot entry v (setEvLog o1 (evLog o1 ++ [EvBranch name slot entry]))).1
      by by rewrite Hupd.
    rewrite updateBranch_keeps by (intros ->; lia). simpl. apply Hkeep. lia.
  - apply wp_ret. intros z Hz.
    replace o2 with (updateBranch name slot entry v (setEvLog o1 (evLog o1 ++ [EvBranch name slot entry]))).1
      by by rewrite Hupd.
    rewrite updateBranch_keeps by (intros ->; lia). simpl. apply Hkeep. lia.
Qed.

End Frames.

Section WpLoops.

(** Loops whose iterations keep [I] while they succeed and establish [E]
    when they throw. *)
Definition okOr {A} (I E : Objects -> Prop) (o : Objects) (r : Exn + A) : Prop :=
  match r with inr _ => I o | inl _ => E o end.

Lemma wp_forEach_okOr {A} (I E : Objects -> Prop) (body : A -> M unit) (xs : list A) o :
  I o ->
  (forall x o1, x ∈ xs -> I o1 -> wp (body x) o1 (okOr I E)) ->
  wp (forEach body xs) o (okOr I E).
Proof.
  revert o. induction xs as [|x xs IH]; intros o HI Hbody; simpl; [done |].
  apply wp_bind. eapply wp_mono; [apply Hbody; [by left | done] |].
  intros o1 [e | []] HI1; [done |].
  apply IH; [done |]. intros y o2 Hy. apply Hbody. by right.
Qed.

Lemma wp_mapM_okOr {A B} (I E : Objects -> Prop) (f : A -> M B) (xs : list A) o :
  I o ->
  (forall x o1, x ∈ xs -> I o1 -> wp (f x) o1 (okOr I E)) ->
  wp (mapM_ f xs) o (okOr I E).
Proof.
  revert o. induction xs as [|x xs IH]; intros o HI Hf; simpl; [done |].
  apply wp_bind. eapply wp_mono; [apply Hf; [by left | done] |].
  intros o1 [e | y] HI1; [done |].
  apply wp_bind. eapply wp_mono; [apply IH; [done |] |].
  - intros z o2 Hz. apply Hf. by right.
  - intros o2 [e | ys] HI2; done.
Qed.

End WpLoops.

(** ** At most one evaluation per node, slot and entry *)

Section Once.
Import Semantics.
Context (tree : TTree) (slot : nat) (entry : Z).
Context (n0 : nat) (rank : string -> nat).

(** The evaluations recorded since the event loop began. *)
Definition newLog (o : Objects) : list Event := drop n0 (evLog o).

Definition hitF (o : Objects) (id : nat) : Prop :=
  exists f, filterObjs o !! id = Some f /\
            fLastCheckedEntry (fSlots f) !! slot = Some entry.

Definition hitB (o : Objects) (name : string) : Prop :=
  exists b, fBookedBranches o !! name = Some b /\
            bLastCheckedEntry (bSlots b) !! slot = Some entry.

(** No evaluation is recorded twice, and a node whose evaluation at this
    slot and entry is recorded has the entry in its cache. *)
Record onceInv (o : Objects) : Prop := {
  once_len : (n0 <= length (evLog o))%nat;
  once_nodup : NoDup (newLog o);
  once_filters : forall id, EvFilter id slot entry ∈ newLog o -> hitF o id;
  once_branches : forall name, EvBranch name slot entry ∈ newLog o -> hitB o name
}.

Definition onceFail (o : Objects) : Prop :=
  (n0 <= length (evLog o))%nat /\ NoDup (newLog o).

Lemma onceInv_fail o : onceInv o -> onceFail o.
Proof. intros []. by split. Qed.

Lemma hitF_Step o o' id : Step slot entry o o' -> hitF o id -> hitF o' id.
Proof.
  intros Hstep (f & Hf & Hlast). pose proof (step_filters _ _ _ _ Hstep id) as Hid.
  rewrite Hf in Hid. inversion Hid as [f0 f' (_ & Hc & _) Heq1 Heq2 |]; subst.
  exists f'. split; [done |]. destruct (Hc slot) as [-> | [_ ->]]; done.
Qed.

Lemma hitB_Step o o' name : Step slot entry o o' -> hitB o name -> hitB o' name.
Proof.
  intros Hstep (b & Hb & Hlast). pose proof (step_branches _ _ _ _ Hstep name) as Hn.
  rewrite Hb in Hn. inversion Hn as [b0 b' (_ & Hc) Heq1 Heq2 |]; subst.
  exists b'. split; [done |]. destruct (Hc slot) as [-> | [_ ->]]; done.
Qed.

(** Writes to the caches keep the invariant. *)
Lemma onceInv_Step_same_log o o' :
  onceInv o -> Step slot entry o o' -> evLog o' = evLog o -> onceInv o'.
Proof.
  intros [Hlen Hnd Hf Hb] Hstep Hlog. unfold newLog in *.
  split; unfold newLog; rewrite Hlog; [done | done | |].
  - intros id Hin. eapply hitF_Step; eauto.
  - intros name Hin. eapply hitB_Step; eauto.
Qed.

Lemma newLog_logEv o e :
  (n0 <= length (evLog o))%nat ->
  newLog (setEvLog o (evLog o ++ [e])) = newLog o ++ [e].
Proof. intros Hlen. unfold newLog. simpl. by rewrite drop_app_le. Qed.

Lemma onceFail_logEv o e :
  onceInv o -> e ∉ newLog o -> onceFail (setEvLog o (evLog o ++ [e])).
Proof.
  intros [Hlen Hnd _ _] Hnew. split.
  - simpl. rewrite length_app. lia.
  - rewrite newLog_logEv by done. apply NoDup_app. split; [done |].
    split; [| apply NoDup_singleton].
    intros x Hx Hx'. apply list_elem_of_singleton in Hx'. by subst.
Qed.

Lemma updateBranch_inr name v o o' :
  updateBranch name slot entry v o = (o', inr tt) ->
  evLog o' = evLog o /\ filterObjs o' = filterObjs o /\ hitB o' name.
Proof.
  unfold updateBranch. destruct (fBookedBranches o !! name) as [b |] eqn:Hb;
    [| discriminate].
  unfold bind, lift, putBranchSlots.
  destruct (cacheValue slot entry v (bSlots b)) as [e | s'] eqn:Hc; [discriminate |].
  intros [= <-]. split; [done |]. split; [done |].
  apply cacheValue_inr in Hc as (_ & Hlc & Hlen & _).
  exists (setBSlots b s'). simpl. split; [by rewrite lookup_alter_eq, Hb |].
  rewrite Hlc. by apply list_lookup_insert_eq.
Qed.

Lemma updateBranch_log name v o : evLog (updateBranch name slot entry v o).1 = evLog o.
Proof.
  unfold updateBranch. destruct (fBookedBranches o !! name) as [b |]; [| done].
  unfold bind, lift. by destruct (cacheValue slot entry v (bSlots b)).
Qed.

Lemma updateFilter_inr id passed count o o' :
  updateFilter id slot entry passed count o = (o', inr tt) ->
  evLog o' = evLog o /\ fBookedBranches o' = fBookedBranches o /\ hitF o' id.
Proof.
  unfold updateFilter, bind, getFilter, lift, putFilterSlots.
  destruct (vat (filterObjs o) id) as [e | f] eqn:Hf; simpl; [discriminate |].
  destruct (cacheResult slot entry passed count (fSlots f)) as [e | s'] eqn:Hc; simpl;
    [discriminate |].
  intros [= <-]. split; [done |]. split; [done |].
  apply vat_inr in Hf. apply cacheResult_inr in Hc as (_ & Hlc & Hlen & _).
  exists (setFSlots f s'). simpl. split; [by rewrite list_lookup_alter_eq, Hf |].
  rewrite Hlc. by apply list_lookup_insert_eq.
Qed.

Lemma updateFilter_log id passed count o :
  evLog (updateFilter id slot entry passed count o).1 = evLog o.
Proof.
  unfold updateFilter, bind, getFilter, lift.
  destruct (vat (filterObjs o) id) as [e | f]; simpl; [done |].
  by destruct (cacheResult slot entry passed count (fSlots f)).
Qed.

End Once.

Section OnceNodes.
Import Semantics.
Context (tree : TTree) (slot : nat) (entry : Z).
Context (n0 : nat) (rank : string -> nat).

Abbreviation onceInv := (onceInv slot entry n0).
Abbreviation onceFail := (onceFail n0).
Abbreviation newEvents := (newLog n0).

Lemma onceInv_after_write (o1 o3 : Objects) (e : Event) :
  onceInv o1 -> e ∉ newEvents o1 ->
  Step slot entry o1 o3 ->
  evLog o3 = evLog o1 ++ [e] ->
  (forall id, e = EvFilter id slot entry -> hitF slot entry o3 id) ->
  (forall name, e = EvBranch name slot entry -> hitB slot entry o3 name) ->
  onceInv o3.
Proof.
  intros HK Hnew Hstep Hlog HeF HeB.
  destruct (onceFail_logEv slot entry n0 _ _ HK Hnew) as [Hlen Hnd].
  assert (Hnl : newEvents o3 = newEvents o1 ++ [e]).
  { unfold newLog. rewrite Hlog. apply drop_app_le. apply HK. }
  rewrite newLog_logEv in Hnd by apply HK.
  split.
  - rewrite Hlog, length_app. destruct HK. lia.
  - by rewrite Hnl.
  - intros id. rewrite Hnl. intros [Hin | Hin]%elem_of_app.
    + eapply hitF_Step; [done |]. by apply HK.
    + apply list_elem_of_singleton in Hin. by apply HeF.
  - intros name. rewrite Hnl. intros [Hin | Hin]%elem_of_app.
    + eapply hitB_Step; [done |]. by apply HK.
    + apply list_elem_of_singleton in Hin. by apply HeB.
Qed.

Lemma GetTmpBranchValue_once (fuel : nat) : forall name o,
  rankedBy rank (sBranches (shape o)) ->
  onceInv o ->
  wp (GetTmpBranchValue fuel tree slot entry name) o (okOr onceInv onceFail).
Proof.
  induction fuel as [|fuel IH]; intros name o Hrank HK; simpl.
  { by apply (onceInv_fail slot entry n0). }
  unfold wp. destruct (fBookedBranches o !! name) as [b |] eqn:Hb; simpl;
    [| by apply (onceInv_fail slot entry n0)].
  change (wp (GetValue (GetTmpBranchValue fuel tree slot entry) tree name b slot entry) o
             (okOr onceInv onceFail)).
  unfold GetValue. apply wp_bind, wp_lift.
  destruct (vat (bLastCheckedEntry (bSlots b)) slot) as [e | last] eqn:Hlast;
    [by apply (onceInv_fail slot entry n0) |].
  case_decide as Hmiss.
  { apply wp_lift. destruct (vat (bLastResult (bSlots b)) slot); simpl;
      [by apply (onceInv_fail slot entry n0) | done]. }
  apply wp_bind. eapply wp_mono.
  { apply (wp_mapM_okOr
             (fun o1 => Step slot entry o o1 /\
                        fBookedBranches o1 !! name = fBookedBranches o !! name /\
                        onceInv o1) onceFail).
    - split; [reflexivity | done].
    - intros x o1 Hx (Hstep & Hkeep & HK1). unfold ReadValue. case_bool_decide as Ht.
      + assert (Hr1 : rankedBy rank (sBranches (shape o1)))
          by by rewrite (Step_shape _ _ _ _ Hstep).
        assert (Hlt : (rank x < rank name)%nat).
        { apply (Hrank name (eraseB b)); [| done | done].
          unfold shape. simpl. by rewrite lookup_fmap, Hb. }
        eapply wp_mono.
        { apply wp_and; [apply wp_and |].
          - apply (wp_respects (Step slot entry)), Step_GetTmpBranchValue.
          - by apply (GetTmpBranchValue_keepsAbove tree slot entry rank fuel x o1).
          - by apply IH. }
        simpl. intros o2 [e | v] [[Hstep2 Hkeep2] HK2]; simpl in *; [done |].
        split; [by etrans |]. split; [| done].
        rewrite Hkeep2 by done. done.
      + apply wp_lift. destruct (ReadTree tree x entry); simpl;
          [by apply (onceInv_fail slot entry n0) | done]. }
  simpl. intros o1 [e | args]; simpl; [done |]. intros (Hstep & Hkeep & HK1).
  assert (Hnew : EvBranch name slot entry ∉ newEvents o1).
  { intros Hin. apply HK1 in Hin as (b' & Hb' & Hl').
    rewrite Hkeep, Hb in Hb'. injection Hb' as <-.
    apply vat_inr in Hlast. congruence. }
  apply wp_bind. unfold wp at 1. simpl.
  apply wp_bind, wp_lift.
  destruct (bExpression b args) as [v |]; simpl; [| by apply (onceFail_logEv slot entry n0)].
  apply wp_bind. unfold wp at 1.
  set (o2 := setEvLog o1 (evLog o1 ++ [EvBranch name slot entry])).
  pose proof (Step_updateBranch slot entry name v o2) as Hstep3.
  pose proof (updateBranch_log slot entry name v o2) as Hlog3.
  destruct (updateBranch name slot entry v o2) as [o3 [e | []]] eqn:Hupd; simpl in *.
  - destruct (onceFail_logEv slot entry n0 _ _ HK1 Hnew) as [Hlen Hnd].
    split; unfold newLog in *; rewrite Hlog3; done.
  - apply wp_ret. simpl.
    apply updateBranch_inr in Hupd as (_ & _ & Hhit).
    apply (onceInv_after_write o1 o3 (EvBranch name slot entry)); try done.
    + etrans; [| exact Hstep3]. apply (Step_logEv slot entry); done.
    + intros name' [= <-]. done.
Qed.

Lemma ReadValues_once (fuel : nat) tmp branches o :
  rankedBy rank (sBranches (shape o)) ->
  onceInv o ->
  wp (ReadValues fuel tree tmp branches slot entry) o (okOr onceInv onceFail).
Proof.
  intros Hrank HK. unfold ReadValues. eapply wp_mono.
  { apply (wp_mapM_okOr (fun o1 => Step slot entry o o1 /\ onceInv o1) onceFail).
    - split; [reflexivity | done].
    - intros x o1 Hx (Hstep & HK1). unfold ReadValue. case_bool_decide as Ht.
      + eapply wp_mono.
        { apply wp_and.
          - apply (wp_respects (Step slot entry)), Step_GetTmpBranchValue.
          - apply GetTmpBranchValue_once; [| done].
            by rewrite (Step_shape _ _ _ _ Hstep). }
        simpl. intros o2 [e | v] [Hstep2 HK2]; simpl in *; [done |].
        split; [by etrans | done].
      + apply wp_lift. destruct (ReadTree tree x entry); simpl;
          [by apply (onceInv_fail slot entry n0) | done]. }
  simpl. intros o1 [e | args]; simpl; [done | by intros [_ ?]].
Qed.

Lemma updateFilter_once id passed count (o1 o2 : Objects) (e : Event) :
  onceInv o1 -> e ∉ newEvents o1 ->
  o2 = setEvLog o1 (evLog o1 ++ [e]) ->
  (forall name, e <> EvBranch name slot entry) ->
  (forall id', e = EvFilter id' slot entry -> id' = id) ->
  evSlot e = slot -> evEntry e = entry ->
  wp (updateFilter id slot entry passed count) o2 (okOr onceInv onceFail).
Proof.
  intros HK Hnew -> HnB HeF Hs He. unfold wp.
  set (o2 := setEvLog o1 (evLog o1 ++ [e])).
  pose proof (Step_updateFilter slot entry id passed count o2) as Hstep3.
  pose proof (updateFilter_log slot entry id passed count o2) as Hlog3.
  destruct (updateFilter id slot entry passed count o2) as [o3 [e' | []]] eqn:Hupd;
    simpl in *.
  - destruct (onceFail_logEv slot entry n0 _ _ HK Hnew) as [Hlen Hnd].
    split; unfold newLog in *; rewrite Hlog3; done.
  - apply updateFilter_inr in Hupd as (_ & _ & Hhit).
    apply (onceInv_after_write o1 o3 e); try done.
    + etrans; [| exact Hstep3]. by apply (Step_logEv slot entry).
    + intros id' Heq. by rewrite (HeF id' Heq).
    + intros name Heq. by destruct (HnB name).
Qed.

Lemma CheckFilters_once (fuel : nat) (p : Node) : forall o,
  pathOrdered p = true ->
  rankedBy rank (sBranches (shape o)) ->
  onceInv o ->
  wp (CheckFilters fuel tree slot entry p) o (okOr onceInv onceFail).
Proof.
  induction p as [|id prev IH|name prev IH]; intros o Hp Hrank HK; simpl in *;
    [done | | by apply IH].
  apply andb_prop in Hp as [Hbelow Hp].
  apply wp_bind. unfold wp at 1. simpl.
  destruct (vat (filterObjs o) id) as [e | f] eqn:Hf; simpl;
    [by apply (onceInv_fail slot entry n0) |].
  apply wp_bind, wp_lift.
  destruct (vat (fLastCheckedEntry (fSlots f)) slot) as [e | last] eqn:Hlast; simpl;
    [by apply (onceInv_fail slot entry n0) |].
  case_decide as Hmiss.
  { apply wp_lift. destruct (vat (fLastResult (fSlots f)) slot); simpl;
      [by apply (onceInv_fail slot entry n0) | done]. }
  apply wp_bind. eapply wp_mono.
  { apply wp_and; [apply wp_and |].
    - apply (wp_respects (Step slot entry)), Step_CheckFilters.
    - apply (wp_respects (keepsFilter id)). by apply CheckFilters_keepsFilter.
    - by apply IH. }
  simpl. intros o1 [e | up] [[Hstep1 Hkeep1] HK1]; simpl in *; [done |].
  apply vat_inr in Hf. apply vat_inr in Hlast.
  destruct up.
  - apply wp_bind. eapply wp_mono.
    { apply wp_and; [apply wp_and |].
      - apply (wp_respects (Step slot entry)), Step_ReadValues.
      - apply (wp_respects sameFiltersActions), ReadValues_sameFiltersActions.
      - apply ReadValues_once; [| done]. by rewrite (Step_shape _ _ _ _ Hstep1). }
    simpl. intros o2 [e | args] [[Hstep2 [Hsame2 _]] HK2]; simpl in *; [done |].
    assert (Hnew : EvFilter id slot entry ∉ newEvents o2).
    { intros Hin. apply HK2 in Hin as (f' & Hf' & Hl').
      rewrite Hsame2, Hkeep1, Hf in Hf'. injection Hf' as <-. congruence. }
    apply wp_bind. unfold wp at 1. simpl.
    apply wp_bind, wp_lift.
    destruct (fFilter f args) as [passed |]; simpl;
      [| by apply (onceFail_logEv slot entry n0)].
    apply wp_bind. eapply wp_mono.
    { eapply (updateFilter_once id passed (HasName f) o2 _ (EvFilter id slot entry));
        try done. by intros id' [= <-]. }
    simpl. intros o3 [e | []]; simpl; done.
  - apply wp_bind. unfold wp at 1.
    pose proof (Step_updateFilter slot entry id false false o1) as Hstep2.
    pose proof (updateFilter_log slot entry id false false o1) as Hlog2.
    destruct (updateFilter id slot entry false false o1) as [o2 [e | []]]; simpl in *.
    + destruct HK1 as [Hlen Hnd _ _].
      split; unfold newLog in *; rewrite Hlog2; done.
    + apply wp_ret. simpl. by eapply onceInv_Step_same_log.
Qed.

Lemma Action_Run_once (fuel : nat) (actions : list nat) (id : nat) (o : Objects) :
  validPipeline (shape o) actions -> id ∈ actions ->
  rankedBy rank (sBranches (shape o)) ->
  onceInv o ->
  wp (Action_Run fuel tree slot entry id) o (okOr onceInv onceFail).
Proof.
  intros Hvalid Hid Hrank HK. unfold Action_Run.
  apply wp_bind. unfold wp at 1. simpl.
  destruct (vat (actionObjs o) id) as [e | a] eqn:Ha; simpl;
    [by apply (onceInv_fail slot entry n0) |].
  assert (Hord : pathOrdered (aPrevData a) = true).
  { destruct (actions_ordered _ _ Hvalid id Hid) as (a' & Ha' & Hord & _).
    apply vat_inr in Ha. unfold shape in Ha'. simpl in Ha'.
    rewrite list_lookup_fmap, Ha in Ha'. injection Ha' as <-. done. }
  apply wp_bind. eapply wp_mono.
  { apply wp_and.
    - apply (wp_respects (Step slot entry)), Step_CheckFilters.
    - by apply CheckFilters_once. }
  simpl. intros o1 [e | ok] [Hstep1 HK1]; simpl in *; [done |].
  destruct ok; [| done].
  apply wp_bind. eapply wp_mono.
  { apply ReadValues_once; [| done]. by rewrite (Step_shape _ _ _ _ Hstep1). }
  simpl. intros o2 [e | args] HK2; simpl in *; [done |].
  unfold wp.
  pose proof (Step_updateAction slot entry id args o2) as Hstep3.
  assert (Hlog3 : evLog (updateAction id slot args o2).1 = evLog o2).
  { unfold updateAction, bind, getAction, lift.
    destruct (vat (actionObjs o2) id) as [e | a2]; simpl; [done |].
    by destruct (Exec slot args (aHelper a2)). }
  destruct (updateAction id slot args o2) as [o3 [e | []]]; simpl in *.
  - destruct HK2 as [Hlen Hnd _ _].
    split; unfold newLog in *; rewrite Hlog3; done.
  - by eapply onceInv_Step_same_log.
Qed.

Lemma Step_Action_Run fuel id : respects (Step slot entry) (Action_Run fuel tree slot entry id).
Proof.
  apply respects_Action_Run; try apply _;
    auto using Step_updateFilter, Step_updateBranch, Step_updateAction.
  - intros id'. by apply Step_logEv.
  - intros name. by apply Step_logEv.
Qed.

Lemma wp_getFilter id o (Q : Objects -> Exn + TDataFrameFilterBase -> Prop) :
  Q o (vat (filterObjs o) id) -> wp (getFilter id) o Q.
Proof. done. Qed.

Lemma Filter_CheckFilters_once (fuel : nat) (actions : list nat) (id : nat) (o : Objects) :
  validPipeline (shape o) actions ->
  rankedBy rank (sBranches (shape o)) ->
  onceInv o ->
  wp (Filter_CheckFilters fuel tree slot entry id) o (okOr onceInv onceFail).
Proof.
  intros Hvalid Hrank HK. unfold Filter_CheckFilters.
  apply wp_bind, wp_getFilter.
  destruct (vat (filterObjs o) id) as [e | f] eqn:Hf;
    [by apply (onceInv_fail slot entry n0) |].
  apply CheckFilters_once; [| done | done].
  apply vat_inr in Hf.
  destruct (filters_ordered _ _ Hvalid id (eraseF f)) as (Hbelow & Hord & _).
  { unfold shape. simpl. by rewrite list_lookup_fmap, Hf. }
  simpl in *. by rewrite Hbelow, Hord.
Qed.

Lemma ProcessEntry_once (fuel : nat) (actions named : list nat) (o : Objects) :
  validPipeline (shape o) actions ->
  rankedBy rank (sBranches (shape o)) ->
  onceInv o ->
  wp (ProcessEntry fuel tree actions named slot entry) o (okOr onceInv onceFail).
Proof.
  intros Hvalid Hrank HK. unfold ProcessEntry.
  apply wp_bind. eapply wp_mono.
  { apply (wp_forEach_okOr (fun o1 => Step slot entry o o1 /\ onceInv o1) onceFail).
    - split; [reflexivity | done].
    - intros id o1 Hid [Hstep1 HK1]. eapply wp_mono.
      { apply wp_and.
        - apply (wp_respects (Step slot entry)), Step_Action_Run.
        - apply (Action_Run_once fuel actions); try done;
            by rewrite (Step_shape _ _ _ _ Hstep1). }
      simpl. intros o2 [e | []] [Hstep2 HK2]; simpl in *; [done |].
      split; [by etrans | done]. }
  simpl. intros o1 [e | []]; simpl; [done |]. intros [Hstep1 HK1].
  eapply wp_mono.
  { apply (wp_forEach_okOr (fun o2 => Step slot entry o o2 /\ onceInv o2) onceFail).
    - done.
    - intros id o2 Hid [Hstep2 HK2]. apply wp_bind. eapply wp_mono.
      { apply wp_and.
        - apply (wp_respects (Step slot entry)).
          unfold Filter_CheckFilters. apply respects_bind; [apply _ | by intros ? |].
          intros f. apply Step_CheckFilters.
        - apply (Filter_CheckFilters_once fuel actions); try done;
            by rewrite (Step_shape _ _ _ _ Hstep2). }
      simpl. intros o3 [e | b] [Hstep3 HK3]; simpl in *; [done |].
      apply wp_ret. simpl. split; [by etrans | done]. }
  simpl. intros o2 [e | []]; simpl; [done | by intros [_ ?]].
Qed.

End OnceNodes.

(** ** The preparation of a run *)

Section Prepare.
Import Semantics.

(** [CreateSlots] and [BuildAllReaderValues] change neither what booking
    fixed nor the record of evaluations. *)
Definition sameShapeLog (o o' : Objects) : Prop :=
  shape o' = shape o /\ evLog o' = evLog o.

#[global] Instance sameShapeLog_refl : Reflexive sameShapeLog.
Proof. by intros o. Qed.

#[global] Instance sameShapeLog_trans : Transitive sameShapeLog.
Proof. intros o1 o2 o3 [? ?] [? ?]. split; congruence. Qed.

Lemma fmap_alter_erase {A} (erase g : A -> A) (i : nat) (l : list A) :
  (forall x, erase (g x) = erase x) -> erase <$> alter g i l = erase <$> l.
Proof.
  intros Hg. apply list_eq. intros j. rewrite !list_lookup_fmap, list_lookup_alter.
  case_decide; [subst j | done]. destruct (l !! i); simpl; [by rewrite Hg | done].
Qed.

Lemma fmap_foldl_alter_erase {A} (erase : A -> A) (g : A -> A) (ids : list nat) :
  (forall x, erase (g x) = erase x) ->
  forall l : list A,
    erase <$> foldl (fun objs id => alter g id objs) l ids = erase <$> l.
Proof.
  intros Hg. induction ids as [|i ids IH]; intros l; simpl; [done |].
  rewrite IH. by apply fmap_alter_erase.
Qed.

Lemma CreateSlots_sameShapeLog actions filters nSlots :
  respects sameShapeLog (CreateSlots actions filters nSlots).
Proof.
  intros o. split; [| done]. unfold shape, CreateSlots. simpl. f_equal.
  - by apply fmap_foldl_alter_erase.
  - rewrite <- map_fmap_compose. apply map_fmap_ext. done.
  - by apply fmap_foldl_alter_erase.
Qed.

Lemma putAction_sameShapeLog id a a' o :
  actionObjs o !! id = Some a -> eraseA a' = eraseA a ->
  sameShapeLog o (putAction id a' o).1.
Proof.
  intros Ha He. split; [| done]. unfold shape. simpl. f_equal.
  apply list_eq. intros j. rewrite !list_lookup_fmap, list_lookup_insert.
  case_decide as Hj; [| done]. destruct Hj as [<- _]. rewrite Ha. simpl. by rewrite He.
Qed.

Lemma putFilterSlots_sameShapeLog id s o :
  sameShapeLog o (putFilterSlots id s o).1.
Proof.
  split; [| done]. unfold shape. simpl. f_equal. by apply fmap_alter_erase.
Qed.

Lemma BuildAllReaderValues_sameShapeLog actions filters slot :
  respects sameShapeLog (BuildAllReaderValues actions filters slot).
Proof.
  unfold BuildAllReaderValues.
  apply respects_bind; [apply _ | | intros _].
  { apply respects_forEach; [apply _ .. |]. intros id o.
    unfold Action_BuildReaderValues, bind, getAction, lift.
    destruct (vat (actionObjs o) id) as [e | a] eqn:Ha; simpl; [done |].
    destruct (bindReaders slot (aBranches a) (aReaderValues a)); simpl; [done |].
    apply vat_inr in Ha. by eapply putAction_sameShapeLog. }
  apply respects_bind; [apply _ | | intros _].
  { apply respects_forEach; [apply _ .. |]. intros id o.
    unfold Filter_BuildReaderValues, bind, getFilter, lift.
    destruct (vat (filterObjs o) id) as [e | f] eqn:Hf; simpl; [done |].
    destruct (bindReaders slot (fBranches f) (fReaderValues (fSlots f))); simpl; [done |].
    apply putFilterSlots_sameShapeLog. }
  intros o. case_bool_decide; simpl; [| done].
  split; [| done]. unfold shape. simpl. f_equal.
  rewrite <- map_fmap_compose. by apply map_fmap_ext.
Qed.

End Prepare.

(** ** At most one evaluation over a whole event loop *)

Section OncePass.
Import Semantics.
Context (tree : TTree) (n0 : nat).

(** Between two entries: no evaluation is recorded twice and every
    recorded evaluation belongs to a step already processed. *)
Definition passInv (visited : list (nat * Z)) (o : Objects) : Prop :=
  (n0 <= length (evLog o))%nat /\
  NoDup (newLog n0 o) /\
  forall e, e ∈ newLog n0 o -> (evSlot e, evEntry e) ∈ visited.

Lemma passInv_mono visited visited' o :
  visited ⊆ visited' -> passInv visited o -> passInv visited' o.
Proof. intros Hsub (Hlen & Hnd & Hev). repeat split; auto. Qed.

Lemma passInv_sameShapeLog visited o o' :
  sameShapeLog o o' -> passInv visited o -> passInv visited o'.
Proof.
  intros [_ Hlog] (Hlen & Hnd & Hev). unfold passInv, newLog in *. by rewrite Hlog.
Qed.

Lemma onceFail_sameShapeLog o o' :
  sameShapeLog o o' -> onceFail n0 o -> onceFail n0 o'.
Proof. intros [_ Hlog] [Hlen Hnd]. unfold onceFail, newLog in *. by rewrite Hlog. Qed.

Lemma passInv_fail visited o : passInv visited o -> onceFail n0 o.
Proof. intros (Hlen & Hnd & _). by split. Qed.

Lemma passInv_onceInv slot entry visited o :
  (slot, entry) ∉ visited -> passInv visited o -> onceInv slot entry n0 o.
Proof.
  intros Hnew (Hlen & Hnd & Hev). split; [done | done | |].
  - intros id Hin. apply Hev in Hin. done.
  - intros name Hin. apply Hev in Hin. done.
Qed.

Lemma onceInv_passInv slot entry visited o o' :
  passInv visited o -> Step slot entry o o' -> onceInv slot entry n0 o' ->
  passInv ((slot, entry) :: visited) o'.
Proof.
  intros (Hlen & _ & Hev) Hstep [Hlen' Hnd' _ _]. split; [done |]. split; [done |].
  destruct (step_log _ _ _ _ Hstep) as (added & Hlog & Hadded).
  intros e. unfold newLog. rewrite Hlog, drop_app_le by done.
  intros [Hin | Hin]%elem_of_app.
  - right. by apply Hev.
  - rewrite Forall_forall in Hadded. destruct (Hadded e Hin) as [-> ->]. by left.
Qed.

Lemma ProcessEntry_pass fuel actions named slot entry visited o :
  validPipeline (shape o) actions ->
  (slot, entry) ∉ visited ->
  passInv visited o ->
  wp (ProcessEntry fuel tree actions named slot entry) o
     (fun o' r => shape o' = shape o /\
                  okOr (passInv ((slot, entry) :: visited)) (onceFail n0) o' r).
Proof.
  intros Hvalid Hnew Hpass.
  destruct (branches_acyclic _ _ Hvalid) as [rank Hrank].
  eapply wp_mono.
  { apply wp_and.
    - apply (wp_respects (Step slot entry)), Step_ProcessEntry.
    - apply (ProcessEntry_once tree slot entry n0 rank); try done.
      by eapply passInv_onceInv. }
  simpl. intros o' [e | []] [Hstep HK]; simpl in *.
  - split; [by eapply Step_shape | done].
  - split; [by eapply Step_shape | by eapply onceInv_passInv].
Qed.

Lemma EventLoop_pass fuel actions named slot (entries : list Z) :
  forall visited o,
    validPipeline (shape o) actions ->
    NoDup entries ->
    (forall r, r ∈ entries -> (slot, r) ∉ visited) ->
    passInv visited o ->
    wp (EventLoop fuel tree actions named slot entries) o
       (fun o' r => shape o' = shape o /\
                    okOr (passInv (((fun r => (slot, r)) <$> entries) ++ visited))
                         (onceFail n0) o' r).
Proof.
  unfold EventLoop.
  induction entries as [|r rest IH]; intros visited o Hvalid Hnd Hnew Hpass; simpl.
  { done. }
  apply NoDup_cons in Hnd as [Hr Hnd].
  apply wp_bind. eapply wp_mono.
  { apply ProcessEntry_pass; [done | | done]. apply Hnew. by left. }
  simpl. intros o1 [e | []] [Hshape Hpost]; simpl in *; [done |].
  eapply wp_mono.
  { apply (IH ((slot, r) :: visited)); [by rewrite Hshape | done | | done].
    intros r' Hr' [Heq | Hin]%elem_of_cons.
    - injection Heq as ->. done.
    - eapply Hnew; [by right | done]. }
  simpl. intros o2 res [Hshape2 Hpost2]. split; [congruence |].
  destruct res as [e | []]; simpl in *; [done |].
  eapply passInv_mono; [| exact Hpost2].
  intros x. rewrite !elem_of_app, !elem_of_cons, elem_of_app. tauto.
Qed.

Lemma taskSteps_cons (t : Z * list Z) (ts : list (Z * list Z)) :
  taskSteps (t :: ts) = ((fun r => (Z.to_nat t.1, r)) <$> t.2) ++ taskSteps ts.
Proof. reflexivity. Qed.

Lemma runTasks_pass fuel actions filters named (ts : list (Z * list Z)) :
  forall visited o,
    validPipeline (shape o) actions ->
    NoDup (taskSteps ts) ->
    (forall st, st ∈ taskSteps ts -> st ∉ visited) ->
    passInv visited o ->
    wp (forEach (runTask fuel tree actions filters named) ts) o
       (fun o' r => shape o' = shape o /\
                    okOr (passInv (taskSteps ts ++ visited)) (onceFail n0) o' r).
Proof.
  induction ts as [|[s es] rest IH]; intros visited o Hvalid Hnd Hnew Hpass; simpl.
  { done. }
  rewrite taskSteps_cons in Hnd, Hnew. simpl in Hnd, Hnew.
  apply NoDup_app in Hnd as (Hnd1 & Hdisj & Hnd2).
  apply NoDup_fmap_1 in Hnd1.
  apply wp_bind. unfold runTask at 1. simpl. apply wp_bind. eapply wp_mono.
  { apply (wp_respects sameShapeLog), BuildAllReaderValues_sameShapeLog. }
  simpl. intros o1 [e | []] Hsame.
  { split; [apply Hsame |]. simpl.
    eapply onceFail_sameShapeLog; [done |]. by eapply passInv_fail. }
  eapply wp_mono.
  { apply (EventLoop_pass fuel actions named (Z.to_nat s) es visited o1).
    - destruct Hsame as [-> _]. done.
    - done.
    - intros r Hr. apply Hnew, elem_of_app. left.
      apply (list_elem_of_fmap_2 (fun r => (Z.to_nat s, r))). done.
    - by eapply passInv_sameShapeLog. }
  simpl. intros o2 [e | []] [Hshape2 Hpost2]; simpl in *.
  { split; [destruct Hsame; congruence | done]. }
  eapply wp_mono.
  { apply (IH (((fun r => (Z.to_nat s, r)) <$> es) ++ visited) o2).
    - rewrite Hshape2. destruct Hsame as [-> _]. done.
    - done.
    - intros st Hst [Hin | Hin]%elem_of_app.
      + by eapply Hdisj.
      + eapply Hnew; [| exact Hin]. apply elem_of_app. by right.
    - done. }
  simpl. intros o3 res [Hshape3 Hpost3].
  split; [destruct Hsame; congruence |].
  destruct res as [e | []]; simpl in *; [done |].
  rewrite taskSteps_cons. simpl.
  eapply passInv_mono; [| exact Hpost3].
  intros x. rewrite !elem_of_app. tauto.
Qed.

End OncePass.

(** ** Repeated requests *)

Section Cached.
Context (tree : TTree) (slot : nat) (entry : Z).

Lemma bind_inr {A B} (c : M A) (k : A -> M B) o o' (y : B) :
  bind c k o = (o', inr y) ->
  exists x o1, c o = (o1, inr x) /\ k x o1 = (o', inr y).
Proof.
  unfold bind. destruct (c o) as [o1 [e | x]]; [discriminate | eauto].
Qed.

Definition cachedF (o : Objects) (id : nat) (b : bool) : Prop :=
  exists f, filterObjs o !! id = Some f /\
            fLastCheckedEntry (fSlots f) !! slot = Some entry /\
            fLastResult (fSlots f) !! slot = Some b.

Definition cachedB (o : Objects) (name : string) (v : Z) : Prop :=
  exists b, fBookedBranches o !! name = Some b /\
            bLastCheckedEntry (bSlots b) !! slot = Some entry /\
            bLastResult (bSlots b) !! slot = Some v.

Lemma updateFilter_cached id passed count o o' :
  updateFilter id slot entry passed count o = (o', inr tt) -> cachedF o' id passed.
Proof.
  unfold updateFilter, bind, getFilter, lift, putFilterSlots.
  destruct (vat (filterObjs o) id) as [e | f] eqn:Hf; simpl; [discriminate |].
  destruct (cacheResult slot entry passed count (fSlots f)) as [e | s'] eqn:Hc; simpl;
    [discriminate |].
  intros [= <-]. apply vat_inr in Hf.
  apply cacheResult_inr in Hc as (_ & Hlc & Hlen & Hlr & Hlen' & _).
  exists (setFSlots f s'). simpl. split; [by rewrite list_lookup_alter_eq, Hf |].
  rewrite Hlc, Hlr. split; by apply list_lookup_insert_eq.
Qed.

Lemma updateBranch_cached name v o o' :
  updateBranch name slot entry v o = (o', inr tt) -> cachedB o' name v.
Proof.
  unfold updateBranch. destruct (fBookedBranches o !! name) as [b |] eqn:Hb;
    [| discriminate].
  unfold bind, lift, putBranchSlots.
  destruct (cacheValue slot entry v (bSlots b)) as [e | s'] eqn:Hc; [discriminate |].
  intros [= <-].
  apply cacheValue_inr in Hc as (_ & Hlc & Hlen & Hlr & Hlen').
  exists (setBSlots b s'). simpl. split; [by rewrite lookup_alter_eq, Hb |].
  rewrite Hlc, Hlr. split; by apply list_lookup_insert_eq.
Qed.

Lemma CheckFilters_caches fuel id prev o o1 b :
  CheckFilters fuel tree slot entry (FilterN id prev) o = (o1, inr b) -> cachedF o1 id b.
Proof.
  simpl. intros H.
  apply bind_inr in H as (f & o' & Hf & H). injection Hf as <- Hf.
  apply bind_inr in H as (last & o' & Hlast & H). injection Hlast as <- Hlast.
  apply vat_inr in Hf. apply vat_inr in Hlast.
  case_decide as Hhit.
  - injection H as <- H. apply vat_inr in H. subst last. by exists f.
  - apply bind_inr in H as (up & o2 & _ & H). destruct up.
    + apply bind_inr in H as (args & o3 & _ & H).
      apply bind_inr in H as ([] & o4 & _ & H).
      apply bind_inr in H as (passed & o5 & _ & H).
      apply bind_inr in H as ([] & o6 & Hupd & H).
      injection H as <- <-. by eapply updateFilter_cached.
    + apply bind_inr in H as ([] & o3 & Hupd & H).
      injection H as <- <-. by eapply updateFilter_cached.
Qed.

Lemma CheckFilters_hit fuel id prev o b :
  cachedF o id b -> CheckFilters fuel tree slot entry (FilterN id prev) o = (o, inr b).
Proof.
  intros (f & Hf & Hlast & Hres). simpl. unfold bind, getFilter, lift.
  rewrite (vat_Some _ _ _ Hf), (vat_Some _ _ _ Hlast).
  rewrite decide_True by done. by rewrite (vat_Some _ _ _ Hres).
Qed.

(** A check that returned is served again from the caches: the objects,
    the record of evaluations included, stay as they are. *)
Lemma CheckFilters_again fuel (p : Node) : forall o o1 b,
  CheckFilters fuel tree slot entry p o = (o1, inr b) ->
  CheckFilters fuel tree slot entry p o1 = (o1, inr b).
Proof.
  induction p as [|id prev IH|name prev IH]; intros o o1 b H.
  - simpl in *. by injection H as <- <-.
  - apply CheckFilters_hit. by eapply CheckFilters_caches.
  - simpl in *. by eapply IH.
Qed.

Lemma GetTmpBranchValue_caches fuel name o o1 v :
  GetTmpBranchValue fuel tree slot entry name o = (o1, inr v) -> cachedB o1 name v.
Proof.
  destruct fuel as [|fuel]; simpl; [discriminate |].
  destruct (fBookedBranches o !! name) as [b |] eqn:Hb; [| discriminate].
  unfold GetValue. intros H.
  apply bind_inr in H as (last & o' & Hlast & H). injection Hlast as <- Hlast.
  apply vat_inr in Hlast. case_decide as Hhit.
  - injection H as <- H. apply vat_inr in H. subst last. by exists b.
  - apply bind_inr in H as (args & o2 & _ & H).
    apply bind_inr in H as ([] & o3 & _ & H).
    apply bind_inr in H as (v' & o4 & _ & H).
    apply bind_inr in H as ([] & o5 & Hupd & H).
    injection H as <- <-. by eapply updateBranch_cached.
Qed.

Lemma GetTmpBranchValue_hit fuel name o v :
  cachedB o name v -> GetTmpBranchValue (S fuel) tree slot entry name o = (o, inr v).
Proof.
  intros (b & Hb & Hlast & Hres). simpl. rewrite Hb. unfold GetValue, bind, lift.
  rewrite (vat_Some _ _ _ Hlast). rewrite decide_True by done.
  by rewrite (vat_Some _ _ _ Hres).
Qed.

End Cached.

Section OnceRun.
Import Semantics.

Definition logGrows (o o' : Objects) : Prop :=
  exists added, evLog o' = evLog o ++ added.

#[local] Instance logGrows_refl : Reflexive logGrows.
Proof. intros o. exists []. by rewrite app_nil_r. Qed.

#[local] Instance logGrows_trans : Transitive logGrows.
Proof.
  intros o1 o2 o3 [l1 H1] [l2 H2]. exists (l1 ++ l2). by rewrite H2, H1, app_assoc.
Qed.

Lemma respects_mono {A} (R R' : Objects -> Objects -> Prop) (c : M A) :
  (forall o o', R o o' -> R' o o') -> respects R c -> respects R' c.
Proof. intros HR Hc o. apply HR, Hc. Qed.

Lemma Step_logGrows slot entry o o' : Step slot entry o o' -> logGrows o o'.
Proof. intros H. destruct (step_log _ _ _ _ H) as (added & Hlog & _). by exists added. Qed.

Lemma sameShapeLog_logGrows o o' : sameShapeLog o o' -> logGrows o o'.
Proof. intros [_ Hlog]. exists []. by rewrite app_nil_r. Qed.

Lemma EventLoop_logGrows fuel tree actions named slot entries :
  respects logGrows (EventLoop fuel tree actions named slot entries).
Proof.
  apply respects_forEach; [apply _ .. |]. intros entry.
  eapply respects_mono; [apply Step_logGrows | apply Step_ProcessEntry].
Qed.

Lemma runTasks_logGrows fuel tree actions filters named ts :
  respects logGrows (forEach (runTask fuel tree actions filters named) ts).
Proof.
  apply respects_forEach; [apply _ .. |]. intros t. unfold runTask.
  apply respects_bind; [apply _ | | intros _; apply EventLoop_logGrows].
  eapply respects_mono; [apply sameShapeLog_logGrows |].
  apply BuildAllReaderValues_sameShapeLog.
Qed.

Lemma taskSteps_entries (slots : list Z) : forall (ess : list (list Z)) st,
  st ∈ taskSteps (zip slots ess) -> st.2 ∈ concat ess.
Proof.
  induction slots as [|s slots IH]; intros [|es ess] st; simpl;
    try (by intros ?%elem_of_nil).
  rewrite taskSteps_cons. simpl. intros [Hin | Hin]%elem_of_app; apply elem_of_app.
  - left. apply list_elem_of_fmap in Hin as (r & -> & Hr). done.
  - right. by apply IH.
Qed.

Lemma taskSteps_NoDup (slots : list Z) : forall ess : list (list Z),
  NoDup (concat ess) -> NoDup (taskSteps (zip slots ess)).
Proof.
  induction slots as [|s slots IH]; intros [|es ess] Hnd; simpl; try apply NoDup_nil_2.
  simpl in Hnd. apply NoDup_app in Hnd as (Hes & Hdisj & Hess).
  rewrite taskSteps_cons. simpl. apply NoDup_app. split; [| split].
  - apply NoDup_fmap_2; [| done]. intros r1 r2 [= ->]. done.
  - intros st Hin Hin'. apply list_elem_of_fmap in Hin as (r & -> & Hr).
    apply taskSteps_entries in Hin'. simpl in Hin'. by eapply Hdisj.
  - by apply IH.
Qed.

Lemma allEntries_NoDup tree : NoDup (allEntries tree).
Proof. apply NoDup_seqZ. Qed.

Lemma RunLoops_once (env : Env) (df : TDataFrameImpl) (o o' : Objects) res :
  validPipeline (shape o) (fBookedActions df) ->
  processedEntries env df ≡ₚ allEntries (fTree df) ->
  RunLoops env df o = (o', res) ->
  exists new, evLog o' = evLog o ++ new /\ NoDup new.
Proof.
  intros Hvalid Hperm Hrun.
  set (n0 := length (evLog o)).
  assert (Hpass : passInv n0 [] o).
  { split; [done |]. unfold newLog, n0. rewrite drop_all. split; [constructor |].
    by intros e ?%elem_of_nil. }
  assert (Hpost : logGrows o o' /\ onceFail n0 o').
  { revert Hrun. unfold RunLoops, processedEntries in *.
    destruct (R__USE_IMT env && IsImplicitMTEnabled env).
    - intros Hrun. apply (wp_elim _ _ _ _ (fun o' _ => logGrows o o' /\ onceFail n0 o')) in Hrun;
        [done |].
      apply wp_bind. eapply wp_mono.
      { apply (wp_respects sameShapeLog), CreateSlots_sameShapeLog. }
      simpl. intros o1 [e | []] Hsame.
      { split; [by apply sameShapeLog_logGrows |].
        eapply onceFail_sameShapeLog; [done |]. by eapply passInv_fail. }
      assert (Hsh : forall o2 r,
        Process (S (size (fBookedBranches o))) (fTree df) (fBookedActions df)
                (fBookedFilters df) (fBookedNamedFilters df) ∅ 0 (tasks env) o1 = (o2, r) ->
        logGrows o o2 /\ onceFail n0 o2).
      { intros o2 r. rewrite Process_taskSlots. intros Hp.
        apply (wp_elim _ _ _ _
                 (fun o2 r => logGrows o1 o2 /\
                              (shape o2 = shape o1 /\
                               okOr (passInv n0
                                       (taskSteps (zip (taskSlots ∅ 0 (tasks env).*1)
                                                       (tasks env).*2) ++ []))
                                    (onceFail n0) o2 r)))
          in Hp.
        - destruct Hp as (Hg & _ & Hp). split.
          + etrans; [by apply sameShapeLog_logGrows | done].
          + destruct r; simpl in Hp; [done | by eapply passInv_fail].
        - apply wp_and.
          + apply (wp_respects logGrows), runTasks_logGrows.
          + apply runTasks_pass.
            * destruct Hsame as [-> _]. done.
            * apply taskSteps_NoDup. rewrite Hperm. apply allEntries_NoDup.
            * by intros st _ ?%elem_of_nil.
            * by eapply passInv_sameShapeLog. }
      unfold wp. destruct (Process _ _ _ _ _ _ _ _ o1) as [o2 r] eqn:Hp. simpl.
      by eapply Hsh.
    - intros Hrun. apply (wp_elim _ _ _ _ (fun o' _ => logGrows o o' /\ onceFail n0 o')) in Hrun;
        [done |].
      apply wp_bind. eapply wp_mono.
      { apply (wp_respects sameShapeLog), CreateSlots_sameShapeLog. }
      simpl. intros o1 [e | []] Hsame.
      { split; [by apply sameShapeLog_logGrows |].
        eapply onceFail_sameShapeLog; [done |]. by eapply passInv_fail. }
      apply wp_bind. eapply wp_mono.
      { apply (wp_respects sameShapeLog), BuildAllReaderValues_sameShapeLog. }
      simpl. intros o2 [e | []] Hsame2.
      { assert (sameShapeLog o o2) by by etrans.
        split; [by apply sameShapeLog_logGrows |].
        eapply onceFail_sameShapeLog; [done |]. by eapply passInv_fail. }
      assert (Hs02 : sameShapeLog o o2) by by etrans.
      eapply wp_mono.
      { apply wp_and.
        - apply (wp_respects logGrows), EventLoop_logGrows.
        - apply (EventLoop_pass (fTree df) n0 _ (fBookedActions df) _ 0%nat _ [] o2).
          + destruct Hs02 as [-> _]. done.
          + apply allEntries_NoDup.
          + by intros r _ ?%elem_of_nil.
          + by eapply passInv_sameShapeLog. }
      simpl. intros o3 r (Hg & _ & Hp). split.
      + etrans; [by apply sameShapeLog_logGrows | done].
      + destruct r; simpl in Hp; [done | by eapply passInv_fail]. }
  destruct Hpost as [[added Hlog] [_ Hnd]].
  exists added. split; [done |].
  unfold newLog, n0 in Hnd. by rewrite Hlog, drop_app_length in Hnd.
Qed.

End OnceRun.

Section CheckPipeline.
Import Semantics.

Lemma coherentb_sound sf p : coherentb sf p = true -> coherent sf p.
Proof.
  induction p as [|id prev IH|name prev IH]; simpl; [done | | done].
  destruct (sf !! id) as [f |]; [| discriminate].
  intros [Heq Hprev]%andb_prop. apply bool_decide_eq_true in Heq.
  split; [by exists f | by apply IH].
Qed.

Lemma checkPipeline_sound rank s actions :
  checkPipeline rank s actions = true -> validPipeline s actions.
Proof.
  unfold checkPipeline. intros [[Hf Ha]%andb_prop Hb]%andb_prop.
  rewrite forallb_forall in Hf, Ha. apply bool_decide_eq_true in Hb.
  split.
  - intros id f Hid. specialize (Hf id). rewrite Hid in Hf.
    assert (Hin : In id (seq 0 (length (sFilters s)))).
    { apply in_seq. apply lookup_lt_Some in Hid. lia. }
    apply Hf in Hin. apply andb_prop in Hin as [Hin H3].
    apply andb_prop in Hin as [H1 H2].
    split; [done |]. split; [done | by apply coherentb_sound].
  - intros id Hid. apply list_elem_of_In in Hid. specialize (Ha id Hid).
    destruct (sActions s !! id) as [a |]; [| discriminate].
    apply andb_prop in Ha as [H1 H2]. exists a. split; [done |].
    split; [done | by apply coherentb_sound].
  - exists rank. intros name b x Hname Hx Ht.
    specialize (Hb name b Hname). rewrite Forall_forall in Hb. by apply Hb.
Qed.

End CheckPipeline.

(** ** C2 *)

Section C2.
Import Semantics.

(** C2: in an event loop of a valid pipeline, sequential or parallel with
    every entry handed out once, no evaluation of the callable of a filter
    or of a temporary branch is recorded twice for one node, slot and entry,
    however many actions and filters ask for it, and also when the loop
    throws; and a check or a value once returned is returned again, for the
    same slot and entry, from the cache, the objects and the record of
    evaluations staying as they are. *)
Theorem C2_evaluated_at_most_once (env : Env) (df : TDataFrameImpl) :
  (validPipeline (shape (objs df)) (fBookedActions df) ->
   processedEntries env df ≡ₚ allEntries (fTree df) ->
   forall o' res,
     RunLoops env df (objs df) = (o', res) ->
     exists new, evLog o' = evLog (objs df) ++ new /\ NoDup new) /\
  (forall fuel tree slot entry p o o1 b,
     CheckFilters fuel tree slot entry p o = (o1, inr b) ->
     CheckFilters fuel tree slot entry p o1 = (o1, inr b)) /\
  (forall fuel fuel' tree slot entry name o o1 v,
     GetTmpBranchValue fuel tree slot entry name o = (o1, inr v) ->
     GetTmpBranchValue (S fuel') tree slot entry name o1 = (o1, inr v)).
Proof.
  split; [| split].
  - intros Hvalid Hperm o' res Hrun. by eapply RunLoops_once.
  - intros fuel tree slot entry p o o1 b. apply CheckFilters_again.
  - intros fuel fuel' tree slot entry name o o1 v H.
    apply GetTmpBranchValue_hit. by eapply GetTmpBranchValue_caches.
Qed.

Lemma C2_evaluated_at_most_once_witness :
  (exists new,
     evLog (RunLoops sequential s2_frame (objs s2_frame)).1
       = evLog (objs s2_frame) ++ new /\ NoDup new) /\
  evLog (RunLoops sequential s2_frame (objs s2_frame)).1
    = [EvBranch "C" 0 0; EvFilter 0 0 0; EvBranch "C" 0 1; EvFilter 0 0 1;
       EvBranch "C" 0 2; EvFilter 0 0 2; EvBranch "C" 0 3; EvFilter 0 0 3;
       EvBranch "C" 0 4; EvFilter 0 0 4].
Proof.
  split; [| vm_compute; reflexivity].
  assert (Hvalid : validPipeline (shape (objs s2_frame)) (fBookedActions s2_frame)).
  { apply (checkPipeline_sound (fun _ => 0%nat)). vm_compute. reflexivity. }
  apply (proj1 (C2_evaluated_at_most_once sequential s2_frame) Hvalid
           ltac:(reflexivity)
           (RunLoops sequential s2_frame (objs s2_frame)).1
           (RunLoops sequential s2_frame (objs s2_frame)).2).
  by destruct (RunLoops sequential s2_frame (objs s2_frame)).
Defined.

End C2.

(** ** The caches agree with what the nodes compute *)

Section Sim.
Import Semantics.
Context (tree : TTree) (slot : nat) (entry : Z).

Abbreviation cachedF := (cachedF slot entry).
Abbreviation cachedB := (cachedB slot entry).

(** What the caches hold for this slot and entry is what the nodes
    compute. *)
Definition consistent (o : Objects) : Prop :=
  (forall name v, cachedB o name v -> BranchVal (sBranches (shape o)) tree entry name v) /\
  (forall id f b, filterObjs o !! id = Some f -> cachedF o id b ->
                  ChainVal (shape o) tree entry (FilterN id (fPrevData f)) b).

Lemma mapM_inr {A B} (I : Objects -> Prop) (Q : A -> B -> Prop) (f : A -> M B)
    (xs : list A) : forall o o' ys,
  I o ->
  (forall x o1 o2 y, x ∈ xs -> I o1 -> f x o1 = (o2, inr y) -> I o2 /\ Q x y) ->
  mapM_ f xs o = (o', inr ys) ->
  I o' /\ Forall2 Q xs ys.
Proof.
  induction xs as [|x xs IH]; intros o o' ys HI Hf H; simpl in H.
  - injection H as <- <-. split; [done | constructor].
  - apply bind_inr in H as (y & o1 & Hy & H).
    apply bind_inr in H as (ys' & o2 & Hys & H). injection H as <- <-.
    destruct (Hf x o o1 y) as [HI1 HQ]; [by left | done | done |].
    destruct (IH o1 o2 ys' HI1) as [HI2 HQs]; [| done |].
    { intros z oa ob w Hz. apply Hf. by right. }
    split; [done | by constructor].
Qed.

Lemma forEach_inr {A} (I : Objects -> Prop) (body : A -> M unit) (xs : list A) :
  forall o o',
  I o ->
  (forall x o1 o2, x ∈ xs -> I o1 -> body x o1 = (o2, inr tt) -> I o2) ->
  forEach body xs o = (o', inr tt) ->
  I o'.
Proof.
  induction xs as [|x xs IH]; intros o o' HI Hbody H; simpl in H.
  - by injection H as <-.
  - apply bind_inr in H as ([] & o1 & Hx & H).
    apply (IH o1 o'); [| | done].
    + eapply Hbody; [by left | done | done].
    + intros y oa ob Hy. apply Hbody. by right.
Qed.

Lemma InputsVal_Forall2 sb tmp xs vs :
  Forall2 (ColVal sb tree entry tmp) xs vs -> InputsVal sb tree entry tmp xs vs.
Proof.
  induction 1 as [|x v xs vs [[Ht Hv] | [Ht Hv]] _ IH]; [constructor | |].
  - by apply InputsVal_tmp.
  - by apply InputsVal_tree.
Qed.

Lemma updateBranch_inv name v o o' :
  updateBranch name slot entry v o = (o', inr tt) ->
  filterObjs o' = filterObjs o /\
  forall name' v', cachedB o' name' v' -> (name' = name /\ v' = v) \/ cachedB o name' v'.
Proof.
  intros Hupd. pose proof (updateBranch_cached _ _ _ _ _ _ Hupd) as (b1 & Hb1 & Hl1 & Hr1).
  pose proof (updateBranch_keeps slot entry name) as Hkeep.
  revert Hupd. unfold updateBranch.
  destruct (fBookedBranches o !! name) as [b |] eqn:Hb; [| discriminate].
  unfold bind, lift, putBranchSlots.
  destruct (cacheValue slot entry v (bSlots b)) as [e | s'] eqn:Hc; [discriminate |].
  intros [= <-]. split; [done |]. intros name' v' (b' & Hb' & Hl' & Hr').
  simpl in *. destruct (decide (name' = name)) as [-> | Hne].
  - left. split; [done |]. congruence.
  - right. rewrite lookup_alter_ne in Hb' by done. by exists b'.
Qed.

Lemma updateFilter_inv id passed count o o' :
  updateFilter id slot entry passed count o = (o', inr tt) ->
  fBookedBranches o' = fBookedBranches o /\
  (forall id', id' <> id -> filterObjs o' !! id' = filterObjs o !! id') /\
  (exists f s', filterObjs o !! id = Some f /\
                cacheResult slot entry passed count (fSlots f) = inr s' /\
                filterObjs o' !! id = Some (setFSlots f s')) /\
  forall id' b', cachedF o' id' b' -> (id' = id /\ b' = passed) \/ cachedF o id' b'.
Proof.
  intros Hupd. pose proof (updateFilter_cached _ _ _ _ _ _ _ Hupd) as (f1 & Hf1 & Hl1 & Hr1).
  revert Hupd. unfold updateFilter, bind, getFilter, lift, putFilterSlots.
  destruct (vat (filterObjs o) id) as [e | f] eqn:Hf; simpl; [discriminate |].
  destruct (cacheResult slot entry passed count (fSlots f)) as [e | s'] eqn:Hc; simpl;
    [discriminate |].
  intros [= <-]. apply vat_inr in Hf. simpl in *.
  split; [done |]. split; [intros id' Hne; by apply list_lookup_alter_ne |].
  split. { exists f, s'. by rewrite list_lookup_alter_eq, Hf. }
  intros id' b' (f' & Hf' & Hl' & Hr'). simpl in Hf'.
  destruct (decide (id' = id)) as [-> | Hne].
  - left. split; [done |]. congruence.
  - right. rewrite list_lookup_alter_ne in Hf' by done. by exists f'.
Qed.

Lemma GetTmpBranchValue_sim (fuel : nat) : forall name o o1 v,
  consistent o ->
  GetTmpBranchValue fuel tree slot entry name o = (o1, inr v) ->
  consistent o1 /\ BranchVal (sBranches (shape o)) tree entry name v.
Proof.
  induction fuel as [|fuel IH]; intros name o o1 v Hcons H; simpl in H; [discriminate |].
  destruct (fBookedBranches o !! name) as [b |] eqn:Hb; [| discriminate].
  unfold GetValue in H.
  apply bind_inr in H as (last & o' & Hlast & H). injection Hlast as <- Hlast.
  apply vat_inr in Hlast. case_decide as Hhit.
  { injection H as <- H. apply vat_inr in H. subst last. split; [done |].
    apply Hcons. by exists b. }
  apply bind_inr in H as (args & o2 & Hargs & H).
  apply bind_inr in H as ([] & o3 & Hlog & H).
  apply bind_inr in H as (v' & o4 & Hcall & H).
  apply bind_inr in H as ([] & o5 & Hupd & H).
  unfold call, lift, logEv, ret in *.
  destruct (bExpression b args) as [w |] eqn:Hexpr; [| discriminate].
  assert (o3 = setEvLog o2 (evLog o2 ++ [EvBranch name slot entry])) as -> by congruence.
  assert (o4 = setEvLog o2 (evLog o2 ++ [EvBranch name slot entry])) as -> by congruence.
  assert (v' = v) as -> by congruence. assert (w = v) as -> by congruence.
  assert (o5 = o1) as -> by congruence. clear H Hcall Hlog.
  apply (mapM_inr (fun o2 => consistent o2 /\ shape o2 = shape o)
                  (ColVal (sBranches (shape o)) tree entry (bTmpBranches b)))
    in Hargs as [[Hcons2 Hshape2] Hvals]; [| done |].
  2:{ intros x oa ob y Hx [Hca Hsa]. unfold ReadValue. case_bool_decide as Ht.
      - intros Hx'. destruct (IH _ _ _ _ Hca Hx') as [Hcb Hval].
        pose proof (Step_GetTmpBranchValue slot entry tree fuel x oa) as Hstep.
        rewrite Hx' in Hstep. apply Step_shape in Hstep. simpl in Hstep.
        split; [split; [done | congruence] |]. left. split; [done |].
        by rewrite <- Hsa.
      - unfold lift. intros [= <- Hy]. split; [done |]. by right. }
  assert (Hval : BranchVal (sBranches (shape o)) tree entry name v).
  { apply (BranchVal_eval _ _ _ name (eraseB b) args); [| | done].
    - unfold shape. simpl. by rewrite lookup_fmap, Hb.
    - by apply InputsVal_Forall2. }
  split; [| done].
  pose proof (Step_updateBranch slot entry name v
                (setEvLog o2 (evLog o2 ++ [EvBranch name slot entry]))) as Hstep.
  rewrite Hupd in Hstep. apply Step_shape in Hstep. simpl in Hstep.
  assert (Hshape5 : shape o1 = shape o).
  { rewrite Hstep. unfold shape in *. simpl. exact Hshape2. }
  apply updateBranch_inv in Hupd as [Hfilters Hinv]. simpl in Hfilters.
  destruct Hcons2 as [HcB HcF]. split.
  - intros name' v' Hc. rewrite Hshape5.
    destruct (Hinv _ _ Hc) as [[-> ->] | Hold]; [done |].
    rewrite <- Hshape2. apply HcB. exact Hold.
  - intros id f b' Hf Hc. rewrite Hshape5, <- Hshape2.
    rewrite Hfilters in Hf. apply HcF; [done |].
    destruct Hc as (f' & Hf' & Hl & Hr). rewrite Hfilters in Hf'. by exists f'.
Qed.

Lemma ReadValues_sim fuel tmp xs o o1 args :
  consistent o ->
  ReadValues fuel tree tmp xs slot entry o = (o1, inr args) ->
  consistent o1 /\ shape o1 = shape o /\ filterObjs o1 = filterObjs o /\
  InputsVal (sBranches (shape o)) tree entry tmp xs args.
Proof.
  intros Hcons H.
  pose proof (ReadValues_sameFiltersActions tree slot entry fuel tmp xs o) as [Hsame _].
  pose proof (Step_ReadValues slot entry tree fuel tmp xs o) as Hstep.
  rewrite H in Hsame, Hstep. simpl in *. apply Step_shape in Hstep.
  unfold ReadValues in H.
  apply (mapM_inr (fun o2 => consistent o2 /\ shape o2 = shape o)
                  (ColVal (sBranches (shape o)) tree entry tmp))
    in H as [[Hcons1 _] Hvals]; [| done |].
  - split; [done |]. split; [done |]. split; [done | by apply InputsVal_Forall2].
  - intros x oa ob y Hx [Hca Hsa]. unfold ReadValue. case_bool_decide as Ht.
    + intros Hx'. destruct (GetTmpBranchValue_sim _ _ _ _ _ Hca Hx') as [Hcb Hval].
      pose proof (Step_GetTmpBranchValue slot entry tree fuel x oa) as Hstep'.
      rewrite Hx' in Hstep'. apply Step_shape in Hstep'. simpl in Hstep'.
      split; [split; [done | congruence] |]. left. split; [done |].
      by rewrite <- Hsa.
    + unfold lift. intros [= <- Hy]. split; [done |]. by right.
Qed.

(** *** The counters of a filter over one entry *)

Context (o0 : Objects).

(** [counted count s0 s]: from [s0] to [s] one of the two counters of the
    slot went up by one, if [count], and none moved otherwise. *)
Definition counted (count : bool) (s0 s : FilterSlots) : Prop :=
  if count then
    (exists n, fAccepted s0 !! slot = Some n /\
               fAccepted s = <[slot := u64 (n + 1)]> (fAccepted s0) /\
               fRejected s = fRejected s0) \/
    (exists n, fRejected s0 !! slot = Some n /\
               fRejected s = <[slot := u64 (n + 1)]> (fRejected s0) /\
               fAccepted s = fAccepted s0)
  else fAccepted s = fAccepted s0 /\ fRejected s = fRejected s0.

(** A filter checked at this entry: it counted the entry if it has a name
    and the chain above it accepts. *)
Definition touched (f0 f : TDataFrameFilterBase) : Prop :=
  fLastCheckedEntry (fSlots f) !! slot = Some entry /\
  exists b, ChainVal (shape o0) tree entry (fPrevData f0) b /\
            counted (HasName f0 && b) (fSlots f0) (fSlots f).

(** Since the entry began, every filter is as it was or was checked once. *)
Definition cntInv (o : Objects) : Prop :=
  forall id f0, filterObjs o0 !! id = Some f0 ->
    exists f, filterObjs o !! id = Some f /\
              (fSlots f = fSlots f0 \/ touched f0 f).

Record simInv (o : Objects) : Prop := {
  sim_shape : shape o = shape o0;
  sim_consistent : consistent o;
  sim_counters : cntInv o
}.

Lemma shape_filter o id f :
  filterObjs o !! id = Some f -> sFilters (shape o) !! id = Some (eraseF f).
Proof. intros H. unfold shape. simpl. by rewrite list_lookup_fmap, H. Qed.

Lemma same_static o id f f0 :
  shape o = shape o0 -> filterObjs o !! id = Some f -> filterObjs o0 !! id = Some f0 ->
  fPrevData f = fPrevData f0 /\ fName f = fName f0.
Proof.
  intros Hs Hf Hf0. apply shape_filter in Hf, Hf0. rewrite Hs, Hf0 in Hf.
  injection Hf as Hprev Hb Htmp Hname. done.
Qed.

Lemma simInv_updateFilter id passed count bprev f o o' :
  simInv o ->
  filterObjs o !! id = Some f ->
  fLastCheckedEntry (fSlots f) !! slot <> Some entry ->
  ChainVal (shape o0) tree entry (fPrevData f) bprev ->
  ChainVal (shape o0) tree entry (FilterN id (fPrevData f)) passed ->
  count = HasName f && bprev ->
  updateFilter id slot entry passed count o = (o', inr tt) ->
  simInv o'.
Proof.
  intros [Hshape [HcB HcF] Hcnt] Hf Hmiss Hprev Hchain Hcount Hupd.
  pose proof (Step_updateFilter slot entry id passed count o) as Hstep.
  rewrite Hupd in Hstep. apply Step_shape in Hstep. simpl in Hstep.
  apply updateFilter_inv in Hupd as (Hbr & Hother & (f' & s' & Hf' & Hc & Hnew) & Hinv).
  assert (f' = f) as -> by congruence.
  split; [congruence | split |].
  - intros name v (b & Hb & Hl & Hr). rewrite Hstep. apply HcB.
    exists b. by rewrite <- Hbr.
  - intros id' g b' Hg Hc'. rewrite Hstep.
    destruct (decide (id' = id)) as [-> | Hne].
    + assert (g = setFSlots f s') as -> by congruence. simpl.
      destruct (Hinv _ _ Hc') as [[_ ->] | (g & Hg' & Hl & _)].
      * by rewrite Hshape.
      * assert (g = f) as -> by congruence. done.
    + rewrite Hother in Hg by done. apply HcF; [done |].
      destruct (Hinv _ _ Hc') as [[-> _] | Hold]; done.
  - intros id' f0 Hf0. destruct (decide (id' = id)) as [-> | Hne].
    + exists (setFSlots f s'). split; [done |]. right.
      destruct (Hcnt id f0 Hf0) as (g & Hg & [Hsame | [Hhit _]]).
      2:{ assert (g = f) as -> by congruence. done. }
      assert (g = f) as -> by congruence.
      destruct (same_static o id f f0 Hshape Hf Hf0) as [Hp Hn].
      apply cacheResult_inr in Hc as (_ & Hlc & Hlen & _ & _ & Hcase).
      split; [simpl; rewrite Hlc; by apply list_lookup_insert_eq |].
      exists bprev. split; [by rewrite <- Hp |]. simpl.
      assert (HasName f0 = HasName f) as -> by (unfold HasName; by rewrite Hn).
      rewrite <- Hcount, <- Hsame.
      unfold counted.
      destruct Hcase as [(-> & Ha & Hr) | [(-> & _ & Hr & n & Hn1 & Ha) |
                                           (-> & _ & Ha & n & Hn1 & Hr)]].
      * done.
      * left. by exists n.
      * right. by exists n.
    + destruct (Hcnt id' f0 Hf0) as (g & Hg & Hor).
      exists g. by rewrite Hother.
Qed.

Lemma CheckFilters_sim (fuel : nat) (p : Node) : forall o o1 b,
  pathOrdered p = true ->
  coherent (sFilters (shape o0)) p ->
  simInv o ->
  CheckFilters fuel tree slot entry p o = (o1, inr b) ->
  simInv o1 /\ ChainVal (shape o0) tree entry p b.
Proof.
  induction p as [|id prev IH|name prev IH]; intros o o1 b Hord Hcoh Hinv H; simpl in *.
  - injection H as <- <-. split; [done | constructor].
  - apply andb_prop in Hord as [Hbelow Hord].
    destruct Hcoh as [(fe & Hfe & Hprev) Hcoh].
    apply bind_inr in H as (f & o' & Hf & H). injection Hf as <- Hf.
    apply bind_inr in H as (last & o' & Hlast & H). injection Hlast as <- Hlast.
    apply vat_inr in Hf. apply vat_inr in Hlast.
    assert (fe = eraseF f) as ->.
    { pose proof (shape_filter _ _ _ Hf) as Hsf. rewrite (sim_shape _ Hinv) in Hsf.
      simpl in Hsf. rewrite Hfe in Hsf. by injection Hsf. }
    assert (Hfprev : fPrevData f = prev) by done.
    case_decide as Hhit.
    { injection H as <- H. apply vat_inr in H. subst last. split; [done |].
      rewrite <- (sim_shape _ Hinv), <- Hfprev.
      apply (sim_consistent _ Hinv); [done |]. by exists f. }
    apply bind_inr in H as (up & o2 & Hup & H).
    destruct (IH _ _ _ Hord Hcoh Hinv Hup) as [Hinv2 Hchain].
    pose proof (CheckFilters_keepsFilter tree slot entry fuel id prev Hbelow o) as Hkeep.
    rewrite Hup in Hkeep. unfold keepsFilter in Hkeep. simpl in Hkeep.
    rewrite Hf in Hkeep.
    assert (Hmiss : fLastCheckedEntry (fSlots f) !! slot <> Some entry) by congruence.
    destruct up.
    + apply bind_inr in H as (args & o3 & Hargs & H).
      apply bind_inr in H as ([] & o4 & Hlog & H).
      apply bind_inr in H as (passed & o5 & Hcall & H).
      apply bind_inr in H as ([] & o6 & Hupd & H).
      unfold call, lift, logEv, ret in *.
      destruct (fFilter f args) as [w |] eqn:Hw; [| discriminate].
      assert (o4 = setEvLog o3 (evLog o3 ++ [EvFilter id slot entry])) as -> by congruence.
      assert (o5 = setEvLog o3 (evLog o3 ++ [EvFilter id slot entry])) as -> by congruence.
      assert (w = passed) as -> by congruence. assert (passed = b) as -> by congruence.
      assert (o6 = o1) as -> by congruence. clear H Hcall Hlog.
      destruct (ReadValues_sim _ _ _ _ _ _ (sim_consistent _ Hinv2) Hargs)
        as (Hcons3 & Hshape3 & Hfilters3 & Hvals).
      assert (Hchainb : ChainVal (shape o0) tree entry (FilterN id prev) b).
      { apply (ChainVal_eval _ _ _ id prev (eraseF f) args b); [done | done | | done].
        simpl. change (eraseB <$> fBookedBranches o0) with (sBranches (shape o0)).
        by rewrite <- (sim_shape _ Hinv2). }
      split; [| done].
      apply (simInv_updateFilter id b (HasName f) true f
               (setEvLog o3 (evLog o3 ++ [EvFilter id slot entry]))); try done.
      * split.
        -- change (shape o3 = shape o0). rewrite Hshape3. apply Hinv2.
        -- destruct Hcons3 as [HcB HcF]. split.
           ++ intros name v Hc. apply (HcB name v Hc).
           ++ intros id' g b' Hg Hc. apply (HcF id' g b' Hg Hc).
        -- intros id' f0 Hf0. destruct (sim_counters _ Hinv2 id' f0 Hf0) as (g & Hg & Hor).
           exists g. simpl. by rewrite Hfilters3.
      * simpl. by rewrite Hfilters3.
      * by rewrite Hfprev.
      * by rewrite Hfprev.
      * by rewrite andb_true_r.
    + apply bind_inr in H as ([] & o3 & Hupd & H).
      unfold ret in H. assert (o3 = o1) as -> by congruence.
      assert (b = false) as -> by congruence. clear H.
      split; [| by apply ChainVal_reject].
      apply (simInv_updateFilter id false false false f o2); try done.
      * by rewrite Hfprev.
      * rewrite Hfprev. by apply ChainVal_reject.
      * by rewrite andb_false_r.
  - destruct (IH _ _ _ Hord Hcoh Hinv H) as [Hinv1 Hchain].
    split; [done | by constructor].
Qed.

(** At the start of an entry that no cache of the slot holds. *)
Definition missAll (o : Objects) : Prop :=
  (forall id f, filterObjs o !! id = Some f ->
                fLastCheckedEntry (fSlots f) !! slot <> Some entry) /\
  (forall name b, fBookedBranches o !! name = Some b ->
                  bLastCheckedEntry (bSlots b) !! slot <> Some entry).

Lemma simInv_start : missAll o0 -> simInv o0.
Proof.
  intros [HmF HmB]. split; [done | split |].
  - intros name v (b & Hb & Hl & _). by destruct (HmB name b Hb).
  - intros id f b Hf (f' & Hf' & Hl & _). by destruct (HmF id f' Hf').
  - intros id f0 Hf0. exists f0. split; [done | by left].
Qed.

Lemma updateAction_keeps id args o :
  filterObjs (updateAction id slot args o).1 = filterObjs o /\
  fBookedBranches (updateAction id slot args o).1 = fBookedBranches o.
Proof.
  unfold updateAction, bind, getAction, lift.
  destruct (vat (actionObjs o) id) as [e | a]; simpl; [done |].
  by destruct (Exec slot args (aHelper a)).
Qed.

Lemma simInv_same_nodes o o' :
  shape o' = shape o -> filterObjs o' = filterObjs o ->
  fBookedBranches o' = fBookedBranches o -> simInv o -> simInv o'.
Proof.
  intros Hs Hf Hb [Hshape [HcB HcF] Hcnt]. split; [congruence | split |].
  - intros name v (b & Hb' & Hl & Hr). rewrite Hs. apply HcB.
    exists b. by rewrite <- Hb.
  - intros id f b Hf' (g & Hg & Hl & Hr). rewrite Hs. rewrite Hf in Hf', Hg.
    apply HcF; [done |]. by exists g.
  - intros id f0 Hf0. destruct (Hcnt id f0 Hf0) as (g & Hg & Hor).
    exists g. by rewrite Hf.
Qed.

Lemma Action_Run_sim fuel actions id o o1 :
  validPipeline (shape o0) actions -> id ∈ actions ->
  simInv o ->
  Action_Run fuel tree slot entry id o = (o1, inr tt) ->
  simInv o1.
Proof.
  intros Hvalid Hid Hinv H. unfold Action_Run in H.
  apply bind_inr in H as (a & o' & Ha & H). injection Ha as <- Ha. apply vat_inr in Ha.
  destruct (actions_ordered _ _ Hvalid id Hid) as (a' & Ha' & Hord & Hcoh).
  assert (a' = eraseA a) as ->.
  { rewrite <- (sim_shape _ Hinv) in Ha'. unfold shape in Ha'. simpl in Ha'.
    rewrite list_lookup_fmap, Ha in Ha'. by injection Ha'. }
  simpl in Hord, Hcoh.
  apply bind_inr in H as (ok & o2 & Hok & H).
  destruct (CheckFilters_sim _ _ _ _ _ Hord Hcoh Hinv Hok) as [Hinv2 _].
  destruct ok; [| unfold ret in H; by injection H as <-].
  apply bind_inr in H as (args & o3 & Hargs & H).
  destruct (ReadValues_sim _ _ _ _ _ _ (sim_consistent _ Hinv2) Hargs)
    as (Hcons3 & Hshape3 & Hfilters3 & _).
  assert (Hinv3 : simInv o3).
  { split; [rewrite Hshape3; apply Hinv2 | done |].
    intros id' f0 Hf0. destruct (sim_counters _ Hinv2 id' f0 Hf0) as (g & Hg & Hor).
    exists g. by rewrite Hfilters3. }
  pose proof (Step_updateAction slot entry id args o3) as Hstep.
  pose proof (updateAction_keeps id args o3) as [Hkf Hkb].
  rewrite H in Hstep, Hkf, Hkb. simpl in *. apply Step_shape in Hstep.
  by apply (simInv_same_nodes o3 o1).
Qed.

Lemma Filter_CheckFilters_sim fuel actions id o o1 b :
  validPipeline (shape o0) actions ->
  simInv o ->
  Filter_CheckFilters fuel tree slot entry id o = (o1, inr b) ->
  simInv o1 /\ hitF slot entry o1 id.
Proof.
  intros Hvalid Hinv H. unfold Filter_CheckFilters in H.
  apply bind_inr in H as (f & o' & Hf & H). injection Hf as <- Hf. apply vat_inr in Hf.
  pose proof (shape_filter _ _ _ Hf) as Hsf. rewrite (sim_shape _ Hinv) in Hsf.
  destruct (filters_ordered _ _ Hvalid id _ Hsf) as (Hbelow & Hord & Hcoh).
  simpl in Hbelow, Hord, Hcoh.
  pose proof (CheckFilters_caches _ _ _ _ _ _ _ _ _ H) as (g & Hg & Hl & _).
  apply CheckFilters_sim in H as [Hinv1 _]; try done.
  - split; [done |]. by exists g.
  - simpl. by rewrite Hbelow, Hord.
  - simpl. split; [| done]. by exists (eraseF f).
Qed.

Lemma forEach_inr_all {A} (I : Objects -> Prop) (P : A -> Objects -> Prop)
    (body : A -> M unit) (xs : list A) : forall o o',
  I o ->
  (forall x o1 o2, x ∈ xs -> I o1 -> body x o1 = (o2, inr tt) -> I o2 /\ P x o2) ->
  (forall x y o1 o2, P x o1 -> body y o1 = (o2, inr tt) -> P x o2) ->
  forEach body xs o = (o', inr tt) ->
  I o' /\ (forall x, x ∈ xs -> P x o') /\ (forall x, P x o -> P x o').
Proof.
  induction xs as [|x xs IH]; intros o o' HI Hbody Hstable H; simpl in H.
  - injection H as <-. split; [done |]. split; [by intros x ?%elem_of_nil | done].
  - apply bind_inr in H as ([] & o1 & Hx & H).
    destruct (Hbody x o o1) as [HI1 HP1]; [by left | done | done |].
    destruct (IH o1 o' HI1) as (HI' & Hall & Hkeep); [| done | done |].
    { intros y oa ob Hy. apply Hbody. by right. }
    split; [done |]. split.
    + intros y [-> | Hy]%elem_of_cons; [by apply Hkeep | by apply Hall].
    + intros y Hy. apply Hkeep. by eapply Hstable.
Qed.

(** What one entry does to the named filters: each counted the entry if
    the chain above it accepts, and only then. *)
Lemma ProcessEntry_counts fuel actions named o1 :
  validPipeline (shape o0) actions ->
  missAll o0 ->
  ProcessEntry fuel tree actions named slot entry o0 = (o1, inr tt) ->
  forall id f0, id ∈ named -> filterObjs o0 !! id = Some f0 ->
    exists f, filterObjs o1 !! id = Some f /\ touched f0 f.
Proof.
  intros Hvalid Hmiss H. unfold ProcessEntry in H.
  apply bind_inr in H as ([] & o2 & Hacts & H).
  apply (forEach_inr simInv) in Hacts; [| by apply simInv_start |].
  2:{ intros id oa ob Hid Hinv Hrun. by eapply Action_Run_sim. }
  apply (forEach_inr_all simInv (fun id o => hitF slot entry o id)) in H
    as (Hinv1 & Hhit & _); [| done | |].
  - intros id f0 Hid Hf0. destruct (sim_counters _ Hinv1 id f0 Hf0) as (f & Hf & [Hsame | Ht]).
    + destruct (Hhit id Hid) as (g & Hg & Hl).
      assert (g = f) as -> by congruence. rewrite Hsame in Hl.
      by destruct (proj1 Hmiss id f0 Hf0).
    + by exists f.
  - intros id oa ob Hid Hinv Hrun.
    apply bind_inr in Hrun as (b & oc & Hrun & Hret).
    unfold ret in Hret. assert (oc = ob) as -> by congruence.
    by eapply Filter_CheckFilters_sim.
  - intros id id' oa ob Hh Hrun. eapply hitF_Step; [| exact Hh].
    assert (Hr : respects (Step slot entry)
                   (_ <- Filter_CheckFilters fuel tree slot entry id' ;; ret tt)).
    { apply respects_bind; [apply _ | | by intros ? ?].
      unfold Filter_CheckFilters. apply respects_bind; [apply _ | by intros ? |].
      intros f. apply Step_CheckFilters. }
    specialize (Hr oa). by rewrite Hrun in Hr.
Qed.

End Sim.

(** ** The counters of a named filter over a whole event loop *)

Section Counting.
Import Semantics.

Lemma sumZ_cons x v : sumZ (x :: v) = x + sumZ v.
Proof. reflexivity. Qed.

Lemma sumZ_insert (v : list Z) : forall i n m,
  v !! i = Some n -> sumZ (<[i := m]> v) = sumZ v - n + m.
Proof.
  unfold sumZ. induction v as [|x v IH]; intros [|i] n m H; simpl in *; try discriminate.
  - injection H as ->. lia.
  - rewrite (IH i n m H). lia.
Qed.

Lemma sumZ_lookup_le (v : list Z) : forall i n,
  nonneg v -> v !! i = Some n -> 0 <= n <= sumZ v.
Proof.
  induction v as [|x v IH]; intros [|i] n Hv H; simpl in *; try discriminate;
    apply Forall_cons in Hv as [Hx Hv]; pose proof (sumZ_nonneg v Hv);
    unfold sumZ in *; simpl.
  - injection H as ->. lia.
  - specialize (IH i n Hv H). lia.
Qed.

Lemma countAccepted_app verdicts b :
  countAccepted (verdicts ++ [b]) = countAccepted verdicts + (if b then 1 else 0).
Proof.
  unfold countAccepted. rewrite filter_app, length_app.
  destruct b.
  - rewrite filter_cons, decide_True by done. simpl. lia.
  - rewrite filter_cons, decide_False by done. simpl. lia.
Qed.

Lemma countAccepted_le verdicts :
  0 <= countAccepted verdicts <= Z.of_nat (length verdicts).
Proof.
  unfold countAccepted. pose proof (length_filter (fun b => b = true) verdicts). lia.
Qed.

(** One counted entry moves the total by one, short of the wrap-around. *)
Lemma counted_total slot (count : bool) (s0 s : FilterSlots) :
  counted slot count s0 s ->
  nonneg (fAccepted s0) -> nonneg (fRejected s0) ->
  sumZ (fAccepted s0) + sumZ (fRejected s0) + 1 < 2 ^ 64 ->
  nonneg (fAccepted s) /\ nonneg (fRejected s) /\
  sumZ (fAccepted s) + sumZ (fRejected s)
  = sumZ (fAccepted s0) + sumZ (fRejected s0) + (if count then 1 else 0).
Proof.
  intros Hc Ha Hr Hbound. pose proof (sumZ_nonneg _ Ha). pose proof (sumZ_nonneg _ Hr).
  destruct count; simpl in Hc.
  - destruct Hc as [(n & Hn & Ha' & Hr') | (n & Hn & Hr' & Ha')]; rewrite Ha', Hr'.
    + destruct (sumZ_lookup_le _ _ _ Ha Hn).
      assert (Hu : u64 (n + 1) = n + 1) by (unfold u64; apply Z.mod_small; lia).
      rewrite Hu, (sumZ_insert _ _ _ _ Hn).
      split; [| split; [done | lia]]. apply Forall_insert; [done | lia].
    + destruct (sumZ_lookup_le _ _ _ Hr Hn).
      assert (Hu : u64 (n + 1) = n + 1) by (unfold u64; apply Z.mod_small; lia).
      rewrite Hu, (sumZ_insert _ _ _ _ Hn).
      split; [done |]. split; [| lia]. apply Forall_insert; [done | lia].
  - destruct Hc as [Ha' Hr']. rewrite Ha', Hr'. split; [done |]. split; [done | lia].
Qed.

End Counting.

Section CountPass.
Import Semantics.
Context (tree : TTree) (s : Shape) (actions named : list nat).
Context (id : nat) (prev : Node).

(** Every cached entry is negative or belongs to a step already taken. *)
Definition freshBut (visited : list (nat * Z)) (o : Objects) : Prop :=
  (forall id f i x, filterObjs o !! id = Some f ->
                    fLastCheckedEntry (fSlots f) !! i = Some x ->
                    x < 0 \/ (i, x) ∈ visited) /\
  (forall name b i x, fBookedBranches o !! name = Some b ->
                      bLastCheckedEntry (bSlots b) !! i = Some x ->
                      x < 0 \/ (i, x) ∈ visited).

(** The counters of the filter [id] add up to the number of entries, among
    those processed, that the chain above the filter accepts. *)
Definition countInv (rows : list Z) (o : Objects) : Prop :=
  exists f verdicts,
    filterObjs o !! id = Some f /\ fPrevData f = prev /\ HasName f = true /\
    nonneg (fAccepted (fSlots f)) /\ nonneg (fRejected (fSlots f)) /\
    Forall2 (fun r b => ChainVal s tree r prev b) rows verdicts /\
    sumZ (fAccepted (fSlots f)) + sumZ (fRejected (fSlots f)) = countAccepted verdicts.

Record passC (visited : list (nat * Z)) (rows : list Z) (o : Objects) : Prop := {
  passC_shape : shape o = s;
  passC_fresh : freshBut visited o;
  passC_count : countInv rows o
}.

Lemma freshBut_missAll visited slot entry o :
  freshBut visited o -> 0 <= entry -> (slot, entry) ∉ visited -> missAll slot entry o.
Proof.
  intros [HF HB] Hpos Hnew. split.
  - intros id' f Hf Hl. destruct (HF _ _ _ _ Hf Hl); [lia | done].
  - intros name b Hb Hl. destruct (HB _ _ _ _ Hb Hl); [lia | done].
Qed.

Lemma freshBut_Step visited slot entry o o' :
  freshBut visited o -> Step slot entry o o' -> freshBut ((slot, entry) :: visited) o'.
Proof.
  intros [HF HB] Hstep. split.
  - intros id' f' i x Hf' Hl. pose proof (step_filters _ _ _ _ Hstep id') as Hid.
    rewrite Hf' in Hid. inversion Hid as [f f'' (_ & Hc & _) Heq1 Heq2 |]; subst.
    destruct (Hc i) as [Hsame | [-> Hnew]].
    + rewrite Hsame in Hl. destruct (HF _ _ _ _ (eq_sym Heq1) Hl); [by left |].
      right. by right.
    + right. assert (x = entry) as -> by congruence. by left.
  - intros name b' i x Hb' Hl. pose proof (step_branches _ _ _ _ Hstep name) as Hn.
    rewrite Hb' in Hn. inversion Hn as [b b'' (_ & Hc) Heq1 Heq2 |]; subst.
    destruct (Hc i) as [Hsame | [-> Hnew]].
    + rewrite Hsame in Hl. destruct (HB _ _ _ _ (eq_sym Heq1) Hl); [by left |].
      right. by right.
    + right. assert (x = entry) as -> by congruence. by left.
Qed.

Lemma freshBut_mono visited visited' o :
  visited ⊆ visited' -> freshBut visited o -> freshBut visited' o.
Proof.
  intros Hsub [HF HB]. split.
  - intros id' f i x Hf Hl. destruct (HF _ _ _ _ Hf Hl); auto.
  - intros name b i x Hb Hl. destruct (HB _ _ _ _ Hb Hl); auto.
Qed.

Lemma ProcessEntry_passC fuel slot entry visited rows o o' :
  validPipeline s actions -> id ∈ named ->
  passC visited rows o ->
  0 <= entry -> (slot, entry) ∉ visited ->
  Z.of_nat (length rows) + 1 < 2 ^ 64 ->
  ProcessEntry fuel tree actions named slot entry o = (o', inr tt) ->
  passC ((slot, entry) :: visited) (rows ++ [entry]) o'.
Proof.
  intros Hvalid Hid [Hshape Hfresh Hcount] Hpos Hnew Hbound Hrun.
  pose proof (Step_ProcessEntry slot entry tree fuel actions named o) as Hstep.
  rewrite Hrun in Hstep. simpl in Hstep.
  pose proof (Step_shape _ _ _ _ Hstep) as Hshape'.
  split; [congruence | by eapply freshBut_Step |].
  destruct Hcount as (f & verdicts & Hf & Hprev & Hname & Ha & Hr & Hchain & Hsum).
  destruct (ProcessEntry_counts tree slot entry o fuel actions named o')
    with (id := id) (f0 := f) as (f' & Hf' & (_ & b & Hb & Hc)); try done.
  { by rewrite Hshape. }
  { by eapply freshBut_missAll. }
  rewrite Hname in Hc. simpl in Hc.
  pose proof (Forall2_length _ _ _ Hchain) as Hlen.
  pose proof (countAccepted_le verdicts) as Hle.
  destruct (counted_total slot b (fSlots f) (fSlots f') Hc Ha Hr) as (Ha' & Hr' & Hsum').
  { lia. }
  destruct (same_static o o' id f' f) as [Hp Hn]; [congruence | done | done |].
  exists f', (verdicts ++ [b]). split; [done |]. split; [congruence |].
  split; [unfold HasName in *; by rewrite Hn |]. split; [done |]. split; [done |].
  split.
  - apply Forall2_app; [done |]. constructor; [| constructor].
    rewrite <- Hshape, <- Hprev. exact Hb.
  - rewrite Hsum', Hsum, countAccepted_app. done.
Qed.

Lemma EventLoop_passC fuel slot (entries : list Z) : forall visited rows o o',
  validPipeline s actions -> id ∈ named ->
  passC visited rows o ->
  NoDup entries ->
  (forall r, r ∈ entries -> 0 <= r /\ (slot, r) ∉ visited) ->
  Z.of_nat (length rows) + Z.of_nat (length entries) < 2 ^ 64 ->
  EventLoop fuel tree actions named slot entries o = (o', inr tt) ->
  passC (((fun r => (slot, r)) <$> entries) ++ visited) (rows ++ entries) o'.
Proof.
  unfold EventLoop.
  induction entries as [|r rest IH];
    intros visited rows o o' Hvalid Hid Hpass Hnd Hnew Hbound Hrun; simpl in *.
  - injection Hrun as <-. by rewrite app_nil_r.
  - apply NoDup_cons in Hnd as [Hr Hnd].
    apply bind_inr in Hrun as ([] & o1 & Hstep & Hrun).
    destruct (Hnew r) as [Hpos Hfresh]; [by left |].
    apply (ProcessEntry_passC _ _ _ visited rows) in Hstep; try done; [| lia].
    apply (IH ((slot, r) :: visited) (rows ++ [r])) in Hrun; try done.
    + destruct Hrun as [Hs Hf Hc]. split; [done | |].
      * eapply freshBut_mono; [| exact Hf].
        intros x. rewrite !elem_of_app, !elem_of_cons, elem_of_app. tauto.
      * by rewrite <- app_assoc in Hc.
    + intros r' Hr'. destruct (Hnew r') as [Hpos' Hfresh']; [by right |].
      split; [done |]. intros [Heq | Hin]%elem_of_cons; [| done].
      injection Heq as ->. done.
    + rewrite length_app. simpl. lia.
Qed.

End CountPass.

Section Rebind.
Import Semantics.

(** Binding the readers of a slot leaves caches and counters alone. *)
Definition sameF (f f' : TDataFrameFilterBase) : Prop :=
  eraseF f' = eraseF f /\
  fLastCheckedEntry (fSlots f') = fLastCheckedEntry (fSlots f) /\
  fAccepted (fSlots f') = fAccepted (fSlots f) /\
  fRejected (fSlots f') = fRejected (fSlots f).

Definition sameB (b b' : TDataFrameBranchBase) : Prop :=
  bLastCheckedEntry (bSlots b') = bLastCheckedEntry (bSlots b).

Definition sameCaches (o o' : Objects) : Prop :=
  (forall id, option_Forall2 sameF (filterObjs o !! id) (filterObjs o' !! id)) /\
  (forall name, option_Forall2 sameB (fBookedBranches o !! name)
                                     (fBookedBranches o' !! name)).

#[global] Instance sameF_refl : Reflexive sameF.
Proof. by intros f. Qed.

#[global] Instance sameF_trans : Transitive sameF.
Proof. intros f g h (? & ? & ? & ?) (? & ? & ? & ?). repeat split; congruence. Qed.

#[global] Instance sameB_refl : Reflexive sameB.
Proof. by intros b. Qed.

#[global] Instance sameB_trans : Transitive sameB.
Proof. unfold sameB. intros a b c. congruence. Qed.

#[global] Instance sameCaches_refl : Reflexive sameCaches.
Proof. intros o. split; intros; reflexivity. Qed.

#[global] Instance sameCaches_trans : Transitive sameCaches.
Proof.
  intros o1 o2 o3 [Hf1 Hb1] [Hf2 Hb2]. split.
  - intros id. etrans; [apply Hf1 | apply Hf2].
  - intros name. etrans; [apply Hb1 | apply Hb2].
Qed.

Lemma BuildAllReaderValues_sameCaches actions filters slot :
  respects sameCaches (BuildAllReaderValues actions filters slot).
Proof.
  unfold BuildAllReaderValues.
  apply respects_bind; [apply _ | | intros _].
  { apply respects_forEach; [apply _ .. |]. intros id o.
    unfold Action_BuildReaderValues, bind, getAction, lift.
    destruct (vat (actionObjs o) id) as [e | a]; simpl; [reflexivity |].
    destruct (bindReaders slot (aBranches a) (aReaderValues a)); simpl; [reflexivity |].
    split; intros; reflexivity. }
  apply respects_bind; [apply _ | | intros _].
  { apply respects_forEach; [apply _ .. |]. intros id o.
    unfold Filter_BuildReaderValues, bind, getFilter, lift.
    destruct (vat (filterObjs o) id) as [e | f] eqn:Hf; simpl; [reflexivity |].
    destruct (bindReaders slot (fBranches f) (fReaderValues (fSlots f))); simpl;
      [reflexivity |].
    apply vat_inr in Hf. split; [| intros; reflexivity].
    intros id'. simpl. rewrite list_lookup_alter. case_decide; [subst id' | reflexivity].
    rewrite Hf. simpl. by constructor. }
  intros o. case_bool_decide; simpl; [| reflexivity].
  split; [intros; reflexivity |]. intros name. simpl. rewrite lookup_fmap.
  destruct (fBookedBranches o !! name); simpl; by constructor.
Qed.

Lemma freshBut_sameCaches visited o o' :
  sameCaches o o' -> freshBut visited o -> freshBut visited o'.
Proof.
  intros [Hf Hb] [HF HB]. split.
  - intros id f' i x Hf' Hl. specialize (Hf id). rewrite Hf' in Hf.
    inversion Hf as [f f'' (_ & Hc & _) Heq1 Heq2 |]; subst.
    rewrite Hc in Hl. by eapply HF.
  - intros name b' i x Hb' Hl. specialize (Hb name). rewrite Hb' in Hb.
    inversion Hb as [b b'' Hc Heq1 Heq2 |]; subst.
    rewrite Hc in Hl. by eapply HB.
Qed.

Lemma passC_sameCaches tree s id prev visited rows o o' :
  sameCaches o o' -> sameShapeLog o o' ->
  passC tree s id prev visited rows o -> passC tree s id prev visited rows o'.
Proof.
  intros Hsame [Hshape _] [Hs Hfresh Hcount].
  split; [congruence | by eapply freshBut_sameCaches |].
  destruct Hcount as (f & verdicts & Hf & Hprev & Hname & Ha & Hr & Hchain & Hsum).
  pose proof (proj1 Hsame id) as Hid. rewrite Hf in Hid.
  inversion Hid as [f0 f' (He & _ & Hacc & Hrej) Heq1 Heq2 |]; subst.
  exists f', verdicts.
  assert (fPrevData f' = fPrevData f /\ fName f' = fName f) as [Hp Hn].
  { injection He as ? ? ? ?. done. }
  split; [done |]. split; [done |].
  split; [unfold HasName in *; by rewrite Hn |].
  rewrite Hacc, Hrej. done.
Qed.

End Rebind.

Section CreateSlots.
Import Semantics.

Lemma length_resize {A} (n : nat) (d : A) (v : list A) : length (resize n d v) = n.
Proof. unfold resize. rewrite length_app, length_take, length_replicate. lia. Qed.

Lemma Forall_resize {A} (P : A -> Prop) (n : nat) (d : A) (v : list A) :
  P d -> Forall P v -> Forall P (resize n d v).
Proof.
  intros Hd Hv. unfold resize. apply Forall_app. split.
  - by apply Forall_take.
  - by apply Forall_replicate.
Qed.

Lemma foldl_alter_notin {A} (g : A -> A) (ids : list nat) : forall (l : list A) i,
  i ∉ ids -> foldl (fun objs id => alter g id objs) l ids !! i = l !! i.
Proof.
  induction ids as [|j ids IH]; intros l i Hi; simpl; [done |].
  apply not_elem_of_cons in Hi as [Hne Hi].
  rewrite IH by done. by apply list_lookup_alter_ne.
Qed.

Lemma foldl_alter_keeps {A} (P : A -> Prop) (g : A -> A) (ids : list nat) :
  (forall x, P x -> P (g x)) ->
  forall (l : list A) i x',
    (forall x, l !! i = Some x -> P x) ->
    foldl (fun objs id => alter g id objs) l ids !! i = Some x' -> P x'.
Proof.
  intros Hg. induction ids as [|j ids IH]; intros l i x' Hl H; simpl in H; [by apply Hl |].
  apply (IH _ _ _) in H; [done |].
  intros x. rewrite list_lookup_alter. case_decide; [subst j | apply Hl].
  destruct (l !! i) as [y |] eqn:Hy; simpl; [| discriminate].
  intros [= <-]. by apply Hg, Hl.
Qed.

Lemma foldl_alter_sets {A} (R : A -> Prop) (g : A -> A) (ids : list nat) :
  (forall x, R (g x)) ->
  forall (l : list A) i x',
    i ∈ ids ->
    foldl (fun objs id => alter g id objs) l ids !! i = Some x' -> R x'.
Proof.
  intros Hg. induction ids as [|j ids IH]; intros l i x' Hi H; simpl in H.
  { by apply elem_of_nil in Hi. }
  destruct (decide (i ∈ ids)) as [Hin | Hnin]; [by eapply IH |].
  apply elem_of_cons in Hi as [-> | Hi]; [| done].
  rewrite foldl_alter_notin, list_lookup_alter_eq in H by done.
  destruct (l !! j) as [y |]; simpl in H; [| discriminate]. injection H as <-. apply Hg.
Qed.

Lemma CreateSlots_passC tree actions filters nSlots o id f :
  freshStart o ->
  filterObjs o !! id = Some f -> id ∈ filters -> HasName f = true ->
  passC tree (shape o) id (fPrevData f) [] []
        (CreateSlots actions filters nSlots o).1.
Proof.
  intros [HF HB] Hf Hid Hname.
  pose proof (CreateSlots_sameShapeLog actions filters nSlots o) as [Hshape _].
  set (G := fun f => setFSlots f (Filter_CreateSlots nSlots (fSlots f))).
  split; [done | split |].
  - intros id' f' i x Hf' Hl. left. simpl in Hf'.
    apply (foldl_alter_keeps
             (fun f => Forall (fun x => x < 0) (fLastCheckedEntry (fSlots f))) G)
      in Hf'.
    + rewrite Forall_forall in Hf'. apply Hf'. by eapply list_elem_of_lookup_2.
    + intros g Hg. simpl. by apply Forall_resize.
    + intros g Hg. by eapply HF.
  - intros name b' i x Hb' Hl. left. simpl in Hb'. rewrite lookup_fmap in Hb'.
    destruct (fBookedBranches o !! name) as [b |] eqn:Hb; simpl in Hb'; [| discriminate].
    injection Hb' as <-. simpl in Hl.
    assert (Hall : Forall (fun x => x < 0) (resize nSlots (-1) (bLastCheckedEntry (bSlots b)))).
    { apply Forall_resize; [lia | by eapply HB]. }
    rewrite Forall_forall in Hall. apply Hall. by eapply list_elem_of_lookup_2.
  - assert (Hlen : (id < length (filterObjs (CreateSlots actions filters nSlots o).1))%nat).
    { apply lookup_lt_Some in Hf.
      assert (length (sFilters (shape (CreateSlots actions filters nSlots o).1))
              = length (sFilters (shape o))) as Hl by by rewrite Hshape.
      unfold shape in Hl. simpl in Hl. rewrite !length_fmap in Hl. simpl. lia. }
    destruct (lookup_lt_is_Some_2 _ _ Hlen) as [f' Hf'].
    destruct (same_static o _ id f' f Hshape Hf' Hf) as [Hp Hn].
    simpl in Hf'.
    pose proof (foldl_alter_sets
                  (fun f => fAccepted (fSlots f) = replicate nSlots 0 /\
                            fRejected (fSlots f) = replicate nSlots 0) G filters)
      as Hset.
    destruct (Hset ltac:(intros g; simpl; unfold fill; by rewrite !length_resize) _ _ _ Hid Hf')
      as [Hacc Hrej].
    exists f', []. split; [done |]. split; [done |].
    split; [unfold HasName in *; by rewrite Hn |].
    rewrite Hacc, Hrej.
    assert (Hz : forall n, sumZ (replicate n 0) = 0).
    { intros n. unfold sumZ. induction n; simpl; lia. }
    split; [by apply Forall_replicate |]. split; [by apply Forall_replicate |].
    split; [constructor |]. rewrite !Hz. reflexivity.
Qed.

End CreateSlots.

Section CountRun.
Import Semantics.

Lemma runTasks_passC tree s actions filters named id prev fuel
    (ts : list (Z * list Z)) : forall visited rows o o',
  validPipeline s actions -> id ∈ named ->
  passC tree s id prev visited rows o ->
  NoDup (taskSteps ts) ->
  (forall st, st ∈ taskSteps ts -> 0 <= st.2 /\ st ∉ visited) ->
  Z.of_nat (length rows) + Z.of_nat (length (concat ts.*2)) < 2 ^ 64 ->
  forEach (runTask fuel tree actions filters named) ts o = (o', inr tt) ->
  passC tree s id prev (taskSteps ts ++ visited) (rows ++ concat ts.*2) o'.
Proof.
  induction ts as [|[sl es] rest IH];
    intros visited rows o o' Hvalid Hid Hpass Hnd Hnew Hbound Hrun; simpl in Hrun.
  - injection Hrun as <-. simpl. by rewrite app_nil_r.
  - rewrite taskSteps_cons in Hnd, Hnew. simpl in Hnd, Hnew, Hbound.
    rewrite length_app in Hbound.
    apply NoDup_app in Hnd as (Hnd1 & Hdisj & Hnd2). apply NoDup_fmap_1 in Hnd1.
    apply bind_inr in Hrun as ([] & o2 & Htask & Hrun). unfold runTask in Htask.
    simpl in Htask. apply bind_inr in Htask as ([] & o1 & Hbuild & Hloop).
    pose proof (BuildAllReaderValues_sameCaches actions filters (Z.to_nat sl) o) as Hsame.
    pose proof (BuildAllReaderValues_sameShapeLog actions filters (Z.to_nat sl) o) as Hsl.
    rewrite Hbuild in Hsame, Hsl. simpl in Hsame, Hsl.
    apply (passC_sameCaches _ _ _ _ _ _ _ _ Hsame Hsl) in Hpass.
    apply (EventLoop_passC tree s actions named id prev fuel (Z.to_nat sl) es visited rows)
      in Hloop; try done; [| | lia].
    2:{ intros r Hr. destruct (Hnew (Z.to_nat sl, r)) as [Hpos Hfresh]; [| done].
        apply elem_of_app. left.
        by apply (list_elem_of_fmap_2 (fun r => (Z.to_nat sl, r))). }
    apply (IH (((fun r => (Z.to_nat sl, r)) <$> es) ++ visited) (rows ++ es)) in Hrun;
      try done.
    + rewrite taskSteps_cons. simpl. destruct Hrun as [Hs Hf Hc]. split; [done | |].
      * eapply freshBut_mono; [| exact Hf]. intros x. rewrite !elem_of_app. tauto.
      * by rewrite <- app_assoc in Hc.
    + intros st Hst. destruct (Hnew st) as [Hpos Hfresh]; [apply elem_of_app; by right |].
      split; [done |]. intros [Hin | Hin]%elem_of_app; [| done]. by eapply Hdisj.
    + rewrite length_app. unfold fmap in *. lia.
Qed.

Lemma taskSlots_length (threads : list nat) : forall slotMap g,
  length (taskSlots slotMap g threads) = length threads.
Proof.
  induction threads as [|t rest IH]; intros slotMap g; simpl; [done |].
  destruct (acquireSlot t slotMap g) as [[slot slotMap'] g']. simpl. by rewrite IH.
Qed.

Lemma allEntries_nonneg tree r : r ∈ allEntries tree -> 0 <= r.
Proof. unfold allEntries. rewrite elem_of_seqZ. lia. Qed.

Lemma allEntries_length tree : length (allEntries tree) = length (tEntries tree).
Proof. unfold allEntries. rewrite length_seqZ. lia. Qed.

(** The counters of a named filter at the end of an event loop that
    returns. *)
Lemma RunLoops_counts (env : Env) (df : TDataFrameImpl) (o o' : Objects) :
  validPipeline (shape o) (fBookedActions df) ->
  freshStart o ->
  processedEntries env df ≡ₚ allEntries (fTree df) ->
  Z.of_nat (length (tEntries (fTree df))) < 2 ^ 64 ->
  RunLoops env df o = (o', inr tt) ->
  forall id f,
    id ∈ fBookedNamedFilters df -> id ∈ fBookedFilters df ->
    filterObjs o !! id = Some f -> HasName f = true ->
    countInv (fTree df) (shape o) id (fPrevData f) (processedEntries env df) o'.
Proof.
  intros Hvalid Hfresh Hperm Hbound Hrun id f Hnamed Hbooked Hf Hname.
  assert (Hlen : length (processedEntries env df) = length (tEntries (fTree df))).
  { rewrite Hperm. apply allEntries_length. }
  assert (Hnn : forall r, r ∈ processedEntries env df -> 0 <= r).
  { intros r Hr. rewrite Hperm in Hr. by eapply allEntries_nonneg. }
  assert (Hnd : NoDup (processedEntries env df)).
  { rewrite Hperm. apply allEntries_NoDup. }
  revert Hrun. unfold RunLoops, processedEntries in *.
  destruct (R__USE_IMT env && IsImplicitMTEnabled env).
  - intros Hrun. apply bind_inr in Hrun as ([] & o1 & Hcreate & Hrun).
    pose proof (CreateSlots_passC (fTree df) (fBookedActions df) (fBookedFilters df)
                  (Z.to_nat (fNSlots df)) o id f Hfresh Hf Hbooked Hname) as Hpass.
    rewrite Hcreate in Hpass. simpl in Hpass.
    rewrite Process_taskSlots in Hrun.
    set (ts := zip (taskSlots ∅ 0 (tasks env).*1) (tasks env).*2) in *.
    assert (Hsnd : ts.*2 = (tasks env).*2).
    { apply snd_zip. rewrite taskSlots_length, !length_fmap. done. }
    apply (runTasks_passC _ (shape o) _ _ _ id (fPrevData f) _ ts [] []) in Hrun;
      try done.
    + destruct Hrun as [_ _ Hc]. simpl in Hc. by rewrite Hsnd in Hc.
    + by apply taskSteps_NoDup.
    + intros st Hst. split; [| by intros ?%elem_of_nil].
      apply Hnn. by apply (taskSteps_entries _ _ _ Hst).
    + rewrite Hsnd. simpl. lia.
  - intros Hrun. apply bind_inr in Hrun as ([] & o1 & Hcreate & Hrun).
    pose proof (CreateSlots_passC (fTree df) (fBookedActions df) (fBookedFilters df)
                  1 o id f Hfresh Hf Hbooked Hname) as Hpass.
    rewrite Hcreate in Hpass. simpl in Hpass.
    apply bind_inr in Hrun as ([] & o2 & Hbuild & Hrun).
    pose proof (BuildAllReaderValues_sameCaches (fBookedActions df) (fBookedFilters df)
                  0 o1) as Hsame.
    pose proof (BuildAllReaderValues_sameShapeLog (fBookedActions df) (fBookedFilters df)
                  0 o1) as Hsl.
    rewrite Hbuild in Hsame, Hsl. simpl in Hsame, Hsl.
    apply (passC_sameCaches _ _ _ _ _ _ _ _ Hsame Hsl) in Hpass.
    apply (EventLoop_passC _ (shape o) _ _ id (fPrevData f) _ 0%nat _ [] []) in Hrun;
      try done.
    + by destruct Hrun as [_ _ Hc].
    + intros r Hr. split; [by apply Hnn | by intros ?%elem_of_nil].
    + simpl. lia.
Qed.

End CountRun.

(** * Further properties of the booking and of the preparation of a run *)

Section PickedNames.
Import Internal.

(** X1: whenever [PickBranchNames] returns a list, the list has exactly as
    many names as the callable has arguments, and it is the explicit list or,
    the explicit list being empty, the default one; whenever it throws, the
    error is the mismatch of the number of arguments with the size of the
    explicit list, or of the default list when the explicit one is empty,
    and the two numbers reported differ; and it returns exactly when one of
    the two lists it may use has the size of the arity. *)
Theorem PickBranchNames_returns_arity_many (nArgs : nat) (bl defBl : BranchNames) :
  (forall names, PickBranchNames nArgs bl defBl = inr names ->
     length names = nArgs /\ (names = bl \/ (bl = [] /\ names = defBl))) /\
  (forall e, PickBranchNames nArgs bl defBl = inl e ->
     exists m, e = ArgsMismatch nArgs m /\ m <> nArgs /\
               m = (if decide (bl = []) then length defBl else length bl)) /\
  ((exists names, PickBranchNames nArgs bl defBl = inr names) <->
     nArgs = length bl \/ (bl = [] /\ nArgs = length defBl)).
Proof.
  destruct (decide (nArgs = length bl)) as [Heq | Hne].
  { rewrite (PickBranchNames_same _ _ _ Heq). split; [| split].
    - intros names [= <-]. auto.
    - intros e [=].
    - split; [auto | eauto]. }
  destruct (decide (bl = [])) as [-> | Hbl].
  - simpl in Hne. destruct (decide (nArgs = length defBl)) as [Hd | Hd].
    + rewrite (PickBranchNames_default _ _ Hd). split; [| split].
      * intros names [= <-]. auto.
      * intros e [=].
      * split; eauto.
    + rewrite PickBranchNames_default_mismatch by done. split; [| split].
      * intros names [=].
      * intros e [= <-]. exists (length defBl). auto.
      * split; [intros [? [=]] | intros [? | [_ ?]]; done].
  - rewrite PickBranchNames_explicit_mismatch by done. split; [| split].
    + intros names [=].
    + intros e [= <-]. exists (length bl). auto.
    + split; [intros [? [=]] | intros [? | [? _]]; done].
Qed.

Lemma PickBranchNames_returns_arity_many_witness :
  length ["x"; "y"]%string = 2%nat /\
  (["x"; "y"]%string = [] \/ ([] = @nil string /\ ["x"; "y"]%string = ["x"; "y"]%string)).
Proof.
  apply (proj1 (PickBranchNames_returns_arity_many 2 [] ["x"; "y"]%string)).
  reflexivity.
Defined.

End PickedNames.

Section SlotVectors.
Import Semantics.

Lemma lookup_resize {A} (n : nat) (d : A) (v : list A) (i : nat) :
  (i < n)%nat -> resize n d v !! i = Some (default d (v !! i)).
Proof.
  intros Hi. unfold resize. destruct (decide (i < length v)%nat) as [Hv | Hv].
  - rewrite lookup_app_l by (rewrite length_take; lia).
    rewrite lookup_take_lt by done.
    destruct (lookup_lt_is_Some_2 v i Hv) as [x ->]. reflexivity.
  - rewrite lookup_app_r by (rewrite length_take; lia).
    rewrite (lookup_ge_None_2 v i) by lia. simpl.
    apply lookup_replicate_2. rewrite length_take. lia.
Qed.

Lemma resize_same {A} (d : A) (v : list A) : resize (length v) d v = v.
Proof. unfold resize. by rewrite Nat.sub_diag, firstn_all, app_nil_r. Qed.

Lemma resize_resize {A} (n : nat) (d : A) (v : list A) :
  resize n d (resize n d v) = resize n d v.
Proof. rewrite <- (length_resize n d v) at 1. apply resize_same. Qed.

Lemma Filter_CreateSlots_idem (nSlots : nat) (s : FilterSlots) :
  Filter_CreateSlots nSlots (Filter_CreateSlots nSlots s) = Filter_CreateSlots nSlots s.
Proof.
  unfold Filter_CreateSlots, fill. simpl.
  by rewrite !length_resize, !resize_resize.
Qed.

(** X2: [CreateSlots] of a filter leaves every per-slot vector with exactly
    [nSlots] elements, whatever their sizes were; the accepted and rejected
    counters are all zero afterwards, whatever they held; a slot that
    existed keeps its last checked entry and its last result, and a new
    slot starts with the entry -1; and a second call with the same number
    of slots changes nothing. *)
Theorem Filter_CreateSlots_sizes_and_reset (nSlots : nat) (s : FilterSlots) :
  let s' := Filter_CreateSlots nSlots s in
  (length (fReaderValues s') = nSlots /\ length (fLastCheckedEntry s') = nSlots /\
   length (fLastResult s') = nSlots) /\
  (fAccepted s' = replicate nSlots 0 /\ fRejected s' = replicate nSlots 0) /\
  (forall i, (i < nSlots)%nat ->
     fLastCheckedEntry s' !! i = Some (default (-1) (fLastCheckedEntry s !! i)) /\
     fLastResult s' !! i = Some (default false (fLastResult s !! i))) /\
  Filter_CreateSlots nSlots s' = s'.
Proof.
  intros s'. subst s'. split; [| split; [| split]].
  - unfold Filter_CreateSlots. simpl. by rewrite !length_resize.
  - unfold Filter_CreateSlots, fill. simpl. by rewrite !length_resize.
  - intros i Hi. unfold Filter_CreateSlots. simpl. by rewrite !lookup_resize.
  - apply Filter_CreateSlots_idem.
Qed.

Lemma Filter_CreateSlots_sizes_and_reset_witness :
  fLastCheckedEntry (Filter_CreateSlots 3 {| fReaderValues := [[]]; fLastCheckedEntry := [7];
                                             fLastResult := [true]; fAccepted := [5];
                                             fRejected := [2] |}) !! 0%nat
    = Some (default (-1) ([7] !! 0%nat)) /\
  fLastResult (Filter_CreateSlots 3 {| fReaderValues := [[]]; fLastCheckedEntry := [7];
                                       fLastResult := [true]; fAccepted := [5];
                                       fRejected := [2] |}) !! 0%nat
    = Some (default false ([true] !! 0%nat)).
Proof.
  apply (proj1 (proj2 (proj2 (Filter_CreateSlots_sizes_and_reset 3
           {| fReaderValues := [[]]; fLastCheckedEntry := [7]; fLastResult := [true];
              fAccepted := [5]; fRejected := [2] |})))).
  lia.
Defined.

Lemma foldl_alter_idem {A} (g : A -> A) (ids : list nat) :
  (forall x, g (g x) = g x) ->
  forall (l : list A) i,
    foldl (fun objs id => alter g id objs) l ids !! i
    = if bool_decide (i ∈ ids) then g <$> l !! i else l !! i.
Proof.
  intros Hg. induction ids as [|j ids IH]; intros l i; simpl; [done |].
  rewrite IH, list_lookup_alter.
  destruct (decide (i = j)) as [-> | Hne].
  - rewrite (bool_decide_eq_true_2 (j ∈ j :: ids)) by (apply elem_of_cons; by left).
    rewrite decide_True by done.
    case_bool_decide; [| done]. destruct (l !! j); simpl; [by rewrite Hg | done].
  - rewrite decide_False by done.
    case_bool_decide as Hin.
    + by rewrite bool_decide_eq_true_2 by (apply elem_of_cons; by right).
    + rewrite bool_decide_eq_false_2; [done |].
      intros [? | ?]%elem_of_cons; done.
Qed.

(** X3: [TDataFrameImpl::CreateSlots] never throws and evaluates nothing;
    it resizes every booked filter and every booked action to the number of
    slots exactly as one call of the node's own [CreateSlots] does, also for
    a node that is in the list more than once, and it leaves the filters
    and actions that are not in the lists, and every index outside the
    stores, as they were. *)
Theorem CreateSlots_resizes_the_booked (actions filters : list nat) (nSlots : nat)
    (o : Objects) :
  let o' := (CreateSlots actions filters nSlots o).1 in
  (CreateSlots actions filters nSlots o).2 = inr tt /\
  evLog o' = evLog o /\
  (forall id, filterObjs o' !! id =
     if bool_decide (id ∈ filters)
     then (fun f => setFSlots f (Filter_CreateSlots nSlots (fSlots f))) <$> filterObjs o !! id
     else filterObjs o !! id) /\
  (forall id, actionObjs o' !! id =
     if bool_decide (id ∈ actions)
     then Action_CreateSlots nSlots <$> actionObjs o !! id
     else actionObjs o !! id) /\
  shape o' = shape o.
Proof.
  intros o'. subst o'. split; [reflexivity |]. split; [reflexivity |].
  split; [| split].
  - intros id. simpl. apply foldl_alter_idem. intros f.
    unfold setFSlots. simpl. f_equal. apply Filter_CreateSlots_idem.
  - intros id. simpl. apply foldl_alter_idem. intros a.
    unfold Action_CreateSlots, setAReaderValues. simpl. f_equal.
    apply resize_resize.
  - apply CreateSlots_sameShapeLog.
Qed.

End SlotVectors.

Section ReportLine.

(** X4: while the counters of a filter are non-negative with a total below
    2^64, the arguments [PrintReport] computes have 0 <= pass <= all, and the
    exact fraction pass / all * 100, which the code approximates in
    [double], lies between 0 and 100; the guard on [all] keeps the
    percentage at 0, without a division, for a filter that saw no entry; and
    the percentage is 100 when every entry seen was accepted. *)
Theorem PrintReport_percentage_bounds (f : TDataFrameFilterBase) :
  Forall (fun x => 0 <= x) (fAccepted (fSlots f)) ->
  Forall (fun x => 0 <= x) (fRejected (fSlots f)) ->
  sumZ (fAccepted (fSlots f)) + sumZ (fRejected (fSlots f)) < 2 ^ 64 ->
  0 <= lPass (PrintReport f) <= lAll (PrintReport f) /\
  (0 <= lPerc (PrintReport f))%Q /\ (lPerc (PrintReport f) <= inject_Z 100)%Q /\
  (lAll (PrintReport f) = 0 -> lPerc (PrintReport f) = 0%Q) /\
  (0 < lAll (PrintReport f) -> lPass (PrintReport f) = lAll (PrintReport f) ->
   (lPerc (PrintReport f) == inject_Z 100)%Q).
Proof.
  intros Ha Hr Hall. rewrite (PrintReport_totals f Ha Hr Hall). simpl.
  pose proof (sumZ_nonneg _ Ha) as Hpa. pose proof (sumZ_nonneg _ Hr) as Hpr.
  set (a := sumZ (fAccepted (fSlots f))) in *.
  set (r := sumZ (fRejected (fSlots f))) in *.
  split; [lia |].
  destruct (decide (a + r > 0)) as [Hpos | Hzero].
  - destruct (a + r) as [| p | p] eqn:Hsum; try lia.
    unfold Qle, Qeq, Qmult, Qdiv, Qinv, inject_Z. simpl.
    split; [nia |]. split; [nia |]. split; [lia |]. intros _ Heq. nia.
  - split; [done |]. split; [done |]. split; [done |]. lia.
Qed.

Lemma PrintReport_percentage_bounds_witness :
  0 <= lPass (PrintReport (setFSlots (bareFilter "cut" Root [] (fun _ => Some true))
                             {| fReaderValues := [[]; []]; fLastCheckedEntry := [4; 9];
                                fLastResult := [true; false]; fAccepted := [2; 1];
                                fRejected := [0; 3] |}))
    <= lAll (PrintReport (setFSlots (bareFilter "cut" Root [] (fun _ => Some true))
                             {| fReaderValues := [[]; []]; fLastCheckedEntry := [4; 9];
                                fLastResult := [true; false]; fAccepted := [2; 1];
                                fRejected := [0; 3] |})).
Proof.
  apply (PrintReport_percentage_bounds
           (setFSlots (bareFilter "cut" Root [] (fun _ => Some true))
              {| fReaderValues := [[]; []]; fLastCheckedEntry := [4; 9];
                 fLastResult := [true; false]; fAccepted := [2; 1];
                 fRejected := [0; 3] |})).
  - simpl. repeat constructor; lia.
  - simpl. repeat constructor; lia.
  - vm_compute. reflexivity.
Defined.

End ReportLine.

(** * The data frames that booking and running produce *)

Section Reachable.
Import Semantics.

(** The filter object [id] exists and has a name. *)
Definition hasName (o : Objects) (id : nat) : Prop :=
  from_option HasName false (filterObjs o !! id) = true.

#[global] Instance hasName_dec o id : Decision (hasName o id).
Proof. unfold hasName. apply _. Defined.

Definition sameShape (o o' : Objects) : Prop := shape o' = shape o.

#[global] Instance sameShape_refl : Reflexive sameShape.
Proof. by intros o. Qed.

#[global] Instance sameShape_trans : Transitive sameShape.
Proof. intros o1 o2 o3 H1 H2. unfold sameShape in *. congruence. Qed.

Lemma EventLoop_sameShape fuel tree actions named slot entries :
  respects sameShape (EventLoop fuel tree actions named slot entries).
Proof.
  apply respects_forEach; [apply _ .. |]. intros entry.
  eapply respects_mono; [| apply Step_ProcessEntry]. apply Step_shape.
Qed.

Lemma BuildAllReaderValues_sameShape actions filters slot :
  respects sameShape (BuildAllReaderValues actions filters slot).
Proof.
  eapply respects_mono; [| apply BuildAllReaderValues_sameShapeLog]. by intros o o' [? _].
Qed.

Lemma RunLoops_sameShape env df : respects sameShape (RunLoops env df).
Proof.
  intros o. unfold RunLoops. destruct (R__USE_IMT env && IsImplicitMTEnabled env).
  - apply (respects_bind sameShape); [| intros _].
    { eapply respects_mono; [| apply CreateSlots_sameShapeLog]. by intros ? ? [? _]. }
    intros o1. rewrite Process_taskSlots. revert o1.
    apply respects_forEach; [apply _ .. |]. intros t. unfold runTask.
    apply respects_bind; [apply _ | apply BuildAllReaderValues_sameShape |].
    intros _. apply EventLoop_sameShape.
  - apply (respects_bind sameShape); [| intros _].
    { eapply respects_mono; [| apply CreateSlots_sameShapeLog]. by intros ? ? [? _]. }
    apply respects_bind; [apply _ | apply BuildAllReaderValues_sameShape |].
    intros _. apply EventLoop_sameShape.
Qed.

Lemma Run_objs env df : objs (Run env df).1 = (RunLoops env df (objs df)).1.
Proof. unfold Run. by destruct (RunLoops env df (objs df)) as [o [e | []]]. Qed.

Lemma Run_sameShape env df : shape (objs (Run env df).1) = shape (objs df).
Proof. rewrite Run_objs. apply RunLoops_sameShape. Qed.

Lemma sameShape_filters o o' :
  shape o' = shape o ->
  length (filterObjs o') = length (filterObjs o) /\
  length (actionObjs o') = length (actionObjs o) /\
  forall id, hasName o' id <-> hasName o id.
Proof.
  intros Hs.
  assert (Hf : eraseF <$> filterObjs o' = eraseF <$> filterObjs o)
    by exact (f_equal sFilters Hs).
  assert (Ha : eraseA <$> actionObjs o' = eraseA <$> actionObjs o)
    by exact (f_equal sActions Hs).
  split; [| split].
  - apply (f_equal length) in Hf. by rewrite !length_fmap in Hf.
  - apply (f_equal length) in Ha. by rewrite !length_fmap in Ha.
  - intros id. unfold hasName.
    apply (f_equal (fun l => l !! id)) in Hf. rewrite !list_lookup_fmap in Hf.
    destruct (filterObjs o' !! id) as [f' |], (filterObjs o !! id) as [f |];
      simpl in *; try done.
    injection Hf as Hname _. unfold HasName. by rewrite Hname.
Qed.

Lemma filter_ext_elem {A} (P Q : A -> Prop) `{!forall x, Decision (P x)}
    `{!forall x, Decision (Q x)} (l : list A) :
  (forall x, x ∈ l -> (P x <-> Q x)) -> filter P l = filter Q l.
Proof.
  induction l as [|x l IH]; intros Hl; [done |].
  rewrite !filter_cons, IH by (intros y Hy; apply Hl; by right).
  assert (Hx : P x <-> Q x) by (apply Hl; by left).
  destruct (decide (P x)), (decide (Q x)); try done; tauto.
Qed.

End Reachable.

Section BookedPointers.
Import Semantics.

(** Booking a new object is making it and booking the pointer to it. *)
Lemma Book_filter_make (f : TDataFrameFilterBase) (df : TDataFrameImpl) :
  Book_filterPtr (make_filter f df).1 (make_filter f df).2 = inr (Book_filter f df).
Proof.
  unfold Book_filterPtr, make_filter. simpl.
  by rewrite (list_lookup_middle (filterObjs (objs df)) [] f).
Qed.

Lemma Book_action_make (a : TDataFrameActionBase) (df : TDataFrameImpl) :
  Book_actionPtr (make_action a df).1 (make_action a df).2 = Book_action a df.
Proof. reflexivity. Qed.

(** The data frames a program can hold: objects are made, any pointer to
    an object is booked any number of times, and runs, completed or not,
    come in between. *)
Inductive reachablePtr : TDataFrameImpl -> Prop :=
| reachablePtr_new env tree defaultBranches :
    reachablePtr (TDataFrameImpl_new env tree defaultBranches)
| reachablePtr_make_filter f df : reachablePtr df -> reachablePtr (make_filter f df).2
| reachablePtr_make_action a df : reachablePtr df -> reachablePtr (make_action a df).2
| reachablePtr_Book_action actionPtr df :
    reachablePtr df -> (actionPtr < length (actionObjs (objs df)))%nat ->
    reachablePtr (Book_actionPtr actionPtr df)
| reachablePtr_Book_filter filterPtr df df' :
    reachablePtr df -> Book_filterPtr filterPtr df = inr df' -> reachablePtr df'
| reachablePtr_Book_branch b df : reachablePtr df -> reachablePtr (Book_branch b df)
| reachablePtr_Run env df : reachablePtr df -> reachablePtr (Run env df).1.

Lemma reachablePtr_fresh_filter f df : reachablePtr df -> reachablePtr (Book_filter f df).
Proof.
  intros H. eapply reachablePtr_Book_filter; [| apply Book_filter_make].
  by apply reachablePtr_make_filter.
Qed.

Lemma reachablePtr_fresh_action a df : reachablePtr df -> reachablePtr (Book_action a df).
Proof.
  intros H. rewrite <- Book_action_make.
  apply reachablePtr_Book_action; [by apply reachablePtr_make_action |].
  simpl. rewrite length_app. simpl. lia.
Qed.

Lemma reachablePtr_lists (df : TDataFrameImpl) :
  reachablePtr df ->
  fBookedNamedFilters df = filter (hasName (objs df)) (fBookedFilters df) /\
  (forall id, id ∈ fBookedFilters df -> (id < length (filterObjs (objs df)))%nat) /\
  (forall id, id ∈ fBookedActions df -> (id < length (actionObjs (objs df)))%nat).
Proof.
  induction 1 as [env tree defaultBranches | f df _ IH | a df _ IH
                  | actionPtr df _ IH Hptr | filterPtr df df' _ IH Hbook
                  | b df _ IH | env df _ IH].
  - split; [reflexivity |]. split; by intros id ?%elem_of_nil.
  - destruct IH as (Hn & Hlt & Hact). simpl. split; [| split; [| done]].
    + rewrite Hn. apply filter_ext_elem. intros id Hid. apply Hlt in Hid.
      unfold hasName. simpl. by rewrite lookup_app_l.
    + intros id Hid. apply Hlt in Hid. rewrite length_app. lia.
  - destruct IH as (Hn & Hlt & Hact). simpl. split; [done |]. split; [done |].
    intros id Hid. apply Hact in Hid. rewrite length_app. lia.
  - destruct IH as (Hn & Hlt & Hact). simpl. split; [done |]. split; [done |].
    intros id [Hid | ->%list_elem_of_singleton]%elem_of_app; [by apply Hact | done].
  - destruct IH as (Hn & Hlt & Hact). unfold Book_filterPtr in Hbook.
    destruct (filterObjs (objs df) !! filterPtr) as [f |] eqn:Hf; [| discriminate].
    injection Hbook as <-. simpl. split; [| split; [| done]].
    + rewrite filter_app, <- Hn, filter_cons, filter_nil.
      assert (Hnew : hasName (objs df) filterPtr <-> HasName f = true).
      { unfold hasName. by rewrite Hf. }
      destruct (HasName f).
      * by rewrite decide_True by by apply Hnew.
      * rewrite decide_False by (rewrite Hnew; discriminate). by rewrite app_nil_r.
    + intros id [Hid | ->%list_elem_of_singleton]%elem_of_app; [by apply Hlt |].
      by eapply lookup_lt_Some.
  - exact IH.
  - destruct IH as (Hn & Hlt & Hact).
    destruct (sameShape_filters _ _ (Run_sameShape env df)) as (Hlf & Hla & Hnames).
    assert (Hlists : fBookedFilters (Run env df).1 = fBookedFilters df /\
                     fBookedNamedFilters (Run env df).1 = fBookedNamedFilters df /\
                     (fBookedActions (Run env df).1 = fBookedActions df \/
                      fBookedActions (Run env df).1 = [])).
    { unfold Run. destruct (RunLoops env df (objs df)) as [o [e | []]]; simpl; auto. }
    destruct Hlists as (-> & -> & Hacts). rewrite Hlf, Hla. split; [| split; [done |]].
    + rewrite Hn. apply filter_ext_elem. intros id _. symmetry. apply Hnames.
    + destruct Hacts as [-> | ->]; [done | by intros id ?%elem_of_nil].
Qed.

(** X5: whatever pointers are booked, and however often, with runs in
    between: the named filters are exactly the booked filters whose object
    has a name, in the order and with the multiplicity of the bookings, so
    that a named filter booked twice has two lines in the report; every
    booked filter pointer holds an object; and the report has one line per
    entry of the list of named filters. *)
Theorem Book_keeps_the_named_filters (df : TDataFrameImpl) :
  reachablePtr df ->
  fBookedNamedFilters df = filter (hasName (objs df)) (fBookedFilters df) /\
  (forall id, id ∈ fBookedFilters df -> (id < length (filterObjs (objs df)))%nat) /\
  length (Impl.Report df) = length (fBookedNamedFilters df).
Proof.
  intros Hreach. destruct (reachablePtr_lists df Hreach) as (Hn & Hlt & _).
  split; [done |]. split; [done |].
  destruct (Report_lines df) as (fs & Hfs & ->).
  { unfold namedBooked. apply Forall_forall. intros id Hid. apply Hlt.
    rewrite Hn in Hid. by apply list_elem_of_filter in Hid as [_ Hid]. }
  rewrite length_fmap. symmetry. by eapply Forall2_length.
Qed.

(** The named filter A > 1, made once and booked twice. *)
Definition made_once : TDataFrameImpl :=
  (make_filter (bareFilter "cut" Root ["A"%string] (unary (fun x => x >? 1))) dup_frame).2.

Definition booked_again (filterPtr : nat) (df : TDataFrameImpl) : TDataFrameImpl :=
  match Book_filterPtr filterPtr df with inr df' => df' | inl _ => df end.

Definition booked_twice : TDataFrameImpl := booked_again 0 (booked_again 0 made_once).

Lemma Book_keeps_the_named_filters_witness :
  fBookedNamedFilters booked_twice = [0; 0]%nat /\
  fBookedNamedFilters booked_twice
    = filter (hasName (objs booked_twice)) (fBookedFilters booked_twice) /\
  length (Impl.Report booked_twice) = 2%nat.
Proof.
  assert (Hreach : reachablePtr booked_twice).
  { apply (reachablePtr_Book_filter 0 (booked_again 0 made_once)); [| reflexivity].
    apply (reachablePtr_Book_filter 0 made_once); [| reflexivity].
    apply reachablePtr_make_filter, reachablePtr_new. }
  destruct (Book_keeps_the_named_filters booked_twice Hreach) as (Hn & _ & Hlen).
  split; [reflexivity |]. split; [exact Hn |]. rewrite Hlen. reflexivity.
Defined.

End BookedPointers.

Section BookedBranches.

(** X6: a temporary branch that was booked is the one [GetBookedBranch]
    finds under its name, and booking it leaves what is found under every
    other name, and the lists of actions and filters, as they were; of two
    bookings under one name the later one replaces the earlier, and two
    bookings under different names commute; a name that was never booked
    makes [GetBookedBranch] undefined and [GetTmpBranchValue] throw
    [std::out_of_range] with every object as it was, while for a booked
    name [GetTmpBranchValue] is the [GetValue] of the node booked last. *)
Theorem Book_branch_then_lookup (b : TDataFrameBranchBase) (df : TDataFrameImpl) :
  GetBookedBranch (Book_branch b df) (bName b) = inr b /\
  (forall name, name <> bName b ->
     GetBookedBranch (Book_branch b df) name = GetBookedBranch df name) /\
  (fBookedActions (Book_branch b df) = fBookedActions df /\
   fBookedFilters (Book_branch b df) = fBookedFilters df /\
   fBookedNamedFilters (Book_branch b df) = fBookedNamedFilters df /\
   filterObjs (objs (Book_branch b df)) = filterObjs (objs df) /\
   actionObjs (objs (Book_branch b df)) = actionObjs (objs df)) /\
  (forall b', bName b' = bName b ->
     Book_branch b (Book_branch b' df) = Book_branch b df) /\
  (forall b', bName b' <> bName b ->
     Book_branch b (Book_branch b' df) = Book_branch b' (Book_branch b df)) /\
  (forall name fuel tree slot entry,
     fBookedBranches (objs df) !! name = None ->
     GetBookedBranch df name = inl Undefined /\
     GetTmpBranchValue (S fuel) tree slot entry name (objs df)
       = (objs df, inl OutOfRange)) /\
  (forall fuel tree slot entry,
     GetTmpBranchValue (S fuel) tree slot entry (bName b) (objs (Book_branch b df))
     = GetValue (GetTmpBranchValue fuel tree slot entry) tree (bName b) b slot entry
                (objs (Book_branch b df))).
Proof.
  split; [| split; [| split; [| split; [| split; [| split]]]]].
  - unfold GetBookedBranch, Book_branch. simpl. by rewrite lookup_insert_eq.
  - intros name Hne. unfold GetBookedBranch, Book_branch. simpl.
    by rewrite lookup_insert_ne.
  - done.
  - intros b' Hb'. unfold Book_branch, setObjs, setBookedBranches. simpl.
    by rewrite Hb', insert_insert_eq.
  - intros b' Hb'. unfold Book_branch, setObjs, setBookedBranches. simpl.
    by rewrite insert_insert_ne.
  - intros name fuel tree slot entry Hnone. unfold GetBookedBranch. simpl.
    by rewrite Hnone.
  - intros fuel tree slot entry. simpl. by rewrite lookup_insert_eq.
Qed.

Lemma Book_branch_then_lookup_witness :
  GetBookedBranch dup_frame "C" = inl Undefined /\
  GetTmpBranchValue 1 (fTree dup_frame) 0 0 "C" (objs dup_frame)
    = (objs dup_frame, inl OutOfRange).
Proof.
  apply (proj1 (proj2 (proj2 (proj2 (proj2 (proj2
           (Book_branch_then_lookup
              {| bName := "C"; bTmpBranches := []; bPrevData := Root; bBranches := [];
                 bExpression := fun _ => Some 0;
                 bSlots := {| bReaderValues := []; bLastCheckedEntry := [];
                              bLastResult := [] |} |} dup_frame)))))) "C"%string 0%nat
           (fTree dup_frame) 0%nat 0).
  reflexivity.
Defined.

End BookedBranches.

Section DenseSlots.

Lemma taskSlots_cover (threads : list nat) :
  forall slotMap g,
    slotInv slotMap g ->
    Z.of_nat (size (dom slotMap ∪ list_to_set threads : gset nat)) < 2 ^ 32 ->
    forall s,
      g <= s < Z.of_nat (size (dom slotMap ∪ list_to_set threads : gset nat)) ->
      s ∈ taskSlots slotMap g threads.
Proof.
  induction threads as [|t rest IH]; intros slotMap g Hinv Hsize s Hs.
  - destruct Hinv as (Hg & _). simpl in Hs.
    rewrite (right_id_L ∅ (∪)), size_dom in Hs. lia.
  - simpl. unfold acquireSlot. destruct (slotMap !! t) as [s0 |] eqn:Ht.
    + assert (Heq : dom slotMap ∪ list_to_set (t :: rest)
                    = (dom slotMap ∪ list_to_set rest : gset nat)).
      { apply elem_of_dom_2 in Ht. set_solver. }
      rewrite Heq in Hsize, Hs. right. by apply IH.
    + assert (Heq : dom slotMap ∪ list_to_set (t :: rest)
                    = (dom (<[t := g]> slotMap) ∪ list_to_set rest : gset nat)).
      { rewrite dom_insert_L. set_solver. }
      rewrite Heq in Hsize, Hs.
      assert (Hg1 : g + 1 <= Z.of_nat (size (dom (<[t := g]> slotMap) ∪ list_to_set rest
                                               : gset nat))).
      { destruct Hinv as (Hg & _).
        assert (Hsub : (size (dom (<[t := g]> slotMap) : gset nat)
                        <= size (dom (<[t := g]> slotMap) ∪ list_to_set rest : gset nat))%nat)
          by (apply subseteq_size; set_solver).
        rewrite size_dom, map_size_insert_None in Hsub by done. lia. }
      assert (Hg0 : 0 <= g) by (destruct Hinv as (Hg & _); lia).
      assert (Hu : u32 (g + 1) = g + 1) by (unfold u32; apply Z.mod_small; lia).
      rewrite Hu. destruct (decide (s = g)) as [-> | Hne]; [by left |].
      right. apply IH; [by apply slotInv_insert | done | lia].
Qed.

(** X7: the critical section hands out the slots without a gap: while
    fewer than 2^32 distinct threads enter, the slots in which the tasks
    run are exactly the numbers from 0 up to the number of distinct threads,
    the thread that enters first taking slot 0. *)
Theorem taskSlots_dense (threads : list nat) :
  Z.of_nat (size (list_to_set threads : gset nat)) < 2 ^ 32 ->
  (forall s, s ∈ taskSlots ∅ 0 threads <->
             0 <= s < Z.of_nat (size (list_to_set threads : gset nat))) /\
  head (taskSlots ∅ 0 threads) = (fun _ => 0) <$> head threads.
Proof.
  intros Hsize. split.
  - intros s. split.
    + intros Hs.
      destruct (taskSlots_follow_map _ threads Hsize ∅ 0 slotInv_empty)
        as (final & _ & (_ & Hran & _) & Hdom & Hall).
      { by rewrite dom_empty_L, (left_id_L ∅ (∪)). }
      apply list_elem_of_lookup in Hs as [i Hi].
      destruct (Forall2_lookup_r _ _ _ _ _ Hall Hi) as (t & _ & Hfinal).
      apply Hran in Hfinal.
      rewrite <- (size_dom (D := gset nat)), Hdom, dom_empty_L, (left_id_L ∅ (∪)) in Hfinal.
      done.
    + intros Hs. apply taskSlots_cover; [apply slotInv_empty | |];
        by rewrite dom_empty_L, (left_id_L ∅ (∪)).
  - destruct threads as [|t rest]; reflexivity.
Qed.

Lemma taskSlots_dense_witness :
  2 ∈ taskSlots ∅ 0 [7; 3; 7; 5; 3]%nat /\ 3 ∉ taskSlots ∅ 0 [7; 3; 7; 5; 3]%nat.
Proof.
  pose proof (proj1 (taskSlots_dense [7; 3; 7; 5; 3]%nat ltac:(vm_compute; reflexivity)))
    as Hdense.
  split.
  - apply Hdense. split; [lia | vm_compute; reflexivity].
  - intros Hin. apply Hdense in Hin as [_ Hlt]. vm_compute in Hlt. discriminate.
Defined.

End DenseSlots.

(** * What a run evaluates *)

Section Driven.
Import Semantics.

(** The filters on the chain from a node up to the data frame. *)
Fixpoint filtersOf (p : Node) : list nat :=
  match p with
  | Root => []
  | BranchN _ prev => filtersOf prev
  | FilterN id prev => id :: filtersOf prev
  end.

(** The record of evaluations grows, and by callables of filters in [S]
    only. *)
Definition onlyFilters (S : nat -> Prop) (o o' : Objects) : Prop :=
  exists added, evLog o' = evLog o ++ added /\
                forall id slot entry, EvFilter id slot entry ∈ added -> S id.

#[global] Instance onlyFilters_refl S : Reflexive (onlyFilters S).
Proof. intros o. exists []. split; [by rewrite app_nil_r | by intros ? ? ? ?%elem_of_nil]. Qed.

#[global] Instance onlyFilters_trans S : Transitive (onlyFilters S).
Proof.
  intros o1 o2 o3 (l1 & H1 & HS1) (l2 & H2 & HS2). exists (l1 ++ l2).
  split; [by rewrite H2, H1, app_assoc |].
  intros id slot entry [? | ?]%elem_of_app; eauto.
Qed.

Lemma sameLog_onlyFilters S o o' : evLog o' = evLog o -> onlyFilters S o o'.
Proof. intros H. exists []. split; [by rewrite app_nil_r | by intros ? ? ? ?%elem_of_nil]. Qed.

Lemma updateAction_log id slot args o : evLog (updateAction id slot args o).1 = evLog o.
Proof.
  unfold updateAction, bind, getAction, lift.
  destruct (vat (actionObjs o) id) as [e | a]; simpl; [done |].
  by destruct (Exec slot args (aHelper a)).
Qed.

Section Fixed.
Context (S : nat -> Prop) (tree : TTree) (slot : nat) (entry : Z).

Lemma logBranch_onlyFilters name : respects (onlyFilters S) (logEv (EvBranch name slot entry)).
Proof.
  intros o. exists [EvBranch name slot entry]. split; [done |].
  intros id sl en Hin. apply list_elem_of_singleton in Hin. discriminate.
Qed.

Lemma logFilter_onlyFilters id :
  S id -> respects (onlyFilters S) (logEv (EvFilter id slot entry)).
Proof.
  intros HS o. exists [EvFilter id slot entry]. split; [done |].
  intros id' sl en Hin. apply list_elem_of_singleton in Hin. by injection Hin as -> _ _.
Qed.

Lemma ReadValues_onlyFilters fuel tmp branches :
  respects (onlyFilters S) (ReadValues fuel tree tmp branches slot entry).
Proof.
  apply respects_ReadValues; try apply _.
  - intros name v o. apply sameLog_onlyFilters, updateBranch_log.
  - apply logBranch_onlyFilters.
Qed.

Lemma CheckFilters_onlyFilters fuel (p : Node) :
  (forall x, x ∈ filtersOf p -> S x) ->
  respects (onlyFilters S) (CheckFilters fuel tree slot entry p).
Proof.
  induction p as [|id prev IH|name prev IH]; simpl; intros HS;
    [apply respects_ret; apply _ | | by apply IH].
  assert (Hprev : respects (onlyFilters S) (CheckFilters fuel tree slot entry prev)).
  { apply IH. intros x Hx. apply HS. by right. }
  assert (Hupd : forall passed count,
             respects (onlyFilters S) (updateFilter id slot entry passed count)).
  { intros passed count o. apply sameLog_onlyFilters, updateFilter_log. }
  apply respects_bind; [apply _ | apply respects_getFilter; apply _ |]. intros f.
  apply respects_bind; [apply _ | apply respects_lift; apply _ |]. intros last.
  case_decide; [apply respects_lift; apply _ |].
  apply respects_bind; [apply _ | exact Hprev |]. intros [|].
  - apply respects_bind; [apply _ | apply ReadValues_onlyFilters |]. intros args.
    apply respects_bind; [apply _ | apply logFilter_onlyFilters, HS; by left |]. intros _.
    apply respects_bind; [apply _ | apply respects_call; apply _ |]. intros passed.
    apply respects_bind; [apply _ | apply Hupd |]. intros _. apply respects_ret. apply _.
  - apply respects_bind; [apply _ | apply Hupd |]. intros _. apply respects_ret. apply _.
Qed.

End Fixed.

Section From.
Context (S : nat -> Prop) (s : Shape).

(** [respectsFrom c]: run on objects of the shape [s], [c] records
    evaluations of filters in [S] only. *)
Definition respectsFrom {A} (c : M A) : Prop :=
  forall o, shape o = s -> onlyFilters S o (c o).1.

Lemma respectsFrom_respects {A} (c : M A) :
  respects (onlyFilters S) c -> respectsFrom c.
Proof. intros H o _. apply H. Qed.

Lemma respectsFrom_bind {A B} (c : M A) (k : A -> M B) :
  respects sameShape c -> respectsFrom c -> (forall x, respectsFrom (k x)) ->
  respectsFrom (bind c k).
Proof.
  intros Hshape Hc Hk o Ho. unfold bind.
  specialize (Hshape o). specialize (Hc o Ho).
  destruct (c o) as [o1 [e | x]]; simpl in *; [done |].
  etrans; [exact Hc |]. apply Hk. unfold sameShape in Hshape. congruence.
Qed.

Lemma respectsFrom_forEach {A} (body : A -> M unit) (xs : list A) :
  (forall x, x ∈ xs -> respects sameShape (body x)) ->
  (forall x, x ∈ xs -> respectsFrom (body x)) ->
  respectsFrom (forEach body xs).
Proof.
  induction xs as [|x xs IH]; intros Hshape Hbody; simpl.
  - apply respectsFrom_respects, respects_ret. apply _.
  - apply respectsFrom_bind; [apply Hshape; by left | apply Hbody; by left |].
    intros _. apply IH; intros y Hy; [apply Hshape | apply Hbody]; by right.
Qed.

Context (tree : TTree) (actions named : list nat).
Hypothesis actions_in_S : forall id a x,
  id ∈ actions -> sActions s !! id = Some a -> x ∈ filtersOf (aPrevData a) -> S x.
Hypothesis named_in_S : forall id f x,
  id ∈ named -> sFilters s !! id = Some f -> x ∈ id :: filtersOf (fPrevData f) -> S x.

Lemma Action_Run_from fuel slot entry id :
  id ∈ actions -> respectsFrom (Action_Run fuel tree slot entry id).
Proof.
  intros Hid o Ho. unfold Action_Run, bind at 1, getAction.
  destruct (vat (actionObjs o) id) as [e | a] eqn:Ha; simpl; [reflexivity |].
  apply vat_inr in Ha.
  assert (Hs : sActions s !! id = Some (eraseA a)).
  { rewrite <- Ho. simpl. by rewrite list_lookup_fmap, Ha. }
  assert (Hrest : respects (onlyFilters S)
            (ok <- CheckFilters fuel tree slot entry (aPrevData a) ;;
             if ok then
               args <- ReadValues fuel tree (aTmpBranches a) (aBranches a) slot entry ;;
               updateAction id slot args
             else ret tt)); [| apply Hrest].
  apply respects_bind; [apply _ | |].
  { apply CheckFilters_onlyFilters. intros x Hx.
    exact (actions_in_S id (eraseA a) x Hid Hs Hx). }
  intros [|]; [| apply respects_ret; apply _].
  apply respects_bind; [apply _ | apply ReadValues_onlyFilters |]. intros args o'.
  apply sameLog_onlyFilters, updateAction_log.
Qed.

Lemma Filter_CheckFilters_from fuel slot entry id :
  id ∈ named -> respectsFrom (Filter_CheckFilters fuel tree slot entry id).
Proof.
  intros Hid o Ho. unfold Filter_CheckFilters, bind at 1, getFilter.
  destruct (vat (filterObjs o) id) as [e | f] eqn:Hf; simpl; [reflexivity |].
  apply vat_inr in Hf.
  assert (Hs : sFilters s !! id = Some (eraseF f)).
  { rewrite <- Ho. simpl. by rewrite list_lookup_fmap, Hf. }
  apply (CheckFilters_onlyFilters S tree slot entry fuel (FilterN id (fPrevData f))).
  intros x Hx. exact (named_in_S id (eraseF f) x Hid Hs Hx).
Qed.

Lemma Step_Filter_CheckFilters fuel slot entry id :
  respects (Step slot entry) (Filter_CheckFilters fuel tree slot entry id).
Proof.
  unfold Filter_CheckFilters.
  apply respects_bind; [apply _ | apply respects_getFilter; apply _ |]. intros f.
  apply Step_CheckFilters.
Qed.

Lemma ProcessEntry_from fuel slot entry :
  respectsFrom (ProcessEntry fuel tree actions named slot entry).
Proof.
  unfold ProcessEntry. apply respectsFrom_bind.
  - apply respects_forEach; [apply _ .. |]. intros id.
    eapply respects_mono; [apply Step_shape | apply Step_Action_Run].
  - apply respectsFrom_forEach.
    + intros id _. eapply respects_mono; [apply Step_shape | apply Step_Action_Run].
    + intros id Hid. by apply Action_Run_from.
  - intros _. apply respectsFrom_forEach.
    + intros id _. eapply respects_mono; [apply Step_shape |].
      apply respects_bind; [apply _ | apply Step_Filter_CheckFilters |].
      intros _. apply respects_ret. apply _.
    + intros id Hid. apply respectsFrom_bind.
      * eapply respects_mono; [apply Step_shape | apply Step_Filter_CheckFilters].
      * by apply Filter_CheckFilters_from.
      * intros _. apply respectsFrom_respects, respects_ret. apply _.
Qed.

Lemma EventLoop_from fuel slot entries :
  respectsFrom (EventLoop fuel tree actions named slot entries).
Proof.
  apply respectsFrom_forEach.
  - intros entry _. eapply respects_mono; [apply Step_shape | apply Step_ProcessEntry].
  - intros entry _. apply ProcessEntry_from.
Qed.

Lemma BuildAllReaderValues_from acts filters slot :
  respectsFrom (BuildAllReaderValues acts filters slot).
Proof.
  apply respectsFrom_respects. eapply respects_mono; [| apply BuildAllReaderValues_sameShapeLog].
  intros o o' [_ Hlog]. by apply sameLog_onlyFilters.
Qed.

Lemma runTasks_from fuel filters (ts : list (Z * list Z)) :
  respectsFrom (forEach (runTask fuel tree actions filters named) ts).
Proof.
  apply respectsFrom_forEach.
  - intros t _. unfold runTask.
    apply respects_bind; [apply _ | apply BuildAllReaderValues_sameShape |].
    intros _. apply EventLoop_sameShape.
  - intros t _. unfold runTask. apply respectsFrom_bind.
    + apply BuildAllReaderValues_sameShape.
    + apply BuildAllReaderValues_from.
    + intros _. apply EventLoop_from.
Qed.

End From.

End Driven.

Section Lazy.
Import Semantics.

(** The filters a run has a reason to evaluate: those on the chain of a
    booked action, and the booked named filters with those on their
    chains. *)
Definition driven (o : Objects) (actions named : list nat) (x : nat) : Prop :=
  (exists id a, id ∈ actions /\ actionObjs o !! id = Some a /\
                x ∈ filtersOf (aPrevData a)) \/
  (exists id f, id ∈ named /\ filterObjs o !! id = Some f /\
                x ∈ id :: filtersOf (fPrevData f)).

Lemma RunLoops_driven (env : Env) (df : TDataFrameImpl) (o : Objects) :
  onlyFilters (driven o (fBookedActions df) (fBookedNamedFilters df)) o
              (RunLoops env df o).1.
Proof.
  set (F := driven o (fBookedActions df) (fBookedNamedFilters df)).
  assert (HA : forall id a x, id ∈ fBookedActions df -> sActions (shape o) !! id = Some a ->
                              x ∈ filtersOf (aPrevData a) -> F x).
  { intros id a x Hid Ha Hx. left. simpl in Ha. rewrite list_lookup_fmap in Ha.
    destruct (actionObjs o !! id) as [a0 |] eqn:Ha0; simpl in Ha; [| discriminate].
    injection Ha as <-. by exists id, a0. }
  assert (HN : forall id f x, id ∈ fBookedNamedFilters df -> sFilters (shape o) !! id = Some f ->
                              x ∈ id :: filtersOf (fPrevData f) -> F x).
  { intros id f x Hid Hf Hx. right. simpl in Hf. rewrite list_lookup_fmap in Hf.
    destruct (filterObjs o !! id) as [f0 |] eqn:Hf0; simpl in Hf; [| discriminate].
    injection Hf as <-. by exists id, f0. }
  assert (Hcreate : forall n,
             respectsFrom F (shape o) (CreateSlots (fBookedActions df) (fBookedFilters df) n)).
  { intros n. apply respectsFrom_respects.
    eapply respects_mono; [| apply CreateSlots_sameShapeLog].
    intros o1 o2 [_ Hlog]. by apply sameLog_onlyFilters. }
  assert (Hshape : forall n,
             respects sameShape (CreateSlots (fBookedActions df) (fBookedFilters df) n)).
  { intros n. eapply respects_mono; [| apply CreateSlots_sameShapeLog]. by intros ? ? [? _]. }
  unfold RunLoops. destruct (R__USE_IMT env && IsImplicitMTEnabled env).
  - apply (respectsFrom_bind F (shape o)); [apply Hshape | apply Hcreate | | done].
    intros _ o1 Ho1. rewrite Process_taskSlots.
    exact (runTasks_from F (shape o) _ _ _ HA HN _ _ _ o1 Ho1).
  - apply (respectsFrom_bind F (shape o)); [apply Hshape | apply Hcreate | | done].
    intros _. apply respectsFrom_bind.
    + apply BuildAllReaderValues_sameShape.
    + apply BuildAllReaderValues_from.
    + intros _. exact (EventLoop_from F (shape o) _ _ _ HA HN _ _ _).
Qed.

Lemma RunLoops_idle (env : Env) (df : TDataFrameImpl) :
  fBookedActions df = [] -> fBookedNamedFilters df = [] ->
  respects sameShapeLog (RunLoops env df).
Proof.
  intros Ha Hn o. unfold RunLoops. rewrite Ha, Hn.
  assert (Hloop : forall fuel slot entries,
             respects sameShapeLog (EventLoop fuel (fTree df) [] [] slot entries)).
  { intros fuel slot entries. apply respects_forEach; [apply _ .. |].
    intros entry o1. reflexivity. }
  destruct (R__USE_IMT env && IsImplicitMTEnabled env).
  - apply (respects_bind sameShapeLog); [apply CreateSlots_sameShapeLog |].
    intros _ o1. rewrite Process_taskSlots. revert o1.
    apply respects_forEach; [apply _ .. |]. intros t. unfold runTask.
    apply respects_bind; [apply _ | apply BuildAllReaderValues_sameShapeLog |].
    intros _. apply Hloop.
  - apply (respects_bind sameShapeLog); [apply CreateSlots_sameShapeLog |].
    intros _. apply respects_bind; [apply _ | apply BuildAllReaderValues_sameShapeLog |].
    intros _. apply Hloop.
Qed.

(** X8: a run, completed or not, sequential or parallel, evaluates the
    callable of a filter only if the filter is on the chain of a booked
    action, or is a booked named filter or on the chain of one: a filter
    without a name and with no action below it is never evaluated; and a
    run of a data frame with no booked action and no named filter
    evaluates nothing at all. *)
Theorem Run_evaluates_driven_filters_only (env : Env) (df : TDataFrameImpl) :
  exists added,
    evLog (objs (Run env df).1) = evLog (objs df) ++ added /\
    (forall id slot entry, EvFilter id slot entry ∈ added ->
       driven (objs df) (fBookedActions df) (fBookedNamedFilters df) id) /\
    (fBookedActions df = [] -> fBookedNamedFilters df = [] -> added = []).
Proof.
  rewrite Run_objs.
  destruct (RunLoops_driven env df (objs df)) as (added & Hlog & Hdriven).
  exists added. split; [done |]. split; [done |].
  intros Ha Hn. destruct (RunLoops_idle env df Ha Hn (objs df)) as [_ Hsame].
  rewrite Hsame in Hlog. rewrite <- (app_nil_r (evLog (objs df))) in Hlog at 1.
  by apply app_inv_head in Hlog.
Qed.

Lemma Run_evaluates_driven_filters_only_witness :
  evLog (objs (Run sequential
                 (Book_filter (bareFilter "" Root ["A"%string] (unary (fun x => x >? 1)))
                              dup_frame)).1) = [].
Proof.
  destruct (Run_evaluates_driven_filters_only sequential
              (Book_filter (bareFilter "" Root ["A"%string] (unary (fun x => x >? 1)))
                           dup_frame)) as (added & Hlog & _ & Hidle).
  rewrite Hlog, Hidle by reflexivity. reflexivity.
Defined.

End Lazy.

Section Order.
Import Semantics.

Lemma StronglySorted_seqZ (n : nat) : forall m, StronglySorted Z.le (seqZ m (Z.of_nat n)).
Proof.
  induction n as [|n IH]; intros m; [constructor |].
  rewrite seqZ_cons by lia. apply StronglySorted_cons. split.
  - apply Forall_forall. intros x Hx. apply elem_of_seqZ in Hx. lia.
  - replace (Z.pred (Z.of_nat (S n))) with (Z.of_nat n) by lia. apply IH.
Qed.

Lemma EventLoop_events fuel tree actions named slot (entries : list Z) : forall o,
  exists added,
    evLog (EventLoop fuel tree actions named slot entries o).1 = evLog o ++ added /\
    Forall (fun e => evSlot e = slot /\ evEntry e ∈ entries) added /\
    (StronglySorted Z.le entries -> StronglySorted Z.le (evEntry <$> added)).
Proof.
  unfold EventLoop. induction entries as [|r rest IH]; intros o; simpl.
  { exists []. split; [by rewrite app_nil_r |]. split; constructor. }
  unfold bind.
  destruct (step_log _ _ _ _ (Step_ProcessEntry slot r tree fuel actions named o))
    as (added1 & Hlog1 & Hall1).
  assert (Hfirst : Forall (fun e => evSlot e = slot /\ evEntry e ∈ r :: rest) added1).
  { eapply Forall_impl; [exact Hall1 |]. intros e [H1 H2]. split; [done |].
    rewrite H2. by left. }
  assert (Hsame : Forall (fun x => x = r) (evEntry <$> added1)).
  { apply Forall_fmap. eapply Forall_impl; [exact Hall1 |]. by intros e [_ H2]. }
  assert (Hsorted1 : StronglySorted Z.le (evEntry <$> added1)).
  { clear -Hsame. induction (evEntry <$> added1) as [|x l IHl]; [constructor |].
    apply Forall_cons in Hsame as [Hx Hl]. apply StronglySorted_cons.
    split; [| by apply IHl].
    eapply Forall_impl; [exact Hl |]. intros y Hy. simpl in *. lia. }
  destruct (ProcessEntry fuel tree actions named slot r o) as [o1 [e | []]]; simpl in *.
  { exists added1. done. }
  destruct (IH o1) as (added2 & Hlog2 & Hall2 & Hsorted2).
  exists (added1 ++ added2). split; [by rewrite Hlog2, Hlog1, app_assoc |]. split.
  - apply Forall_app. split; [done |].
    eapply Forall_impl; [exact Hall2 |]. intros e [H1 Hin]. split; [done | by right].
  - intros Hs. apply StronglySorted_cons in Hs as [Hle Hrest].
    rewrite fmap_app. apply StronglySorted_app. split; [| split; [done | by apply Hsorted2]].
    intros x1 x2 Hx1 Hx2.
    rewrite Forall_forall in Hsame. rewrite (Hsame x1 Hx1).
    apply list_elem_of_fmap in Hx2 as (e2 & -> & He2).
    rewrite Forall_forall in Hall2. rewrite Forall_forall in Hle.
    apply Hle. by apply Hall2.
Qed.

Lemma runTasks_events fuel tree actions filters named (ts : list (Z * list Z)) : forall o,
  exists added,
    evLog (forEach (runTask fuel tree actions filters named) ts o).1 = evLog o ++ added /\
    Forall (fun e => exists k sl es, ts !! k = Some (sl, es) /\
                                     evSlot e = Z.to_nat sl /\ evEntry e ∈ es) added.
Proof.
  induction ts as [|[sl es] rest IH]; intros o; simpl.
  { exists []. split; [by rewrite app_nil_r | constructor]. }
  unfold bind at 1, runTask at 1. simpl. unfold bind at 1.
  destruct (BuildAllReaderValues_sameShapeLog actions filters (Z.to_nat sl) o) as [_ Hlog0].
  destruct (BuildAllReaderValues actions filters (Z.to_nat sl) o) as [o0 [e | []]];
    simpl in *.
  { exists []. split; [by rewrite app_nil_r | constructor]. }
  destruct (EventLoop_events fuel tree actions named (Z.to_nat sl) es o0)
    as (added1 & Hlog1 & Hall1 & _).
  assert (Hhere : Forall (fun e => exists k sl' es', ((sl, es) :: rest) !! k = Some (sl', es') /\
                                     evSlot e = Z.to_nat sl' /\ evEntry e ∈ es') added1).
  { eapply Forall_impl; [exact Hall1 |]. intros e [H1 H2]. by exists 0%nat, sl, es. }
  destruct (EventLoop fuel tree actions named (Z.to_nat sl) es o0) as [o1 [e | []]];
    simpl in *.
  { exists added1. split; [congruence | done]. }
  destruct (IH o1) as (added2 & Hlog2 & Hall2).
  exists (added1 ++ added2). split; [rewrite Hlog2, Hlog1, Hlog0; by rewrite app_assoc |].
  apply Forall_app. split; [done |].
  eapply Forall_impl; [exact Hall2 |]. intros e (k & sl' & es' & Hk & H1 & H2).
  by exists (S k), sl', es'.
Qed.

(** X9: the evaluations a run records, completed or not, are those of its
    loops: a sequential run evaluates in slot 0 only, at entries of the
    tree, and in the order of the entries; a parallel run evaluates, for
    some task, in the slot the critical section gave the task's thread and
    at an entry of the range of that task. *)
Theorem Run_evaluates_at_the_steps_of_its_loops (env : Env) (df : TDataFrameImpl) :
  exists added,
    evLog (objs (Run env df).1) = evLog (objs df) ++ added /\
    (R__USE_IMT env && IsImplicitMTEnabled env = false ->
       Forall (fun e => evSlot e = 0%nat /\
                        0 <= evEntry e < Z.of_nat (length (tEntries (fTree df)))) added /\
       StronglySorted Z.le (evEntry <$> added)) /\
    (R__USE_IMT env && IsImplicitMTEnabled env = true ->
       Forall (fun e => exists k t es sl,
                 tasks env !! k = Some (t, es) /\
                 taskSlots ∅ 0 (tasks env).*1 !! k = Some sl /\
                 evSlot e = Z.to_nat sl /\ evEntry e ∈ es) added).
Proof.
  rewrite Run_objs. unfold RunLoops.
  destruct (R__USE_IMT env && IsImplicitMTEnabled env); unfold bind at 1; simpl.
  - rewrite Process_taskSlots.
    match goal with |- context [forEach ?body ?ts ?o1] =>
      destruct (runTasks_events (Datatypes.S (size (fBookedBranches (objs df)))) (fTree df)
                  (fBookedActions df) (fBookedFilters df) (fBookedNamedFilters df) ts o1)
        as (added & Hlog & Hall)
    end.
    exists added. split; [exact Hlog |]. split; [discriminate |]. intros _.
    eapply Forall_impl; [exact Hall |]. intros e (k & sl & es & Hk & H1 & H2).
    apply lookup_zip_with_Some in Hk as (sl' & es' & [= <- <-] & Hsl & Hes).
    apply list_lookup_fmap_Some in Hes as ([t es''] & Heq & Htask). simpl in Heq. subst es''.
    by exists k, t, es, sl.
  - unfold bind at 1.
    match goal with |- context [BuildAllReaderValues ?a ?f ?sl ?o1] =>
      destruct (BuildAllReaderValues_sameShapeLog a f sl o1) as [_ Hlog0];
      destruct (BuildAllReaderValues a f sl o1) as [o0 [e | []]]
    end; simpl in *.
    { exists []. split; [by rewrite Hlog0, app_nil_r |].
      split; [intros _; split; constructor | discriminate]. }
    destruct (EventLoop_events (Datatypes.S (size (fBookedBranches (objs df)))) (fTree df)
                (fBookedActions df) (fBookedNamedFilters df) 0%nat (allEntries (fTree df)) o0)
      as (added & Hlog & Hall & Hsorted).
    exists added. split; [by rewrite Hlog, Hlog0 |]. split; [| discriminate].
    intros _. split; [| apply Hsorted, StronglySorted_seqZ].
    eapply Forall_impl; [exact Hall |]. intros e [H1 H2]. split; [done |].
    unfold allEntries in H2. apply elem_of_seqZ in H2. lia.
Qed.

Lemma Run_evaluates_at_the_steps_of_its_loops_witness :
  exists added,
    evLog (objs (Run sequential s2_frame).1) = evLog (objs s2_frame) ++ added /\
    Forall (fun e => evSlot e = 0%nat /\
                     0 <= evEntry e < Z.of_nat (length (tEntries (fTree s2_frame)))) added /\
    StronglySorted Z.le (evEntry <$> added).
Proof.
  destruct (Run_evaluates_at_the_steps_of_its_loops sequential s2_frame)
    as (added & Hlog & Hseq & _).
  exists added. split; [exact Hlog |]. apply Hseq. reflexivity.
Defined.

End Order.

(** * The counters of the named filters after a run *)

Section Cutflow_counts.
Import Semantics.

(** No filter and no temporary branch has slots yet, as after booking. *)
Definition noSlotsYet (o : Objects) : bool :=
  forallb (fun f => bool_decide (fLastCheckedEntry (fSlots f) = [])) (filterObjs o)
  && bool_decide (map_Forall (fun _ b => bLastCheckedEntry (bSlots b) = [])
                             (fBookedBranches o)).

Lemma noSlotsYet_freshStart (o : Objects) : noSlotsYet o = true -> freshStart o.
Proof.
  unfold noSlotsYet. intros [Hf Hb]%andb_prop. rewrite forallb_forall in Hf.
  apply bool_decide_eq_true in Hb. split.
  - intros id f Hid. apply list_elem_of_lookup_2, list_elem_of_In, Hf in Hid.
    apply bool_decide_eq_true in Hid. rewrite Hid. constructor.
  - intros name b Hname. apply Hb in Hname. simpl in Hname. rewrite Hname. constructor.
Qed.

Lemma ChainVal_Root s tree r b : ChainVal s tree r Root b -> b = true.
Proof. by inversion 1. Qed.

(** X10: after a completed run of a valid pipeline whose caches held no
    entry when the run began (as on the first run of a data frame), the
    entries of the tree being handed out once each and fewer than 2^64, a
    booked named filter has accepted and rejected counters, summed over the
    slots, that add up to the number of processed entries which the chain
    of filters above it accepts; that number is the [all] of its report
    line; and for a named filter booked on the data frame itself it is the
    number of entries of the tree. *)
Theorem Run_counts_what_the_chain_lets_through (env : Env) (df df' : TDataFrameImpl)
    (id : nat) :
  validPipeline (shape (objs df)) (fBookedActions df) ->
  freshStart (objs df) ->
  processedEntries env df ≡ₚ allEntries (fTree df) ->
  Z.of_nat (length (tEntries (fTree df))) < 2 ^ 64 ->
  Run env df = (df', inr tt) ->
  id ∈ fBookedNamedFilters df -> id ∈ fBookedFilters df ->
  hasName (objs df) id ->
  exists f' verdicts,
    filterObjs (objs df') !! id = Some f' /\
    Forall2 (fun r b => ChainVal (shape (objs df)) (fTree df) r (fPrevData f') b)
            (processedEntries env df) verdicts /\
    sumZ (fAccepted (fSlots f')) + sumZ (fRejected (fSlots f')) = countAccepted verdicts /\
    lAll (PrintReport f') = countAccepted verdicts /\
    (fPrevData f' = Root ->
     lAll (PrintReport f') = Z.of_nat (length (tEntries (fTree df)))).
Proof.
  intros Hvalid Hfresh Hperm Hbound Hrun Hnamed Hbooked Hname.
  apply Run_ok in Hrun as (o' & Hloop & ->). cbn [objs].
  unfold hasName in Hname.
  destruct (filterObjs (objs df) !! id) as [f |] eqn:Hf; simpl in Hname; [| discriminate].
  destruct (RunLoops_counts env df (objs df) o' Hvalid Hfresh Hperm Hbound Hloop
              id f Hnamed Hbooked Hf Hname)
    as (f' & verdicts & Hf' & Hprev & _ & Hacc & Hrej & Hchain & Hsum).
  assert (Hlen : length verdicts = length (tEntries (fTree df))).
  { rewrite <- (Forall2_length _ _ _ Hchain), Hperm. apply allEntries_length. }
  pose proof (countAccepted_le verdicts) as Hle.
  assert (Hall : lAll (PrintReport f') = countAccepted verdicts).
  { rewrite (PrintReport_totals f' Hacc Hrej) by lia. simpl. exact Hsum. }
  exists f', verdicts. split; [done |]. split; [by rewrite Hprev |].
  split; [done |]. split; [done |].
  intros Hroot. rewrite Hall, <- Hlen. unfold countAccepted. f_equal. f_equal.
  rewrite <- Hprev, Hroot in Hchain. clear -Hchain.
  induction Hchain as [|r b rs bs Hb _ IH]; [done |].
  apply ChainVal_Root in Hb as ->. rewrite filter_cons_True by done. simpl. by rewrite IH.
Qed.

Lemma Run_counts_what_the_chain_lets_through_witness :
  exists f' verdicts,
    filterObjs (objs (Run sequential s3_frame).1) !! 1%nat = Some f' /\
    Forall2 (fun r b => ChainVal (shape (objs s3_frame)) (fTree s3_frame) r (fPrevData f') b)
            (processedEntries sequential s3_frame) verdicts /\
    sumZ (fAccepted (fSlots f')) + sumZ (fRejected (fSlots f')) = countAccepted verdicts /\
    lAll (PrintReport f') = countAccepted verdicts /\
    (fPrevData f' = Root ->
     lAll (PrintReport f') = Z.of_nat (length (tEntries (fTree s3_frame)))).
Proof.
  apply (Run_counts_what_the_chain_lets_through sequential s3_frame
           (Run sequential s3_frame).1 1%nat).
  - apply (checkPipeline_sound (fun _ => 0%nat)). vm_compute. reflexivity.
  - apply noSlotsYet_freshStart. vm_compute. reflexivity.
  - reflexivity.
  - vm_compute. reflexivity.
  - apply pair_eta_snd. vm_compute. reflexivity.
  - apply (bool_decide_unpack _). vm_compute. exact I.
  - apply (bool_decide_unpack _). vm_compute. exact I.
  - vm_compute. reflexivity.
Defined.

End Cutflow_counts.

(** * A sequential run with no entry to process *)

Section NoEntries.
Import Semantics.

(** Every booked node has the slot [slot]. *)
Definition readyAt (slot : nat) (actions filters : list nat) (o : Objects) : Prop :=
  (forall id, id ∈ actions ->
     exists a, actionObjs o !! id = Some a /\ (slot < length (aReaderValues a))%nat) /\
  (forall id, id ∈ filters ->
     exists f, filterObjs o !! id = Some f /\
               (slot < length (fReaderValues (fSlots f)))%nat) /\
  map_Forall (fun _ b => (slot < length (bReaderValues (bSlots b)))%nat) (fBookedBranches o).

Lemma wp_forEach_total {A} (I : Objects -> Prop) (body : A -> M unit) (xs : list A) o :
  I o ->
  (forall x o1, x ∈ xs -> I o1 -> wp (body x) o1 (fun o2 r => I o2 /\ r = inr tt)) ->
  wp (forEach body xs) o (fun o' r => I o' /\ r = inr tt).
Proof.
  revert o. induction xs as [|x xs IH]; intros o HI Hbody; simpl; [done |].
  apply wp_bind. eapply wp_mono; [apply Hbody; [by left | done] |].
  intros o1 r [HI1 ->]. apply IH; [done |]. intros y o2 Hy. apply Hbody. by right.
Qed.

Lemma Action_BuildReaderValues_ready slot actions filters id o :
  id ∈ actions -> readyAt slot actions filters o ->
  wp (Action_BuildReaderValues slot id) o
     (fun o' r => readyAt slot actions filters o' /\ r = inr tt).
Proof.
  intros Hid (HA & HF & HB). destruct (HA id Hid) as (a & Ha & Hlen).
  unfold wp, Action_BuildReaderValues, bind, getAction, lift, bindReaders, vset, putAction.
  rewrite (vat_Some _ _ _ Ha). simpl. rewrite decide_True by done. simpl.
  split; [| done]. split; [| done]. intros id' Hid'. simpl.
  destruct (decide (id' = id)) as [-> | Hne].
  - eexists. split; [apply list_lookup_insert_eq; by eapply lookup_lt_Some |].
    simpl. by rewrite length_insert.
  - rewrite list_lookup_insert_ne by done. by apply HA.
Qed.

Lemma Filter_BuildReaderValues_ready slot actions filters id o :
  id ∈ filters -> readyAt slot actions filters o ->
  wp (Filter_BuildReaderValues slot id) o
     (fun o' r => readyAt slot actions filters o' /\ r = inr tt).
Proof.
  intros Hid (HA & HF & HB). destruct (HF id Hid) as (f & Hf & Hlen).
  unfold wp, Filter_BuildReaderValues, bind, getFilter, lift, bindReaders, vset,
    putFilterSlots.
  rewrite (vat_Some _ _ _ Hf). simpl. rewrite decide_True by done. simpl.
  split; [| done]. split; [done |]. split; [| done]. intros id' Hid'. simpl.
  rewrite list_lookup_alter. case_decide as Heq.
  - subst id'. rewrite Hf. simpl. eexists. split; [done |].
    simpl. by rewrite length_insert.
  - by apply HF.
Qed.

Lemma BuildAllReaderValues_ready actions filters slot o :
  readyAt slot actions filters o ->
  (BuildAllReaderValues actions filters slot o).2 = inr tt.
Proof.
  intros Hready.
  enough (Hwp : wp (BuildAllReaderValues actions filters slot) o (fun _ r => r = inr tt))
    by exact Hwp.
  unfold BuildAllReaderValues. apply wp_bind. eapply wp_mono.
  { apply (wp_forEach_total (readyAt slot actions filters)); [done |].
    intros id o1 Hid. by apply Action_BuildReaderValues_ready. }
  intros o1 r [H1 ->]. apply wp_bind. eapply wp_mono.
  { apply (wp_forEach_total (readyAt slot actions filters)); [done |].
    intros id o2 Hid. by apply Filter_BuildReaderValues_ready. }
  intros o2 r [(_ & _ & HB) ->]. unfold wp.
  by rewrite bool_decide_eq_true_2.
Qed.

Lemma CreateSlots_readyAt actions filters (n slot : nat) o :
  (slot < n)%nat ->
  (forall id, id ∈ actions -> (id < length (actionObjs o))%nat) ->
  (forall id, id ∈ filters -> (id < length (filterObjs o))%nat) ->
  readyAt slot actions filters (CreateSlots actions filters n o).1.
Proof.
  intros Hslot HA HF. split; [| split].
  - intros id Hid. simpl.
    rewrite foldl_alter_idem by (intros a; unfold Action_CreateSlots, setAReaderValues;
                                 simpl; f_equal; apply resize_resize).
    rewrite bool_decide_eq_true_2 by done.
    destruct (lookup_lt_is_Some_2 _ _ (HA id Hid)) as [a ->]. simpl.
    eexists. split; [done |]. simpl. by rewrite length_resize.
  - intros id Hid. simpl.
    rewrite foldl_alter_idem by (intros f; unfold setFSlots; simpl; f_equal;
                                 apply Filter_CreateSlots_idem).
    rewrite bool_decide_eq_true_2 by done.
    destruct (lookup_lt_is_Some_2 _ _ (HF id Hid)) as [f ->]. simpl.
    eexists. split; [done |]. simpl. by rewrite length_resize.
  - simpl. apply map_Forall_lookup. intros name b'. rewrite lookup_fmap.
    destruct (fBookedBranches o !! name) as [b |]; simpl; [| discriminate].
    intros [= <-]. simpl. by rewrite length_resize.
Qed.

Lemma sumZ_replicate_0 (n : nat) : sumZ (replicate n 0) = 0.
Proof. unfold sumZ. induction n; simpl; lia. Qed.

Lemma PrintReport_zero (f : TDataFrameFilterBase) (n : nat) :
  fAccepted (fSlots f) = replicate n 0 -> fRejected (fSlots f) = replicate n 0 ->
  lPass (PrintReport f) = 0 /\ lAll (PrintReport f) = 0 /\ lPerc (PrintReport f) = 0%Q.
Proof.
  intros Ha Hr. rewrite PrintReport_totals; rewrite ?Ha, ?Hr, ?sumZ_replicate_0;
    try (by apply Forall_replicate); [| lia].
  simpl. done.
Qed.

Lemma RunLoops_without_entries (env : Env) (df : TDataFrameImpl) :
  reachablePtr df ->
  R__USE_IMT env && IsImplicitMTEnabled env = false ->
  tEntries (fTree df) = [] ->
  exists o',
    RunLoops env df (objs df) = (o', inr tt) /\
    sameCaches (CreateSlots (fBookedActions df) (fBookedFilters df) 1 (objs df)).1 o' /\
    sameShapeLog (objs df) o'.
Proof.
  intros Hreach Hseq Hempty.
  destruct (reachablePtr_lists df Hreach) as (_ & Hf & Hlt).
  unfold RunLoops. rewrite Hseq.
  exists (BuildAllReaderValues (fBookedActions df) (fBookedFilters df) 0
            (CreateSlots (fBookedActions df) (fBookedFilters df) 1 (objs df)).1).1.
  split; [| split; [apply BuildAllReaderValues_sameCaches |]].
  2:{ etrans; [apply CreateSlots_sameShapeLog | apply BuildAllReaderValues_sameShapeLog]. }
  unfold bind at 1. simpl. unfold bind at 1.
  pose proof (BuildAllReaderValues_ready (fBookedActions df) (fBookedFilters df) 0
                (CreateSlots (fBookedActions df) (fBookedFilters df) 1 (objs df)).1) as Hok.
  simpl in Hok.
  destruct (BuildAllReaderValues _ _ _ _) as [o1 r]. simpl in *.
  rewrite Hok.
  - unfold allEntries. rewrite Hempty. reflexivity.
  - by apply (CreateSlots_readyAt _ _ 1 0 (objs df)); [lia | |].
Qed.

(** X11: a sequential run over a tree without entries completes on every
    data frame that bookings and runs produce, whatever is booked; it
    evaluates no callable; and afterwards the report has one line per named
    filter, each with pass 0, all 0 and, the division being guarded, the
    percentage 0. *)
Theorem Run_without_entries (env : Env) (df : TDataFrameImpl) :
  reachablePtr df ->
  R__USE_IMT env && IsImplicitMTEnabled env = false ->
  tEntries (fTree df) = [] ->
  exists df',
    Run env df = (df', inr tt) /\
    evLog (objs df') = evLog (objs df) /\
    length (Impl.Report df') = length (fBookedNamedFilters df) /\
    Forall (fun l => lPass l = 0 /\ lAll l = 0 /\ lPerc l = 0%Q) (Impl.Report df').
Proof.
  intros Hreach Hseq Hempty.
  destruct (RunLoops_without_entries env df Hreach Hseq Hempty)
    as (o' & Hloop & [Hsame _] & Hshape & Hlog).
  destruct (reachablePtr_lists df Hreach) as (Hn & Hf & _).
  exists (Run env df).1.
  assert (Hrun : Run env df = ((Run env df).1, inr tt)).
  { apply pair_eta_snd. unfold Run. by rewrite Hloop. }
  assert (Hobjs : objs (Run env df).1 = o') by (by rewrite Run_objs, Hloop).
  assert (Hnamed : fBookedNamedFilters (Run env df).1 = fBookedNamedFilters df).
  { unfold Run. by rewrite Hloop. }
  split; [exact Hrun |]. rewrite Hobjs. split; [exact Hlog |].
  destruct (sameShape_filters _ _ Hshape) as (Hlen & _ & _).
  assert (Hin : forall id, id ∈ fBookedNamedFilters df ->
                           id ∈ fBookedFilters df /\ (id < length (filterObjs o'))%nat).
  { intros id Hid. rewrite Hn in Hid. apply list_elem_of_filter in Hid as [_ Hid].
    split; [done |]. apply Hf in Hid. lia. }
  destruct (Report_lines (Run env df).1) as (fs & Hfs & ->).
  { unfold namedBooked. rewrite Hnamed, Hobjs. apply Forall_forall. intros id Hid.
    by apply Hin. }
  rewrite Hnamed, Hobjs in Hfs. rewrite length_fmap.
  split; [symmetry; by eapply Forall2_length |].
  apply Forall_fmap, Forall_forall. intros f' Hf'.
  apply list_elem_of_lookup in Hf' as [i Hi].
  destruct (Forall2_lookup_r _ _ _ _ _ Hfs Hi) as (id & Hid & Hlookup).
  apply list_elem_of_lookup_2, Hin in Hid as [Hbooked _].
  specialize (Hsame id). rewrite Hlookup in Hsame.
  inversion Hsame as [f0 f1 (_ & _ & Hacc & Hrej) Hf0 Heq |]; subst.
  symmetry in Hf0. simpl in Hf0.
  apply (foldl_alter_sets
           (fun f => fAccepted (fSlots f) = replicate 1 0 /\
                     fRejected (fSlots f) = replicate 1 0)) in Hf0 as [Ha Hr]; [| | done].
  - apply (PrintReport_zero f' 1); congruence.
  - intros g. simpl. unfold fill. by rewrite !length_resize.
Qed.

Lemma Run_without_entries_witness :
  exists df',
    Run sequential (Book_filter (bareFilter "cut" Root ["A"%string] (unary (fun x => x >? 1)))
                      (TDataFrameImpl_new sequential (column "A" []) [])) = (df', inr tt) /\
    evLog (objs df') = [] /\
    length (Impl.Report df') = 1%nat /\
    Forall (fun l => lPass l = 0 /\ lAll l = 0 /\ lPerc l = 0%Q) (Impl.Report df').
Proof.
  apply (Run_without_entries sequential
           (Book_filter (bareFilter "cut" Root ["A"%string] (unary (fun x => x >? 1)))
              (TDataFrameImpl_new sequential (column "A" []) []))).
  - apply reachablePtr_fresh_filter, reachablePtr_new.
  - reflexivity.
  - reflexivity.
Defined.

End NoEntries.

(** * The recursion through the temporary branches is bounded *)

Section Safe.
Context (I : Objects -> Prop).

(** The invariant holds afterwards and the computation did not run out of
    fuel. *)
Definition safe {A} (o : Objects) (r : Exn + A) : Prop := I o /\ r <> inl Diverges.

Lemma wp_bind_safe {A B} (c : M A) (k : A -> M B) o :
  wp c o safe -> (forall x o1, I o1 -> wp (k x) o1 safe) -> wp (bind c k) o safe.
Proof.
  intros Hc Hk. apply wp_bind. eapply wp_mono; [exact Hc |].
  intros o1 [e | x] [HI Hr]; [| by apply Hk].
  split; [done |]. intros [= ->]. by apply Hr.
Qed.

Lemma wp_lift_safe {A} (r : Exn + A) o : I o -> r <> inl Diverges -> wp (lift r) o safe.
Proof. by split. Qed.

Lemma wp_ret_safe {A} (x : A) o : I o -> wp (ret x) o safe.
Proof. by split. Qed.

Lemma wp_mapM_safe {A B} (f : A -> M B) (xs : list A) : forall o,
  I o -> (forall x o1, x ∈ xs -> I o1 -> wp (f x) o1 safe) -> wp (mapM_ f xs) o safe.
Proof.
  induction xs as [|x xs IH]; intros o HI Hf; simpl; [by apply wp_ret_safe |].
  apply wp_bind_safe; [apply Hf; [by left | done] |]. intros y o1 HI1.
  apply wp_bind_safe; [apply IH; [done |]; intros z o2 Hz; apply Hf; by right |].
  intros ys o2 HI2. by apply wp_ret_safe.
Qed.

Lemma wp_forEach_safe {A} (body : A -> M unit) (xs : list A) : forall o,
  I o -> (forall x o1, x ∈ xs -> I o1 -> wp (body x) o1 safe) ->
  wp (forEach body xs) o safe.
Proof.
  induction xs as [|x xs IH]; intros o HI Hbody; simpl; [by apply wp_ret_safe |].
  apply wp_bind_safe; [apply Hbody; [by left | done] |]. intros _ o1 HI1.
  apply IH; [done |]. intros z o2 Hz. apply Hbody. by right.
Qed.

End Safe.

Section Errors.

Lemma vat_not_Diverges {A} (v : list A) (i : nat) : vat v i <> inl Diverges.
Proof. unfold vat. destruct (v !! i); discriminate. Qed.

Lemma vset_not_Diverges {A} (v : list A) (i : nat) (x : A) : vset v i x <> inl Diverges.
Proof. unfold vset. case_decide; discriminate. Qed.

Lemma err_bind_not_Diverges {A B} (r : Exn + A) (k : A -> Exn + B) :
  r <> inl Diverges -> (forall x, k x <> inl Diverges) -> err_bind r k <> inl Diverges.
Proof. intros Hr Hk. destruct r as [e | x]; simpl; [| apply Hk]. intros [= ->]. by apply Hr. Qed.

Lemma ReadTree_not_Diverges tree name entry : ReadTree tree name entry <> inl Diverges.
Proof.
  unfold ReadTree. destruct (GetBranch tree name); [| discriminate].
  case_decide; [discriminate |].
  apply err_bind_not_Diverges; [apply vat_not_Diverges |]. intros row. apply vat_not_Diverges.
Qed.

Lemma cacheValue_not_Diverges slot entry v s : cacheValue slot entry v s <> inl Diverges.
Proof.
  unfold cacheValue.
  apply err_bind_not_Diverges; [apply vset_not_Diverges |]. intros lr.
  apply err_bind_not_Diverges; [apply vset_not_Diverges |]. discriminate.
Qed.

Lemma cacheResult_not_Diverges slot entry passed count s :
  cacheResult slot entry passed count s <> inl Diverges.
Proof.
  unfold cacheResult. apply err_bind_not_Diverges.
  - destruct count; [| discriminate].
    destruct passed; (apply err_bind_not_Diverges; [apply vat_not_Diverges |]; intros n;
                      apply err_bind_not_Diverges; [apply vset_not_Diverges |]; discriminate).
  - intros counters. apply err_bind_not_Diverges; [apply vset_not_Diverges |]. intros lr.
    apply err_bind_not_Diverges; [apply vset_not_Diverges |]. discriminate.
Qed.

Lemma Exec_not_Diverges slot args h : Exec slot args h <> inl Diverges.
Proof.
  destruct h; simpl;
    (apply err_bind_not_Diverges; [apply vat_not_Diverges |]; intros n;
     apply err_bind_not_Diverges; [apply vset_not_Diverges |]; discriminate).
Qed.

Lemma updateBranch_not_Diverges name slot entry v o :
  (updateBranch name slot entry v o).2 <> inl Diverges.
Proof.
  unfold updateBranch. destruct (fBookedBranches o !! name) as [b |]; [| discriminate].
  unfold bind, lift. pose proof (cacheValue_not_Diverges slot entry v (bSlots b)) as H.
  destruct (cacheValue slot entry v (bSlots b)); simpl; [| discriminate].
  intros [= ->]. done.
Qed.

Lemma updateFilter_not_Diverges id slot entry passed count o :
  (updateFilter id slot entry passed count o).2 <> inl Diverges.
Proof.
  unfold updateFilter, bind, getFilter, lift.
  pose proof (vat_not_Diverges (filterObjs o) id) as Hv.
  destruct (vat (filterObjs o) id) as [e | f]; simpl; [intros [= ->]; done |].
  pose proof (cacheResult_not_Diverges slot entry passed count (fSlots f)) as H.
  destruct (cacheResult slot entry passed count (fSlots f)); simpl; [| discriminate].
  intros [= ->]. done.
Qed.

Lemma updateAction_not_Diverges id slot args o :
  (updateAction id slot args o).2 <> inl Diverges.
Proof.
  unfold updateAction, bind, getAction, lift.
  pose proof (vat_not_Diverges (actionObjs o) id) as Hv.
  destruct (vat (actionObjs o) id) as [e | a]; simpl; [intros [= ->]; done |].
  pose proof (Exec_not_Diverges slot args (aHelper a)) as H.
  destruct (Exec slot args (aHelper a)); simpl; [| discriminate].
  intros [= ->]. done.
Qed.

End Errors.

Section Terminates.
Import Semantics.
Context (s : Shape) (rank : string -> nat).
Hypothesis ranked : rankedBy rank (sBranches s).
Context (tree : TTree) (slot : nat) (entry : Z).

Definition hasShape (o : Objects) : Prop := shape o = s.

(** The booked temporary branches that may, directly or not, be inputs of
    [name]. *)
Definition below (name : string) : gset string :=
  filter (fun x => (rank x < rank name)%nat) (dom (sBranches s)).

Lemma wp_step_safe {A} (c : M A) o :
  respects (Step slot entry) c -> hasShape o -> (c o).2 <> inl Diverges ->
  wp c o (safe hasShape).
Proof.
  intros Hc Hs Hr. split; [| done]. unfold hasShape in *. rewrite <- Hs.
  apply (Step_shape slot entry), Hc.
Qed.

Lemma below_booked (name : string) :
  name ∈ dom (sBranches s) -> (size (below name) < size (sBranches s))%nat.
Proof.
  intros Hin. rewrite <- (size_dom (D := gset string)). apply subset_size. split.
  - intros x Hx. by apply elem_of_filter in Hx as [_ Hx].
  - intros Hsub. specialize (Hsub name Hin). apply elem_of_filter in Hsub as [Hlt _]. lia.
Qed.

Lemma below_input (name x : string) :
  (rank x < rank name)%nat -> x ∈ dom (sBranches s) ->
  (size (below x) < size (below name))%nat.
Proof.
  intros Hlt Hin. apply subset_size. split.
  - intros y Hy. apply elem_of_filter in Hy as [Hy Hdom]. apply elem_of_filter.
    split; [lia | done].
  - intros Hsub. assert (Hx : x ∈ below name) by (apply elem_of_filter; by split).
    apply Hsub, elem_of_filter in Hx as [Hx _]. lia.
Qed.

Lemma GetTmpBranchValue_safe : forall fuel name o,
  hasShape o -> (1 <= fuel)%nat ->
  (name ∈ dom (sBranches s) -> (size (below name) + 2 <= fuel)%nat) ->
  wp (GetTmpBranchValue fuel tree slot entry name) o (safe hasShape).
Proof.
  induction fuel as [|fuel IH]; intros name o Hs H1 Hfuel; [lia |].
  unfold wp. simpl. destruct (fBookedBranches o !! name) as [b |] eqn:Hb; [| by split].
  change (wp (GetValue (GetTmpBranchValue fuel tree slot entry) tree name b slot entry) o
             (safe hasShape)).
  assert (Hsb : sBranches s !! name = Some (eraseB b)).
  { rewrite <- Hs. simpl. by rewrite lookup_fmap, Hb. }
  assert (Hin : name ∈ dom (sBranches s)) by by eapply elem_of_dom_2.
  specialize (Hfuel Hin). unfold GetValue.
  apply wp_bind_safe; [apply wp_lift_safe; [done | apply vat_not_Diverges] |].
  intros last o1 Hs1.
  case_decide; [apply wp_lift_safe; [done | apply vat_not_Diverges] |].
  apply wp_bind_safe.
  { apply wp_mapM_safe; [done |]. intros x o2 Hx Hs2. unfold ReadValue.
    case_bool_decide as Htmp; [| apply wp_lift_safe; [done | apply ReadTree_not_Diverges]].
    apply IH; [done | lia |]. intros Hxin.
    pose proof (below_input name x (ranked name (eraseB b) x Hsb Hx Htmp) Hxin). lia. }
  intros args o2 Hs2. apply wp_bind_safe.
  { apply wp_step_safe; [by apply Step_logEv | done | discriminate]. }
  intros _ o3 Hs3. apply wp_bind_safe.
  { apply wp_lift_safe; [done |]. destruct (bExpression b args); discriminate. }
  intros v o4 Hs4. apply wp_bind_safe.
  { apply wp_step_safe; [apply Step_updateBranch | done | apply updateBranch_not_Diverges]. }
  intros _ o5 Hs5. by apply wp_ret_safe.
Qed.

Context (fuel : nat).
Hypothesis enough : (size (sBranches s) < fuel)%nat.

Lemma ReadValues_safe tmp branches o :
  hasShape o -> wp (ReadValues fuel tree tmp branches slot entry) o (safe hasShape).
Proof.
  intros Hs. unfold ReadValues. apply wp_mapM_safe; [done |]. intros x o1 Hx Hs1.
  unfold ReadValue.
  case_bool_decide; [| apply wp_lift_safe; [done | apply ReadTree_not_Diverges]].
  apply GetTmpBranchValue_safe; [done | lia |].
  intros Hin. pose proof (below_booked x Hin). lia.
Qed.

Lemma CheckFilters_safe (p : Node) : forall o,
  hasShape o -> wp (CheckFilters fuel tree slot entry p) o (safe hasShape).
Proof.
  induction p as [|id prev IH|name prev IH]; intros o Hs; simpl;
    [by apply wp_ret_safe | | by apply IH].
  apply wp_bind_safe; [apply wp_lift_safe; [done | apply vat_not_Diverges] |].
  intros f o1 Hs1.
  apply wp_bind_safe; [apply wp_lift_safe; [done | apply vat_not_Diverges] |].
  intros last o2 Hs2.
  case_decide; [apply wp_lift_safe; [done | apply vat_not_Diverges] |].
  apply wp_bind_safe; [by apply IH |]. intros [|] o3 Hs3.
  - apply wp_bind_safe; [by apply ReadValues_safe |]. intros args o4 Hs4.
    apply wp_bind_safe.
    { apply wp_step_safe; [by apply Step_logEv | done | discriminate]. }
    intros _ o5 Hs5. apply wp_bind_safe.
    { apply wp_lift_safe; [done |]. destruct (fFilter f args); discriminate. }
    intros passed o6 Hs6. apply wp_bind_safe.
    { apply wp_step_safe; [apply Step_updateFilter | done | apply updateFilter_not_Diverges]. }
    intros _ o7 Hs7. by apply wp_ret_safe.
  - apply wp_bind_safe.
    { apply wp_step_safe; [apply Step_updateFilter | done | apply updateFilter_not_Diverges]. }
    intros _ o4 Hs4. by apply wp_ret_safe.
Qed.

Lemma Action_Run_safe id o :
  hasShape o -> wp (Action_Run fuel tree slot entry id) o (safe hasShape).
Proof.
  intros Hs. unfold Action_Run.
  apply wp_bind_safe; [apply wp_lift_safe; [done | apply vat_not_Diverges] |].
  intros a o1 Hs1. apply wp_bind_safe; [by apply CheckFilters_safe |].
  intros [|] o2 Hs2; [| by apply wp_ret_safe].
  apply wp_bind_safe; [by apply ReadValues_safe |]. intros args o3 Hs3.
  apply wp_step_safe; [apply Step_updateAction | done | apply updateAction_not_Diverges].
Qed.

Lemma ProcessEntry_safe actions named o :
  hasShape o -> wp (ProcessEntry fuel tree actions named slot entry) o (safe hasShape).
Proof.
  intros Hs. unfold ProcessEntry. apply wp_bind_safe.
  { apply wp_forEach_safe; [done |]. intros id o1 _ Hs1. by apply Action_Run_safe. }
  intros _ o1 Hs1. apply wp_forEach_safe; [done |]. intros id o2 _ Hs2.
  apply wp_bind_safe; [| intros _ o3 Hs3; by apply wp_ret_safe].
  unfold Filter_CheckFilters.
  apply wp_bind_safe; [apply wp_lift_safe; [done | apply vat_not_Diverges] |].
  intros f o3 Hs3. by apply CheckFilters_safe.
Qed.

End Terminates.

Section Bounded.
Import Semantics.

Lemma BuildAllReaderValues_not_Diverges actions filters slot o :
  (BuildAllReaderValues actions filters slot o).2 <> inl Diverges.
Proof.
  enough (Hwp : wp (BuildAllReaderValues actions filters slot) o (safe (fun _ => True)))
    by apply Hwp.
  unfold BuildAllReaderValues. apply wp_bind_safe.
  { apply wp_forEach_safe; [done |]. intros id o1 _ _.
    unfold wp, Action_BuildReaderValues, bind, getAction, lift, bindReaders.
    pose proof (vat_not_Diverges (actionObjs o1) id) as Hv.
    destruct (vat (actionObjs o1) id) as [e | a]; simpl; [split; [done | congruence] |].
    pose proof (vset_not_Diverges (aReaderValues a) slot (aBranches a)) as Hs.
    destruct (vset (aReaderValues a) slot (aBranches a)); simpl; split; congruence || done. }
  intros _ o1 _. apply wp_bind_safe.
  { apply wp_forEach_safe; [done |]. intros id o2 _ _.
    unfold wp, Filter_BuildReaderValues, bind, getFilter, lift, bindReaders.
    pose proof (vat_not_Diverges (filterObjs o2) id) as Hv.
    destruct (vat (filterObjs o2) id) as [e | f]; simpl; [split; [done | congruence] |].
    pose proof (vset_not_Diverges (fReaderValues (fSlots f)) slot (fBranches f)) as Hs.
    destruct (vset (fReaderValues (fSlots f)) slot (fBranches f)); simpl;
      split; congruence || done. }
  intros _ o2 _. unfold wp. case_bool_decide; split; done.
Qed.

Lemma BuildAllReaderValues_safe s actions filters slot o :
  hasShape s o -> wp (BuildAllReaderValues actions filters slot) o (safe (hasShape s)).
Proof.
  intros Hs. split; [| apply BuildAllReaderValues_not_Diverges].
  unfold hasShape in *. rewrite <- Hs. apply BuildAllReaderValues_sameShape.
Qed.

Lemma RunLoops_bounded (env : Env) (df : TDataFrameImpl) (o : Objects) :
  acyclic (sBranches (shape o)) -> (RunLoops env df o).2 <> inl Diverges.
Proof.
  intros [rank Hrank].
  assert (Henough : (size (sBranches (shape o)) < S (size (fBookedBranches o)))%nat).
  { simpl. rewrite map_size_fmap. lia. }
  assert (Hloop : forall slot entries o1,
             hasShape (shape o) o1 ->
             wp (EventLoop (S (size (fBookedBranches o))) (fTree df) (fBookedActions df)
                           (fBookedNamedFilters df) slot entries) o1
                (safe (hasShape (shape o)))).
  { intros slot entries o1 Hs1. apply wp_forEach_safe; [done |]. intros entry o2 _ Hs2.
    by apply (ProcessEntry_safe (shape o) rank Hrank). }
  assert (Hcreate : forall n,
             wp (CreateSlots (fBookedActions df) (fBookedFilters df) n) o
                (safe (hasShape (shape o)))).
  { intros n. split; [apply CreateSlots_sameShapeLog | discriminate]. }
  enough (Hwp : wp (RunLoops env df) o (safe (hasShape (shape o)))) by apply Hwp.
  unfold wp, RunLoops. destruct (R__USE_IMT env && IsImplicitMTEnabled env).
  - apply (wp_bind_safe (hasShape (shape o))); [apply Hcreate |]. intros _ o1 Hs1.
    unfold wp. rewrite Process_taskSlots.
    apply (wp_forEach_safe (hasShape (shape o))); [done |]. intros t o2 _ Hs2.
    unfold runTask. apply wp_bind_safe; [by apply BuildAllReaderValues_safe |].
    intros _ o3 Hs3. by apply Hloop.
  - apply (wp_bind_safe (hasShape (shape o))); [apply Hcreate |]. intros _ o1 Hs1.
    apply wp_bind_safe; [by apply BuildAllReaderValues_safe |].
    intros _ o2 Hs2. by apply Hloop.
Qed.

(** X12: when no temporary branch is, through its inputs, an input of
    itself, the recursion from a temporary branch into the branches it
    reads ends: a run never reaches the cut that stands for an unbounded
    recursion, whatever it throws otherwise, and neither does a request for
    the value of a branch that is given more fuel than there are booked
    branches. *)
Theorem Run_recursion_is_bounded (env : Env) (df : TDataFrameImpl) :
  acyclic (sBranches (shape (objs df))) ->
  (Run env df).2 <> inl Diverges /\
  (forall fuel tree slot entry name,
     (size (fBookedBranches (objs df)) < fuel)%nat ->
     (GetTmpBranchValue fuel tree slot entry name (objs df)).2 <> inl Diverges).
Proof.
  intros Hacyclic. split.
  - pose proof (RunLoops_bounded env df (objs df) Hacyclic) as Hloop.
    unfold Run. destruct (RunLoops env df (objs df)) as [o' [e | []]]; simpl in *;
      [| discriminate].
    intros [= ->]. done.
  - intros fuel tree slot entry name Hfuel. destruct Hacyclic as [rank Hrank].
    apply (GetTmpBranchValue_safe (shape (objs df)) rank Hrank tree slot entry fuel name
             (objs df)); [done | lia |].
    intros Hin. pose proof (below_booked (shape (objs df)) rank name Hin) as Hlt.
    simpl in Hlt. rewrite map_size_fmap in Hlt. lia.
Qed.

Lemma Run_recursion_is_bounded_witness :
  (Run sequential s2_frame).2 <> inl Diverges.
Proof.
  apply (Run_recursion_is_bounded sequential s2_frame).
  apply (branches_acyclic (shape (objs s2_frame)) (fBookedActions s2_frame)).
  apply (checkPipeline_sound (fun _ => 0%nat)). vm_compute. reflexivity.
Defined.

End Bounded.

(** * The totals of a report line in 64 bits *)

Section Wrap.

Lemma fold_u64_sum (v : list Z) : forall a,
  fold_left (fun acc x => u64 (acc + x)) v (u64 a) = u64 (a + sumZ v).
Proof.
  unfold u64, sumZ. induction v as [|x v IH]; intros a; cbn [fold_left foldr].
  - by rewrite Z.add_0_r.
  - rewrite IH, <- Z.add_assoc, Zplus_mod_idemp_l. reflexivity.
Qed.

Lemma accumulate_ull_wraps (v : list Z) : accumulate_ull v = u64 (sumZ v).
Proof. unfold accumulate_ull. exact (fold_u64_sum v 0). Qed.

(** X13: whatever the counters hold, the pass of a report line is the sum
    of the accepted counters modulo 2^64 and its all is the sum of the
    accepted and rejected counters modulo 2^64: both are unsigned 64-bit
    numbers, and they are the plain sums whenever these fit. *)
Theorem PrintReport_totals_wrap_around (f : TDataFrameFilterBase) :
  lName (PrintReport f) = fName f /\
  lPass (PrintReport f) = sumZ (fAccepted (fSlots f)) mod 2 ^ 64 /\
  lAll (PrintReport f)
    = (sumZ (fAccepted (fSlots f)) + sumZ (fRejected (fSlots f))) mod 2 ^ 64 /\
  0 <= lPass (PrintReport f) < 2 ^ 64 /\ 0 <= lAll (PrintReport f) < 2 ^ 64.
Proof.
  unfold PrintReport. cbn [lName lPass lAll]. rewrite !accumulate_ull_wraps. unfold u64.
  split; [done |]. split; [done |]. split; [by rewrite <- Zplus_mod |].
  split; apply Z.mod_pos_bound; lia.
Qed.

End Wrap.

(** * A cache that outlives its run *)

Section Stale.
Import Semantics.
Context (tree : TTree) (slot : nat) (entry : Z) (id : nat).

(** The filter [id] is left as it is and its callable is not evaluated. *)
Definition quiet (o o' : Objects) : Prop :=
  filterObjs o' !! id = filterObjs o !! id /\ onlyFilters (fun x => x <> id) o o'.

#[global] Instance quiet_refl : Reflexive quiet.
Proof. intros o. split; reflexivity. Qed.

#[global] Instance quiet_trans : Transitive quiet.
Proof. intros o1 o2 o3 [H1 L1] [H2 L2]. split; [congruence | by etrans]. Qed.

Lemma quiet_intro {A} (c : M A) :
  respects (keepsFilter id) c -> respects (onlyFilters (fun x => x <> id)) c ->
  respects quiet c.
Proof. intros H1 H2 o. split; [apply H1 | apply H2]. Qed.

Lemma quiet_hit o o' : quiet o o' -> hitF slot entry o id -> hitF slot entry o' id.
Proof. intros [Hsame _] (f & Hf & Hl). exists f. split; [congruence | done]. Qed.

(** [whenHit c]: run on objects in which the cache of the filter records the
    entry, [c] is quiet. *)
Definition whenHit {A} (c : M A) : Prop :=
  forall o, hitF slot entry o id -> quiet o (c o).1.

Lemma whenHit_respects {A} (c : M A) : respects quiet c -> whenHit c.
Proof. intros H o _. apply H. Qed.

Lemma whenHit_bind {A B} (c : M A) (k : A -> M B) :
  whenHit c -> (forall x, whenHit (k x)) -> whenHit (bind c k).
Proof.
  intros Hc Hk o Ho. unfold bind. specialize (Hc o Ho).
  destruct (c o) as [o1 [e | x]]; simpl in *; [done |].
  etrans; [exact Hc |]. apply Hk. by eapply quiet_hit.
Qed.

Lemma whenHit_forEach {A} (body : A -> M unit) (xs : list A) :
  (forall x, whenHit (body x)) -> whenHit (forEach body xs).
Proof.
  intros Hbody. induction xs as [|x xs IH]; simpl.
  - apply whenHit_respects, respects_ret. apply _.
  - apply whenHit_bind; [apply Hbody | intros _; exact IH].
Qed.

Lemma ReadValues_quiet fuel tmp branches :
  respects quiet (ReadValues fuel tree tmp branches slot entry).
Proof.
  apply quiet_intro; [apply ReadValues_keepsFilter | apply ReadValues_onlyFilters].
Qed.

Lemma updateFilter_quiet id' passed count :
  id' <> id -> respects quiet (updateFilter id' slot entry passed count).
Proof.
  intros Hne. apply quiet_intro; [by apply updateFilter_keepsFilter |].
  intros o. apply sameLog_onlyFilters, updateFilter_log.
Qed.

Lemma CheckFilters_whenHit fuel (p : Node) : whenHit (CheckFilters fuel tree slot entry p).
Proof.
  induction p as [|id' prev IH|name prev IH]; simpl;
    [apply whenHit_respects, respects_ret; apply _ | | exact IH].
  destruct (decide (id' = id)) as [-> | Hne].
  - intros o (f & Hf & Hl). unfold bind, getFilter, lift.
    rewrite (vat_Some _ _ _ Hf). simpl. rewrite (vat_Some _ _ _ Hl). simpl.
    rewrite decide_True by done. simpl. reflexivity.
  - apply whenHit_bind; [apply whenHit_respects, respects_getFilter; apply _ |]. intros f.
    apply whenHit_bind; [apply whenHit_respects, respects_lift; apply _ |]. intros last.
    case_decide; [apply whenHit_respects, respects_lift; apply _ |].
    apply whenHit_bind; [exact IH |]. intros [|].
    + apply whenHit_respects.
      apply respects_bind; [apply _ | apply ReadValues_quiet |]. intros args.
      apply respects_bind; [apply _ | | intros _].
      { apply quiet_intro; [by intros o | by apply logFilter_onlyFilters]. }
      apply respects_bind; [apply _ | apply respects_call; apply _ |]. intros passed.
      apply respects_bind; [apply _ | by apply updateFilter_quiet |]. intros _.
      apply respects_ret. apply _.
    + apply whenHit_respects.
      apply respects_bind; [apply _ | by apply updateFilter_quiet |]. intros _.
      apply respects_ret. apply _.
Qed.

Lemma ProcessEntry_whenHit fuel actions named :
  whenHit (ProcessEntry fuel tree actions named slot entry).
Proof.
  unfold ProcessEntry. apply whenHit_bind; [| intros _].
  - apply whenHit_forEach. intros a. unfold Action_Run.
    apply whenHit_bind; [apply whenHit_respects, respects_getAction; apply _ |]. intros act.
    apply whenHit_bind; [apply CheckFilters_whenHit |]. intros [|];
      [| apply whenHit_respects, respects_ret; apply _].
    apply whenHit_respects.
    apply respects_bind; [apply _ | apply ReadValues_quiet |]. intros args.
    apply quiet_intro.
    + intros o. unfold updateAction, bind, getAction, lift, keepsFilter.
      destruct (vat (actionObjs o) a) as [e | a0]; simpl; [done |].
      by destruct (Exec slot args (aHelper a0)).
    + intros o. apply sameLog_onlyFilters, updateAction_log.
  - apply whenHit_forEach. intros i.
    apply whenHit_bind; [| intros _; apply whenHit_respects, respects_ret; apply _].
    unfold Filter_CheckFilters.
    apply whenHit_bind; [apply whenHit_respects, respects_getFilter; apply _ |]. intros f.
    apply CheckFilters_whenHit.
Qed.

End Stale.

Section StaleRun.
Import Semantics.

Lemma seqZ_from_0 (n : nat) : seqZ 0 (Z.of_nat (S n)) = 0 :: seqZ 1 (Z.of_nat n).
Proof. rewrite seqZ_cons by lia. f_equal. f_equal. lia. Qed.

(** What the preparation of a sequential run leaves of a filter whose cache
    of slot 0 records entry 0. *)
Lemma prepare_keeps_the_cache (df : TDataFrameImpl) (id : nat) (o : Objects) :
  hitF 0 0 o id ->
  let o2 := (BuildAllReaderValues (fBookedActions df) (fBookedFilters df) 0
               (CreateSlots (fBookedActions df) (fBookedFilters df) 1 o).1).1 in
  evLog o2 = evLog o /\ hitF 0 0 o2 id /\
  (id ∈ fBookedFilters df ->
   exists f2, filterObjs o2 !! id = Some f2 /\
              fAccepted (fSlots f2) = replicate 1 0 /\ fRejected (fSlots f2) = replicate 1 0).
Proof.
  intros (f & Hf & Hl) o2.
  set (o1 := (CreateSlots (fBookedActions df) (fBookedFilters df) 1 o).1) in *.
  assert (H1 : exists f1, filterObjs o1 !! id = Some f1 /\
                          fLastCheckedEntry (fSlots f1) !! 0%nat = Some 0 /\
                          (id ∈ fBookedFilters df ->
                           fAccepted (fSlots f1) = replicate 1 0 /\
                           fRejected (fSlots f1) = replicate 1 0)).
  { subst o1. simpl.
    rewrite foldl_alter_idem by (intros g; unfold setFSlots; simpl; f_equal;
                                 apply Filter_CreateSlots_idem).
    rewrite Hf. case_bool_decide as Hin; simpl; eexists; (split; [done |]); simpl.
    - rewrite lookup_resize by lia. rewrite Hl. split; [done |]. intros _.
      unfold fill. by rewrite !length_resize.
    - split; [done |]. intros ?. done. }
  destruct H1 as (f1 & Hf1 & Hl1 & Hc1).
  destruct (BuildAllReaderValues_sameCaches (fBookedActions df) (fBookedFilters df) 0 o1)
    as [Hsame _].
  destruct (BuildAllReaderValues_sameShapeLog (fBookedActions df) (fBookedFilters df) 0 o1)
    as [_ Hlog].
  fold o2 in Hsame, Hlog. specialize (Hsame id). rewrite Hf1 in Hsame.
  inversion Hsame as [g1 f2 (_ & Hlc & Hacc & Hrej) Heq1 Heq2 |]; subst g1.
  symmetry in Heq2. split; [by rewrite Hlog |]. split.
  - exists f2. split; [done |]. by rewrite Hlc.
  - intros Hin. exists f2. split; [done |]. destruct (Hc1 Hin) as [Ha Hr].
    split; congruence.
Qed.

(** X14: [CreateSlots] keeps the last checked entries of the slots that
    exist, so a cache outlives its run: when a sequential run begins with
    the cache of slot 0 of a filter recording entry 0 (as a completed
    run over a tree of one entry leaves it), the run does not evaluate the
    filter at entry 0; and over a tree of one entry it leaves the counters
    of a booked filter, reset by [CreateSlots], at zero, so that the report
    line of the filter shows pass 0 and all 0. *)
Theorem Run_serves_the_cache_of_an_earlier_run (env : Env) (df : TDataFrameImpl)
    (id : nat) :
  R__USE_IMT env && IsImplicitMTEnabled env = false ->
  hitF 0 0 (objs df) id ->
  (exists added,
     evLog (objs (Run env df).1) = evLog (objs df) ++ added /\
     EvFilter id 0 0 ∉ added) /\
  (length (tEntries (fTree df)) = 1%nat -> id ∈ fBookedFilters df ->
   forall df', Run env df = (df', inr tt) ->
     exists f', filterObjs (objs df') !! id = Some f' /\
                lPass (PrintReport f') = 0 /\ lAll (PrintReport f') = 0).
Proof.
  intros Hseq Hhit.
  destruct (prepare_keeps_the_cache df id (objs df) Hhit) as (Hlog2 & Hhit2 & Hcount2).
  set (o2 := (BuildAllReaderValues (fBookedActions df) (fBookedFilters df) 0
                (CreateSlots (fBookedActions df) (fBookedFilters df) 1 (objs df)).1).1) in *.
  set (fuel := S (size (fBookedBranches (objs df)))).
  assert (Hrun : (exists e, RunLoops env df (objs df) = (o2, inl e)) \/
                 RunLoops env df (objs df)
                 = EventLoop fuel (fTree df) (fBookedActions df) (fBookedNamedFilters df) 0
                             (allEntries (fTree df)) o2).
  { unfold RunLoops. rewrite Hseq. unfold bind. subst o2. simpl.
    destruct (BuildAllReaderValues _ _ _ _) as [o2' [e | []]]; simpl;
      [left; eauto | right; reflexivity]. }
  split.
  - rewrite Run_objs. destruct Hrun as [[e ->] | ->]; simpl.
    { exists []. split; [by rewrite Hlog2, app_nil_r | by intros ?%elem_of_nil]. }
    unfold allEntries. destruct (length (tEntries (fTree df))) as [|n].
    { exists []. split; [simpl; by rewrite Hlog2, app_nil_r | by intros ?%elem_of_nil]. }
    rewrite seqZ_from_0. unfold EventLoop. simpl. unfold bind.
    destruct (ProcessEntry_whenHit (fTree df) 0 0 id fuel (fBookedActions df)
                (fBookedNamedFilters df) o2 Hhit2) as [_ (added1 & Hlog3 & Hquiet)].
    destruct (ProcessEntry fuel (fTree df) (fBookedActions df) (fBookedNamedFilters df) 0 0 o2)
      as [o3 [e | []]]; simpl in *.
    { exists added1. split; [by rewrite Hlog3, Hlog2 |]. intros Hin.
      by apply Hquiet in Hin. }
    destruct (EventLoop_events fuel (fTree df) (fBookedActions df) (fBookedNamedFilters df)
                0%nat (seqZ 1 (Z.of_nat n)) o3) as (added2 & Hlog4 & Hall & _).
    unfold EventLoop in Hlog4.
    exists (added1 ++ added2). split; [by rewrite Hlog4, Hlog3, Hlog2, app_assoc |].
    intros [Hin | Hin]%elem_of_app; [by apply Hquiet in Hin |].
    rewrite Forall_forall in Hall. apply Hall in Hin as [_ Hin]. simpl in Hin.
    apply elem_of_seqZ in Hin. lia.
  - intros Hone Hbooked df' Hok. apply Run_ok in Hok as (o' & Hloop & ->). cbn [objs].
    destruct (Hcount2 Hbooked) as (f2 & Hf2 & Hacc & Hrej).
    destruct Hrun as [[e Hfail] | Hrun]; [congruence |].
    rewrite Hrun in Hloop. unfold allEntries in Hloop. rewrite Hone in Hloop.
    unfold EventLoop in Hloop. simpl in Hloop.
    apply bind_inr in Hloop as ([] & o3 & Hstep & Hret). injection Hret as <-.
    destruct (ProcessEntry_whenHit (fTree df) 0 0 id fuel (fBookedActions df)
                (fBookedNamedFilters df) o2 Hhit2) as [Hkeep _].
    change (Z.of_nat 0 + 0) with 0 in Hstep. rewrite Hstep in Hkeep. simpl in Hkeep.
    exists f2. split; [congruence |].
    destruct (PrintReport_zero f2 1 Hacc Hrej) as (Hpass & Hall & _). by split.
Qed.

(** A tree of one entry with the named filter A > 1, after a first run. *)
Definition ran_once : TDataFrameImpl :=
  (Run sequential
     (Book_filter (bareFilter "cut" Root ["A"%string] (unary (fun x => x >? 1)))
        (TDataFrameImpl_new sequential (column "A" [5]) []))).1.

Lemma Run_serves_the_cache_of_an_earlier_run_witness :
  (exists f, filterObjs (objs ran_once) !! 0%nat = Some f /\
             lPass (PrintReport f) = 1 /\ lAll (PrintReport f) = 1) /\
  (exists f', filterObjs (objs (Run sequential ran_once).1) !! 0%nat = Some f' /\
              lPass (PrintReport f') = 0 /\ lAll (PrintReport f') = 0).
Proof.
  split.
  - eexists. split; [vm_compute; reflexivity |]. split; vm_compute; reflexivity.
  - apply (proj2 (Run_serves_the_cache_of_an_earlier_run sequential ran_once 0%nat
                    eq_refl
                    ltac:(eexists; split; vm_compute; reflexivity))).
    + vm_compute. reflexivity.
    + apply (bool_decide_unpack _). vm_compute. exact I.
    + apply pair_eta_snd. vm_compute. reflexivity.
Defined.

End StaleRun.

(** * A temporary branch defined from itself *)

Section SelfReference.

(** X15: a temporary branch that is booked under a name which is also the
    first of its own inputs, served as a temporary branch, has no value at
    an entry its cache does not hold: the request for the value asks for
    the value again before anything is evaluated or written, so that no
    depth of recursion, however large, gives a result. *)
Theorem GetTmpBranchValue_of_itself_never_returns (fuel : nat) (tree : TTree) (slot : nat)
    (entry : Z) (name : string) (o : Objects) (b : TDataFrameBranchBase) (last : Z)
    (rest : list string) :
  fBookedBranches o !! name = Some b ->
  bBranches b = name :: rest -> name ∈ bTmpBranches b ->
  bLastCheckedEntry (bSlots b) !! slot = Some last -> last <> entry ->
  GetTmpBranchValue fuel tree slot entry name o = (o, inl Diverges).
Proof.
  intros Hb Hin Htmp Hlast Hne. induction fuel as [|fuel IH]; [reflexivity |].
  simpl. rewrite Hb. unfold GetValue, bind at 1, lift.
  rewrite (vat_Some _ _ _ Hlast). rewrite decide_False by done.
  rewrite Hin. simpl. unfold bind at 1, bind at 1, ReadValue.
  rewrite bool_decide_eq_true_2 by done. rewrite IH. reflexivity.
Qed.

(** The branch z, booked a second time under its name and from itself. *)
Definition z_of_z : Objects :=
  match err_bind dup_once (fun '(n1, df1) => AddCol n1 "z" 1 (plus 2) ["z"%string] df1) with
  | inr (_, df) => (CreateSlots [] [] 1 (objs df)).1
  | inl _ => objs dup_frame
  end.

Lemma GetTmpBranchValue_of_itself_never_returns_witness :
  GetTmpBranchValue 1000 (fTree dup_frame) 0 0 "z" z_of_z = (z_of_z, inl Diverges).
Proof.
  eapply (GetTmpBranchValue_of_itself_never_returns 1000 (fTree dup_frame) 0 0 "z" z_of_z
            _ (-1) []).
  - vm_compute. reflexivity.
  - reflexivity.
  - simpl. apply list_elem_of_singleton. reflexivity.
  - reflexivity.
  - discriminate.
Defined.

End SelfReference.

(** * A callable that throws *)

Section Determinism.
Import Semantics.

Scheme BranchVal_min := Minimality for BranchVal Sort Prop
  with InputsVal_min := Minimality for InputsVal Sort Prop.

Combined Scheme BranchVal_InputsVal_min from BranchVal_min, InputsVal_min.

Context (s : Shape) (tree : TTree) (r : Z).

(** The value of a temporary branch and the values of the inputs of a node
    are determined by the entry. *)
Lemma BranchVal_InputsVal_det :
  (forall name v, BranchVal (sBranches s) tree r name v ->
     forall v', BranchVal (sBranches s) tree r name v' -> v = v') /\
  (forall tmp xs vs, InputsVal (sBranches s) tree r tmp xs vs ->
     forall vs', InputsVal (sBranches s) tree r tmp xs vs' -> vs = vs').
Proof.
  apply BranchVal_InputsVal_min.
  - intros name b args v Hb _ IH Hv v' H'.
    inversion H' as [name' b' args' v'' Hb' Hargs' Hv']; subst.
    rewrite Hb in Hb'. injection Hb' as <-.
    rewrite <- (IH _ Hargs') in Hv'. congruence.
  - intros tmp vs' H'. by inversion H'.
  - intros tmp x a xs vs Hx _ IHa _ IHvs vs' H'.
    inversion H' as [| tmp' x' a' xs' vs'' Hx' Ha' Hvs' | tmp' x' a' xs' vs'' Hx' Ha' Hvs'];
      subst; [| done].
    by rewrite (IHa _ Ha'), (IHvs _ Hvs').
  - intros tmp x a xs vs Hx Ha _ IHvs vs' H'.
    inversion H' as [| tmp' x' a' xs' vs'' Hx' Ha' Hvs' | tmp' x' a' xs' vs'' Hx' Ha' Hvs'];
      subst; [done |].
    rewrite (IHvs _ Hvs'). congruence.
Qed.

Lemma InputsVal_det tmp xs vs vs' :
  InputsVal (sBranches s) tree r tmp xs vs -> InputsVal (sBranches s) tree r tmp xs vs' ->
  vs = vs'.
Proof. intros H H'. by eapply (proj2 BranchVal_InputsVal_det). Qed.

Lemma ChainVal_det (p : Node) : forall b b',
  ChainVal s tree r p b -> ChainVal s tree r p b' -> b = b'.
Proof.
  induction p as [|id prev IH|name prev IH]; intros b b' H H'.
  - inversion H. by inversion H'.
  - inversion H as [| | id1 prev1 Hrej | id1 prev1 f args b1 Hup Hf Hargs Hb]; subst;
      inversion H' as [| | id2 prev2 Hrej' | id2 prev2 f' args' b2 Hup' Hf' Hargs' Hb'];
      subst; try done.
    + by specialize (IH _ _ Hrej Hup').
    + by specialize (IH _ _ Hup Hrej').
    + rewrite Hf in Hf'. injection Hf' as <-.
      rewrite (InputsVal_det _ _ _ _ Hargs Hargs') in Hb. congruence.
  - inversion H; subst. inversion H'; subst. by eapply IH.
Qed.

(** The callable of a temporary branch, or of a filter, throws on the
    values its inputs have at the entry. *)
Definition branchThrows (name : string) : Prop :=
  exists b args, sBranches s !! name = Some b /\
    InputsVal (sBranches s) tree r (bTmpBranches b) (bBranches b) args /\
    bExpression b args = None.

Definition filterThrows (id : nat) : Prop :=
  exists f args, sFilters s !! id = Some f /\
    InputsVal (sBranches s) tree r (fTmpBranches f) (fBranches f) args /\
    fFilter f args = None.

(** The callable of a temporary branch, or of a filter, returns on the
    values its inputs have at the entry. *)
Definition branchReturns (name : string) : Prop :=
  exists v, BranchVal (sBranches s) tree r name v.

Definition filterReturns (id : nat) : Prop :=
  exists f args b, sFilters s !! id = Some f /\
    InputsVal (sBranches s) tree r (fTmpBranches f) (fBranches f) args /\
    fFilter f args = Some b.

Lemma branchReturns_not_throws name : branchReturns name -> branchThrows name -> False.
Proof.
  intros [v Hv] (b & args & Hb & Hargs & Hnone).
  inversion Hv as [name' b' args' v' Hb' Hargs' Hv']; subst.
  rewrite Hb in Hb'. injection Hb' as <-.
  rewrite (InputsVal_det _ _ _ _ Hargs Hargs') in Hnone. congruence.
Qed.

Lemma filterReturns_not_throws id : filterReturns id -> filterThrows id -> False.
Proof.
  intros (f & args & b & Hf & Hargs & Hb) (f' & args' & Hf' & Hargs' & Hnone).
  rewrite Hf in Hf'. injection Hf' as <-.
  rewrite (InputsVal_det _ _ _ _ Hargs Hargs') in Hb. congruence.
Qed.

(** A temporary branch has no value because a callable throws: its own, or
    that of a temporary branch among its inputs. *)
Inductive branchFault : string -> Prop :=
| branchFault_throws name : branchThrows name -> branchFault name
| branchFault_input name b x :
    sBranches s !! name = Some b -> x ∈ bBranches b -> x ∈ bTmpBranches b ->
    branchFault x -> branchFault name.

Definition inputsFault (tmp : BranchNames) (xs : list string) : Prop :=
  exists x, x ∈ xs /\ x ∈ tmp /\ branchFault x.

(** A chain has no verdict because a callable throws: that of a filter the
    filters above which accept the entry, or one among the inputs of such a
    filter. *)
Inductive chainFault : Node -> Prop :=
| chainFault_filter id prev :
    ChainVal s tree r prev true -> filterThrows id -> chainFault (FilterN id prev)
| chainFault_inputs id prev f :
    ChainVal s tree r prev true -> sFilters s !! id = Some f ->
    inputsFault (fTmpBranches f) (fBranches f) -> chainFault (FilterN id prev)
| chainFault_above id prev : chainFault prev -> chainFault (FilterN id prev)
| chainFault_branch name prev : chainFault prev -> chainFault (BranchN name prev).

(** An action meets a callable that throws: on its chain, or, the chain
    accepting the entry, among its inputs. *)
Definition actionFault (a : TDataFrameActionBase) : Prop :=
  chainFault (aPrevData a) \/
  (ChainVal s tree r (aPrevData a) true /\ inputsFault (aTmpBranches a) (aBranches a)).

(** The chain of an action has a verdict and, if it accepts, the inputs of
    the action have values. *)
Definition actionValue (a : TDataFrameActionBase) : Prop :=
  exists b, ChainVal s tree r (aPrevData a) b /\
            (b = true -> exists args,
               InputsVal (sBranches s) tree r (aTmpBranches a) (aBranches a) args).

Lemma InputsVal_elem tmp xs vs x :
  InputsVal (sBranches s) tree r tmp xs vs -> x ∈ xs -> x ∈ tmp ->
  exists a, BranchVal (sBranches s) tree r x a.
Proof.
  induction 1 as [| tmp y a ys vs Hy Ha _ IH | tmp y a ys vs Hy Ha _ IH]; intros Hx Ht.
  - by apply elem_of_nil in Hx.
  - apply elem_of_cons in Hx as [-> | Hx]; [by exists a | by apply IH].
  - apply elem_of_cons in Hx as [-> | Hx]; [done | by apply IH].
Qed.

Lemma branchFault_no_value name : branchFault name -> branchReturns name -> False.
Proof.
  induction 1 as [name Hthrows | name b x Hb Hx Ht _ IH]; intros [v Hv].
  - apply (branchReturns_not_throws name); [by exists v | done].
  - inversion Hv as [name' b' args v' Hb' Hargs Hv']; subst.
    rewrite Hb in Hb'. injection Hb' as <-.
    apply IH. by eapply InputsVal_elem.
Qed.

Lemma inputsFault_no_value tmp xs vs :
  inputsFault tmp xs -> InputsVal (sBranches s) tree r tmp xs vs -> False.
Proof.
  intros (x & Hx & Ht & Hfault) Hvs. apply (branchFault_no_value x Hfault).
  by eapply InputsVal_elem.
Qed.

Lemma chainFault_no_value (p : Node) : chainFault p -> forall b, ChainVal s tree r p b -> False.
Proof.
  induction 1 as [id prev Hup Hthrows | id prev f Hup Hf Hin | id prev _ IH | name prev _ IH];
    intros b Hval.
  - inversion Hval as [| | id1 prev1 Hrej | id1 prev1 f args b1 Hup' Hf Hargs Hb]; subst.
    + by pose proof (ChainVal_det _ _ _ Hup Hrej).
    + apply (filterReturns_not_throws id); [| done]. by exists f, args, b.
  - inversion Hval as [| | id1 prev1 Hrej | id1 prev1 f' args b1 Hup' Hf' Hargs Hb]; subst.
    + by pose proof (ChainVal_det _ _ _ Hup Hrej).
    + rewrite Hf in Hf'. injection Hf' as <-. by eapply inputsFault_no_value.
  - inversion Hval; subst; by eapply IH.
  - inversion Hval; subst. by eapply IH.
Qed.

Lemma actionFault_no_value a : actionFault a -> actionValue a -> False.
Proof.
  intros [Hchain | [Hup Hin]] (b & Hb & Hargs).
  - by eapply chainFault_no_value.
  - destruct (Hargs (ChainVal_det _ _ _ Hb Hup)) as [args Hvs].
    by eapply inputsFault_no_value.
Qed.

End Determinism.

(** ** A run that meets a callable that throws *)

Section NotThrown.

(** Only a user callable throws the failure of a user callable. *)
Lemma vat_not_thrown {A} (v : list A) (i : nat) : vat v i <> inl UserCallableFailure.
Proof. unfold vat. destruct (v !! i); discriminate. Qed.

Lemma vset_not_thrown {A} (v : list A) (i : nat) (x : A) :
  vset v i x <> inl UserCallableFailure.
Proof. unfold vset. case_decide; discriminate. Qed.

Lemma err_bind_not_thrown {A B} (r : Exn + A) (k : A -> Exn + B) :
  r <> inl UserCallableFailure -> (forall x, k x <> inl UserCallableFailure) ->
  err_bind r k <> inl UserCallableFailure.
Proof. intros Hr Hk. destruct r as [e | x]; simpl; [| apply Hk]. intros [= ->]. by apply Hr. Qed.

Lemma ReadTree_not_thrown tree name entry : ReadTree tree name entry <> inl UserCallableFailure.
Proof.
  unfold ReadTree. destruct (GetBranch tree name); [| discriminate].
  case_decide; [discriminate |].
  apply err_bind_not_thrown; [apply vat_not_thrown |]. intros row. apply vat_not_thrown.
Qed.

Lemma cacheValue_not_thrown slot entry v s :
  cacheValue slot entry v s <> inl UserCallableFailure.
Proof.
  unfold cacheValue.
  apply err_bind_not_thrown; [apply vset_not_thrown |]. intros lr.
  apply err_bind_not_thrown; [apply vset_not_thrown |]. discriminate.
Qed.

Lemma cacheResult_not_thrown slot entry passed count s :
  cacheResult slot entry passed count s <> inl UserCallableFailure.
Proof.
  unfold cacheResult. apply err_bind_not_thrown.
  - destruct count; [| discriminate].
    destruct passed; (apply err_bind_not_thrown; [apply vat_not_thrown |]; intros n;
                      apply err_bind_not_thrown; [apply vset_not_thrown |]; discriminate).
  - intros counters. apply err_bind_not_thrown; [apply vset_not_thrown |]. intros lr.
    apply err_bind_not_thrown; [apply vset_not_thrown |]. discriminate.
Qed.

Lemma Exec_not_thrown slot args h : Exec slot args h <> inl UserCallableFailure.
Proof.
  destruct h; simpl;
    (apply err_bind_not_thrown; [apply vat_not_thrown |]; intros n;
     apply err_bind_not_thrown; [apply vset_not_thrown |]; discriminate).
Qed.

Lemma updateBranch_not_thrown name slot entry v o :
  (updateBranch name slot entry v o).2 <> inl UserCallableFailure.
Proof.
  unfold updateBranch. destruct (fBookedBranches o !! name) as [b |]; [| discriminate].
  unfold bind, lift. pose proof (cacheValue_not_thrown slot entry v (bSlots b)) as H.
  destruct (cacheValue slot entry v (bSlots b)); simpl; [| discriminate].
  intros [= ->]. done.
Qed.

Lemma updateFilter_not_thrown id slot entry passed count o :
  (updateFilter id slot entry passed count o).2 <> inl UserCallableFailure.
Proof.
  unfold updateFilter, bind, getFilter, lift.
  pose proof (vat_not_thrown (filterObjs o) id) as Hv.
  destruct (vat (filterObjs o) id) as [e | f]; simpl; [intros [= ->]; done |].
  pose proof (cacheResult_not_thrown slot entry passed count (fSlots f)) as H.
  destruct (cacheResult slot entry passed count (fSlots f)); simpl; [| discriminate].
  intros [= ->]. done.
Qed.

Lemma updateAction_not_thrown id slot args o :
  (updateAction id slot args o).2 <> inl UserCallableFailure.
Proof.
  unfold updateAction, bind, getAction, lift.
  pose proof (vat_not_thrown (actionObjs o) id) as Hv.
  destruct (vat (actionObjs o) id) as [e | a]; simpl; [intros [= ->]; done |].
  pose proof (Exec_not_thrown slot args (aHelper a)) as H.
  destruct (Exec slot args (aHelper a)); simpl; [| discriminate].
  intros [= ->]. done.
Qed.

Lemma forEach_not_thrown {A} (body : A -> M unit) (xs : list A) :
  (forall x o, (body x o).2 <> inl UserCallableFailure) ->
  forall o, (forEach body xs o).2 <> inl UserCallableFailure.
Proof.
  intros Hbody. induction xs as [|x xs IH]; intros o; simpl; [discriminate |].
  unfold bind. pose proof (Hbody x o) as Hx.
  destruct (body x o) as [o1 [e | []]]; simpl in *; [congruence | apply IH].
Qed.

Lemma Action_BuildReaderValues_not_thrown slot id o :
  (Action_BuildReaderValues slot id o).2 <> inl UserCallableFailure.
Proof.
  unfold Action_BuildReaderValues, bind, getAction, lift, bindReaders.
  pose proof (vat_not_thrown (actionObjs o) id) as Hv.
  destruct (vat (actionObjs o) id) as [e | a]; simpl; [congruence |].
  pose proof (vset_not_thrown (aReaderValues a) slot (aBranches a)) as Hs.
  destruct (vset (aReaderValues a) slot (aBranches a)); simpl; congruence || done.
Qed.

Lemma Filter_BuildReaderValues_not_thrown slot id o :
  (Filter_BuildReaderValues slot id o).2 <> inl UserCallableFailure.
Proof.
  unfold Filter_BuildReaderValues, bind, getFilter, lift, bindReaders.
  pose proof (vat_not_thrown (filterObjs o) id) as Hv.
  destruct (vat (filterObjs o) id) as [e | f]; simpl; [congruence |].
  pose proof (vset_not_thrown (fReaderValues (fSlots f)) slot (fBranches f)) as Hs.
  destruct (vset (fReaderValues (fSlots f)) slot (fBranches f)); simpl; congruence || done.
Qed.

Lemma BuildAllReaderValues_not_thrown actions filters slot o :
  (BuildAllReaderValues actions filters slot o).2 <> inl UserCallableFailure.
Proof.
  unfold BuildAllReaderValues, bind.
  pose proof (forEach_not_thrown (Action_BuildReaderValues slot) actions
                (Action_BuildReaderValues_not_thrown slot) o) as Ha.
  destruct (forEach (Action_BuildReaderValues slot) actions o) as [o1 [e | []]];
    simpl in *; [congruence |].
  pose proof (forEach_not_thrown (Filter_BuildReaderValues slot) filters
                (Filter_BuildReaderValues_not_thrown slot) o1) as Hf.
  destruct (forEach (Filter_BuildReaderValues slot) filters o1) as [o2 [e | []]];
    simpl in *; [congruence |].
  case_bool_decide; simpl; discriminate.
Qed.

End NotThrown.

Section Throws.
Import Semantics.
Context (s : Shape) (tree : TTree).

(** The caches agree with what the nodes compute: where a slot records an
    entry of the tree, it holds the verdict of the filter, or the value of
    the temporary branch, at that entry. *)
Definition agreeF (id : nat) (f : TDataFrameFilterBase) : Prop :=
  forall slot r, fLastCheckedEntry (fSlots f) !! slot = Some r -> 0 <= r ->
    exists b, fLastResult (fSlots f) !! slot = Some b /\
              ChainVal s tree r (FilterN id (fPrevData f)) b.

Definition agreeB (name : string) (b : TDataFrameBranchBase) : Prop :=
  forall slot r, bLastCheckedEntry (bSlots b) !! slot = Some r -> 0 <= r ->
    exists v, bLastResult (bSlots b) !! slot = Some v /\
              BranchVal (sBranches s) tree r name v.

Definition cachesAgreeWith (o : Objects) : Prop :=
  (forall id f, filterObjs o !! id = Some f -> agreeF id f) /\
  (forall name b, fBookedBranches o !! name = Some b -> agreeB name b).

Definition agrees (o : Objects) : Prop := shape o = s /\ cachesAgreeWith o.

(** The callable an event records the call of returns, or throws, on the
    values its inputs have at the entry. *)
Definition returnsAt (ev : Event) : Prop :=
  match ev with
  | EvFilter id _ r => filterReturns s tree r id
  | EvBranch name _ r => branchReturns s tree r name
  end.

Definition throwsAt (ev : Event) : Prop :=
  match ev with
  | EvFilter id _ r => filterThrows s tree r id
  | EvBranch name _ r => branchThrows s tree r name
  end.

Lemma returnsAt_not_throwsAt ev : returnsAt ev -> throwsAt ev -> False.
Proof.
  destruct ev as [id slot r | name slot r]; simpl.
  - apply filterReturns_not_throws.
  - apply branchReturns_not_throws.
Qed.

Context (l0 : list Event).

(** Every call recorded since the log was [l0] returned. *)
Definition goodLog (o : Objects) : Prop :=
  exists added, evLog o = l0 ++ added /\ Forall returnsAt added.

(** What a step of the event loop guarantees: the caches agree afterwards;
    when it returns, every call it made returned and [Sem] holds of the
    result; when it throws the failure of a user callable, [Fault] holds;
    when it throws anything else, every call it made returned. *)
Definition upTo {A} (Sem : A -> Prop) (Fault : Prop) (o : Objects) (r : Exn + A) : Prop :=
  agrees o /\
  match r with
  | inr x => goodLog o /\ Sem x
  | inl e => (e = UserCallableFailure -> Fault) /\ (e <> UserCallableFailure -> goodLog o)
  end.

Lemma upTo_other {A} (Sem : A -> Prop) (Fault : Prop) o e :
  agrees o -> goodLog o -> e <> UserCallableFailure -> upTo Sem Fault o (inl e).
Proof. intros HG HK He. split; [done |]. split; [by intros -> | done]. Qed.

Lemma upTo_ok {A} (Sem : A -> Prop) (Fault : Prop) o x :
  agrees o -> goodLog o -> Sem x -> upTo Sem Fault o (inr x).
Proof. intros HG HK Hx. split; [done |]. by split. Qed.

Lemma upTo_mono {A} (Sem Sem' : A -> Prop) (Fault Fault' : Prop) o r :
  upTo Sem Fault o r -> (forall x, Sem x -> Sem' x) -> (Fault -> Fault') ->
  upTo Sem' Fault' o r.
Proof.
  intros [HG H] Hs Hf. split; [done |]. destruct r as [e | x].
  - destruct H as [H1 H2]. split; auto.
  - destruct H as [H1 H2]. split; auto.
Qed.

Lemma wp_bind_upTo {A B} (SemA : A -> Prop) (FaultA : Prop) (SemB : B -> Prop)
    (FaultB : Prop) (c : M A) (k : A -> M B) o :
  wp c o (upTo SemA FaultA) -> (FaultA -> FaultB) ->
  (forall x o1, agrees o1 -> goodLog o1 -> SemA x -> wp (k x) o1 (upTo SemB FaultB)) ->
  wp (bind c k) o (upTo SemB FaultB).
Proof.
  intros Hc Hf Hk. apply wp_bind. eapply wp_mono; [exact Hc |].
  intros o1 [e | x] [HG H]; simpl.
  - destruct H as [H1 H2]. split; [done |]. split; auto.
  - destruct H as [H1 H2]. by apply Hk.
Qed.

Lemma agrees_setEvLog o l : agrees o -> agrees (setEvLog o l).
Proof. done. Qed.

Lemma goodLog_same o o' : evLog o' = evLog o -> goodLog o -> goodLog o'.
Proof. intros Heq (added & Hl & Hall). exists added. by rewrite Heq. Qed.

(** A call of a user callable, recorded and made. *)
Lemma wp_call_upTo {A B} (Sem : B -> Prop) (Fault : Prop) (ev : Event) (r : option A)
    (k : A -> M B) o :
  agrees o -> goodLog o ->
  (r = None -> Fault) ->
  (forall x, r = Some x -> returnsAt ev) ->
  (forall x o1, r = Some x -> agrees o1 -> goodLog o1 -> wp (k x) o1 (upTo Sem Fault)) ->
  wp (logEv ev ;;; x <- call r ;; k x) o (upTo Sem Fault).
Proof.
  intros HG HK Hnone Hret Hk. apply wp_bind. unfold wp at 1. simpl.
  apply wp_bind, wp_lift. destruct r as [x |]; simpl.
  - apply (Hk x); [done | by apply agrees_setEvLog |].
    destruct HK as (added & Hl & Hall). exists (added ++ [ev]). simpl.
    split; [by rewrite Hl, app_assoc |]. apply Forall_app. split; [done |].
    constructor; [by eapply Hret | done].
  - split; [by apply agrees_setEvLog |]. split; [intros _; by apply Hnone | done].
Qed.

Lemma wp_forEach_upTo {A} (Sem Fault : A -> Prop) (body : A -> M unit) (xs : list A) :
  forall o, agrees o -> goodLog o ->
    (forall x o1, x ∈ xs -> agrees o1 -> goodLog o1 ->
       wp (body x) o1 (upTo (fun _ => Sem x) (Fault x))) ->
    wp (forEach body xs) o
       (upTo (fun _ => forall x, x ∈ xs -> Sem x) (exists x, x ∈ xs /\ Fault x)).
Proof.
  induction xs as [|x xs IH]; intros o HG HK Hbody; simpl.
  - apply upTo_ok; [done | done |]. by intros x ?%elem_of_nil.
  - eapply wp_bind_upTo; [apply Hbody; [by left | done | done] | |].
    + intros Hx. exists x. split; [by left | done].
    + intros [] o1 HG1 HK1 Hx. simpl in Hx. eapply wp_mono.
      { apply IH; [done | done |]. intros y o2 Hy. apply Hbody. by right. }
      intros o2 r H. eapply upTo_mono; [exact H | |].
      * intros [] Hall y [-> | Hy]%elem_of_cons; auto.
      * intros (y & Hy & Hf). exists y. split; [by right | done].
Qed.

(** At an entry, the booked actions and the named filters have their
    verdicts and values; or one of them meets a callable that throws. *)
Definition entryValue (actions named : list nat) (r : Z) : Prop :=
  (forall id a, id ∈ actions -> sActions s !! id = Some a -> actionValue s tree r a) /\
  (forall id f, id ∈ named -> sFilters s !! id = Some f ->
     exists b, ChainVal s tree r (FilterN id (fPrevData f)) b).

Definition entryFault (actions named : list nat) (r : Z) : Prop :=
  (exists id a, id ∈ actions /\ sActions s !! id = Some a /\ actionFault s tree r a) \/
  (exists id f, id ∈ named /\ sFilters s !! id = Some f /\
     chainFault s tree r (FilterN id (fPrevData f))).

Lemma entryFault_no_value actions named r :
  entryFault actions named r -> entryValue actions named r -> False.
Proof.
  intros [(id & a & Hid & Ha & Hf) | (id & f & Hid & Hf & Hfault)] [Hacts Hnamed].
  - eapply actionFault_no_value; [exact Hf |]. by eapply Hacts.
  - destruct (Hnamed id f Hid Hf) as [b Hb]. by eapply chainFault_no_value.
Qed.

Section Entry.
Context (slot : nat) (entry : Z).
Hypothesis entry_nonneg : 0 <= entry.

Lemma agrees_updateBranch name v o :
  agrees o -> BranchVal (sBranches s) tree entry name v ->
  agrees (updateBranch name slot entry v o).1.
Proof.
  intros [Hs [HF HB]] Hv. split.
  { rewrite <- Hs. apply (Step_shape slot entry), Step_updateBranch. }
  unfold updateBranch. destruct (fBookedBranches o !! name) as [b |] eqn:Hb; [| done].
  unfold bind, lift, putBranchSlots.
  destruct (cacheValue slot entry v (bSlots b)) as [e | s'] eqn:Hc; [done |].
  apply cacheValue_inr in Hc as (_ & Hlc & Hlen & Hlr & Hlen').
  split; simpl; [done |]. intros name' b' Hb' slot' r Hr Hnonneg.
  rewrite lookup_alter in Hb'. case_decide as Hname; [subst name' | by eapply HB].
  rewrite Hb in Hb'. injection Hb' as <-. simpl in *. rewrite Hlc in Hr. rewrite Hlr.
  destruct (decide (slot' = slot)) as [-> | Hne].
  - rewrite list_lookup_insert_eq in Hr by done. injection Hr as <-.
    exists v. split; [by apply list_lookup_insert_eq | done].
  - rewrite list_lookup_insert_ne in Hr by done. rewrite list_lookup_insert_ne by done.
    by eapply HB.
Qed.

Lemma agrees_updateFilter id passed count f0 o :
  agrees o -> sFilters s !! id = Some f0 ->
  ChainVal s tree entry (FilterN id (fPrevData f0)) passed ->
  agrees (updateFilter id slot entry passed count o).1.
Proof.
  intros [Hs [HF HB]] Hf0 Hv. split.
  { rewrite <- Hs. apply (Step_shape slot entry), Step_updateFilter. }
  unfold updateFilter, bind, getFilter, lift, putFilterSlots.
  destruct (vat (filterObjs o) id) as [e | f] eqn:Hf; simpl; [done |].
  destruct (cacheResult slot entry passed count (fSlots f)) as [e | s'] eqn:Hc; simpl;
    [done |].
  apply vat_inr in Hf.
  apply cacheResult_inr in Hc as (_ & Hlc & Hlen & Hlr & Hlen' & _).
  split; simpl; [| done]. intros id' f' Hf' slot' r Hr Hnonneg.
  rewrite list_lookup_alter in Hf'. case_decide as Hid; [subst id' | by eapply HF].
  rewrite Hf in Hf'. injection Hf' as <-. simpl in *. rewrite Hlc in Hr. rewrite Hlr.
  destruct (decide (slot' = slot)) as [-> | Hne].
  - rewrite list_lookup_insert_eq in Hr by done. injection Hr as <-.
    exists passed. split; [by apply list_lookup_insert_eq |].
    pose proof (shape_filter o id f Hf) as Hsf. rewrite Hs, Hf0 in Hsf.
    injection Hsf as ->. done.
  - rewrite list_lookup_insert_ne in Hr by done. rewrite list_lookup_insert_ne by done.
    by eapply HF.
Qed.

Lemma agrees_updateAction id args o : agrees o -> agrees (updateAction id slot args o).1.
Proof.
  intros [Hs HC]. split.
  { rewrite <- Hs. apply (Step_shape slot entry), Step_updateAction. }
  unfold updateAction, bind, getAction, lift, putAction.
  destruct (vat (actionObjs o) id) as [e | a]; simpl; [done |].
  destruct (Exec slot args (aHelper a)); simpl; done.
Qed.

Lemma wp_updateBranch_upTo (Fault : Prop) name v o :
  agrees o -> goodLog o -> BranchVal (sBranches s) tree entry name v ->
  wp (updateBranch name slot entry v) o (upTo (fun _ => True) Fault).
Proof.
  intros HG HK Hv. unfold wp.
  pose proof (agrees_updateBranch name v o HG Hv) as HG'.
  pose proof (updateBranch_not_thrown name slot entry v o) as Hnot.
  assert (HK' : goodLog (updateBranch name slot entry v o).1).
  { eapply goodLog_same; [| exact HK]. unfold updateBranch.
    destruct (fBookedBranches o !! name) as [b |]; [| done].
    unfold bind, lift. by destruct (cacheValue slot entry v (bSlots b)). }
  destruct (updateBranch name slot entry v o) as [o' [e | []]]; simpl in *.
  - apply upTo_other; [done | done | congruence].
  - by apply upTo_ok.
Qed.

Lemma wp_updateFilter_upTo (Fault : Prop) id passed count f0 o :
  agrees o -> goodLog o -> sFilters s !! id = Some f0 ->
  ChainVal s tree entry (FilterN id (fPrevData f0)) passed ->
  wp (updateFilter id slot entry passed count) o (upTo (fun _ => True) Fault).
Proof.
  intros HG HK Hf0 Hv. unfold wp.
  pose proof (agrees_updateFilter id passed count f0 o HG Hf0 Hv) as HG'.
  pose proof (updateFilter_not_thrown id slot entry passed count o) as Hnot.
  assert (HK' : goodLog (updateFilter id slot entry passed count o).1).
  { eapply goodLog_same; [| exact HK]. unfold updateFilter, bind, getFilter, lift.
    destruct (vat (filterObjs o) id) as [e | f]; simpl; [done |].
    by destruct (cacheResult slot entry passed count (fSlots f)). }
  destruct (updateFilter id slot entry passed count o) as [o' [e | []]]; simpl in *.
  - apply upTo_other; [done | done | congruence].
  - by apply upTo_ok.
Qed.

Lemma wp_updateAction_upTo (Fault : Prop) id args o :
  agrees o -> goodLog o ->
  wp (updateAction id slot args) o (upTo (fun _ => True) Fault).
Proof.
  intros HG HK. unfold wp.
  pose proof (agrees_updateAction id args o HG) as HG'.
  pose proof (updateAction_not_thrown id slot args o) as Hnot.
  assert (HK' : goodLog (updateAction id slot args o).1).
  { eapply goodLog_same; [| exact HK]. apply updateAction_log. }
  destruct (updateAction id slot args o) as [o' [e | []]]; simpl in *.
  - apply upTo_other; [done | done | congruence].
  - by apply upTo_ok.
Qed.

Lemma shape_branch o name b :
  shape o = s -> fBookedBranches o !! name = Some b ->
  sBranches s !! name = Some (eraseB b).
Proof. intros <- Hb. simpl. by rewrite lookup_fmap, Hb. Qed.

(** The inputs of a node, given what the temporary branches yield. *)
Lemma ReadValue_mapM_upTo (tmpValue : string -> M Z) (tmp : BranchNames) :
  (forall x o, agrees o -> goodLog o ->
     wp (tmpValue x) o (upTo (BranchVal (sBranches s) tree entry x)
                             (branchFault s tree entry x))) ->
  forall xs o, agrees o -> goodLog o ->
    wp (mapM_ (ReadValue tmpValue tree tmp entry) xs) o
       (upTo (InputsVal (sBranches s) tree entry tmp xs) (inputsFault s tree entry tmp xs)).
Proof.
  intros Htmp. induction xs as [|x xs IH]; intros o HG HK; simpl.
  - apply upTo_ok; [done | done | constructor].
  - unfold ReadValue at 1. case_bool_decide as Hx.
    + eapply wp_bind_upTo; [by apply Htmp | |].
      * intros Hf. exists x. split; [by left | done].
      * intros a o1 HG1 HK1 Ha.
        eapply wp_bind_upTo; [by apply IH | |].
        -- intros (y & Hy & Hty & Hf). exists y. split; [by right | done].
        -- intros vs o2 HG2 HK2 Hvs. apply upTo_ok; [done | done |].
           by apply InputsVal_tmp.
    + apply wp_bind, wp_lift.
      pose proof (ReadTree_not_thrown tree x entry) as Hnot.
      destruct (ReadTree tree x entry) as [e | a] eqn:Hread.
      { apply upTo_other; [done | done | congruence]. }
      eapply wp_bind_upTo; [by apply IH | |].
      * intros (y & Hy & Hty & Hf). exists y. split; [by right | done].
      * intros vs o2 HG2 HK2 Hvs. apply upTo_ok; [done | done |].
        by apply InputsVal_tree.
Qed.

(** The value of a temporary branch: the cached one, or that of its
    callable on the values of its inputs. *)
Lemma GetTmpBranchValue_upTo : forall fuel name o,
  agrees o -> goodLog o ->
  wp (GetTmpBranchValue fuel tree slot entry name) o
     (upTo (BranchVal (sBranches s) tree entry name) (branchFault s tree entry name)).
Proof.
  induction fuel as [|fuel IH]; intros name o HG HK; simpl.
  { apply upTo_other; [done | done | discriminate]. }
  unfold wp. destruct (fBookedBranches o !! name) as [b |] eqn:Hb;
    [| apply upTo_other; [done | done | discriminate]].
  change (wp (GetValue (GetTmpBranchValue fuel tree slot entry) tree name b slot entry) o
             (upTo (BranchVal (sBranches s) tree entry name) (branchFault s tree entry name))).
  pose proof (shape_branch o name b (proj1 HG) Hb) as Hsb.
  unfold GetValue. apply wp_bind, wp_lift.
  pose proof (vat_not_thrown (bLastCheckedEntry (bSlots b)) slot) as Hnot.
  destruct (vat (bLastCheckedEntry (bSlots b)) slot) as [e | last] eqn:Hlast;
    [apply upTo_other; [done | done | congruence] |].
  apply vat_inr in Hlast. case_decide as Hhit.
  - subst last. apply wp_lift.
    pose proof (vat_not_thrown (bLastResult (bSlots b)) slot) as Hnot'.
    destruct (vat (bLastResult (bSlots b)) slot) as [e | v] eqn:Hv;
      [apply upTo_other; [done | done | congruence] |].
    apply vat_inr in Hv. apply upTo_ok; [done | done |].
    destruct (proj2 (proj2 HG) name b Hb slot entry Hlast entry_nonneg) as (v' & Hv' & Hval).
    congruence.
  - eapply wp_bind_upTo.
    { apply (ReadValue_mapM_upTo _ (bTmpBranches b)); [| done | done].
      intros x o1 HG1 HK1. by apply IH. }
    { intros (x & Hx & Htx & Hf). by eapply (branchFault_input s tree entry name (eraseB b) x). }
    intros args o1 HG1 HK1 Hargs.
    apply wp_call_upTo; [done | done | | |].
    + intros Hnone. apply branchFault_throws. by exists (eraseB b), args.
    + intros v Hv. exists v. by eapply (BranchVal_eval _ _ _ name (eraseB b) args).
    + intros v o2 Hv HG2 HK2.
      assert (Hval : BranchVal (sBranches s) tree entry name v)
        by by eapply (BranchVal_eval _ _ _ name (eraseB b) args).
      eapply wp_bind_upTo; [by apply (wp_updateBranch_upTo (branchFault s tree entry name)) | done |].
      intros [] o3 HG3 HK3 _. by apply upTo_ok.
Qed.

Lemma ReadValues_upTo fuel tmp branches o :
  agrees o -> goodLog o ->
  wp (ReadValues fuel tree tmp branches slot entry) o
     (upTo (InputsVal (sBranches s) tree entry tmp branches)
           (inputsFault s tree entry tmp branches)).
Proof.
  intros HG HK. unfold ReadValues. apply ReadValue_mapM_upTo; [| done | done].
  intros x o1 HG1 HK1. by apply GetTmpBranchValue_upTo.
Qed.


(** The verdict of a chain: the cached one, or that of the callable of the
    filter when the filters above it accept. *)
Lemma CheckFilters_upTo fuel (p : Node) : forall o,
  coherent (sFilters s) p -> agrees o -> goodLog o ->
  wp (CheckFilters fuel tree slot entry p) o
     (upTo (ChainVal s tree entry p) (chainFault s tree entry p)).
Proof.
  induction p as [|id prev IH|name prev IH]; intros o Hco HG HK; simpl.
  - apply upTo_ok; [done | done | constructor].
  - destruct Hco as [(f0 & Hf0 & Hprev) Hco].
    apply wp_bind. unfold wp at 1, getFilter. simpl.
    pose proof (vat_not_thrown (filterObjs o) id) as Hnot.
    destruct (vat (filterObjs o) id) as [e | f] eqn:Hf;
      [apply upTo_other; [done | done | congruence] |].
    apply vat_inr in Hf.
    pose proof (shape_filter o id f Hf) as Hsf. rewrite (proj1 HG), Hf0 in Hsf.
    injection Hsf as ->. simpl in Hprev.
    apply wp_bind, wp_lift.
    pose proof (vat_not_thrown (fLastCheckedEntry (fSlots f)) slot) as Hnot1.
    destruct (vat (fLastCheckedEntry (fSlots f)) slot) as [e | last] eqn:Hlast;
      [apply upTo_other; [done | done | congruence] |].
    apply vat_inr in Hlast. case_decide as Hhit.
    + subst last. apply wp_lift.
      pose proof (vat_not_thrown (fLastResult (fSlots f)) slot) as Hnot2.
      destruct (vat (fLastResult (fSlots f)) slot) as [e | b] eqn:Hb;
        [apply upTo_other; [done | done | congruence] |].
      apply vat_inr in Hb. apply upTo_ok; [done | done |].
      destruct (proj1 (proj2 HG) id f Hf slot entry Hlast entry_nonneg) as (b' & Hb' & Hval).
      rewrite Hprev in Hval. congruence.
    + eapply wp_bind_upTo; [by apply IH | apply chainFault_above |].
      intros [|] o1 HG1 HK1 Hup.
      * eapply wp_bind_upTo; [by apply ReadValues_upTo | |].
        { intros Hfault. by eapply (chainFault_inputs s tree entry id prev (eraseF f)). }
        intros args o2 HG2 HK2 Hargs.
        apply wp_call_upTo; [done | done | | |].
        -- intros Hnone. apply chainFault_filter; [done |]. by exists (eraseF f), args.
        -- intros passed Hpassed. by exists (eraseF f), args, passed.
        -- intros passed o3 Hpassed HG3 HK3.
           assert (Hval : ChainVal s tree entry (FilterN id prev) passed)
             by by eapply (ChainVal_eval s tree entry id prev (eraseF f) args).
           eapply wp_bind_upTo.
           { apply (wp_updateFilter_upTo (chainFault s tree entry (FilterN id prev))
                      id passed (HasName f) (eraseF f)); [done | done | done |].
             simpl. by rewrite Hprev. }
           { done. }
           intros [] o4 HG4 HK4 _. by apply upTo_ok.
      * assert (Hval : ChainVal s tree entry (FilterN id prev) false)
          by by apply ChainVal_reject.
        eapply wp_bind_upTo.
        { apply (wp_updateFilter_upTo (chainFault s tree entry (FilterN id prev))
                   id false false (eraseF f)); [done | done | done |].
          simpl. by rewrite Hprev. }
        { done. }
        intros [] o4 HG4 HK4 _. by apply upTo_ok.
  - eapply wp_mono; [by apply IH |]. intros o1 r H.
    eapply upTo_mono; [exact H | |].
    + intros b. apply ChainVal_branch.
    + apply chainFault_branch.
Qed.

Lemma Action_Run_upTo fuel id a0 o :
  sActions s !! id = Some a0 -> coherent (sFilters s) (aPrevData a0) ->
  agrees o -> goodLog o ->
  wp (Action_Run fuel tree slot entry id) o
     (upTo (fun _ => actionValue s tree entry a0) (actionFault s tree entry a0)).
Proof.
  intros Ha0 Hco HG HK. unfold Action_Run.
  apply wp_bind. unfold wp at 1, getAction. simpl.
  pose proof (vat_not_thrown (actionObjs o) id) as Hnot.
  destruct (vat (actionObjs o) id) as [e | a] eqn:Ha;
    [apply upTo_other; [done | done | congruence] |].
  apply vat_inr in Ha.
  assert (a0 = eraseA a) as ->.
  { destruct HG as [<- _]. simpl in Ha0. rewrite list_lookup_fmap, Ha in Ha0.
    by injection Ha0. }
  simpl in Hco.
  eapply wp_bind_upTo; [by apply CheckFilters_upTo | by left |].
  intros [|] o1 HG1 HK1 Hup.
  - eapply wp_bind_upTo; [by apply ReadValues_upTo | intros Hfault; by right |].
    intros args o2 HG2 HK2 Hargs.
    eapply wp_mono; [by apply (wp_updateAction_upTo False) |]. intros o3 r H.
    eapply upTo_mono; [exact H | | done].
    intros [] _. exists true. split; [done |]. intros _. by exists args.
  - apply upTo_ok; [done | done |]. exists false. by split.
Qed.

Lemma Filter_CheckFilters_upTo fuel id f0 o :
  sFilters s !! id = Some f0 -> coherent (sFilters s) (fPrevData f0) ->
  agrees o -> goodLog o ->
  wp (Filter_CheckFilters fuel tree slot entry id) o
     (upTo (ChainVal s tree entry (FilterN id (fPrevData f0)))
           (chainFault s tree entry (FilterN id (fPrevData f0)))).
Proof.
  intros Hf0 Hco HG HK. unfold Filter_CheckFilters.
  apply wp_bind. unfold wp at 1, getFilter. simpl.
  pose proof (vat_not_thrown (filterObjs o) id) as Hnot.
  destruct (vat (filterObjs o) id) as [e | f] eqn:Hf;
    [apply upTo_other; [done | done | congruence] |].
  apply vat_inr in Hf.
  pose proof (shape_filter o id f Hf) as Hsf. rewrite (proj1 HG), Hf0 in Hsf.
  injection Hsf as ->.
  change (wp (CheckFilters fuel tree slot entry (FilterN id (fPrevData f))) o
             (upTo (ChainVal s tree entry (FilterN id (fPrevData f)))
                   (chainFault s tree entry (FilterN id (fPrevData f))))).
  apply CheckFilters_upTo; [| done | done]. split; [| exact Hco].
  by exists (eraseF f).
Qed.

(** One entry of the loop: every booked action runs, every named filter is
    checked. *)
Lemma ProcessEntry_upTo fuel actions named o :
  validPipeline s actions -> agrees o -> goodLog o ->
  wp (ProcessEntry fuel tree actions named slot entry) o
     (upTo (fun _ => entryValue actions named entry) (entryFault actions named entry)).
Proof.
  intros Hvalid HG HK. unfold ProcessEntry.
  eapply wp_bind_upTo.
  { apply (wp_forEach_upTo
             (fun id => forall a, sActions s !! id = Some a -> actionValue s tree entry a)
             (fun id => exists a, sActions s !! id = Some a /\ actionFault s tree entry a));
      [done | done |].
    intros id o1 Hid HG1 HK1.
    destruct (actions_ordered _ _ Hvalid id Hid) as (a & Ha & _ & Hco).
    eapply wp_mono; [by apply (Action_Run_upTo fuel id a) |]. intros o2 r H.
    eapply upTo_mono; [exact H | |].
    - intros [] Hv a' Ha'. simpl in Hv. congruence.
    - intros Hfault. by exists a. }
  { intros (id & Hid & a & Ha & Hfault). left. by exists id, a. }
  intros [] o1 HG1 HK1 Hacts. eapply wp_mono.
  { apply (wp_forEach_upTo
             (fun id => forall f, sFilters s !! id = Some f ->
                                  exists b, ChainVal s tree entry (FilterN id (fPrevData f)) b)
             (fun id => exists f, sFilters s !! id = Some f /\
                                  chainFault s tree entry (FilterN id (fPrevData f))));
      [done | done |].
    intros id o2 Hid HG2 HK2.
    destruct (sFilters s !! id) as [f |] eqn:Hf.
    - destruct (filters_ordered _ _ Hvalid id f Hf) as (_ & _ & Hco).
      eapply wp_bind_upTo; [by apply (Filter_CheckFilters_upTo fuel id f) | |].
      + intros Hfault. by exists f.
      + intros b o3 HG3 HK3 Hb. apply upTo_ok; [done | done |].
        intros f' [= <-]. by exists b.
    - apply wp_bind. unfold Filter_CheckFilters. apply wp_bind.
      unfold wp at 1, getFilter. simpl.
      destruct (vat (filterObjs o2) id) as [e | f] eqn:Hv.
      + unfold vat in Hv. destruct (filterObjs o2 !! id); [discriminate |].
        injection Hv as <-. apply upTo_other; [done | done | discriminate].
      + apply vat_inr in Hv. pose proof (shape_filter o2 id f Hv) as Hsf.
        rewrite (proj1 HG2), Hf in Hsf. discriminate. }
  intros o2 r H. eapply upTo_mono; [exact H | |].
  - intros [] Hnamed. split.
    + intros id a Hid Ha. by apply (Hacts id Hid).
    + intros id f Hid Hf. by apply (Hnamed id Hid).
  - intros (id & Hid & f & Hf & Hfault). right. by exists id, f.
Qed.

End Entry.

Lemma EventLoop_upTo fuel actions named slot entries o :
  validPipeline s actions -> Forall (fun r => 0 <= r) entries ->
  agrees o -> goodLog o ->
  wp (EventLoop fuel tree actions named slot entries) o
     (upTo (fun _ => forall r, r ∈ entries -> entryValue actions named r)
           (exists r, r ∈ entries /\ entryFault actions named r)).
Proof.
  intros Hvalid Hnonneg HG HK. unfold EventLoop.
  apply (wp_forEach_upTo (entryValue actions named) (entryFault actions named));
    [done | done |].
  intros r o1 Hr HG1 HK1. apply ProcessEntry_upTo; [| done | done | done].
  rewrite Forall_forall in Hnonneg. by apply Hnonneg.
Qed.

(** Sizing the slots and binding the readers keep what the caches hold. *)
Definition keepF (f f' : TDataFrameFilterBase) : Prop :=
  fPrevData f' = fPrevData f /\
  fLastCheckedEntry (fSlots f') = fLastCheckedEntry (fSlots f) /\
  fLastResult (fSlots f') = fLastResult (fSlots f).

Definition keepB (b b' : TDataFrameBranchBase) : Prop :=
  bLastCheckedEntry (bSlots b') = bLastCheckedEntry (bSlots b) /\
  bLastResult (bSlots b') = bLastResult (bSlots b).

Definition keepsResults (o o' : Objects) : Prop :=
  (forall id, option_Forall2 keepF (filterObjs o !! id) (filterObjs o' !! id)) /\
  (forall name, option_Forall2 keepB (fBookedBranches o !! name)
                                     (fBookedBranches o' !! name)).

#[local] Instance keepF_refl : Reflexive keepF.
Proof. by intros f. Qed.

#[local] Instance keepF_trans : Transitive keepF.
Proof. intros f g h (? & ? & ?) (? & ? & ?). repeat split; congruence. Qed.

#[local] Instance keepB_refl : Reflexive keepB.
Proof. by intros b. Qed.

#[local] Instance keepB_trans : Transitive keepB.
Proof. intros a b c [? ?] [? ?]. split; congruence. Qed.

#[local] Instance keepsResults_refl : Reflexive keepsResults.
Proof. intros o. split; intros; reflexivity. Qed.

#[local] Instance keepsResults_trans : Transitive keepsResults.
Proof.
  intros o1 o2 o3 [Hf1 Hb1] [Hf2 Hb2]. split.
  - intros id. etrans; [apply Hf1 | apply Hf2].
  - intros name. etrans; [apply Hb1 | apply Hb2].
Qed.

Lemma BuildAllReaderValues_keepsResults actions filters slot :
  respects keepsResults (BuildAllReaderValues actions filters slot).
Proof.
  unfold BuildAllReaderValues.
  apply respects_bind; [apply _ | | intros _].
  { apply respects_forEach; [apply _ .. |]. intros id o.
    unfold Action_BuildReaderValues, bind, getAction, lift.
    destruct (vat (actionObjs o) id) as [e | a]; simpl; [reflexivity |].
    destruct (bindReaders slot (aBranches a) (aReaderValues a)); simpl; [reflexivity |].
    split; intros; reflexivity. }
  apply respects_bind; [apply _ | | intros _].
  { apply respects_forEach; [apply _ .. |]. intros id o.
    unfold Filter_BuildReaderValues, bind, getFilter, lift.
    destruct (vat (filterObjs o) id) as [e | f] eqn:Hf; simpl; [reflexivity |].
    destruct (bindReaders slot (fBranches f) (fReaderValues (fSlots f))); simpl;
      [reflexivity |].
    apply vat_inr in Hf. split; [| intros; reflexivity].
    intros id'. simpl. rewrite list_lookup_alter. case_decide; [subst id' | reflexivity].
    rewrite Hf. simpl. by constructor. }
  intros o. case_bool_decide; simpl; [| reflexivity].
  split; [intros; reflexivity |]. intros name. simpl. rewrite lookup_fmap.
  destruct (fBookedBranches o !! name); simpl; by constructor.
Qed.

Lemma cachesAgreeWith_keeps o o' :
  keepsResults o o' -> cachesAgreeWith o -> cachesAgreeWith o'.
Proof.
  intros [Hf Hb] [HF HB]. split.
  - intros id f' Hf' slot r Hr Hnonneg. specialize (Hf id). rewrite Hf' in Hf.
    inversion Hf as [f f'' (Hprev & Hlc & Hlr) Heq1 Heq2 |]; subst.
    rewrite Hlc in Hr. rewrite Hlr, Hprev. by eapply HF.
  - intros name b' Hb' slot r Hr Hnonneg. specialize (Hb name). rewrite Hb' in Hb.
    inversion Hb as [b b'' (Hlc & Hlr) Heq1 Heq2 |]; subst.
    rewrite Hlc in Hr. rewrite Hlr. by eapply HB.
Qed.

Lemma wp_BuildAllReaderValues_upTo actions filters slot o :
  agrees o -> goodLog o ->
  wp (BuildAllReaderValues actions filters slot) o (upTo (fun _ => True) False).
Proof.
  intros [Hs HC] HK. unfold wp.
  pose proof (BuildAllReaderValues_sameShapeLog actions filters slot o) as [Hshape Hlog].
  pose proof (BuildAllReaderValues_keepsResults actions filters slot o) as Hkeep.
  pose proof (BuildAllReaderValues_not_thrown actions filters slot o) as Hnot.
  assert (HG' : agrees (BuildAllReaderValues actions filters slot o).1).
  { split; [congruence | by eapply cachesAgreeWith_keeps]. }
  assert (HK' : goodLog (BuildAllReaderValues actions filters slot o).1)
    by by eapply goodLog_same.
  destruct (BuildAllReaderValues actions filters slot o) as [o' [e | []]]; simpl in *.
  - apply upTo_other; [done | done | congruence].
  - by apply upTo_ok.
Qed.

Lemma agreeF_CreateSlots id n f :
  agreeF id f -> agreeF id (setFSlots f (Filter_CreateSlots n (fSlots f))).
Proof.
  intros H slot r Hr Hnonneg. simpl in *.
  assert (Hlt : (slot < n)%nat).
  { apply lookup_lt_Some in Hr. by rewrite length_resize in Hr. }
  rewrite lookup_resize in Hr by done. rewrite lookup_resize by done.
  destruct (fLastCheckedEntry (fSlots f) !! slot) as [r' |] eqn:Hold; simpl in Hr;
    injection Hr as <-; [| lia].
  destruct (H slot r' Hold Hnonneg) as (b & -> & Hval). by exists b.
Qed.

Lemma agreeB_CreateSlots name n b :
  agreeB name b -> agreeB name (setBSlots b (Branch_CreateSlots n (bSlots b))).
Proof.
  intros H slot r Hr Hnonneg. simpl in *.
  assert (Hlt : (slot < n)%nat).
  { apply lookup_lt_Some in Hr. by rewrite length_resize in Hr. }
  rewrite lookup_resize in Hr by done. rewrite lookup_resize by done.
  destruct (bLastCheckedEntry (bSlots b) !! slot) as [r' |] eqn:Hold; simpl in Hr;
    injection Hr as <-; [| lia].
  destruct (H slot r' Hold Hnonneg) as (v & -> & Hval). by exists v.
Qed.

Lemma foldl_alter_lookup {A} (P : nat -> A -> Prop) (g : A -> A) (ids : list nat) :
  (forall i x, P i x -> P i (g x)) ->
  forall l : list A, (forall i x, l !! i = Some x -> P i x) ->
    forall i x, foldl (fun objs id => alter g id objs) l ids !! i = Some x -> P i x.
Proof.
  intros Hg. induction ids as [|id ids IH]; intros l Hl; simpl; [done |].
  apply IH. intros i x. rewrite list_lookup_alter. case_decide; [subst i | apply Hl].
  destruct (l !! id) as [y |] eqn:Hy; simpl; [| done]. intros [= <-]. by apply Hg, Hl.
Qed.

Lemma agrees_CreateSlots actions filters n o :
  agrees o -> agrees (CreateSlots actions filters n o).1.
Proof.
  intros [Hs [HF HB]]. split.
  { rewrite <- Hs. apply CreateSlots_sameShapeLog. }
  split; simpl.
  - apply (foldl_alter_lookup agreeF); [| done]. intros i f. apply agreeF_CreateSlots.
  - intros name b. rewrite lookup_fmap. destruct (fBookedBranches o !! name) as [b0 |] eqn:Hb0;
      simpl; [| done].
    intros [= <-]. by eapply agreeB_CreateSlots, HB.
Qed.

Lemma wp_CreateSlots_upTo actions filters n o :
  agrees o -> goodLog o ->
  wp (CreateSlots actions filters n) o (upTo (fun _ => True) False).
Proof.
  intros HG HK. apply upTo_ok; [by apply agrees_CreateSlots | | done].
  eapply goodLog_same; [| exact HK]. done.
Qed.

(** The event loop of a run: the entries it processes have their verdicts
    and values when it returns, one of them meets a callable that throws
    when it throws the failure of a user callable. *)
Lemma RunLoops_upTo (env : Env) (df : TDataFrameImpl) (o : Objects) :
  fTree df = tree ->
  validPipeline s (fBookedActions df) ->
  Forall (fun r => 0 <= r) (processedEntries env df) ->
  agrees o -> goodLog o ->
  wp (RunLoops env df) o
     (upTo (fun _ => forall r, r ∈ processedEntries env df ->
                       entryValue (fBookedActions df) (fBookedNamedFilters df) r)
           (exists r, r ∈ processedEntries env df /\
                      entryFault (fBookedActions df) (fBookedNamedFilters df) r)).
Proof.
  intros Htree Hvalid Hnonneg HG HK. unfold wp, RunLoops, processedEntries in *.
  rewrite Htree in *.
  destruct (R__USE_IMT env && IsImplicitMTEnabled env).
  - eapply (wp_bind_upTo (fun _ => True) False); [by apply wp_CreateSlots_upTo | done |].
    intros [] o1 HG1 HK1 _. unfold wp. rewrite Process_taskSlots.
    set (ts := zip (taskSlots ∅ 0 (tasks env).*1) (tasks env).*2).
    assert (Hsnd : ts.*2 = (tasks env).*2).
    { apply snd_zip. rewrite taskSlots_length, !length_fmap. done. }
    assert (Hin : forall t r, t ∈ ts -> r ∈ t.2 -> r ∈ concat (tasks env).*2).
    { intros t r Ht Hr. apply list_elem_of_In, in_concat. exists t.2.
      split; [| by apply list_elem_of_In]. apply list_elem_of_In. rewrite <- Hsnd.
      apply list_elem_of_fmap. by exists t. }
    eapply wp_mono.
    { apply (wp_forEach_upTo
               (fun t : Z * list Z => forall r, r ∈ t.2 ->
                  entryValue (fBookedActions df) (fBookedNamedFilters df) r)
               (fun t : Z * list Z => exists r, r ∈ t.2 /\
                  entryFault (fBookedActions df) (fBookedNamedFilters df) r));
        [done | done |].
      intros t o2 Ht HG2 HK2. unfold runTask.
      eapply (wp_bind_upTo (fun _ => True) False);
        [by apply wp_BuildAllReaderValues_upTo | done |].
      intros [] o3 HG3 HK3 _. apply EventLoop_upTo; [done | | done | done].
      rewrite Forall_forall in *. intros r Hr. by eapply Hnonneg, Hin. }
    intros o2 r H. eapply upTo_mono; [exact H | |].
    + intros [] Hall r' Hr'. apply list_elem_of_In, in_concat in Hr' as (l & Hl & Hr').
      apply list_elem_of_In in Hl, Hr'. rewrite <- Hsnd in Hl.
      apply list_elem_of_fmap in Hl as (t & -> & Ht). by apply (Hall t).
    + intros (t & Ht & r' & Hr' & Hfault). exists r'. split; [by eapply Hin | done].
  - eapply (wp_bind_upTo (fun _ => True) False); [by apply wp_CreateSlots_upTo | done |].
    intros [] o1 HG1 HK1 _.
    eapply (wp_bind_upTo (fun _ => True) False);
      [by apply wp_BuildAllReaderValues_upTo | done |].
    intros [] o2 HG2 HK2 _. by apply EventLoop_upTo.
Qed.

End Throws.

(** * A pass that fails *)

Section Failure.
Import Semantics.

(** The caches of the objects agree with what their nodes compute over the
    tree. *)
Definition cachesAgree (tree : TTree) (o : Objects) : Prop :=
  cachesAgreeWith (shape o) tree o.

(** At an entry the pass processes, a booked action or a named filter meets
    a user callable that throws. *)
Definition meetsThrow (env : Env) (df : TDataFrameImpl) : Prop :=
  exists r, r ∈ processedEntries env df /\
    entryFault (shape (objs df)) (fTree df) (fBookedActions df) (fBookedNamedFilters df) r.

(** The calls of user callables that a run of the data frame records. *)
Definition callsOf (env : Env) (df : TDataFrameImpl) : list Event :=
  drop (length (evLog (objs df))) (evLog (objs (Run env df).1)).

Lemma freshStart_cachesAgree tree o : freshStart o -> cachesAgree tree o.
Proof.
  intros [HF HB]. split.
  - intros id f Hf slot r Hr Hnonneg. specialize (HF id f Hf).
    rewrite Forall_forall in HF. apply list_elem_of_lookup_2, HF in Hr. lia.
  - intros name b Hb slot r Hr Hnonneg. specialize (HB name b Hb).
    rewrite Forall_forall in HB. apply list_elem_of_lookup_2, HB in Hr. lia.
Qed.

Lemma Run_result_loops env df : (Run env df).2 = (RunLoops env df (objs df)).2.
Proof. unfold Run. by destruct (RunLoops env df (objs df)) as [o [e | []]]. Qed.

Lemma Run_upTo env df :
  validPipeline (shape (objs df)) (fBookedActions df) ->
  cachesAgree (fTree df) (objs df) ->
  Forall (fun r => 0 <= r) (processedEntries env df) ->
  upTo (shape (objs df)) (fTree df) (evLog (objs df))
       (fun _ : unit => forall r, r ∈ processedEntries env df ->
          entryValue (shape (objs df)) (fTree df) (fBookedActions df)
                     (fBookedNamedFilters df) r)
       (meetsThrow env df) (objs (Run env df).1) (Run env df).2.
Proof.
  intros Hvalid Hagree Hnonneg. rewrite Run_objs, Run_result_loops.
  apply (RunLoops_upTo (shape (objs df)) (fTree df) (evLog (objs df)) env df (objs df));
    [done | done | done | by split |].
  exists []. by rewrite app_nil_r.
Qed.

(** A callable that throws where the pass reaches it makes the run fail. *)
Lemma meetsThrow_fails env df :
  validPipeline (shape (objs df)) (fBookedActions df) ->
  cachesAgree (fTree df) (objs df) ->
  Forall (fun r => 0 <= r) (processedEntries env df) ->
  meetsThrow env df -> exists e, (Run env df).2 = inl e.
Proof.
  intros Hvalid Hagree Hnonneg (r & Hr & Hfault).
  destruct (Run_upTo env df Hvalid Hagree Hnonneg) as [_ H].
  destruct (Run env df).2 as [e | []]; [by exists e |].
  destruct H as [_ Hall]. exfalso. by eapply entryFault_no_value, Hall.
Qed.

(** C7: a user callable that throws makes the run fail.  The pipeline is as
    booking builds it, the entries are those of a tree, and the caches agree
    with the tree, as they do before the first run and, by the last part,
    after every run.  Then: whenever a call of a user callable made during
    the run throws, the run throws the failure of the user callable; a run
    in which a booked action or a named filter meets a callable that throws
    does not return; a run that throws the failure of a user callable has
    met one.  When the run throws, the exception reaches the caller that
    observed a handle; no readiness flag changes, so every handle that was
    not ready stays so; the booked actions, the registered flags and the
    has-run flag are as before; and observing such a handle again starts a
    further event loop, which throws again when the callable that throws is
    still met, as it is when the first run threw the failure of a user
    callable. *)
Theorem C7_throwing_callable_fails_the_run (env : Env) (df : TDataFrameImpl) :
  validPipeline (shape (objs df)) (fBookedActions df) ->
  cachesAgree (fTree df) (objs df) ->
  Forall (fun r => 0 <= r) (processedEntries env df) ->
  (forall ev, ev ∈ callsOf env df -> throwsAt (shape (objs df)) (fTree df) ev ->
              (Run env df).2 = inl UserCallableFailure) /\
  (meetsThrow env df -> exists e, (Run env df).2 = inl e) /\
  ((Run env df).2 = inl UserCallableFailure -> meetsThrow env df) /\
  (forall df' e, Run env df = (df', inl e) ->
    readiness df' = readiness df /\
    fResProxyReadiness df' = fResProxyReadiness df /\
    fBookedActions df' = fBookedActions df /\
    fHasRunAtLeastOnce df' = fHasRunAtLeastOnce df /\
    forall h, readiness df !! fReadiness h = Some false ->
      Get env h df = (df', inl e) /\
      readiness df' !! fReadiness h = Some false /\
      nRuns (Get env h df').1 = S (nRuns df') /\
      (meetsThrow env df \/ e = UserCallableFailure ->
       exists e', (Get env h df').2 = inl e')) /\
  cachesAgree (fTree df) (objs (Run env df).1).
Proof.
  intros Hvalid Hagree Hnonneg.
  pose proof (Run_upTo env df Hvalid Hagree Hnonneg) as [[Hshape Hcaches] Hpost].
  assert (Hthrown : (Run env df).2 = inl UserCallableFailure -> meetsThrow env df).
  { intros Heq. rewrite Heq in Hpost. by apply Hpost. }
  split; [| split; [by apply meetsThrow_fails | split; [exact Hthrown |]]].
  2: split; [| unfold cachesAgree; by rewrite Hshape].
  - intros ev Hev Hthrows.
    destruct (decide ((Run env df).2 = inl UserCallableFailure)) as [| Hother]; [done |].
    exfalso. assert (Hgood : goodLog (shape (objs df)) (fTree df) (evLog (objs df))
                                     (objs (Run env df).1)).
    { destruct (Run env df).2 as [e | []]; [| by apply Hpost].
      apply Hpost. congruence. }
    destruct Hgood as (added & Hlog & Hall). unfold callsOf in Hev.
    rewrite Hlog, drop_app_length in Hev. rewrite Forall_forall in Hall.
    by eapply returnsAt_not_throwsAt; [apply Hall |].
  - intros df' e Hrun.
    destruct (failed_run_leaves_unready env df df' e Hrun)
      as (_ & Hflags & Hreg & Hacts & Hran & Hobs).
    repeat (split; [done |]). intros h Hunready.
    destruct (Hobs h Hunready) as (Hget & Hstill & Hruns & _).
    repeat (split; [done |]). intros Hcause.
    assert (Hmeets : meetsThrow env df).
    { destruct Hcause as [| ->]; [done |]. apply Hthrown. by rewrite Hrun. }
    assert (Hdf' : objs df' = objs (Run env df).1 /\ fTree df' = fTree df /\
                   fBookedNamedFilters df' = fBookedNamedFilters df).
    { apply Run_throws in Hrun as (o & Hloop & ->). simpl.
      by rewrite Run_objs, Hloop. }
    destruct Hdf' as (Hobjs & Htree & Hnamed).
    assert (Hentries : processedEntries env df' = processedEntries env df).
    { unfold processedEntries. by rewrite Htree. }
    destruct (meetsThrow_fails env df') as [e' He'].
    + by rewrite Hobjs, Hshape, Hacts.
    + unfold cachesAgree. by rewrite Hobjs, Hshape, Htree.
    + by rewrite Hentries.
    + destruct Hmeets as (r & Hr & Hfault). exists r.
      by rewrite Hentries, Hobjs, Hshape, Htree, Hacts, Hnamed.
    + exists e'. rewrite Get_unready by done. simpl. by rewrite He'.
Qed.

Lemma C7_throwing_callable_fails_the_run_witness :
  (Run sequential s5_frame).2 = inl UserCallableFailure /\
  Get sequential s5_handle s5_frame
    = ((Run sequential s5_frame).1, inl UserCallableFailure) /\
  readiness (Run sequential s5_frame).1 = readiness s5_frame /\
  readiness s5_frame = [false] /\
  fBookedActions (Run sequential s5_frame).1 = fBookedActions s5_frame /\
  fBookedActions s5_frame = [0%nat] /\
  (exists e', (Get sequential s5_handle (Run sequential s5_frame).1).2 = inl e') /\
  (Get sequential s5_handle (Run sequential s5_frame).1).2 = inl UserCallableFailure /\
  nRuns (Get sequential s5_handle (Run sequential s5_frame).1).1
    = S (nRuns (Run sequential s5_frame).1).
Proof.
  assert (Hvalid : validPipeline (shape (objs s5_frame)) (fBookedActions s5_frame)).
  { apply (checkPipeline_sound (fun _ => 0%nat)). vm_compute. reflexivity. }
  assert (Hagree : cachesAgree (fTree s5_frame) (objs s5_frame)).
  { apply freshStart_cachesAgree, noSlotsYet_freshStart. vm_compute. reflexivity. }
  assert (Hnonneg : Forall (fun r => 0 <= r) (processedEntries sequential s5_frame)).
  { apply Forall_forall. intros r Hr. by apply (allEntries_nonneg (fTree s5_frame)). }
  destruct (C7_throwing_callable_fails_the_run sequential s5_frame Hvalid Hagree Hnonneg)
    as (Hcalls & _ & _ & Hstate & _).
  assert (Hthrows : (Run sequential s5_frame).2 = inl UserCallableFailure).
  { apply (Hcalls (EvBranch "D" 0 3)).
    - apply (bool_decide_unpack _). vm_compute. exact I.
    - exists {| bName := "D"; bTmpBranches := []; bPrevData := Root;
                bBranches := ["A"%string]; bExpression := throwsOn 3;
                bSlots := noBranchSlots |}, [3].
      split; [vm_compute; reflexivity |]. split; [| reflexivity].
      apply InputsVal_tree; [by intros ?%elem_of_nil | vm_compute; reflexivity |].
      constructor. }
  destruct (Hstate _ _ (pair_eta_snd _ _ Hthrows)) as (Hflags & _ & Hacts & _ & Hobs).
  destruct (Hobs s5_handle ltac:(vm_compute; reflexivity)) as (Hget & _ & Hruns & Hagain).
  split; [exact Hthrows |]. split; [exact Hget |].
  split; [exact Hflags |]. split; [vm_compute; reflexivity |].
  split; [exact Hacts |]. split; [vm_compute; reflexivity |].
  split; [apply Hagain; by right |]. split; [vm_compute; reflexivity | exact Hruns].
Defined.

End Failure.
